(** * FeatureDrawer: visibility classification, draw-quad grid and batched
    draw passes of [rts/Rendering/FeatureDrawer.cpp]

    The development is a shallow embedding of the C++ source.  Objects that
    the source reaches through [CFeature*] live in a store indexed by
    pointers; the drawer keeps pointers, never copies.  The [float]
    arithmetic of the source is kept behind the interface [FloatOps]; its
    instance [binary32] is IEEE-754 single precision as specified by the
    Standard Library ([SpecFloat] at precision 24, maximal exponent 128), and
    [exactQ] is exact rational arithmetic.  The laws of rounding that the
    statements about the fade window rest on are proved for [binary32] from
    the definitions of [SpecFloat], by way of the real values of floats. *)

From Stdlib Require Import ZArith List Bool Lia Permutation.
From Stdlib Require Import QArith Qcanon Qround Field.
From Stdlib Require Import SpecFloat.
From Stdlib Require Import Reals Lra.
Import ListNotations.

Set Implicit Arguments.
Local Open Scope Z_scope.

(* ================================================================== *)
(** * Part I: definitions *)
(* ================================================================== *)

(** ** The arithmetic of C++ [float] and [int] conversions *)

Class FloatOps : Type := {
  float : Type;
  fzero : float;                      (* 0.0f *)
  fone : float;                       (* 1.0f *)
  fopp : float -> float;              (* unary minus *)
  fadd : float -> float -> float;
  fsub : float -> float -> float;
  fmul : float -> float -> float;
  fdiv : float -> float -> float;
  feqb : float -> float -> bool;      (* == *)
  fltb : float -> float -> bool;      (* <  *)
  fleb : float -> float -> bool;      (* <= *)
  of_int : Z -> float;                (* implicit int -> float conversion *)
  to_int : float -> Z;                (* int(x): conversion to a 32-bit int *)
  ffloor : float -> Z;                (* mathematical floor, used by statements only *)
  is_finite : float -> bool           (* a number: neither NaN nor an infinity *)
}.

(** [a >= b] *)
Definition fgeb {FO : FloatOps} (a b : float) : bool := fleb b a.

(** [std::min(a, b)] on floats: [(b < a) ? b : a]. *)
Definition fmin {FO : FloatOps} (a b : float) : float :=
  if fltb b a then b else a.

(** The range of a C++ [int] on the engine's targets. *)
Definition INT_MIN : Z := -2147483648.
Definition INT_MAX : Z := 2147483647.

(** [int(x)] where the truncated value is [t]: the C++ standard defines the
    conversion only when [t] is an [int].  Otherwise the model returns what
    the conversion instruction of the engine's x86 targets ([cvttss2si])
    returns, the "integer indefinite" value [INT_MIN]. *)
Definition int_of_trunc (t : Z) : Z :=
  if (INT_MIN <=? t) && (t <=? INT_MAX) then t else INT_MIN.

(** *** IEEE-754 binary32 *)

Module B32.

Definition prec : Z := 24.
Definition emax : Z := 128.

Definition zero : spec_float := S754_zero false.
Definition one : spec_float := SFone prec emax.

Definition of_int (z : Z) : spec_float := binary_normalize prec emax z 0 false.

(** Magnitude of a finite value [m * 2^e], truncated to an integer. *)
Definition trunc_mag (m : positive) (e : Z) : Z :=
  match e with
  | Z0 => Zpos m
  | Zpos p => Zpos m * 2 ^ Zpos p
  | Zneg p => Zpos m / 2 ^ Zpos p
  end.

(** [int(x)]; NaN and the infinities convert like a value out of range. *)
Definition to_int (x : spec_float) : Z :=
  match x with
  | S754_zero _ => 0
  | S754_finite s m e => int_of_trunc (cond_Zopp s (trunc_mag m e))
  | _ => INT_MIN
  end.

Definition floor (x : spec_float) : Z :=
  match x with
  | S754_finite s m e =>
      match e with
      | Z0 => cond_Zopp s (Zpos m)
      | Zpos p => cond_Zopp s (Zpos m) * 2 ^ Zpos p
      | Zneg p => cond_Zopp s (Zpos m) / 2 ^ Zpos p
      end
  | _ => 0
  end.

(** A number of the format: a zero, or a finite value in the canonical form
    of binary32.  Every finite value of a C++ [float] has exactly one such
    form; the other mantissa and exponent pairs of [spec_float] are not
    values of the format. *)
Definition finite (x : spec_float) : bool :=
  match x with
  | S754_zero _ => true
  | S754_finite _ m e => SpecFloat.bounded prec emax m e
  | _ => false
  end.

End B32.

#[export] Instance binary32 : FloatOps := {|
  float := spec_float;
  fzero := B32.zero;
  fone := B32.one;
  fopp := SFopp;
  fadd := SFadd B32.prec B32.emax;
  fsub := SFsub B32.prec B32.emax;
  fmul := SFmul B32.prec B32.emax;
  fdiv := SFdiv B32.prec B32.emax;
  feqb := SFeqb;
  fltb := SFltb;
  fleb := SFleb;
  of_int := B32.of_int;
  to_int := B32.to_int;
  ffloor := B32.floor;
  is_finite := B32.finite
|}.

(** *** Exact rational arithmetic (no rounding, [x / 0 = 0]) *)

Module ExactQ.

Definition eqb (a b : Qc) : bool := Qeq_bool a b.
Definition ltb (a b : Qc) : bool := negb (Qle_bool b a).
Definition leb (a b : Qc) : bool := Qle_bool a b.
Definition of_int (z : Z) : Qc := Q2Qc (inject_Z z).
Definition to_int (a : Qc) : Z := int_of_trunc (Z.quot (Qnum a) (Zpos (Qden a))).
Definition floor (a : Qc) : Z := Qfloor a.

End ExactQ.

#[export] Instance exactQ : FloatOps := {|
  float := Qc;
  fzero := Q2Qc 0;
  fone := Q2Qc 1;
  fopp := Qcopp;
  fadd := Qcplus;
  fsub := Qcminus;
  fmul := Qcmult;
  fdiv := Qcdiv;
  feqb := ExactQ.eqb;
  fltb := ExactQ.ltb;
  fleb := ExactQ.leb;
  of_int := ExactQ.of_int;
  to_int := ExactQ.to_int;
  ffloor := ExactQ.floor;
  is_finite := fun _ => true
|}.

(** ** Constants declared in headers that are not part of this file *)

Class EngineConsts : Type := {
  SQUARE_SIZE : Z;          (* Map/ReadMap.h *)
  MODELTYPE_3DO : nat;      (* Rendering/Models/3DModel.h: first model type *)
  MODELTYPE_S3O : nat;
  MODELTYPE_OTHER : nat;    (* one past the last model type *)
  DRAWTYPE_MODEL : Z;       (* Sim/Features/FeatureDef.h *)
  CAMTYPE_SHADOW : Z;       (* Game/Camera.h *)
  CAMTYPE_ENVMAP : Z        (* Game/Camera.h: one past the last camera type with
                               an entry in camVisibleQuadFlags *)
}.

Definition DRAW_QUAD_SIZE : Z := 32.

Definition FD_NODRAW_FLAG : Z := 0.
Definition FD_OPAQUE_FLAG : Z := 1.
Definition FD_ALPHAF_FLAG : Z := 2.
Definition FD_SHADOW_FLAG : Z := 3.
Definition FD_FARTEX_FLAG : Z := 4.

(** [CFeature*]: the identity of an object. *)
Definition ptr : Type := nat.

(** Modelled from the spec: [Clamp] (System/myMath.h) is not under src/;
    it clamps a value into [lo, hi]. *)
Definition Clamp (v lo hi : Z) : Z := Z.min hi (Z.max lo v).

(** C++ [int / int] truncates toward zero. *)
Definition int_div (a b : Z) : Z := Z.quot a b.

(** Modelled from the spec: [VectorErase] (System/Util.h) is not under src/;
    it removes one occurrence of an element from a vector without keeping
    the order (the last element takes the freed slot) and reports whether
    the element was found. *)
Fixpoint replace_first (v : list ptr) (e back : ptr) : option (list ptr) :=
  match v with
  | [] => None
  | a :: tl =>
      if Nat.eqb a e then Some (back :: tl)
      else option_map (cons a) (replace_first tl e back)
  end.

Definition VectorErase (v : list ptr) (e : ptr) : bool * list ptr :=
  match replace_first v e (last v e) with
  | Some v' => (true, removelast v')
  | None => (false, v)
  end.

Section Model.

Context {FO : FloatOps} {EC : EngineConsts}.

(** ** Data *)

(** Modelled from the spec: [float3] (System/float3.h) is not under src/;
    a vector of three floats with component-wise arithmetic and the squared
    Euclidean length. *)
Record float3 : Type := mkFloat3 { v_x : float; v_y : float; v_z : float }.

Definition f3_sub (a b : float3) : float3 :=
  mkFloat3 (fsub (v_x a) (v_x b)) (fsub (v_y a) (v_y b)) (fsub (v_z a) (v_z b)).
Definition f3_add (a b : float3) : float3 :=
  mkFloat3 (fadd (v_x a) (v_x b)) (fadd (v_y a) (v_y b)) (fadd (v_z a) (v_z b)).
Definition f3_scale (a : float3) (s : float) : float3 :=
  mkFloat3 (fmul (v_x a) s) (fmul (v_y a) s) (fmul (v_z a) s).
Definition SqLength (a : float3) : float :=
  fadd (fadd (fmul (v_x a) (v_x a)) (fmul (v_y a) (v_y a))) (fmul (v_z a) (v_z a)).

Record CCamera : Type := mkCamera {
  camPos : float3;          (* GetPos() *)
  camType : Z               (* GetCamType() *)
}.

Record S3DModel : Type := mkModel {
  mdl_type : nat;           (* MDL_TYPE(f) = f->model->type *)
  textureType : Z           (* TEX_TYPE(f) = f->model->textureType *)
}.

Record CFeature : Type := mkFeature {
  pos : float3;
  midPos : float3;
  speed : float3;
  drawPos : float3;
  drawMidPos : float3;
  sqRadius : float;
  drawRadius : float;
  team : Z;
  alphaFade : bool;
  noDraw : bool;
  luaDraw : bool;
  IsInVoid : bool;
  IsInWater : bool;
  IsInLosForAllyTeam : Z -> bool;
  def_drawType : Z;         (* f->def->drawType *)
  model : option S3DModel;  (* f->model, possibly null *)
  drawQuad : Z;
  drawFlag : Z;
  drawAlpha : float
}.

Definition set_drawAlpha (f : CFeature) (a : float) : CFeature :=
  mkFeature (pos f) (midPos f) (speed f) (drawPos f) (drawMidPos f) (sqRadius f)
    (drawRadius f) (team f) (alphaFade f) (noDraw f) (luaDraw f) (IsInVoid f)
    (IsInWater f) (IsInLosForAllyTeam f) (def_drawType f) (model f)
    (drawQuad f) (drawFlag f) a.

Definition set_drawFlag (f : CFeature) (v : Z) : CFeature :=
  mkFeature (pos f) (midPos f) (speed f) (drawPos f) (drawMidPos f) (sqRadius f)
    (drawRadius f) (team f) (alphaFade f) (noDraw f) (luaDraw f) (IsInVoid f)
    (IsInWater f) (IsInLosForAllyTeam f) (def_drawType f) (model f)
    (drawQuad f) v (drawAlpha f).

Definition set_drawQuad (f : CFeature) (q : Z) : CFeature :=
  mkFeature (pos f) (midPos f) (speed f) (drawPos f) (drawMidPos f) (sqRadius f)
    (drawRadius f) (team f) (alphaFade f) (noDraw f) (luaDraw f) (IsInVoid f)
    (IsInWater f) (IsInLosForAllyTeam f) (def_drawType f) (model f)
    q (drawFlag f) (drawAlpha f).

Definition set_drawPositions (f : CFeature) (dp dmp : float3) : CFeature :=
  mkFeature (pos f) (midPos f) (speed f) dp dmp (sqRadius f)
    (drawRadius f) (team f) (alphaFade f) (noDraw f) (luaDraw f) (IsInVoid f)
    (IsInWater f) (IsInLosForAllyTeam f) (def_drawType f) (model f)
    (drawQuad f) (drawFlag f) (drawAlpha f).

(** The simulation moving an object (not part of this file). *)
Definition set_pos (f : CFeature) (p : float3) : CFeature :=
  mkFeature p (midPos f) (speed f) (drawPos f) (drawMidPos f) (sqRadius f)
    (drawRadius f) (team f) (alphaFade f) (noDraw f) (luaDraw f) (IsInVoid f)
    (IsInWater f) (IsInLosForAllyTeam f) (def_drawType f) (model f)
    (drawQuad f) (drawFlag f) (drawAlpha f).

(** State of other subsystems that the drawer reads, and the answers of
    the external services it calls. *)
Record Globals : Type := mkGlobals {
  unitDrawDistSqr : float;              (* unitDrawer->unitDrawDistSqr *)
  timeOffset : float;                   (* globalRendering->timeOffset *)
  spectatingFullView : bool;            (* gu->spectatingFullView *)
  myAllyTeam : Z;                       (* gu->myAllyTeam *)
  activeCamera : CCamera;               (* CCamera::GetActiveCamera() *)
  shadowCamera : CCamera;               (* CCamera::GetCamera(CAMTYPE_SHADOW) *)
  InView : CCamera -> float3 -> float -> bool;
  ObjectVisibleReflection : float3 -> float3 -> float -> bool;
  DrawReflectionPass : bool;            (* water->DrawReflectionPass() *)
  DrawRefractionPass : bool;            (* water->DrawRefractionPass() *)
  GridVisibility : CCamera -> list (Z * Z);   (* cells handed to DrawQuad *)
  AddShadowMaterialObject : ptr -> bool;
  AddOpaqueMaterialObject : ptr -> bool;
  AddAlphaMaterialObject : ptr -> bool;
  CanDrawAlpha : bool
}.

(** ** Classification *)

(** [SetDrawAlphaValue(f, cam, sqFadeDistMin, sqFadeDistMax)]: the returned
    feature is [*f] after the call. *)
Definition SetDrawAlphaValue (G : Globals) (f : CFeature) (cam : option CCamera)
    (sqFadeDistMin sqFadeDistMax : float) : bool * CFeature :=
  (* always reset *)
  let f := set_drawAlpha f fzero in
  match cam with
  | None => (false, f)
  | Some cam =>
      (* special case for non-fading features *)
      if negb (alphaFade f) then (true, set_drawAlpha f fone)
      else
        let sqDist := SqLength (f3_sub (pos f) (camPos cam)) in
        let farLength := fmul (sqRadius f) (unitDrawDistSqr G) in
        (* if true, feature will become a fartex *)
        if fgeb sqDist farLength then (false, f)
        else
          let sqFadeDistB :=
            if fltb farLength sqFadeDistMax
            then fmul farLength (fdiv sqFadeDistMin sqFadeDistMax)
            else sqFadeDistMin in
          let sqFadeDistE :=
            if fltb farLength sqFadeDistMax then farLength else sqFadeDistMax in
          if fltb sqDist sqFadeDistB then
            (* draw feature as normal, no fading *)
            (true, set_drawAlpha f fone)
          else if fltb sqDist sqFadeDistE then
            (* otherwise save it for the fade-pass *)
            (true, set_drawAlpha f
                     (fsub fone (fdiv (fsub sqDist sqFadeDistB)
                                      (fsub sqFadeDistE sqFadeDistB))))
          else (false, f)
  end.

(** The default arguments [sqFadeDistMin = sqFadeDistMax = -1.0f]. *)
Definition SetDrawAlphaValue_default (G : Globals) (f : CFeature)
    (cam : option CCamera) : bool * CFeature :=
  SetDrawAlphaValue G f cam (fopp fone) (fopp fone).

Record CFeatureQuadDrawer : Type := mkQuadDrawer {
  qd_drawQuadsX : Z;
  drawReflection : bool;
  drawRefraction : bool;
  drawShadowPass : bool;
  drawFarFeatures : bool;
  sqFadeDistBegin : float;
  sqFadeDistEnd : float;
  qd_cam : option CCamera
}.

(** [ResetState()] *)
Definition ResetState : CFeatureQuadDrawer :=
  mkQuadDrawer 0 false false false false fzero fzero None.

(** The steps of [DrawQuad] that drop an object before any flag is chosen:
    [noDraw], [IsInVoid()] and the line-of-sight test. *)
Definition excluded (G : Globals) (f : CFeature) : bool :=
  noDraw f || IsInVoid f
  || (negb (spectatingFullView G) && negb (IsInLosForAllyTeam f (myAllyTeam G))).

(** The refraction and reflection tests of a non-shadow pass.  With a null
    camera the reflection test would dereference it; the model lets the
    object through. *)
Definition pass_excluded (G : Globals) (qd : CFeatureQuadDrawer) (f : CFeature) : bool :=
  (drawRefraction qd && negb (IsInWater f))
  || (drawReflection qd &&
      match qd_cam qd with
      | Some cam => negb (ObjectVisibleReflection G (drawMidPos f) (camPos cam) (drawRadius f))
      | None => false
      end).

(** The body of the innermost loop of [CFeatureQuadDrawer::DrawQuad], for
    one object: the result is [*f] at the end of the iteration. *)
Definition DrawQuad_feature (G : Globals) (qd : CFeatureQuadDrawer) (f : CFeature) : CFeature :=
  (* clear marker; will be set at most once below *)
  let f := set_drawFlag f FD_NODRAW_FLAG in
  if noDraw f then f
  else if IsInVoid f then f
  else if negb (spectatingFullView G) && negb (IsInLosForAllyTeam f (myAllyTeam G)) then f
  else if drawShadowPass qd then set_drawFlag f FD_SHADOW_FLAG
  else if drawRefraction qd && negb (IsInWater f) then f
  else if drawReflection qd &&
          match qd_cam qd with
          | Some cam => negb (ObjectVisibleReflection G (drawMidPos f) (camPos cam) (drawRadius f))
          | None => false
          end then f
  else
    let '(ok, f) := SetDrawAlphaValue G f (qd_cam qd) (sqFadeDistBegin qd) (sqFadeDistEnd qd) in
    if ok then
      let f := set_drawFlag f (drawFlag f + FD_OPAQUE_FLAG * Z.b2z (feqb (drawAlpha f) fone)) in
      let f := set_drawFlag f (drawFlag f + FD_ALPHAF_FLAG * Z.b2z (fltb (drawAlpha f) fone)) in
      f
    else
      (* note: it looks pretty bad to first alpha-fade and then draw a fully
         opaque fartex, so restrict impostors to non-fading features *)
      set_drawFlag f (FD_FARTEX_FLAG * Z.b2z (drawFarFeatures qd) * Z.b2z (negb (alphaFade f))).

(** Does the iteration for [f] reach the call of [SetDrawAlphaValue]
    (and so write [drawAlpha])? *)
Definition reaches_SetDrawAlphaValue (G : Globals) (qd : CFeatureQuadDrawer) (f : CFeature) : bool :=
  negb (excluded G f) && negb (drawShadowPass qd) && negb (pass_excluded G qd f).

End Model.

(** ** The draw-quad grid *)

(** Modelled from the spec: the per-cell model renderers
    ([ModelRendererProxy], [IModelRenderContainer] with [AddFeature],
    [DelFeature] and [GetFeatureBin]) are not under src/.  A cell holds one
    collection of objects per model type; the source iterates a collection
    as a sequence of bins [(texture type, objects)].  [AddFeature] appends
    the object to the bin of its texture type, [DelFeature] erases it from
    that bin and drops the bin when it becomes empty. *)
Definition FeatureSet : Type := list ptr.
Definition FeatureRenderBin : Type := list (Z * FeatureSet).

Fixpoint AddFeature (bin : FeatureRenderBin) (tex : Z) (p : ptr) : FeatureRenderBin :=
  match bin with
  | [] => [(tex, [p])]
  | (k, fs) :: tl =>
      if Z.eqb k tex then (k, fs ++ [p]) :: tl
      else (k, fs) :: AddFeature tl tex p
  end.

Fixpoint DelFeature (bin : FeatureRenderBin) (tex : Z) (p : ptr) : FeatureRenderBin :=
  match bin with
  | [] => []
  | (k, fs) :: tl =>
      if Z.eqb k tex then
        match VectorErase fs p with
        | (true, []) => tl
        | (_, fs') => (k, fs') :: tl
        end
      else (k, fs) :: DelFeature tl tex p
  end.

(** All objects of a collection, in iteration order. *)
Definition bin_features (bin : FeatureRenderBin) : list ptr := flat_map snd bin.

Record ModelRendererProxy : Type := mkProxy {
  lastDrawFrame : Z;                       (* GetLastDrawFrame() *)
  GetRenderer : nat -> FeatureRenderBin    (* GetRenderer(modelType)->GetFeatureBin() *)
}.

Definition SetLastDrawFrame (c : ModelRendererProxy) (frame : Z) : ModelRendererProxy :=
  mkProxy frame (GetRenderer c).

Definition set_renderer (c : ModelRendererProxy) (mt : nat) (bin : FeatureRenderBin)
    : ModelRendererProxy :=
  mkProxy (lastDrawFrame c)
          (fun i => if Nat.eqb i mt then bin else GetRenderer c i).

Definition empty_proxy (frame : Z) : ModelRendererProxy := mkProxy frame (fun _ => []).

(** [v[i] = g(v[i])]; an index outside the vector is undefined behaviour in
    the source and leaves the model unchanged. *)
Fixpoint update_nth {A : Type} (v : list A) (i : nat) (g : A -> A) : list A :=
  match v, i with
  | [], _ => []
  | a :: tl, O => g a :: tl
  | a :: tl, S j => a :: update_nth tl j g
  end.

Definition update_cell (v : list ModelRendererProxy) (i : Z)
    (g : ModelRendererProxy -> ModelRendererProxy) : list ModelRendererProxy :=
  if Z.ltb i 0 then v else update_nth v (Z.to_nat i) g.

Definition cell_at (v : list ModelRendererProxy) (i : Z) : option ModelRendererProxy :=
  if Z.ltb i 0 then None else nth_error v (Z.to_nat i).

Section Drawer.

Context {FO : FloatOps} {EC : EngineConsts}.

(** [modelRenderers[quad].GetRenderer(MDL_TYPE(f))->AddFeature(f)] *)
Definition AddFeature_at (v : list ModelRendererProxy) (quad : Z) (m : S3DModel) (p : ptr)
    : list ModelRendererProxy :=
  update_cell v quad
    (fun c => set_renderer c (mdl_type m)
                (AddFeature (GetRenderer c (mdl_type m)) (textureType m) p)).

(** [modelRenderers[quad].GetRenderer(MDL_TYPE(f))->DelFeature(f)] *)
Definition DelFeature_at (v : list ModelRendererProxy) (quad : Z) (m : S3DModel) (p : ptr)
    : list ModelRendererProxy :=
  update_cell v quad
    (fun c => set_renderer c (mdl_type m)
                (DelFeature (GetRenderer c (mdl_type m)) (textureType m) p)).

Record CFeatureDrawer : Type := mkDrawer {
  unsortedFeatures : list ptr;
  drawQuadsX : Z;
  drawQuadsY : Z;
  featureDrawDistance : float;
  featureFadeDistance : float;
  modelRenderers : list ModelRendererProxy;
  camVisibleQuadFlags : Z -> Z;      (* the elements of the vector, by index *)
  camVisibleQuadFlags_size : Z;      (* camVisibleQuadFlags.size() *)
  inAlphaPass : bool;
  inShadowPass : bool
}.

Definition set_unsortedFeatures (d : CFeatureDrawer) (u : list ptr) : CFeatureDrawer :=
  mkDrawer u (drawQuadsX d) (drawQuadsY d) (featureDrawDistance d)
    (featureFadeDistance d) (modelRenderers d) (camVisibleQuadFlags d)
    (camVisibleQuadFlags_size d) (inAlphaPass d) (inShadowPass d).

Definition set_modelRenderers (d : CFeatureDrawer) (v : list ModelRendererProxy) : CFeatureDrawer :=
  mkDrawer (unsortedFeatures d) (drawQuadsX d) (drawQuadsY d) (featureDrawDistance d)
    (featureFadeDistance d) v (camVisibleQuadFlags d)
    (camVisibleQuadFlags_size d) (inAlphaPass d) (inShadowPass d).

Definition set_camVisibleQuadFlags (d : CFeatureDrawer) (c : Z -> Z) : CFeatureDrawer :=
  mkDrawer (unsortedFeatures d) (drawQuadsX d) (drawQuadsY d) (featureDrawDistance d)
    (featureFadeDistance d) (modelRenderers d) c
    (camVisibleQuadFlags_size d) (inAlphaPass d) (inShadowPass d).

Definition set_inShadowPass (d : CFeatureDrawer) (b : bool) : CFeatureDrawer :=
  mkDrawer (unsortedFeatures d) (drawQuadsX d) (drawQuadsY d) (featureDrawDistance d)
    (featureFadeDistance d) (modelRenderers d) (camVisibleQuadFlags d)
    (camVisibleQuadFlags_size d) (inAlphaPass d) b.

Definition set_inAlphaPass (d : CFeatureDrawer) (b : bool) : CFeatureDrawer :=
  mkDrawer (unsortedFeatures d) (drawQuadsX d) (drawQuadsY d) (featureDrawDistance d)
    (featureFadeDistance d) (modelRenderers d) (camVisibleQuadFlags d)
    (camVisibleQuadFlags_size d) b (inShadowPass d).

(** [CFeatureDrawer::CFeatureDrawer()]: [mapx], [mapy] are [mapDims.mapx],
    [mapDims.mapy]; [cfgDraw], [cfgFade] the configured FeatureDrawDistance
    and FeatureFadeDistance; [frame0] the frame stamp of a fresh cell. *)
Definition CFeatureDrawer_new (mapx mapy : Z) (cfgDraw cfgFade : float) (frame0 : Z)
    : CFeatureDrawer :=
  let qx := int_div mapx DRAW_QUAD_SIZE in
  let qy := int_div mapy DRAW_QUAD_SIZE in
  mkDrawer [] qx qy cfgDraw (fmin cfgFade cfgDraw)
    (repeat (empty_proxy frame0) (Z.to_nat (qx * qy)))
    (fun _ => 0) CAMTYPE_ENVMAP false false.

(** The store of objects, the drawer and [globalRendering->drawFrame]. *)
Record World : Type := mkWorld {
  heap : ptr -> CFeature;
  fd : CFeatureDrawer;
  drawFrame : Z
}.

Definition upd (h : ptr -> CFeature) (p : ptr) (f : CFeature) : ptr -> CFeature :=
  fun q => if Nat.eqb q p then f else h q.

(** Calls into collaborators, in the order they are issued. *)
Inductive Call : Type :=
| BindModelTypeTexture (modelType : nat) (tex : Z)
| FarTextureQueue (p : ptr)              (* farTextureHandler->Queue(f) *)
| ShadowMaterialObject (p : ptr)         (* AddShadowMaterialObject accepted f *)
| OpaqueMaterialObject (p : ptr)         (* AddOpaqueMaterialObject accepted f *)
| AlphaMaterialObject (p : ptr)          (* AddAlphaMaterialObject accepted f *)
| SetTeamColour (t : Z) (alpha : option float)
| SetFeatureAlphaDrawState (p : ptr) (alpha : float) (ffp : bool)
| DrawFeature (p : ptr)                  (* DrawFeature(f, 0, 0, false, false) *)
| ForceRemoveSolidObject (p : ptr)       (* groundDecals->ForceRemoveSolidObject(f) *)
| SetObjectLOD (p : ptr) (lod : Z)       (* LuaObjectDrawer::SetObjectLOD(f, LUAOBJ_FEATURE, lod) *)
| RemoveClient.                          (* eventHandler.RemoveClient(this) *)

(** ** Lifecycle *)

(** The cell index computed by [UpdateDrawQuad]. *)
Definition newDrawQuadX (d : CFeatureDrawer) (f : CFeature) : Z :=
  Clamp (to_int (fdiv (fdiv (v_x (pos f)) (of_int SQUARE_SIZE)) (of_int DRAW_QUAD_SIZE)))
        0 (drawQuadsX d - 1).
Definition newDrawQuadY (d : CFeatureDrawer) (f : CFeature) : Z :=
  Clamp (to_int (fdiv (fdiv (v_z (pos f)) (of_int SQUARE_SIZE)) (of_int DRAW_QUAD_SIZE)))
        0 (drawQuadsY d - 1).
Definition newDrawQuad (d : CFeatureDrawer) (f : CFeature) : Z :=
  newDrawQuadY d f * drawQuadsX d + newDrawQuadX d f.

(** [CFeatureDrawer::UpdateDrawQuad(feature)] *)
Definition UpdateDrawQuad (w : World) (p : ptr) : World :=
  let feature := heap w p in
  let oldDrawQuad := drawQuad feature in
  if oldDrawQuad <? -1 then w
  else
    let nq := newDrawQuad (fd w) feature in
    if oldDrawQuad =? nq then w
    else
      let mr :=
        match model feature with
        | Some m =>
            let mr1 :=
              if 0 <=? oldDrawQuad
              then DelFeature_at (modelRenderers (fd w)) oldDrawQuad m p
              else modelRenderers (fd w) in
            AddFeature_at mr1 nq m p
        | None => modelRenderers (fd w)
        end in
      mkWorld (upd (heap w) p (set_drawQuad feature nq))
              (set_modelRenderers (fd w) mr)
              (drawFrame w).

(** [CFeatureDrawer::RenderFeatureCreated(feature)] *)
Definition RenderFeatureCreated (G : Globals) (w : World) (p : ptr) : World :=
  if negb (def_drawType (heap w p) =? DRAWTYPE_MODEL) then w
  else
    (* otherwise UpdateDrawQuad returns early *)
    let w := mkWorld (upd (heap w) p (set_drawQuad (heap w p) (-1))) (fd w) (drawFrame w) in
    let w := mkWorld (upd (heap w) p (snd (SetDrawAlphaValue_default G (heap w p) None)))
                     (fd w) (drawFrame w) in
    let w := UpdateDrawQuad w p in
    mkWorld (heap w) (set_unsortedFeatures (fd w) (unsortedFeatures (fd w) ++ [p]))
            (drawFrame w).

(** [CFeatureDrawer::RenderFeatureDestroyed(feature)] *)
Definition RenderFeatureDestroyed (w : World) (p : ptr) : World * list Call :=
  let f := heap w p in
  let d :=
    if def_drawType f =? DRAWTYPE_MODEL
    then set_unsortedFeatures (fd w) (snd (VectorErase (unsortedFeatures (fd w)) p))
    else fd w in
  let w := mkWorld (heap w) d (drawFrame w) in
  let w :=
    match model f with
    | Some m =>
        if 0 <=? drawQuad f then
          mkWorld (upd (heap w) p (set_drawQuad f (-1)))
                  (set_modelRenderers (fd w)
                     (DelFeature_at (modelRenderers (fd w)) (drawQuad f) m p))
                  (drawFrame w)
        else w
    | None => w
    end in
  (w, [SetObjectLOD p 0]).

(** [CFeatureDrawer::FeatureMoved(feature, oldpos)] *)
Definition FeatureMoved (w : World) (p : ptr) (oldpos : float3) : World :=
  UpdateDrawQuad w p.

(** [CFeatureDrawer::~CFeatureDrawer()] *)
Definition CFeatureDrawer_delete (d : CFeatureDrawer) : CFeatureDrawer * list Call :=
  (mkDrawer (unsortedFeatures d) (drawQuadsX d) (drawQuadsY d) (featureDrawDistance d)
     (featureFadeDistance d) [] (fun _ => 0) 0 (inAlphaPass d) (inShadowPass d),
   RemoveClient :: map ForceRemoveSolidObject (unsortedFeatures d)).

(** [CFeatureDrawer::UpdateDrawPos(f)] *)
Definition UpdateDrawPos (G : Globals) (f : CFeature) : CFeature :=
  let time := timeOffset G in
  set_drawPositions f (f3_add (pos f) (f3_scale (speed f) time))
                      (f3_add (midPos f) (f3_scale (speed f) time)).

(** [CFeatureDrawer::Update()] *)
Definition Update (G : Globals) (w : World) : World :=
  mkWorld
    (fold_left
       (fun h p =>
          let f := UpdateDrawPos G (h p) in
          upd h p (snd (SetDrawAlphaValue_default G f None)))
       (unsortedFeatures (fd w)) (heap w))
    (fd w) (drawFrame w).

(** ** Visibility pass *)

(** The objects of a cell that [DrawQuad] iterates, in order. *)
Definition cell_features (c : ModelRendererProxy) : list ptr :=
  flat_map (fun i => bin_features (GetRenderer c i)) (seq 0 MODELTYPE_OTHER).

(** [CFeatureQuadDrawer::DrawQuad(x, y)].  The two assertions of the source
    are not executed in release builds and are left out. *)
Definition DrawQuad (G : Globals) (qd : CFeatureQuadDrawer) (w : World) (x y : Z) : World :=
  let idx := y * qd_drawQuadsX qd + x in
  match cell_at (modelRenderers (fd w)) idx with
  | None => w
  | Some mdlRenderProxy =>
      (* used so we do not iterate over non-visited renderers (in any pass) *)
      let mr := update_cell (modelRenderers (fd w)) idx
                  (fun c => SetLastDrawFrame c (drawFrame w)) in
      mkWorld
        (fold_left (fun h p => upd h p (DrawQuad_feature G qd (h p)))
                   (cell_features mdlRenderProxy) (heap w))
        (set_modelRenderers (fd w) mr)
        (drawFrame w)
  end.

(** The drawer object that [GetVisibleFeatures] hands to the grid walk. *)
Definition quad_drawer (G : Globals) (d : CFeatureDrawer) (cam : CCamera) (drawFar : bool)
    : CFeatureQuadDrawer :=
  mkQuadDrawer (drawQuadsX d)
    (DrawReflectionPass G) (DrawRefractionPass G)
    (camType cam =? CAMTYPE_SHADOW) drawFar
    (fmul (featureFadeDistance d) (featureFadeDistance d))
    (fmul (featureDrawDistance d) (featureDrawDistance d))
    (Some cam).

(** [CFeatureDrawer::GetVisibleFeatures(cam, extraSize, drawFar)]; the early
    return guarded by [false && ...] is dead.  [readMap->GridVisibility]
    calls [DrawQuad] for the cells [GridVisibility G cam].  The assertion
    that the camera type is an index of [camVisibleQuadFlags] is not
    executed in release builds; it is stated apart, as
    [GetVisibleFeatures_asserts]. *)
Definition GetVisibleFeatures (G : Globals) (w : World) (cam : CCamera) (drawFar : bool)
    : World :=
  let d := set_camVisibleQuadFlags (fd w)
             (fun t => if t =? camType cam then drawFrame w
                       else camVisibleQuadFlags (fd w) t) in
  let drawer := quad_drawer G d cam drawFar in
  fold_left (fun w xy => DrawQuad G drawer w (fst xy) (snd xy))
            (GridVisibility G cam)
            (mkWorld (heap w) d (drawFrame w)).

(** ** Batched draw passes *)

(** [CFeatureDrawer::CanDrawFeature(feature)] *)
Definition CanDrawFeature (G : Globals) (d : CFeatureDrawer) (feature : CFeature) : bool :=
  if noDraw feature then false
  else if IsInVoid feature then false
  else if negb (IsInLosForAllyTeam feature (myAllyTeam G)) && negb (spectatingFullView G)
  then false
  else
    let cam := activeCamera G in
    if alphaFade feature && negb (camType cam =? CAMTYPE_SHADOW) then
      let sqDist := SqLength (f3_sub (pos feature) (camPos cam)) in
      let farLength := fmul (sqRadius feature) (unitDrawDistSqr G) in
      let sqFadeDistEnd := fmul (featureDrawDistance d) (featureDrawDistance d) in
      if fgeb sqDist (fmin farLength sqFadeDistEnd) then false
      else InView G cam (drawMidPos feature) (drawRadius feature)
    else InView G cam (drawMidPos feature) (drawRadius feature).

(** One iteration of the innermost loop of [DrawOpaqueFeatures]. *)
Definition DrawOpaqueFeatures_feature (G : Globals) (w : World) (p : ptr) : list Call :=
  let f := heap w p in
  (* fartex, opaque, shadow are allowed here *)
  if drawFlag f =? FD_NODRAW_FLAG then []
  else if drawFlag f =? FD_ALPHAF_FLAG then []
  else if drawFlag f =? FD_FARTEX_FLAG then [FarTextureQueue p]
  else
    (* test this before the LOD calls (for consistency with UD) *)
    if negb (CanDrawFeature G (fd w) f) then []
    else if inShadowPass (fd w) && AddShadowMaterialObject G p then [ShadowMaterialObject p]
    else if negb (inShadowPass (fd w)) && AddOpaqueMaterialObject G p then [OpaqueMaterialObject p]
    else
      (if negb (inShadowPass (fd w)) then [SetTeamColour (team f) None] else [])
      ++ [DrawFeature p].

(** The cells a batched pass iterates. *)
Definition drawn_cells (w : World) : list ModelRendererProxy :=
  filter (fun c => negb (lastDrawFrame c <? drawFrame w)) (modelRenderers (fd w)).

(** [CFeatureDrawer::DrawOpaqueFeatures(modelType)] *)
Definition DrawOpaqueFeatures (G : Globals) (w : World) (modelType : nat) : list Call :=
  flat_map
    (fun mdlRenderProxy =>
       flat_map
         (fun binElem =>
            BindModelTypeTexture modelType (fst binElem)
            :: flat_map (DrawOpaqueFeatures_feature G w) (snd binElem))
         (GetRenderer mdlRenderProxy modelType))
    (drawn_cells w).

(** One iteration of the innermost loop of [DrawAlphaFeatures]. *)
Definition DrawAlphaFeatures_feature (G : Globals) (w : World) (ffpMat : bool) (p : ptr)
    : list Call :=
  let f := heap w p in
  (* only alpha is allowed here *)
  if drawFlag f =? FD_NODRAW_FLAG then []
  else if drawFlag f =? FD_OPAQUE_FLAG then []
  else if drawFlag f =? FD_SHADOW_FLAG then []
  else if drawFlag f =? FD_FARTEX_FLAG then []
  else
    if negb (CanDrawFeature G (fd w) f) then []
    else if AddAlphaMaterialObject G p then [AlphaMaterialObject p]
    else
      [SetTeamColour (team f) (Some (drawAlpha f));
       SetFeatureAlphaDrawState p (drawAlpha f) ffpMat;
       DrawFeature p].

(** [CFeatureDrawer::DrawAlphaFeatures(modelType)] *)
Definition DrawAlphaFeatures (G : Globals) (w : World) (modelType : nat) : list Call :=
  let ffpMat := negb (CanDrawAlpha G) in
  flat_map
    (fun mdlRenderProxy =>
       flat_map
         (fun binElem =>
            BindModelTypeTexture modelType (fst binElem)
            :: flat_map (DrawAlphaFeatures_feature G w ffpMat) (snd binElem))
         (GetRenderer mdlRenderProxy modelType))
    (drawn_cells w).

(** The model types [first .. MODELTYPE_OTHER - 1]. *)
Definition model_types_from (first : nat) : list nat :=
  seq first (MODELTYPE_OTHER - first).

(** [CFeatureDrawer::DrawOpaquePass]: the feature-related calls; render-state
    set-up of the unit drawer and the Lua material passes are external. *)
Definition DrawOpaquePass (G : Globals) (w : World) : list Call :=
  flat_map (DrawOpaqueFeatures G w) (model_types_from MODELTYPE_3DO).

(** [CFeatureDrawer::DrawAlphaPass] *)
Definition DrawAlphaPass (G : Globals) (w : World) : list Call :=
  let w := mkWorld (heap w) (set_inAlphaPass (fd w) true) (drawFrame w) in
  flat_map (DrawAlphaFeatures G w) (model_types_from MODELTYPE_3DO).

(** [CFeatureDrawer::DrawShadowPass] *)
Definition DrawShadowPass (G : Globals) (w : World) : World * list Call :=
  let w1 := mkWorld (heap w) (set_inShadowPass (fd w) true) (drawFrame w) in
  (* mark all features (in the quads we can see) with FD_SHADOW_FLAG *)
  let w2 := GetVisibleFeatures G w1 (shadowCamera G) false in
  let calls :=
    DrawOpaqueFeatures G w2 MODELTYPE_3DO
    ++ flat_map (DrawOpaqueFeatures G w2) (model_types_from MODELTYPE_S3O) in
  (mkWorld (heap w2) (set_inShadowPass (fd w2) false) (drawFrame w2), calls).

(** [CFeatureDrawer::Draw]: classification for the active camera, then the
    forward opaque pass. *)
Definition Draw (G : Globals) (w : World) : World * list Call :=
  let w := GetVisibleFeatures G w (activeCamera G) true in
  (w, DrawOpaquePass G w).

(** ** Runs *)

(** What happens to the drawer over time.  [EvCreated p f]: the simulation
    constructs the object [f] at address [p] and announces it;
    [EvMoved p q]: it moves the object at [p] to position [q] and announces
    the move; [EvNewFrame]: the render loop advances
    [globalRendering->drawFrame]. *)
Inductive event : Type :=
| EvCreated (G : Globals) (p : ptr) (f : CFeature)
| EvMoved (p : ptr) (newpos : float3)
| EvDestroyed (p : ptr)
| EvUpdate (G : Globals)
| EvNewFrame
| EvVisible (G : Globals) (cam : CCamera) (drawFar : bool).

Definition step (w : World) (e : event) : World :=
  match e with
  | EvCreated G p f =>
      RenderFeatureCreated G (mkWorld (upd (heap w) p f) (fd w) (drawFrame w)) p
  | EvMoved p q =>
      FeatureMoved (mkWorld (upd (heap w) p (set_pos (heap w p) q)) (fd w) (drawFrame w))
                   p (pos (heap w p))
  | EvDestroyed p => fst (RenderFeatureDestroyed w p)
  | EvUpdate G => Update G w
  | EvNewFrame => mkWorld (heap w) (fd w) (drawFrame w + 1)
  | EvVisible G cam drawFar => GetVisibleFeatures G w cam drawFar
  end.

Definition run (w : World) (evs : list event) : World := fold_left step evs w.

(** An event the engine can issue in state [w]: an object is announced once,
    and only announced objects, or objects the grid ignores for good
    ([drawQuad < -1]), move or are destroyed. *)
Definition event_ok (w : World) (e : event) : Prop :=
  match e with
  | EvCreated _ p _ => ~ In p (unsortedFeatures (fd w))
  | EvMoved p _ | EvDestroyed p =>
      In p (unsortedFeatures (fd w)) \/ drawQuad (heap w p) < -1
  | _ => True
  end.

Fixpoint run_ok (w : World) (evs : list event) : Prop :=
  match evs with
  | [] => True
  | e :: tl => event_ok w e /\ run_ok (step w e) tl
  end.

End Drawer.

(** ** Laws of the arithmetic

    The statements below that depend on more than the control flow are
    proved for every arithmetic obeying the laws they use.  All three
    classes hold for [binary32] and for [exactQ].  [FloatArithLaws] says,
    for numbers ([is_finite]), that subtraction and division round
    monotonically and are exact where the exact result is a number of the
    format: what IEEE-754 prescribes.  For [binary32] the laws are proved in
    Part II from the definitions of [SpecFloat]. *)

Class FloatOrderLaws (FO : FloatOps) : Prop := {
  feqb_one : feqb fone fone = true;
  feqb_fltb : forall a b : float, feqb a b = true -> fltb a b = false;
  fltb_irrefl : forall a : float, fltb a a = false;
  fltb_fleb : forall a b : float, fltb a b = true -> fleb a b = true;
  fleb_fltb : forall a b : float, fleb a b = true -> fltb b a = false
}.

(** [int(a)] is the floor of a non-negative number whose floor is an [int],
    and is not positive for a negative one. *)
Class FloatIntLaws (FO : FloatOps) : Prop := {
  to_int_floor_nonneg : forall a : float,
    is_finite a = true -> 0 <= ffloor a <= INT_MAX -> to_int a = ffloor a;
  to_int_floor_neg : forall a : float, ffloor a < 0 -> to_int a <= 0
}.

(** One half, [1.0f / (1.0f + 1.0f)]. *)
Definition fhalf {FO : FloatOps} : float := fdiv fone (fadd fone fone).

Class FloatArithLaws (FO : FloatOps) : Prop := {
  fleb_refl : forall a : float, is_finite a = true -> fleb a a = true;
  fleb_trans : forall a b c : float,
    fleb a b = true -> fleb b c = true -> fleb a c = true;
  fleb_fltb_trans : forall a b c : float,
    fleb a b = true -> fltb b c = true -> fltb a c = true;
  is_finite_zero : is_finite fzero = true;
  is_finite_one : is_finite fone = true;
  fleb_zero_one : fleb fzero fone = true;
  fsub_diag : forall a : float, is_finite a = true -> fsub a a = fzero;
  fsub_pos : forall a b : float,
    is_finite a = true -> is_finite b = true ->
    fltb a b = true -> fltb fzero (fsub b a) = true;
  fsub_finite : forall a b : float,
    is_finite a = true -> is_finite b = true ->
    fleb fzero a = true -> fleb a b = true ->
    is_finite (fsub b a) = true;
  fsub_one_zero : fsub fone fzero = fone;
  fdiv_zero : forall w : float, fltb fzero w = true -> fdiv fzero w = fzero;
  fdiv_diag : forall w : float,
    is_finite w = true -> fltb fzero w = true -> fdiv w w = fone;
  fsub_mono : forall a b c : float,
    is_finite a = true -> is_finite b = true -> is_finite c = true ->
    fleb fzero c = true -> fleb c a = true -> fleb a b = true ->
    fleb (fsub a c) (fsub b c) = true;
  fdiv_mono : forall a b w : float,
    is_finite a = true -> is_finite b = true -> is_finite w = true ->
    fltb fzero w = true -> fleb fzero a = true -> fleb a b = true ->
    fleb (fdiv a w) (fdiv b w) = true;
  fdiv_finite : forall a w : float,
    is_finite a = true -> is_finite w = true ->
    fleb fzero a = true -> fleb a w = true -> fltb fzero w = true ->
    is_finite (fdiv a w) = true;
  fsub_anti : forall a b : float,
    is_finite a = true -> is_finite b = true ->
    fleb fzero a = true -> fleb a b = true -> fleb b fone = true ->
    fleb (fsub fone b) (fsub fone a) = true;
  fdiv_half : forall a b : float,
    is_finite a = true -> is_finite b = true -> fltb a b = true ->
    is_finite (fadd (fsub b a) (fsub b a)) = true ->
    fdiv (fsub b a) (fadd (fsub b a) (fsub b a)) = fhalf;
  fsub_one_half : fsub fone fhalf = fhalf;
  fltb_half_one : fltb fhalf fone = true
}.

Section Specs.

Context {FO : FloatOps} {EC : EngineConsts}.

(** ** Notions used by the statements *)

(** Squared distance of an object from a camera, as [SetDrawAlphaValue]
    computes it. *)
Definition sqDistOf (f : CFeature) (cam : CCamera) : float :=
  SqLength (f3_sub (pos f) (camPos cam)).

(** [farLength] of an object. *)
Definition farLengthOf (G : Globals) (f : CFeature) : float :=
  fmul (sqRadius f) (unitDrawDistSqr G).

(** The fade window after clamping to [farLength]. *)
Definition fadeBegin' (farLength sqFadeDistMin sqFadeDistMax : float) : float :=
  if fltb farLength sqFadeDistMax
  then fmul farLength (fdiv sqFadeDistMin sqFadeDistMax)
  else sqFadeDistMin.
Definition fadeEnd' (farLength sqFadeDistMin sqFadeDistMax : float) : float :=
  if fltb farLength sqFadeDistMax then farLength else sqFadeDistMax.

(** The object passes every exclusion of a non-shadow visibility pass. *)
Definition visible (G : Globals) (qd : CFeatureQuadDrawer) (f : CFeature) : Prop :=
  excluded G f = false /\ drawShadowPass qd = false /\ pass_excluded G qd f = false.

(** The five values of the flag enumeration. *)
Definition valid_flag (v : Z) : Prop :=
  v = FD_NODRAW_FLAG \/ v = FD_OPAQUE_FLAG \/ v = FD_ALPHAF_FLAG
  \/ v = FD_SHADOW_FLAG \/ v = FD_FARTEX_FLAG.

(** The collection of cell [c] for model type [mt]. *)
Definition bins_of (v : list ModelRendererProxy) (c : nat) (mt : nat) : FeatureRenderBin :=
  match nth_error v c with
  | Some cell => GetRenderer cell mt
  | None => []
  end.

Definition cell_bin (w : World) (c : nat) (mt : nat) : FeatureRenderBin :=
  bins_of (modelRenderers (fd w)) c mt.

Definition in_cell (w : World) (c : nat) (mt : nat) (p : ptr) : Prop :=
  In p (bin_features (cell_bin w c mt)).

(** A collection is well formed: one bin per texture type, no object twice,
    every object in the bin of its own texture type. *)
Definition bin_ok (tex : ptr -> option Z) (bin : FeatureRenderBin) : Prop :=
  NoDup (map fst bin) /\ NoDup (bin_features bin)
  /\ forall k fs p, In (k, fs) bin -> In p fs -> tex p = Some k.

Definition tex_of (w : World) (p : ptr) : option Z :=
  option_map textureType (model (heap w p)).

(** The grid invariant, for the live objects [L]. *)
Record grid_inv_for (L : list ptr) (w : World) : Prop := mkGridInv {
  gi_dims : 0 < drawQuadsX (fd w) /\ 0 < drawQuadsY (fd w);
  gi_len : length (modelRenderers (fd w))
           = Z.to_nat (drawQuadsX (fd w) * drawQuadsY (fd w));
  gi_live_nodup : NoDup L;
  gi_bins : forall c mt, bin_ok (tex_of w) (cell_bin w c mt);
  gi_member : forall c mt p, in_cell w c mt p ->
      In p L
      /\ (exists m, model (heap w p) = Some m /\ mdl_type m = mt)
      /\ drawQuad (heap w p) = Z.of_nat c
      /\ newDrawQuad (fd w) (heap w p) = Z.of_nat c;
  gi_live : forall p, In p L ->
      def_drawType (heap w p) = DRAWTYPE_MODEL
      /\ drawQuad (heap w p) = newDrawQuad (fd w) (heap w p)
      /\ forall m, model (heap w p) = Some m ->
           in_cell w (Z.to_nat (drawQuad (heap w p))) (mdl_type m) p
}.

Definition grid_inv (w : World) : Prop :=
  grid_inv_for (unsortedFeatures (fd w)) w.

(** The state in which [UpdateDrawQuad] is called for [p]: the grid is
    consistent for every other object, and [p] sits in the cell its stored
    [drawQuad] names (in none when that is -1), whatever its position. *)
Record pre_inv (p : ptr) (L : list ptr) (w : World) : Prop := mkPreInv {
  pi_dims : 0 < drawQuadsX (fd w) /\ 0 < drawQuadsY (fd w);
  pi_len : length (modelRenderers (fd w))
           = Z.to_nat (drawQuadsX (fd w) * drawQuadsY (fd w));
  pi_live_nodup : NoDup L;
  pi_bins : forall c mt, bin_ok (tex_of w) (cell_bin w c mt);
  pi_member : forall c mt q, in_cell w c mt q ->
      In q L
      /\ (exists m, model (heap w q) = Some m /\ mdl_type m = mt)
      /\ drawQuad (heap w q) = Z.of_nat c
      /\ (q <> p -> newDrawQuad (fd w) (heap w q) = Z.of_nat c);
  pi_live : forall q, In q L ->
      def_drawType (heap w q) = DRAWTYPE_MODEL
      /\ (q <> p -> drawQuad (heap w q) = newDrawQuad (fd w) (heap w q))
      /\ forall m, model (heap w q) = Some m -> 0 <= drawQuad (heap w q) ->
           in_cell w (Z.to_nat (drawQuad (heap w q))) (mdl_type m) q;
  pi_self : In p L /\ -1 <= drawQuad (heap w p)
}.

Definition mem (p : ptr) (l : list ptr) : bool := existsb (Nat.eqb p) l.

(** Events that occur while a frame is being rendered: the simulation does
    not announce new or moved objects between the passes of a frame. *)
Definition render_event (e : event) : Prop :=
  match e with
  | EvVisible _ _ _ | EvUpdate _ | EvDestroyed _ => True
  | _ => False
  end.

(** Every cell stamp is at most the current frame. *)
Definition frames_ok (w : World) : Prop :=
  forall c, In c (modelRenderers (fd w)) -> lastDrawFrame c <= drawFrame w.

(** Objects whose [drawFlag] a batched pass over [modelType] reads. *)
Definition pass_reads (w : World) (modelType : nat) : list ptr :=
  flat_map (fun c => bin_features (GetRenderer c modelType)) (drawn_cells w).





(** Every live object has [drawAlpha = 0]. *)
Definition live_alpha_zero (w : World) : Prop :=
  forall p, In p (unsortedFeatures (fd w)) -> drawAlpha (heap w p) = fzero.

Definition not_visibility_pass (e : event) : Prop :=
  match e with
  | EvVisible _ _ _ => False
  | _ => True
  end.

(** Cells of [v'] carry the frame stamp of a cell of [v]. *)
Definition cells_frames (v' v : list ModelRendererProxy) : Prop :=
  forall c', In c' v' -> exists c, In c v /\ lastDrawFrame c' = lastDrawFrame c.

(** ... and hold no object that this cell of [v] does not hold. *)
Definition cells_sub (v' v : list ModelRendererProxy) : Prop :=
  forall c', In c' v' ->
  exists c, In c v /\ lastDrawFrame c' = lastDrawFrame c
            /\ forall p, In p (cell_features c') -> In p (cell_features c).

(** Geometry of [p] is submitted: drawn directly, or handed to a material
    object that draws it. *)
Definition submits (calls : list Call) (p : ptr) : Prop :=
  In (DrawFeature p) calls \/ In (OpaqueMaterialObject p) calls
  \/ In (ShadowMaterialObject p) calls \/ In (AlphaMaterialObject p) calls.

(** ** Auxiliary notions of the proofs *)

(** [drawAlpha] after [SetDrawAlphaValue] for a fading object at squared
    distance [d], and whether the call returns [true]. *)
Definition fade_alpha (fl d B E : float) : float :=
  if fgeb d fl then fzero
  else if fltb d (fadeBegin' fl B E) then fone
  else if fltb d (fadeEnd' fl B E)
       then fsub fone (fdiv (fsub d (fadeBegin' fl B E))
                            (fsub (fadeEnd' fl B E) (fadeBegin' fl B E)))
       else fzero.

Definition fade_drawn (fl d B E : float) : bool :=
  if fgeb d fl then false
  else if fltb d (fadeBegin' fl B E) then true
  else fltb d (fadeEnd' fl B E).


(** One update applied to the objects of a list, in order. *)
Definition upd_all (g : CFeature -> CFeature) (l : list ptr) (h : ptr -> CFeature)
    : ptr -> CFeature :=
  fold_left (fun h p => upd h p (g (h p))) l h.


(** Worlds that agree on everything the grid invariant reads. *)
Definition same_grid (w w' : World) : Prop :=
  drawQuadsX (fd w') = drawQuadsX (fd w)
  /\ drawQuadsY (fd w') = drawQuadsY (fd w)
  /\ length (modelRenderers (fd w')) = length (modelRenderers (fd w))
  /\ (forall c mt, cell_bin w' c mt = cell_bin w c mt)
  /\ (forall p, model (heap w' p) = model (heap w p)
                /\ drawQuad (heap w' p) = drawQuad (heap w p)
                /\ pos (heap w' p) = pos (heap w p)
                /\ def_drawType (heap w' p) = def_drawType (heap w p)).

End Specs.

(** ** Concrete objects, cameras and runs *)

(** The values of the engine's headers. *)
Definition spring_consts : EngineConsts := {|
  SQUARE_SIZE := 8;
  MODELTYPE_3DO := 0;
  MODELTYPE_S3O := 1;
  MODELTYPE_OTHER := 4;
  DRAWTYPE_MODEL := 0;
  CAMTYPE_SHADOW := 2;
  CAMTYPE_ENVMAP := 3
|}.

Section Examples.
Context {FO : FloatOps}.
Local Existing Instance spring_consts.

Definition ex_vec (a b c : Z) : float3 := mkFloat3 (of_int a) (of_int b) (of_int c).

(** Player camera at the origin, and a shadow camera. *)
Definition ex_cam : CCamera := mkCamera (ex_vec 0 0 0) 0.
Definition ex_shadow_cam : CCamera := mkCamera (ex_vec 0 1000 0) 2.

(** The shadow camera sees cell (2, 3); the player camera sees no cell. *)
Definition ex_G : Globals :=
  mkGlobals (of_int 1000000) (of_int 0) false 0 ex_cam ex_shadow_cam
    (fun _ _ _ => true) (fun _ _ _ => true) false false
    (fun cam => if camType cam =? 2 then [(2, 3)] else [])
    (fun _ => false) (fun _ => false) (fun _ => false) true.

(** An object at [(px, 0, pz)] with squared radius [r2]. *)
Definition ex_feature (px pz r2 : Z) (fade : bool) : CFeature :=
  mkFeature (ex_vec px 0 pz) (ex_vec px 0 pz) (ex_vec 0 0 0) (ex_vec px 0 pz)
    (ex_vec px 0 pz) (of_int r2) (of_int 10) 0 fade false false false false
    (fun _ => true) 0 (Some (mkModel 1 7)) (-2) (-1) fone.


(** The quad drawer of a player pass with the default distances
    (fade from 4500, draw up to 6000), far rendering enabled. *)
Definition ex_qd : CFeatureQuadDrawer :=
  mkQuadDrawer 64 false false false true
    (fmul (of_int 4500) (of_int 4500)) (fmul (of_int 6000) (of_int 6000)) (Some ex_cam).


(** A fresh drawer on a map of 2048 x 256 squares: 64 x 8 cells. *)
Definition ex_w0 : World :=
  mkWorld (fun _ => ex_feature 0 0 100 true)
          (CFeatureDrawer_new 2048 256 (of_int 6000) (of_int 4500) 0) 0.

(** An object appears in cell (2, 3). *)
Definition ex_w1 : World := run ex_w0 [EvCreated ex_G 0%nat (ex_feature 522 778 100 false)].

(** A frame in which only the shadow pass visits the object's cell. *)
Definition ex_shadow_frame : list event :=
  [EvNewFrame; EvVisible ex_G ex_shadow_cam false; EvVisible ex_G ex_cam true].

Definition ex_w2 : World := run ex_w1 ex_shadow_frame.



(** A life: created in cell (2, 3), moved to cell (2, 4), a second object
    created, the first destroyed. *)
Definition ex_life : list event :=
  [EvCreated ex_G 0%nat (ex_feature 522 778 100 false);
   EvMoved 0%nat (ex_vec 522 0 1034);
   EvCreated ex_G 1%nat (ex_feature 10 10 100 true);
   EvDestroyed 0%nat].

End Examples.

(** ** Notions of the further properties *)

(** Comparisons chain: [a <= b] and [b < c] give [a < c].  The law holds for
    [binary32] (no comparison with a NaN succeeds) and for [exactQ]. *)
Class FloatChainLaws (FO : FloatOps) : Prop := {
  fleb_fltb_chain : forall a b c : float,
    fleb a b = true -> fltb b c = true -> fltb a c = true
}.

(** The position of a binary float in the order of [SFcompare]: class
    (infinities, negative, zero, positive), then exponent, then mantissa. *)
Definition SFrank (x : spec_float) : option (Z * Z * Z) :=
  match x with
  | S754_nan => None
  | S754_infinity true => Some (-2, 0, 0)
  | S754_infinity false => Some (2, 0, 0)
  | S754_zero _ => Some (0, 0, 0)
  | S754_finite true m e => Some (-1, - e, - Zpos m)
  | S754_finite false m e => Some (1, e, Zpos m)
  end.

Definition rank_compare (a b : Z * Z * Z) : comparison :=
  match fst (fst a) ?= fst (fst b) with
  | Eq => match snd (fst a) ?= snd (fst b) with
          | Eq => snd a ?= snd b
          | c => c
          end
  | c => c
  end.

Section MoreSpecs.

Context {FO : FloatOps} {EC : EngineConsts}.

(** Every object of a cell visited in the current frame carries a flag
    satisfying [P]. *)
Definition marks_inv (P : Z -> Prop) (w : World) : Prop :=
  frames_ok w
  /\ forall c, In c (modelRenderers (fd w)) -> lastDrawFrame c = drawFrame w ->
     forall p, In p (cell_features c) -> P (drawFlag (heap w p)).

(** The flags [DrawQuad] can leave when it is given a camera. *)
Definition camera_flag (v : Z) : Prop :=
  v = FD_NODRAW_FLAG \/ v = FD_OPAQUE_FLAG \/ v = FD_ALPHAF_FLAG \/ v = FD_SHADOW_FLAG.

End MoreSpecs.

Section MoreSpecs2.

Context {FO : FloatOps} {EC : EngineConsts}.

(** Is cell [i] among the cells [l] handed to [DrawQuad], on a grid of
    width [X]? *)
Definition visits (X : Z) (l : list (Z * Z)) (i : nat) : bool :=
  existsb (fun xy => (0 <=? snd xy * X + fst xy)
                     && Nat.eqb (Z.to_nat (snd xy * X + fst xy)) i) l.

End MoreSpecs2.

Section MoreSpecs3.

Context {FO : FloatOps} {EC : EngineConsts}.

(** The event does not announce the creation of [p]. *)
Definition not_creating (p : ptr) (e : event) : Prop :=
  match e with
  | EvCreated _ q _ => q <> p
  | _ => True
  end.

End MoreSpecs3.

Section MoreSpecs4.

Context {FO : FloatOps} {EC : EngineConsts}.

(** The objects whose geometry a sequence of calls submits, in order. *)
Definition submitted (calls : list Call) : list ptr :=
  flat_map (fun call =>
              match call with
              | DrawFeature p | OpaqueMaterialObject p
              | ShadowMaterialObject p | AlphaMaterialObject p => [p]
              | _ => []
              end) calls.

End MoreSpecs4.

Section MoreSpecs5.

Context {FO : FloatOps} {EC : EngineConsts}.

(** The direct draws of a sequence of calls, each with the texture binding
    [(model type, texture type)] in force when it is issued; [cur] is the
    binding at the start. *)
Fixpoint bound_draws (cur : option (nat * Z)) (calls : list Call)
    : list (ptr * option (nat * Z)) :=
  match calls with
  | [] => []
  | BindModelTypeTexture modelType tex :: tl => bound_draws (Some (modelType, tex)) tl
  | DrawFeature p :: tl => (p, cur) :: bound_draws cur tl
  | _ :: tl => bound_draws cur tl
  end.

End MoreSpecs5.

Section MoreDrawer.

Context {FO : FloatOps} {EC : EngineConsts}.

(** [CFeatureDrawer::PostLoad()]: [mapx], [mapy] are [mapDims.mapx],
    [mapDims.mapy]. *)
Definition PostLoad (mapx mapy : Z) (d : CFeatureDrawer) : CFeatureDrawer :=
  mkDrawer (unsortedFeatures d)
    (int_div mapx DRAW_QUAD_SIZE) (int_div mapy DRAW_QUAD_SIZE)
    (featureDrawDistance d) (featureFadeDistance d) (modelRenderers d)
    (camVisibleQuadFlags d) (camVisibleQuadFlags_size d) (inAlphaPass d) (inShadowPass d).

(** What no event of a run changes: the dimensions of the grid, the number
    of cells, the configured distances and the pass flags. *)
Definition shape (d : CFeatureDrawer) : Z * Z * nat * float * float * bool * bool :=
  (drawQuadsX d, drawQuadsY d, length (modelRenderers d),
   featureDrawDistance d, featureFadeDistance d, inAlphaPass d, inShadowPass d).

End MoreDrawer.

(** ** The rendering calls in full

    The batched passes above record the calls that depend on the flags.
    What follows adds the calls around them: the OpenGL state changes, the
    render states of the unit drawer and the Lua hooks, for the functions
    that draw one object and for the three passes. *)

Inductive GLenum : Type :=
| GL_TEXTURE_2D | GL_FOG | GL_ALPHA_TEST | GL_CULL_FACE | GL_POLYGON_OFFSET_FILL
| GL_GREATER | GL_TRUE | GL_FRONT_AND_BACK | GL_AMBIENT_AND_DIFFUSE
| GL_COLOR_BUFFER_BIT | GL_DEPTH_BUFFER_BIT.

Section Rendering.

Context {FO : FloatOps} {EC : EngineConsts}.

Inductive GLCall : Type :=
| Collab (c : Call)                         (* a call recorded by the batchers *)
| glPushMatrix
| glPopMatrix
| glMultMatrixf (p : ptr)                   (* feature->GetTransformMatrixRef() *)
| glCallList (list : Z)
| glEnable (cap : GLenum)
| glDisable (cap : GLenum)
| glPushAttrib (mask : list GLenum)         (* the bits or-ed together *)
| glPopAttrib
| glDepthMask (flag : GLenum)
| glAlphaFunc (func : GLenum) (ref : float)
| glPolygonOffset (factor units : float)
| glBindTexture (target : GLenum) (tex : Z)
| glMaterialfv (face pname : GLenum) (r g b a : float)
| glColor4fv (r g b a : float)
| localModel_Draw (p : ptr)                 (* feature->localModel.Draw() *)
| eventHandler_DrawFeature (p : ptr)        (* eventHandler.DrawFeature(feature) *)
| SetupOpaqueDrawing (deferredPass : bool)  (* unitDrawer->... *)
| ResetOpaqueDrawing (deferredPass : bool)
| SetupAlphaDrawing (deferredPass : bool)
| ResetAlphaDrawing (deferredPass : bool)
| PushModelRenderState (modelType : nat)
| PopModelRenderState (modelType : nat)
| PushModelRenderState_feature (p : ptr)    (* the overloads taking the object *)
| PopModelRenderState_feature (p : ptr)
| ISky_SetupFog
| ShadowGenProg_Enable                      (* po->Enable() *)
| ShadowGenProg_Disable
| SetDrawPassGlobalLODFactor                (* LuaObjectDrawer::... *)
| DrawOpaqueMaterialObjects (deferredPass : bool)
| DrawAlphaMaterialObjects (deferredPass : bool)
| DrawShadowMaterialObjects (deferredPass : bool)
| LuaDrawSingleObject (p : ptr)
| LuaDrawSingleObjectNoTrans (p : ptr)
| GetSetDrawDebug (b : bool).               (* globalRendering->GetSetDrawDebug(b) *)

(** The answers of the Lua hooks. *)
Record LuaHooks : Type := mkLuaHooks {
  LuaDrawFeature : ptr -> bool;             (* eventHandler.DrawFeature(feature) *)
  DrawSingleObject : ptr -> bool;           (* LuaObjectDrawer::DrawSingleObject *)
  DrawSingleObjectNoTrans : ptr -> bool
}.

(** [CFeatureDrawer::DrawFeatureModel(feature, noLuaCall)]; the hook is
    called only when the two tests before it succeed. *)
Definition DrawFeatureModel (L : LuaHooks) (w : World) (p : ptr) (noLuaCall : bool)
    : list GLCall :=
  if negb noLuaCall && luaDraw (heap w p) then
    if LuaDrawFeature L p then [eventHandler_DrawFeature p]
    else [eventHandler_DrawFeature p; localModel_Draw p]
  else [localModel_Draw p].

(** [CFeatureDrawer::DrawFeatureNoTrans(feature, preList, postList, lodCall,
    noLuaCall)] *)
Definition DrawFeatureNoTrans (L : LuaHooks) (w : World) (p : ptr) (preList postList : Z)
    (lodCall noLuaCall : bool) : list GLCall :=
  (if negb (preList =? 0) then [glCallList preList] else [])
  ++ DrawFeatureModel L w p noLuaCall
  ++ (if negb (postList =? 0) then [glCallList postList] else []).

(** [CFeatureDrawer::DrawFeature(feature, preList, postList, lodCall,
    noLuaCall)] *)
Definition CFeatureDrawer_DrawFeature (L : LuaHooks) (w : World) (p : ptr)
    (preList postList : Z) (lodCall noLuaCall : bool) : list GLCall :=
  [glPushMatrix; glMultMatrixf p]
  ++ DrawFeatureNoTrans L w p preList postList lodCall noLuaCall
  ++ [glPopMatrix].

(** [CFeatureDrawer::PushIndividualState(feature, deferredPass)] *)
Definition PushIndividualState (w : World) (p : ptr) (deferredPass : bool) : list GLCall :=
  [SetupOpaqueDrawing false; PushModelRenderState_feature p;
   Collab (SetTeamColour (team (heap w p)) None)].

(** [CFeatureDrawer::PopIndividualState(feature, deferredPass)] *)
Definition PopIndividualState (w : World) (p : ptr) (deferredPass : bool) : list GLCall :=
  [PopModelRenderState_feature p; ResetOpaqueDrawing false].

(** [CFeatureDrawer::DrawIndividual(feature, noLuaCall)].  [drawDebug] is
    the debug-drawing flag of [globalRendering]; [GetSetDrawDebug] is not
    under src/ and is taken to store its argument and return the previous
    value.  The result is the flag afterwards and the calls. *)
Definition DrawIndividual (L : LuaHooks) (w : World) (p : ptr) (noLuaCall : bool)
    (drawDebug : bool) : bool * list GLCall :=
  let origDrawDebug := drawDebug in
  (origDrawDebug,
   [GetSetDrawDebug false; LuaDrawSingleObject p]
   ++ (if negb (DrawSingleObject L p) then
         (* set the full default state *)
         PushIndividualState w p false
         ++ CFeatureDrawer_DrawFeature L w p 0 0 false noLuaCall
         ++ PopIndividualState w p false
       else [])
   ++ [GetSetDrawDebug origDrawDebug]).

(** [CFeatureDrawer::DrawIndividualNoTrans(feature, noLuaCall)] *)
Definition DrawIndividualNoTrans (L : LuaHooks) (w : World) (p : ptr) (noLuaCall : bool)
    (drawDebug : bool) : bool * list GLCall :=
  let origDrawDebug := drawDebug in
  (origDrawDebug,
   [GetSetDrawDebug false; LuaDrawSingleObjectNoTrans p]
   ++ (if negb (DrawSingleObjectNoTrans L p) then
         PushIndividualState w p false
         ++ DrawFeatureNoTrans L w p 0 0 false noLuaCall
         ++ PopIndividualState w p false
       else [])
   ++ [GetSetDrawDebug origDrawDebug]).

(** The static [SetFeatureAlphaDrawState(f, ffp)]; [alpha] is
    [f->drawAlpha], [fhalf] the literal [0.5f]. *)
Definition SetFeatureAlphaDrawState_calls (alpha : float) (ffp : bool) : list GLCall :=
  (if ffp then
     [glMaterialfv GL_FRONT_AND_BACK GL_AMBIENT_AND_DIFFUSE fone fone fone alpha;
      glColor4fv fone fone fone alpha]
   else [])
  (* hack, sorting objects by distance would look better *)
  ++ [glAlphaFunc GL_GREATER (fmul alpha fhalf)].

(** What a call recorded by a batcher issues: [DrawFeature(f, 0, 0, false,
    false)] and [SetFeatureAlphaDrawState] are functions of this file, the
    other calls go to collaborators. *)
Definition issued (L : LuaHooks) (w : World) (c : Call) : list GLCall :=
  match c with
  | DrawFeature p => CFeatureDrawer_DrawFeature L w p 0 0 false false
  | SetFeatureAlphaDrawState p alpha ffp => SetFeatureAlphaDrawState_calls alpha ffp
  | _ => [Collab c]
  end.

(** [CFeatureDrawer::DrawOpaquePass(deferredPass, ., .)] with every call. *)
Definition CFeatureDrawer_DrawOpaquePass (G : Globals) (L : LuaHooks) (w : World)
    (deferredPass : bool) : list GLCall :=
  [SetupOpaqueDrawing deferredPass]
  ++ flat_map
       (fun modelType =>
          [PushModelRenderState modelType]
          ++ flat_map (issued L w) (DrawOpaqueFeatures G w modelType)
          ++ [PopModelRenderState modelType])
       (model_types_from MODELTYPE_3DO)
  ++ [ResetOpaqueDrawing deferredPass]
  (* draw all custom'ed features that were bypassed in the loop above *)
  ++ [SetDrawPassGlobalLODFactor; DrawOpaqueMaterialObjects deferredPass].

(** [CFeatureDrawer::DrawAlphaPass()] with every call; the result is the
    drawer afterwards and the calls. *)
Definition CFeatureDrawer_DrawAlphaPass (G : Globals) (L : LuaHooks) (w : World)
    : World * list GLCall :=
  let w1 := mkWorld (heap w) (set_inAlphaPass (fd w) true) (drawFrame w) in
  (mkWorld (heap w1) (set_inAlphaPass (fd w1) false) (drawFrame w1),
   [SetupAlphaDrawing false;
    glPushAttrib [GL_COLOR_BUFFER_BIT; GL_DEPTH_BUFFER_BIT];
    glDepthMask GL_TRUE;
    glEnable GL_ALPHA_TEST;
    glAlphaFunc GL_GREATER fhalf;
    ISky_SetupFog]
   ++ flat_map
        (fun modelType =>
           [PushModelRenderState modelType]
           ++ flat_map (issued L w1) (DrawAlphaFeatures G w1 modelType)
           ++ [PopModelRenderState modelType])
        (model_types_from MODELTYPE_3DO)
   ++ [glDisable GL_FOG; glPopAttrib; ResetAlphaDrawing false]
   ++ [SetDrawPassGlobalLODFactor; DrawAlphaMaterialObjects false]).

(** [CFeatureDrawer::DrawShadowPass()] with every call. *)
Definition CFeatureDrawer_DrawShadowPass (G : Globals) (L : LuaHooks) (w : World)
    : World * list GLCall :=
  let w1 := mkWorld (heap w) (set_inShadowPass (fd w) true) (drawFrame w) in
  (* mark all features (in the quads we can see) with FD_SHADOW_FLAG *)
  let w2 := GetVisibleFeatures G w1 (shadowCamera G) false in
  (mkWorld (heap w2) (set_inShadowPass (fd w2) false) (drawFrame w2),
   [glPolygonOffset fone fone; glEnable GL_POLYGON_OFFSET_FILL; ShadowGenProg_Enable]
   (* need the alpha-mask for transparent features *)
   ++ [glEnable GL_TEXTURE_2D; glPushAttrib [GL_COLOR_BUFFER_BIT];
       glEnable GL_ALPHA_TEST; glAlphaFunc GL_GREATER fhalf;
       glBindTexture GL_TEXTURE_2D 0]
   (* 3DO's have clockwise-wound faces and (usually) holes, so disable
      backface culling for them *)
   ++ [glDisable GL_CULL_FACE]
   ++ flat_map (issued L w2) (DrawOpaqueFeatures G w2 MODELTYPE_3DO)
   ++ [glEnable GL_CULL_FACE]
   ++ flat_map
        (fun modelType => flat_map (issued L w2) (DrawOpaqueFeatures G w2 modelType))
        (model_types_from MODELTYPE_S3O)
   ++ [glPopAttrib; glDisable GL_TEXTURE_2D]
   ++ [ShadowGenProg_Disable; glDisable GL_POLYGON_OFFSET_FILL]
   ++ [SetDrawPassGlobalLODFactor; DrawShadowMaterialObjects false]).

(** *** Notions for the statements about these calls *)

(** The state changes that come in pairs. *)
Inductive Bracket : Type :=
| BMatrix                        (* glPushMatrix .. glPopMatrix *)
| BAttrib                        (* glPushAttrib .. glPopAttrib *)
| BModelState (modelType : nat)  (* Push/PopModelRenderState(modelType) *)
| BFeatureState (p : ptr)        (* Push/PopModelRenderState(feature) *)
| BOpaque (deferredPass : bool)  (* Setup/ResetOpaqueDrawing *)
| BAlpha (deferredPass : bool)   (* Setup/ResetAlphaDrawing *)
| BShadowProg.                   (* po->Enable() .. po->Disable() *)

Definition Bracket_eqb (a b : Bracket) : bool :=
  match a, b with
  | BMatrix, BMatrix | BAttrib, BAttrib | BShadowProg, BShadowProg => true
  | BModelState m, BModelState n => Nat.eqb m n
  | BFeatureState p, BFeatureState q => Nat.eqb p q
  | BOpaque x, BOpaque y | BAlpha x, BAlpha y => Bool.eqb x y
  | _, _ => false
  end.

Definition opens (c : GLCall) : option Bracket :=
  match c with
  | glPushMatrix => Some BMatrix
  | glPushAttrib _ => Some BAttrib
  | PushModelRenderState modelType => Some (BModelState modelType)
  | PushModelRenderState_feature p => Some (BFeatureState p)
  | SetupOpaqueDrawing b => Some (BOpaque b)
  | SetupAlphaDrawing b => Some (BAlpha b)
  | ShadowGenProg_Enable => Some BShadowProg
  | _ => None
  end.

Definition closes (c : GLCall) : option Bracket :=
  match c with
  | glPopMatrix => Some BMatrix
  | glPopAttrib => Some BAttrib
  | PopModelRenderState modelType => Some (BModelState modelType)
  | PopModelRenderState_feature p => Some (BFeatureState p)
  | ResetOpaqueDrawing b => Some (BOpaque b)
  | ResetAlphaDrawing b => Some (BAlpha b)
  | ShadowGenProg_Disable => Some BShadowProg
  | _ => None
  end.

(** The open state changes after [calls], starting with [stack] open;
    [None] when a closing call does not match the innermost open one. *)
Fixpoint nested (stack : list Bracket) (calls : list GLCall) : option (list Bracket) :=
  match calls with
  | [] => Some stack
  | c :: tl =>
      match opens c, closes c with
      | Some b, _ => nested (b :: stack) tl
      | None, Some b =>
          match stack with
          | b' :: s => if Bracket_eqb b b' then nested s tl else None
          | [] => None
          end
      | None, None => nested stack tl
      end
  end.

(** Calls that leave the open state changes as they found them. *)
Definition neutral (l : list GLCall) : Prop := forall s, nested s l = Some s.

(** The models drawn by [calls], each with the transform multiplied onto
    the matrix pushed last ([None] outside [glPushMatrix .. glPopMatrix]) and
    the reference value of the alpha test in force. *)
Fixpoint model_draws (cur : option ptr * option float) (calls : list GLCall)
    : list (ptr * (option ptr * option float)) :=
  match calls with
  | [] => []
  | c :: tl =>
      match c with
      | localModel_Draw p => (p, cur) :: model_draws cur tl
      | glPushMatrix | glPopMatrix => model_draws (None, snd cur) tl
      | glMultMatrixf q => model_draws (Some q, snd cur) tl
      | glAlphaFunc _ ref => model_draws (fst cur, Some ref) tl
      | _ => model_draws cur tl
      end
  end.

(** The models drawn by [calls], in order. *)
Definition models (calls : list GLCall) : list ptr :=
  flat_map (fun c => match c with localModel_Draw p => [p] | _ => [] end) calls.

End Rendering.

(** ** The assertions of the source *)

Section Assertions.

Context {FO : FloatOps} {EC : EngineConsts}.

(** The two assertions of [UpdateDrawQuad], at the point where control
    reaches them. *)
Definition UpdateDrawQuad_asserts (w : World) (p : ptr) : Prop :=
  let feature := heap w p in
  let oldDrawQuad := drawQuad feature in
  if oldDrawQuad <? -1 then True
  else
    let nq := newDrawQuad (fd w) feature in
    if oldDrawQuad =? nq then True
    else
      oldDrawQuad < drawQuadsX (fd w) * drawQuadsY (fd w)
      /\ (nq < drawQuadsX (fd w) * drawQuadsY (fd w) /\ nq >= 0).

(** The two assertions of [DrawQuad], for every object of the cell: the
    first is reached by all, the second by those that are neither [noDraw]
    nor in the void. *)
Definition DrawQuad_asserts (qd : CFeatureQuadDrawer) (w : World) (x y : Z) : Prop :=
  match cell_at (modelRenderers (fd w)) (y * qd_drawQuadsX qd + x) with
  | None => True
  | Some mdlRenderProxy =>
      forall p, In p (cell_features mdlRenderProxy) ->
        y * qd_drawQuadsX qd + x = drawQuad (heap w p)
        /\ (noDraw (heap w p) = false -> IsInVoid (heap w p) = false ->
            def_drawType (heap w p) = DRAWTYPE_MODEL)
  end.

(** The assertions of the calls of [DrawQuad] that a grid walk makes. *)
Fixpoint GridVisibility_asserts (G : Globals) (qd : CFeatureQuadDrawer) (w : World)
    (l : list (Z * Z)) : Prop :=
  match l with
  | [] => True
  | xy :: tl =>
      DrawQuad_asserts qd w (fst xy) (snd xy)
      /\ GridVisibility_asserts G qd (DrawQuad G qd w (fst xy) (snd xy)) tl
  end.

(** The assertion of [GetVisibleFeatures]:
    [cam->GetCamType() < camVisibleQuadFlags.size()], for a camera type that
    is not negative. *)
Definition GetVisibleFeatures_asserts (d : CFeatureDrawer) (cam : CCamera) : Prop :=
  0 <= camType cam < camVisibleQuadFlags_size d.

(** The assertions reached while the drawer handles an event. *)
Definition step_asserts (w : World) (e : event) : Prop :=
  match e with
  | EvCreated G p f =>
      let w := mkWorld (upd (heap w) p f) (fd w) (drawFrame w) in
      def_drawType (heap w p) = DRAWTYPE_MODEL ->
      let w := mkWorld (upd (heap w) p (set_drawQuad (heap w p) (-1))) (fd w) (drawFrame w) in
      let w := mkWorld (upd (heap w) p (snd (SetDrawAlphaValue_default G (heap w p) None)))
                       (fd w) (drawFrame w) in
      UpdateDrawQuad_asserts w p
  | EvMoved p q =>
      UpdateDrawQuad_asserts
        (mkWorld (upd (heap w) p (set_pos (heap w p) q)) (fd w) (drawFrame w)) p
  | EvVisible G cam drawFar =>
      (* should only ever be called for the first three types *)
      GetVisibleFeatures_asserts (fd w) cam
      /\ let d := set_camVisibleQuadFlags (fd w)
                    (fun t => if t =? camType cam then drawFrame w
                              else camVisibleQuadFlags (fd w) t) in
         GridVisibility_asserts G (quad_drawer G d cam drawFar)
           (mkWorld (heap w) d (drawFrame w)) (GridVisibility G cam)
  | _ => True
  end.

(** The cameras of the visibility passes of a run are of a type that has an
    entry in [camVisibleQuadFlags] of the drawer [d]. *)
Definition cameras_ok (d : CFeatureDrawer) (evs : list event) : Prop :=
  forall G cam drawFar, In (EvVisible G cam drawFar) evs ->
    0 <= camType cam < camVisibleQuadFlags_size d.

Fixpoint run_asserts (w : World) (evs : list event) : Prop :=
  match evs with
  | [] => True
  | e :: tl => step_asserts w e /\ run_asserts (step w e) tl
  end.

End Assertions.

(** Lua hooks that never take over. *)
Definition ex_hooks : LuaHooks :=
  mkLuaHooks (fun _ => false) (fun _ => false) (fun _ => false).

Section MoreSpecs6.

Context {FO : FloatOps} {EC : EngineConsts}.

(** Is [p] an object of one of the cells [l] handed to [DrawQuad], on a
    grid [v] of width [X]? *)
Definition in_visited (X : Z) (v : list ModelRendererProxy) (l : list (Z * Z)) (p : ptr)
    : bool :=
  existsb (fun xy =>
             match cell_at v (snd xy * X + fst xy) with
             | Some c => mem p (cell_features c)
             | None => false
             end) l.

End MoreSpecs6.


(** ** Auxiliary notions of the proofs about rounding

    Real values of floats, located values as the rounding functions of
    [SpecFloat] carry them, and rounding to nearest as a relation. *)

Unset Implicit Arguments.

(** [2^e] as a real number. *)
Definition bpow (e : Z) : R := powerRZ 2 e.

(** [x], in units of the last place kept, lies at [m] or between [m] and
    [m + 1]: below, at or above the midpoint. *)

Definition inbetween_int (m : Z) (l : location) (x : R) : Prop :=
  match l with
  | loc_Exact => x = IZR m
  | loc_Inexact Lt => (IZR m < x < IZR m + / 2)%R
  | loc_Inexact Eq => x = (IZR m + / 2)%R
  | loc_Inexact Gt => (IZR m + / 2 < x < IZR m + 1)%R
  end.

Definition inb_rec (mrs : shr_record) (x : R) : Prop :=
  inbetween_int (shr_m mrs) (loc_of_shr_record mrs) x.

Section RoundDefs.
Variables prec emax : Z.

Definition cexp_of (v : R) (e : Z) : Prop :=
  emin prec emax <= e /\ (v < bpow (e + prec))%R
  /\ (e = emin prec emax \/ (bpow (e + prec - 1) <= v)%R).

Definition rne_of (x : R) (n : Z) : Prop :=
  (IZR n - / 2 <= x <= IZR n + / 2)%R
  /\ (x = (IZR n + / 2)%R -> Z.even n = true)
  /\ (x = (IZR n - / 2)%R -> Z.even n = true).

Definition finish (sx : bool) (n e : Z) : spec_float :=
  let n' := if n =? 2 ^ prec then 2 ^ (prec - 1) else n in
  let e' := if n =? 2 ^ prec then e + 1 else e in
  match n' with
  | Z0 => S754_zero sx
  | Zpos m => if e' <=? emax - prec then S754_finite sx m e' else S754_infinity sx
  | Zneg _ => S754_nan
  end.

Definition Rounds (sx : bool) (v : R) (r : spec_float) : Prop :=
  exists e n, cexp_of v e /\ rne_of (v * bpow (- e)) n /\ r = finish sx n e.

End RoundDefs.


(** The real value of a finite float. *)
Definition F2R (x : spec_float) : R :=
  match x with
  | S754_finite s m e => ((if s then -1 else 1) * IZR (Zpos m) * bpow e)%R
  | _ => 0%R
  end.

Section CanonDefs.
Variables prec emax : Z.

(** A mantissa and exponent in canonical form (possibly zero). *)
Definition canon (n e : Z) : Prop :=
  0 <= n < 2 ^ prec /\ emin prec emax <= e
  /\ (e = emin prec emax \/ 2 ^ (prec - 1) <= n).

(** The float of a canonical mantissa and exponent, with overflow. *)
Definition pack (sx : bool) (n e : Z) : spec_float :=
  match n with
  | Z0 => S754_zero sx
  | Zpos m => if e <=? emax - prec then S754_finite sx m e else S754_infinity sx
  | Zneg _ => S754_nan
  end.

(** Neither NaN nor an infinity, and in canonical form. *)
Definition fin_valid (x : spec_float) : bool :=
  match x with
  | S754_zero _ => true
  | S754_finite _ m e => SpecFloat.bounded prec emax m e
  | _ => false
  end.

(** Rounding of a non-negative value; a zero result has either sign. *)
Definition RoundsZ (v : R) (r : spec_float) : Prop :=
  (v = 0%R /\ exists s, r = S754_zero s) \/ ((0 < v)%R /\ Rounds prec emax false v r).

End CanonDefs.

(** What a comparison says about two real values. *)
Definition cmp_spec (c : option comparison) (a b : R) : Prop :=
  match c with
  | Some Lt => (a < b)%R
  | Some Eq => a = b
  | Some Gt => (b < a)%R
  | None => False
  end.

(** One half in binary32, [1.0f / (1.0f + 1.0f)]. *)
Definition B32_half : spec_float :=
  SFdiv B32.prec B32.emax B32.one (SFadd B32.prec B32.emax B32.one B32.one).


(* ================================================================== *)
(** * Part II: lemmas and theorems *)
(* ================================================================== *)

Unset Implicit Arguments.

(** ** The order and conversion laws hold for [binary32] *)

Lemma SFcompare_antisym (a b : spec_float) :
  SFcompare b a = option_map CompOpp (SFcompare a b).
Proof.
  destruct a as [sa|sa| |sa ma ea], b as [sb|sb| |sb mb eb]; simpl;
    try reflexivity;
    try (destruct sa; reflexivity); try (destruct sb; reflexivity);
    try (destruct sa, sb; reflexivity).
  pose proof (Pos.compare_cont_antisym ma mb Eq) as H. simpl in H.
  destruct sa, sb; simpl; try reflexivity;
    rewrite (Z.compare_antisym ea eb);
    destruct (ea ?= eb) eqn:E; simpl; try reflexivity.
  - rewrite <- H. reflexivity.
  - rewrite <- H. reflexivity.
Qed.

Lemma SFcompare_refl (a : spec_float) :
  SFcompare a a = Some Eq \/ SFcompare a a = None.
Proof.
  destruct a as [s|s| |s m e]; simpl; auto.
  - destruct s; auto.
  - rewrite Z.compare_refl, Pos.compare_cont_refl. destruct s; auto.
Qed.

#[export] Instance binary32_order : FloatOrderLaws binary32.
Proof.
  split; simpl.
  - reflexivity.
  - intros a b. unfold SFeqb, SFltb. destruct (SFcompare a b) as [[]|]; congruence.
  - intros a. unfold SFltb. destruct (SFcompare_refl a) as [H|H]; rewrite H; reflexivity.
  - intros a b. unfold SFleb, SFltb. destruct (SFcompare a b) as [[]|]; congruence.
  - intros a b. unfold SFleb, SFltb. rewrite (SFcompare_antisym a b).
    destruct (SFcompare a b) as [[]|]; simpl; congruence.
Qed.

Lemma pow2_pos (p : positive) : 0 < 2 ^ Zpos p.
Proof. apply Z.pow_pos_nonneg; lia. Qed.

Lemma int_of_trunc_in_range (t : Z) : INT_MIN <= t <= INT_MAX -> int_of_trunc t = t.
Proof.
  intros [A B]. unfold int_of_trunc.
  apply Z.leb_le in A, B. rewrite A, B. reflexivity.
Qed.

Lemma int_of_trunc_nonpos (t : Z) : t <= 0 -> int_of_trunc t <= 0.
Proof.
  intros H. unfold int_of_trunc. destruct (_ && _); [exact H|]. unfold INT_MIN. lia.
Qed.

#[export] Instance binary32_int : FloatIntLaws binary32.
Proof.
  split.
  - intros a Hf H. destruct a as [s|s| |s m e]; try discriminate Hf; [reflexivity|].
    cbv [to_int ffloor binary32 B32.to_int B32.floor] in *.
    assert (E : cond_Zopp s (B32.trunc_mag m e)
                = match e with
                  | 0 => cond_Zopp s (Z.pos m)
                  | Z.pos p => cond_Zopp s (Z.pos m) * 2 ^ Z.pos p
                  | Z.neg p => cond_Zopp s (Z.pos m) / 2 ^ Z.pos p
                  end).
    { destruct s, e as [|p|p]; cbv [B32.trunc_mag cond_Zopp] in *; try reflexivity;
        pose proof (pow2_pos p) as Hp; pose proof (Pos2Z.is_pos m) as Hm;
        pose proof (Z.div_lt_upper_bound (- Z.pos m) (2 ^ Z.pos p) 0 Hp);
        rewrite <- ?Pos2Z.opp_pos in *; try lia; nia. }
    rewrite E. apply int_of_trunc_in_range. unfold INT_MIN. lia.
  - intros a H. destruct a as [s|s| |s m e];
      cbv [to_int ffloor binary32 B32.to_int B32.floor] in *; try lia.
    apply int_of_trunc_nonpos.
    destruct s, e as [|p|p]; cbv [B32.trunc_mag cond_Zopp] in *; try lia;
      pose proof (pow2_pos p) as Hp; pose proof (Pos2Z.is_pos m) as Hm;
      pose proof (Z.div_pos (Z.pos m) (2 ^ Z.pos p));
      rewrite <- ?Pos2Z.opp_pos in *; try lia; try nia.
Qed.

(** ** Comparisons chain *)

Lemma SFcompare_rank (x y : spec_float) :
  SFcompare x y =
    match SFrank x, SFrank y with
    | Some a, Some b => Some (rank_compare a b)
    | _, _ => None
    end.
Proof.
  destruct x as [sx|sx| |sx mx ex], y as [sy|sy| |sy my ey];
    try destruct sx; try destruct sy; try reflexivity;
    unfold SFcompare, SFrank, rank_compare; cbn [fst snd]; f_equal.
  - change (-1 ?= -1) with Eq. cbv iota.
    change (Pos.compare_cont Eq mx my) with (Pos.compare mx my).
    destruct (Z.compare_spec ex ey), (Z.compare_spec (- ex) (- ey)); try lia;
      reflexivity.
Qed.

Lemma rank_compare_chain (a b c : Z * Z * Z) :
  rank_compare a b <> Gt -> rank_compare b c = Lt -> rank_compare a c = Lt.
Proof.
  destruct a as [[a1 a2] a3], b as [[b1 b2] b3], c as [[c1 c2] c3].
  unfold rank_compare. cbn [fst snd].
  destruct (a1 ?= b1) eqn:E1, (b1 ?= c1) eqn:E2;
    destruct (a2 ?= b2) eqn:E3, (b2 ?= c2) eqn:E4;
    destruct (a3 ?= b3) eqn:E5, (b3 ?= c3) eqn:E6;
    intros H1 H2; try congruence;
    rewrite ?Z.compare_eq_iff, ?Z.compare_lt_iff, ?Z.compare_gt_iff in *;
    repeat match goal with
           | |- context [?u ?= ?v] => destruct (Z.compare_spec u v)
           end; try reflexivity; lia.
Qed.

#[export] Instance binary32_chain : FloatChainLaws binary32.
Proof.
  split. cbn. intros a b c. unfold SFleb, SFltb. rewrite !SFcompare_rank.
  destruct (SFrank a) as [ra|], (SFrank b) as [rb|], (SFrank c) as [rc|];
    try discriminate.
  intros H1 H2.
  rewrite (rank_compare_chain ra rb rc); [reflexivity| |].
  - destruct (rank_compare ra rb); congruence.
  - destruct (rank_compare rb rc); congruence.
Qed.

Lemma rank_compare_le_chain (a b c : Z * Z * Z) :
  rank_compare a b <> Gt -> rank_compare b c <> Gt -> rank_compare a c <> Gt.
Proof.
  destruct a as [[a1 a2] a3], b as [[b1 b2] b3], c as [[c1 c2] c3].
  unfold rank_compare. cbn [fst snd].
  destruct (Z.compare_spec a1 b1), (Z.compare_spec b1 c1);
    destruct (Z.compare_spec a2 b2), (Z.compare_spec b2 c2);
    destruct (Z.compare_spec a3 b3), (Z.compare_spec b3 c3);
    intros X1 X2; try congruence;
    repeat match goal with
           | |- context [?u ?= ?v] => destruct (Z.compare_spec u v)
           end; try congruence; lia.
Qed.

Lemma b32_leb_trans (a b c : spec_float) :
  SFleb a b = true -> SFleb b c = true -> SFleb a c = true.
Proof.
  unfold SFleb. rewrite !SFcompare_rank.
  destruct (SFrank a) as [ra|], (SFrank b) as [rb|], (SFrank c) as [rc|];
    try discriminate.
  intros H1 H2. pose proof (rank_compare_le_chain ra rb rc) as H.
  destruct (rank_compare ra rb), (rank_compare rb rc), (rank_compare ra rc);
    try reflexivity; try discriminate; exfalso; apply H; congruence.
Qed.

(** ** Rounding in [SpecFloat]

    The operations of [SpecFloat] round the exact result to the nearest
    number of the format, ties to even.  This is shown here for the sums,
    differences and quotients the fade window needs, and gives the laws of
    [FloatArithLaws] for [binary32]. *)

Lemma bpow_gt_0 (e : Z) : (0 < bpow e)%R.
Proof. unfold bpow. apply powerRZ_lt. lra. Qed.

Lemma bpow_plus (a b : Z) : bpow (a + b) = (bpow a * bpow b)%R.
Proof. unfold bpow. apply powerRZ_add. lra. Qed.

Lemma bpow_0 : bpow 0 = 1%R.
Proof. reflexivity. Qed.

Lemma bpow_1 : bpow 1 = 2%R.
Proof. unfold bpow. simpl. lra. Qed.

Lemma bpow_m1 : bpow (-1) = (/ 2)%R.
Proof. unfold bpow. simpl. f_equal. lra. Qed.

Lemma bpow_opp (e : Z) : bpow (- e) = (/ bpow e)%R.
Proof.
  assert (H : (bpow (- e) * bpow e = 1)%R).
  { rewrite <- bpow_plus. replace (- e + e) with 0 by lia. apply bpow_0. }
  pose proof (bpow_gt_0 e). apply (Rmult_eq_reg_r (bpow e)); [|lra].
  rewrite H. field. lra.
Qed.

Lemma bpow_cancel (e : Z) : (bpow e * bpow (- e) = 1)%R.
Proof. rewrite <- bpow_plus. replace (e + - e) with 0 by lia. apply bpow_0. Qed.

Lemma bpow_IZR (z : Z) : 0 <= z -> bpow z = IZR (2 ^ z).
Proof.
  intros H. unfold bpow. destruct z as [|p|p]; [reflexivity| |lia].
  simpl powerRZ. rewrite <- (positive_nat_Z p).
  rewrite <- pow_IZR. reflexivity.
Qed.

Lemma bpow_ge_1 (z : Z) : 0 <= z -> (1 <= bpow z)%R.
Proof.
  intros H. rewrite bpow_IZR by exact H. apply IZR_le.
  pose proof (Z.pow_pos_nonneg 2 z). lia.
Qed.

Lemma bpow_le (a b : Z) : a <= b -> (bpow a <= bpow b)%R.
Proof.
  intros H. replace b with (a + (b - a)) by lia. rewrite bpow_plus.
  pose proof (bpow_gt_0 a). pose proof (bpow_ge_1 (b - a)).
  assert (1 <= bpow (b - a))%R by (apply H1; lia). nra.
Qed.

Lemma bpow_lt (a b : Z) : a < b -> (bpow a < bpow b)%R.
Proof.
  intros H. replace b with (a + 1 + (b - a - 1)) by lia. rewrite !bpow_plus, bpow_1.
  pose proof (bpow_gt_0 a). pose proof (bpow_ge_1 (b - a - 1)).
  assert (1 <= bpow (b - a - 1))%R by (apply H1; lia). nra.
Qed.

Lemma bpow_lt_inv (a b : Z) : (bpow a < bpow b)%R -> a < b.
Proof.
  intros H. destruct (Z_lt_le_dec a b) as [L|L]; [exact L|].
  pose proof (bpow_le b a L). lra.
Qed.

Lemma bpow_le_inv (a b : Z) : (bpow a <= bpow b)%R -> a <= b.
Proof.
  intros H. destruct (Z_le_gt_dec a b) as [L|L]; [exact L|].
  assert (b < a) by lia. pose proof (bpow_lt b a H0). lra.
Qed.

(** digits *)

Lemma digits2_pos_bounds (m : positive) :
  2 ^ (Zpos (digits2_pos m) - 1) <= Zpos m < 2 ^ Zpos (digits2_pos m).
Proof.
  induction m as [p IH|p IH|]; cbn [digits2_pos].
  - rewrite Pos2Z.inj_succ. replace (Z.succ (Zpos (digits2_pos p)) - 1) with (Z.succ (Zpos (digits2_pos p) - 1)) by lia.
    rewrite !Z.pow_succ_r by lia. lia.
  - rewrite Pos2Z.inj_succ. replace (Z.succ (Zpos (digits2_pos p)) - 1) with (Z.succ (Zpos (digits2_pos p) - 1)) by lia.
    rewrite !Z.pow_succ_r by lia. lia.
  - simpl. lia.
Qed.

Lemma Zdigits2_bounds (m : Z) :
  0 < m -> 2 ^ (Zdigits2 m - 1) <= m < 2 ^ Zdigits2 m.
Proof.
  destruct m as [|p|p]; try lia. intros _. apply digits2_pos_bounds.
Qed.

Lemma Zdigits2_nonneg (m : Z) : 0 <= Zdigits2 m.
Proof. destruct m; simpl; lia. Qed.

Lemma Zdigits2_le (m : Z) (k : Z) : 0 <= k -> 0 <= m -> m < 2 ^ k -> Zdigits2 m <= k.
Proof.
  intros Hk Hm H. destruct (Z.eq_dec m 0) as [->|N]; [simpl; lia|].
  pose proof (Zdigits2_bounds m ltac:(lia)) as [L U].
  destruct (Z_le_gt_dec (Zdigits2 m) k) as [X|X]; [exact X|].
  assert (2 ^ k <= 2 ^ (Zdigits2 m - 1)) by (apply Z.pow_le_mono_r; lia). lia.
Qed.

Lemma Zdigits2_ge (m : Z) (k : Z) : 0 <= k -> 2 ^ k <= m -> k + 1 <= Zdigits2 m.
Proof.
  intros Hk H. assert (0 < m) by (pose proof (Z.pow_pos_nonneg 2 k); lia).
  pose proof (Zdigits2_bounds m H0) as [L U].
  destruct (Z_le_gt_dec (k + 1) (Zdigits2 m)) as [X|X]; [exact X|].
  pose proof (Zdigits2_nonneg m).
  assert (2 ^ Zdigits2 m <= 2 ^ k) by (apply Z.pow_le_mono_r; lia). lia.
Qed.

(** shifting right *)

Lemma shr_1_spec (mrs : shr_record) (x : R) :
  0 <= shr_m mrs -> inb_rec mrs x ->
  inb_rec (shr_1 mrs) (x * / 2) /\ 0 <= shr_m (shr_1 mrs).
Proof.
  destruct mrs as [m r s]. unfold inb_rec. cbn [shr_m].
  destruct m as [|p|p]; [|destruct p as [p|p|]|]; intros Hm; try lia;
    destruct r, s; cbn [shr_1 orb loc_of_shr_record shr_m inbetween_int];
    try change (Z.pos p~1) with (2 * Z.pos p + 1);
    try change (Z.pos p~0) with (2 * Z.pos p);
    rewrite ?plus_IZR, ?mult_IZR; intros H; (split; [lra|lia]).
Qed.

Lemma iter_shr_1 (n : positive) : forall (mrs : shr_record) (x : R),
  0 <= shr_m mrs -> inb_rec mrs x ->
  inb_rec (@SpecFloat.iter_pos _ shr_1 n mrs) (x * bpow (- Zpos n))
  /\ 0 <= shr_m (@SpecFloat.iter_pos _ shr_1 n mrs).
Proof.
  induction n as [n IH|n IH|]; intros mrs x Hm H; cbn [SpecFloat.iter_pos].
  - destruct (shr_1_spec mrs x Hm H) as [A1 A2].
    destruct (IH _ _ A2 A1) as [B1 B2].
    destruct (IH _ _ B2 B1) as [C1 C2]. split; [|exact C2].
    replace (- Z.pos n~1) with (-1 + - Z.pos n + - Z.pos n) by lia.
    rewrite !bpow_plus, bpow_m1.
    replace (x * (/ 2 * bpow (- Z.pos n) * bpow (- Z.pos n)))%R
      with (x * / 2 * bpow (- Z.pos n) * bpow (- Z.pos n))%R by ring.
    exact C1.
  - destruct (IH _ _ Hm H) as [B1 B2].
    destruct (IH _ _ B2 B1) as [C1 C2]. split; [|exact C2].
    replace (- Z.pos n~0) with (- Z.pos n + - Z.pos n) by lia.
    rewrite !bpow_plus.
    replace (x * (bpow (- Z.pos n) * bpow (- Z.pos n)))%R
      with (x * bpow (- Z.pos n) * bpow (- Z.pos n))%R by ring.
    exact C1.
  - change (- Z.pos 1) with (Z.neg 1). rewrite bpow_m1. apply shr_1_spec; assumption.
Qed.

Lemma shr_record_of_loc_spec (m : Z) (l : location) (x : R) :
  inbetween_int m l x -> inb_rec (shr_record_of_loc m l) x.
Proof. destruct l as [|[]]; exact (fun H => H). Qed.

Lemma shr_spec (mrs : shr_record) (e n : Z) (v : R) :
  0 <= n -> 0 <= shr_m mrs -> inb_rec mrs (v * bpow (- e)) ->
  let r := shr mrs e n in
  snd r = e + n /\ inb_rec (fst r) (v * bpow (- (e + n))) /\ 0 <= shr_m (fst r).
Proof.
  intros Hn Hm H. unfold shr. destruct n as [|p|p]; cbn [fst snd]; try lia.
  - rewrite Z.add_0_r. auto.
  - destruct (iter_shr_1 p mrs _ Hm H) as [A B]. split; [reflexivity|]. split; [|exact B].
    replace (- (e + Z.pos p)) with (- e + - Z.pos p) by lia. rewrite bpow_plus.
    rewrite <- Rmult_assoc. exact A.
Qed.

Lemma shr_m_of_loc (m : Z) (l : location) : shr_m (shr_record_of_loc m l) = m.
Proof. destruct l as [|[]]; reflexivity. Qed.

Lemma inbetween_bounds (m : Z) (l : location) (x : R) :
  inbetween_int m l x -> (IZR m <= x < IZR m + 1)%R.
Proof. destruct l as [|[]]; simpl; lra. Qed.

Lemma inb_rec_int (mrs : shr_record) (k : Z) : inb_rec mrs (IZR k) -> shr_m mrs = k.
Proof.
  destruct mrs as [m r s]. unfold inb_rec. cbn [shr_m].
  intros H. pose proof (inbetween_bounds _ _ _ H) as [A B].
  apply le_IZR in A. rewrite <- succ_IZR in B. apply lt_IZR in B.
  destruct r, s; cbn [loc_of_shr_record inbetween_int] in H.
  - assert (m = k) by lia. subst. lra.
  - assert (m = k) by lia. subst. lra.
  - assert (m = k) by lia. subst. lra.
  - apply eq_IZR in H. lia.
Qed.

Lemma Z_le_of_IZR_lt_succ (a b : Z) : (IZR a < IZR b + 1)%R -> a <= b.
Proof. intros H. rewrite <- succ_IZR in H. apply lt_IZR in H. lia. Qed.

Lemma round_nearest_even_rne (mrs : shr_record) (x : R) :
  inb_rec mrs x -> rne_of x (round_nearest_even (shr_m mrs) (loc_of_shr_record mrs)).
Proof.
  destruct mrs as [m r s]. unfold inb_rec, rne_of. cbn [shr_m].
  destruct r, s; cbn [loc_of_shr_record inbetween_int round_nearest_even]; intros H.
  - rewrite plus_IZR. repeat split; try lra.
  - subst x. destruct (Z.even m) eqn:E.
    + repeat split; try lra. intros _. exact E.
    + rewrite plus_IZR. repeat split; try lra. intros _.
      change (m + 1) with (Z.succ m). rewrite Z.even_succ, <- Z.negb_even, E. reflexivity.
  - repeat split; try lra.
  - subst x. repeat split; try lra.
Qed.

Section Round.
Variables prec emax : Z.
Hypothesis Hprec : 0 < prec.
Hypothesis Hemax : prec < emax.

Local Set Default Proof Using "All".

Local Abbreviation emin := (SpecFloat.emin prec emax).
Local Abbreviation fexp := (SpecFloat.fexp prec emax).

Lemma fexp_eq (k : Z) : fexp k = Z.max (k - prec) emin.
Proof. reflexivity. Qed.

Lemma value_of_scaled (v x : R) (e : Z) : x = (v * bpow (- e))%R -> v = (x * bpow e)%R.
Proof.
  intros ->. rewrite Rmult_assoc. replace (bpow (- e) * bpow e)%R with 1%R; [ring|].
  rewrite Rmult_comm. symmetry. apply bpow_cancel.
Qed.

Lemma cexp_of_located (mx ex : Z) (lx : location) (v : R) :
  0 <= mx -> inbetween_int mx lx (v * bpow (- ex)) -> ex <= fexp (Zdigits2 mx + ex) ->
  cexp_of prec emax v (fexp (Zdigits2 mx + ex)).
Proof.
  intros Hm Hin Hex. pose proof (inbetween_bounds _ _ _ Hin) as [L U].
  pose proof (value_of_scaled v _ ex eq_refl) as Ev.
  pose proof (bpow_gt_0 ex) as Pe.
  set (x := (v * bpow (- ex))%R) in *.
  rewrite fexp_eq in *. unfold cexp_of.
  destruct (Z.eq_dec mx 0) as [->|N].
  - cbn [Zdigits2] in *. rewrite Z.add_0_l in *.
    assert (E1 : Z.max (ex - prec) emin = emin) by lia.
    rewrite E1 in *. split; [lia|]. split; [|left; reflexivity].
    assert (v < bpow ex)%R by (rewrite Ev; simpl in U; nra).
    pose proof (bpow_le ex (emin + prec)). assert (ex <= emin + prec) by lia.
    specialize (H0 H1). lra.
  - pose proof (Zdigits2_bounds mx ltac:(lia)) as [A B].
    pose proof (Zdigits2_nonneg mx) as Dn.
    assert (D1 : 1 <= Zdigits2 mx).
    { destruct mx; simpl in *; lia. }
    set (d := Zdigits2 mx) in *.
    assert (A' : (bpow (d - 1) <= IZR mx)%R).
    { rewrite bpow_IZR by lia. apply IZR_le. exact A. }
    assert (B' : (IZR mx + 1 <= bpow d)%R).
    { rewrite bpow_IZR by lia. rewrite <- succ_IZR. apply IZR_le. lia. }
    assert (Lv : (bpow (d - 1 + ex) <= v)%R).
    { rewrite bpow_plus, Ev. nra. }
    assert (Uv : (v < bpow (d + ex))%R).
    { rewrite bpow_plus, Ev. nra. }
    split; [lia|]. split.
    + pose proof (bpow_le (d + ex) (Z.max (d + ex - prec) emin + prec) ltac:(lia)). lra.
    + destruct (Z.eq_dec (Z.max (d + ex - prec) emin) emin) as [E|E]; [left; exact E|right].
      replace (Z.max (d + ex - prec) emin + prec - 1) with (d - 1 + ex) by lia. exact Lv.
Qed.

Lemma rne_bounds (v : R) (e n : Z) :
  (0 <= v)%R -> cexp_of prec emax v e -> rne_of (v * bpow (- e)) n -> 0 <= n <= 2 ^ prec.
Proof.
  intros Hv (C1 & C2 & C3) ((R1 & R2) & _).
  pose proof (bpow_gt_0 (- e)) as P.
  assert (X : (v * bpow (- e) < bpow prec)%R).
  { assert (Eb : bpow prec = (bpow (e + prec) * bpow (- e))%R).
    { rewrite <- bpow_plus. f_equal. lia. }
    rewrite Eb. nra. }
  rewrite (bpow_IZR prec) in X by lia. split.
  - assert (-1 < n); [|lia]. apply lt_IZR. assert (0 <= v * bpow (- e))%R by (apply Rmult_le_pos; lra). lra.
  - apply Z_le_of_IZR_lt_succ. lra.
Qed.

Lemma binary_round_aux_Rounds (sx : bool) (mx ex : Z) (lx : location) (v : R) :
  0 <= mx -> inbetween_int mx lx (v * bpow (- ex)) -> ex <= fexp (Zdigits2 mx + ex) ->
  Rounds prec emax sx v (binary_round_aux prec emax sx mx ex lx).
Proof.
  intros Hm Hin Hex.
  pose proof (cexp_of_located mx ex lx v Hm Hin Hex) as Hc.
  assert (Hv : (0 <= v)%R).
  { pose proof (inbetween_bounds _ _ _ Hin) as [L _].
    rewrite (value_of_scaled v _ ex eq_refl). pose proof (bpow_gt_0 ex).
    assert (0 <= IZR mx)%R by (apply IZR_le; exact Hm). nra. }
  unfold binary_round_aux, shr_fexp.
  set (e1 := fexp (Zdigits2 mx + ex)) in *.
  assert (S0 : 0 <= shr_m (shr_record_of_loc mx lx)) by (rewrite shr_m_of_loc; exact Hm).
  destruct (shr_spec (shr_record_of_loc mx lx) ex (e1 - ex) v ltac:(lia) S0
              (shr_record_of_loc_spec _ _ _ Hin)) as (S1 & S2 & S3).
  destruct (shr (shr_record_of_loc mx lx) ex (e1 - ex)) as [mrs' e'].
  cbn [fst snd] in S1, S2, S3. subst e'.
  replace (ex + (e1 - ex)) with e1 in * by lia.
  pose proof (round_nearest_even_rne _ _ S2) as Hr.
  set (n := round_nearest_even (shr_m mrs') (loc_of_shr_record mrs')) in *.
  pose proof (rne_bounds v e1 n Hv Hc Hr) as Hn.
  exists e1, n. split; [exact Hc|]. split; [exact Hr|].
  destruct Hc as (C1 & _).
  unfold finish. destruct (Z.eqb_spec n (2 ^ prec)) as [E|E].
  - (* carry *)
    assert (Dg : Zdigits2 n = prec + 1).
    { assert (Zdigits2 n <= prec + 1).
      { apply Zdigits2_le; try lia. rewrite E, Z.pow_add_r by lia.
        change (2 ^ 1) with 2. pose proof (Z.pow_pos_nonneg 2 prec). lia. }
      assert (prec + 1 <= Zdigits2 n) by (apply Zdigits2_ge; lia). lia. }
    rewrite Dg, fexp_eq. replace (Z.max (prec + 1 + e1 - prec) emin - e1) with 1 by lia.
    assert (X : inb_rec (shr_record_of_loc n loc_Exact) (IZR n * bpow e1 * bpow (- e1))).
    { cbn. rewrite Rmult_assoc, bpow_cancel. ring. }
    destruct (shr_spec (shr_record_of_loc n loc_Exact) e1 1 (IZR n * bpow e1) ltac:(lia)
                ltac:(cbn; lia) X) as (T1 & T2 & T3).
    destruct (shr (shr_record_of_loc n loc_Exact) e1 1) as [mrs'' e''].
    cbn [fst snd] in T1, T2, T3. subst e''.
    assert (Em : shr_m mrs'' = 2 ^ (prec - 1)).
    { apply inb_rec_int.
      replace (IZR (2 ^ (prec - 1))) with (IZR n * bpow e1 * bpow (- (e1 + 1)))%R; [exact T2|].
      replace (- (e1 + 1)) with (- e1 + -1) by lia. rewrite bpow_plus, bpow_m1.
      rewrite E. replace prec with (Z.succ (prec - 1)) at 1 by lia.
      rewrite Z.pow_succ_r by lia. rewrite mult_IZR.
      pose proof (bpow_cancel e1) as Hbc.
      replace (2 * IZR (2 ^ (prec - 1)) * bpow e1 * (bpow (- e1) * / 2))%R
        with (IZR (2 ^ (prec - 1)) * (bpow e1 * bpow (- e1)))%R by field.
      rewrite Hbc. ring. }
    rewrite Em. reflexivity.
  - assert (Dg : Zdigits2 n <= prec).
    { apply Zdigits2_le; lia. }
    rewrite fexp_eq.
    assert (Sh : Z.max (Zdigits2 n + e1 - prec) emin - e1 <= 0) by lia.
    unfold shr. cbn [shr_record_of_loc].
    destruct (Z.max (Zdigits2 n + e1 - prec) emin - e1) as [|p|p]; try lia;
      cbn [shr_m]; reflexivity.
Qed.

Lemma rne_of_int (k n : Z) : rne_of (IZR k) n -> n = k.
Proof.
  intros ((A & B) & _).
  assert (n <= k) by (apply Z_le_of_IZR_lt_succ; lra).
  assert (k <= n) by (apply Z_le_of_IZR_lt_succ; lra). lia.
Qed.

Lemma cexp_of_unique (v : R) (e e' : Z) :
  cexp_of prec emax v e -> cexp_of prec emax v e' -> e = e'.
Proof.
  assert (X : forall a b, cexp_of prec emax v a -> cexp_of prec emax v b -> a <= b).
  { intros a b (A1 & A2 & A3) (B1 & B2 & B3).
    destruct A3 as [->|A3]; [exact B1|].
    assert (bpow (a + prec - 1) < bpow (b + prec))%R by lra.
    apply bpow_lt_inv in H. lia. }
  intros H1 H2. pose proof (X _ _ H1 H2). pose proof (X _ _ H2 H1). lia.
Qed.

Lemma bounded_canon (m : positive) (e : Z) :
  SpecFloat.bounded prec emax m e = true <-> canon prec emax (Zpos m) e /\ e <= emax - prec.
Proof.
  unfold SpecFloat.bounded, canonical_mantissa, canon. rewrite andb_true_iff, Z.eqb_eq, Z.leb_le.
  rewrite fexp_eq. pose proof (digits2_pos_bounds m) as [A B].
  set (d := Zpos (digits2_pos m)) in *. assert (Dp : 0 < d) by (unfold d; lia).
  split.
  - intros [C L]. split; [|exact L]. split; [|split].
    + split; [lia|]. assert (d <= prec) by lia.
      assert (2 ^ d <= 2 ^ prec) by (apply Z.pow_le_mono_r; lia). lia.
    + lia.
    + destruct (Z.eq_dec e emin) as [E|E]; [left; exact E|right].
      assert (d = prec) by lia. subst d. rewrite <- H. exact A.
  - intros [([_ U] & L & O) L2]. split; [|exact L2].
    assert (d <= prec).
    { destruct (Z_le_gt_dec d prec) as [X|X]; [exact X|].
      assert (2 ^ prec <= 2 ^ (d - 1)) by (apply Z.pow_le_mono_r; lia). lia. }
    destruct O as [->|O]; [lia|].
    assert (prec <= d).
    { destruct (Z_le_gt_dec prec d) as [X|X]; [exact X|].
      assert (2 ^ d <= 2 ^ (prec - 1)) by (apply Z.pow_le_mono_r; lia). lia. }
    lia.
Qed.

Lemma canon_cexp (n e : Z) :
  canon prec emax n e -> cexp_of prec emax (IZR n * bpow e) e.
Proof.
  intros ((N0 & N1) & L & O). unfold cexp_of. pose proof (bpow_gt_0 e) as P.
  split; [exact L|]. split.
  - rewrite Rmult_comm, bpow_plus. apply Rmult_lt_compat_l; [exact P|].
    rewrite bpow_IZR by lia. apply IZR_lt. exact N1.
  - destruct O as [O|O]; [left; exact O|right].
    replace (e + prec - 1) with (prec - 1 + e) by lia. rewrite bpow_plus.
    apply Rmult_le_compat_r; [lra|]. rewrite bpow_IZR by lia. apply IZR_le. exact O.
Qed.

Lemma scaled_int (n e : Z) : (IZR n * bpow e * bpow (- e) = IZR n)%R.
Proof. rewrite Rmult_assoc, bpow_cancel. ring. Qed.

(** A canonical float is the rounding of its own value. *)
Lemma Rounds_exact (sx : bool) (m : positive) (e : Z) (r : spec_float) :
  SpecFloat.bounded prec emax m e = true ->
  Rounds prec emax sx (IZR (Zpos m) * bpow e) r -> r = S754_finite sx m e.
Proof.
  intros Hb (e' & n & Hc & Hr & ->). apply bounded_canon in Hb. destruct Hb as [Hk Ho].
  pose proof (cexp_of_unique _ _ _ Hc (canon_cexp _ _ Hk)) as ->.
  rewrite scaled_int in Hr. apply rne_of_int in Hr. subst n.
  destruct Hk as ((_ & U) & _). unfold finish.
  destruct (Z.eqb_spec (Zpos m) (2 ^ prec)) as [E|_]; [lia|].
  apply Z.leb_le in Ho. rewrite Ho. reflexivity.
Qed.

(** The rounded value, in canonical form. *)
Lemma Rounds_pack (sx : bool) (v : R) (r : spec_float) :
  (0 <= v)%R -> Rounds prec emax sx v r ->
  exists e0 n0 n e,
    cexp_of prec emax v e0 /\ rne_of (v * bpow (- e0)) n0
    /\ canon prec emax n e /\ (IZR n * bpow e = IZR n0 * bpow e0)%R
    /\ r = pack prec emax sx n e.
Proof.
  intros Hv (e0 & n0 & Hc & Hr & ->). exists e0, n0.
  pose proof (rne_bounds v e0 n0 Hv Hc Hr) as [N0 N1].
  assert (Hlow : e0 = emin \/ 2 ^ (prec - 1) <= n0).
  { destruct Hc as (C1 & C2 & [C3|C3]); [left; exact C3|right].
    destruct Hr as ((R1 & R2) & _). pose proof (bpow_gt_0 (- e0)) as P.
    assert (X : (bpow (prec - 1) <= v * bpow (- e0))%R).
    { assert (Eb : bpow (prec - 1) = (bpow (e0 + prec - 1) * bpow (- e0))%R).
      { rewrite <- bpow_plus. f_equal. lia. }
      rewrite Eb. apply Rmult_le_compat_r; lra. }
    rewrite bpow_IZR in X by lia.
    assert (2 ^ (prec - 1) - 1 < n0); [|lia]. apply lt_IZR. rewrite minus_IZR. lra. }
  unfold finish. destruct (Z.eqb_spec n0 (2 ^ prec)) as [E|E].
  - exists (2 ^ (prec - 1)), (e0 + 1).
    pose proof (Z.pow_pos_nonneg 2 (prec - 1) ltac:(lia) ltac:(lia)) as Pp.
    assert (E2 : 2 ^ prec = 2 * 2 ^ (prec - 1)).
    { replace prec with (Z.succ (prec - 1)) at 1 by lia. apply Z.pow_succ_r. lia. }
    split; [exact Hc|]. split; [exact Hr|]. split; [|split].
    + unfold canon. destruct Hc as (C1 & _). split; [lia|]. split; [lia|right; lia].
    + rewrite E, E2, mult_IZR, bpow_plus, bpow_1. ring.
    + reflexivity.
  - exists n0, e0. split; [exact Hc|]. split; [exact Hr|]. split; [|split].
    + unfold canon. destruct Hc as (C1 & _). split; [lia|]. split; [lia|exact Hlow].
    + reflexivity.
    + reflexivity.
Qed.

(** Rounding to nearest is monotone. *)
Lemma rne_mono (x1 x2 : R) (n1 n2 : Z) :
  (x1 <= x2)%R -> rne_of x1 n1 -> rne_of x2 n2 -> n1 <= n2.
Proof.
  intros Hx ((A1 & A2) & A3 & A4) ((B1 & B2) & B3 & B4).
  destruct (Z_le_gt_dec n1 n2) as [L|L]; [exact L|exfalso].
  assert (n2 + 1 <= n1) by lia. apply IZR_le in H. rewrite plus_IZR in H.
  assert (E1 : x1 = (IZR n1 - / 2)%R) by lra.
  assert (E2 : x2 = (IZR n2 + / 2)%R) by lra.
  assert (n1 = n2 + 1).
  { assert (IZR n1 = IZR (n2 + 1)) by (rewrite plus_IZR; lra). apply eq_IZR in H0. exact H0. }
  pose proof (A4 E1) as Ev1. pose proof (B3 E2) as Ev2.
  subst n1. change (n2 + 1) with (Z.succ n2) in Ev1.
  rewrite Z.even_succ, <- Z.negb_even, Ev2 in Ev1. discriminate.
Qed.

Lemma rounded_value_mono (v1 v2 : R) (e1 e2 n1 n2 : Z) :
  (0 <= v1 <= v2)%R ->
  cexp_of prec emax v1 e1 -> rne_of (v1 * bpow (- e1)) n1 ->
  cexp_of prec emax v2 e2 -> rne_of (v2 * bpow (- e2)) n2 ->
  (IZR n1 * bpow e1 <= IZR n2 * bpow e2)%R.
Proof.
  intros Hv C1 R1 C2 R2.
  pose proof (rne_bounds v1 e1 n1 ltac:(lra) C1 R1) as [N1a N1b].
  pose proof (rne_bounds v2 e2 n2 ltac:(lra) C2 R2) as [N2a N2b].
  assert (Hle : e1 <= e2).
  { destruct C1 as (A1 & A2 & A3), C2 as (B1 & B2 & B3).
    destruct A3 as [->|A3]; [exact B1|].
    assert (bpow (e1 + prec - 1) < bpow (e2 + prec))%R by lra.
    apply bpow_lt_inv in H. lia. }
  destruct (Z.eq_dec e1 e2) as [E|E].
  - subst e2. pose proof (bpow_gt_0 e1). pose proof (bpow_gt_0 (- e1)).
    assert (n1 <= n2).
    { apply (rne_mono (v1 * bpow (- e1)) (v2 * bpow (- e1))); try assumption.
      apply Rmult_le_compat_r; lra. }
    apply Rmult_le_compat_r; [lra|]. apply IZR_le. exact H1.
  - assert (Lt : e1 + 1 <= e2) by lia.
    (* r1 <= bpow (prec + e1) <= bpow (prec - 1 + e2) <= r2 *)
    assert (U1 : (IZR n1 * bpow e1 <= bpow (prec + e1))%R).
    { rewrite bpow_plus. apply Rmult_le_compat_r; [pose proof (bpow_gt_0 e1); lra|].
      rewrite bpow_IZR by lia. apply IZR_le. exact N1b. }
    assert (L2 : (bpow (prec - 1 + e2) <= IZR n2 * bpow e2)%R).
    { destruct C2 as (B1 & B2 & B3). destruct C1 as (A1 & _).
      destruct B3 as [B3|B3]; [lia|].
      destruct R2 as ((Ra & Rb) & _). pose proof (bpow_gt_0 (- e2)) as P.
      assert (X : (bpow (prec - 1) <= v2 * bpow (- e2))%R).
      { assert (Eb : bpow (prec - 1) = (bpow (e2 + prec - 1) * bpow (- e2))%R).
        { rewrite <- bpow_plus. f_equal. lia. }
        rewrite Eb. apply Rmult_le_compat_r; lra. }
      rewrite bpow_IZR in X by lia.
      assert (2 ^ (prec - 1) <= n2).
      { assert (2 ^ (prec - 1) - 1 < n2); [|lia]. apply lt_IZR. rewrite minus_IZR. lra. }
      rewrite bpow_plus. apply Rmult_le_compat_r; [pose proof (bpow_gt_0 e2); lra|].
      rewrite bpow_IZR by lia. apply IZR_le. exact H. }
    pose proof (bpow_le (prec + e1) (prec - 1 + e2) ltac:(lia)). lra.
Qed.

(** Values of canonical pairs compare like the pairs. *)
Lemma canon_value_lt (n1 e1 n2 e2 : Z) :
  canon prec emax n1 e1 -> canon prec emax n2 e2 -> 0 < n2 -> e1 < e2 ->
  (IZR n1 * bpow e1 < IZR n2 * bpow e2)%R.
Proof.
  intros ((A0 & A1) & A2 & A3) ((B0 & B1) & B2 & B3) Hn He.
  destruct B3 as [B3|B3]; [lia|].
  assert (U : (IZR n1 * bpow e1 < bpow (prec + e1))%R).
  { rewrite bpow_plus. apply Rmult_lt_compat_r; [apply bpow_gt_0|].
    rewrite bpow_IZR by lia. apply IZR_lt. exact A1. }
  assert (L : (bpow (prec - 1 + e2) <= IZR n2 * bpow e2)%R).
  { rewrite bpow_plus. apply Rmult_le_compat_r; [pose proof (bpow_gt_0 e2); lra|].
    rewrite bpow_IZR by lia. apply IZR_le. exact B3. }
  pose proof (bpow_le (prec + e1) (prec - 1 + e2) ltac:(lia)). lra.
Qed.

Lemma canon_value_le_inv (n1 e1 n2 e2 : Z) :
  canon prec emax n1 e1 -> canon prec emax n2 e2 -> 0 < n1 ->
  (IZR n1 * bpow e1 <= IZR n2 * bpow e2)%R ->
  e1 < e2 \/ (e1 = e2 /\ n1 <= n2).
Proof.
  intros K1 K2 Hn H.
  destruct (Z_lt_le_dec e1 e2) as [L|L]; [left; exact L|right].
  destruct (Z.eq_dec e1 e2) as [E|E].
  - split; [exact E|]. subst e2. pose proof (bpow_gt_0 e1).
    apply le_IZR. apply (Rmult_le_reg_r (bpow e1)); assumption.
  - exfalso. pose proof (canon_value_lt n2 e2 n1 e1 K2 K1 Hn ltac:(lia)). lra.
Qed.

Lemma SFleb_pack (n1 e1 n2 e2 : Z) :
  canon prec emax n1 e1 -> canon prec emax n2 e2 ->
  (IZR n1 * bpow e1 <= IZR n2 * bpow e2)%R ->
  SFleb (pack prec emax false n1 e1) (pack prec emax false n2 e2) = true.
Proof.
  intros K1 K2 H.
  destruct (Z.eq_dec n1 0) as [->|N1].
  - cbn [pack]. destruct n2 as [|m2|m2]; cbn [pack].
    + reflexivity.
    + destruct (e2 <=? emax - prec); reflexivity.
    + destruct K2 as ((X & _) & _). lia.
  - assert (P1 : 0 < n1) by (destruct K1 as ((X & _) & _); lia).
    destruct (canon_value_le_inv _ _ _ _ K1 K2 P1 H) as [L|[E L]].
    + assert (P2 : 0 < n2).
      { destruct K2 as ((X & _) & _). destruct (Z.eq_dec n2 0) as [->|]; [|lia].
        pose proof (bpow_gt_0 e1). assert (0 < IZR n1)%R by (apply IZR_lt; exact P1).
        rewrite Rmult_0_l in H. nra. }
      destruct n1 as [|m1|m1]; try lia. destruct n2 as [|m2|m2]; try lia.
      cbn [pack]. destruct (Z.leb_spec e1 (emax - prec)), (Z.leb_spec e2 (emax - prec));
        try reflexivity; try lia.
      unfold SFleb. cbn [SFcompare]. apply Z.compare_lt_iff in L. rewrite L. reflexivity.
    + subst e2. destruct n1 as [|m1|m1]; try lia. destruct n2 as [|m2|m2]; try lia.
      cbn [pack]. destruct (e1 <=? emax - prec); [|reflexivity].
      unfold SFleb. cbn [SFcompare]. rewrite Z.compare_refl.
      change (Pos.compare_cont Eq m1 m2) with (Z.pos m1 ?= Z.pos m2).
      destruct (Z.compare_spec (Z.pos m1) (Z.pos m2)); try reflexivity. lia.
Qed.

(** Rounding is monotone. *)
Lemma Rounds_mono (v1 v2 : R) (r1 r2 : spec_float) :
  (0 <= v1 <= v2)%R -> Rounds prec emax false v1 r1 -> Rounds prec emax false v2 r2 ->
  SFleb r1 r2 = true.
Proof.
  intros Hv H1 H2.
  destruct (Rounds_pack false v1 r1 ltac:(lra) H1) as (a0 & m0 & n1 & e1 & C1 & R1 & K1 & V1 & ->).
  destruct (Rounds_pack false v2 r2 ltac:(lra) H2) as (b0 & k0 & n2 & e2 & C2 & R2 & K2 & V2 & ->).
  apply SFleb_pack; try assumption. rewrite V1, V2.
  apply (rounded_value_mono v1 v2); assumption.
Qed.


(** *** Alignment and the operations *)

Lemma Pos_iter_xO (m d : positive) : Zpos (Pos.iter xO m d) = Zpos m * 2 ^ Zpos d.
Proof.
  induction d as [|d IH] using Pos.peano_ind.
  - cbn [Pos.iter]. change (2 ^ 1) with 2. lia.
  - rewrite Pos.iter_succ, Pos2Z.inj_xO, IH, Pos2Z.inj_succ, Z.pow_succ_r by lia. ring.
Qed.

Lemma digits2_pos_iter_xO (m d : positive) :
  Zpos (digits2_pos (Pos.iter xO m d)) = Zpos (digits2_pos m) + Zpos d.
Proof.
  induction d as [|d IH] using Pos.peano_ind.
  - cbn [Pos.iter digits2_pos]. lia.
  - rewrite Pos.iter_succ. cbn [digits2_pos]. rewrite Pos2Z.inj_succ, IH. lia.
Qed.

Lemma shl_align_spec (mx : positive) (ex ex' : Z) :
  let r := shl_align mx ex ex' in
  snd r = Z.min ex ex'
  /\ (IZR (Zpos (fst r)) * bpow (snd r) = IZR (Zpos mx) * bpow ex)%R
  /\ Zpos (digits2_pos (fst r)) + snd r = Zpos (digits2_pos mx) + ex
  /\ Zpos (fst r) = Zpos mx * 2 ^ (ex - Z.min ex ex').
Proof.
  unfold shl_align. destruct (ex' - ex) as [|d|d] eqn:E; cbn [fst snd].
  - assert (ex' = ex) by lia. subst. rewrite Z.min_id, Z.sub_diag. repeat split; lia.
  - replace (Z.min ex ex') with ex by lia. rewrite Z.sub_diag. repeat split; lia.
  - assert (Ed : ex = ex' + Zpos d) by lia.
    replace (Z.min ex ex') with ex' by lia. split; [reflexivity|]. split; [|split].
    + rewrite Pos_iter_xO, mult_IZR, Ed, bpow_plus, (bpow_IZR (Zpos d)) by lia. ring.
    + rewrite digits2_pos_iter_xO. lia.
    + rewrite Pos_iter_xO. f_equal. f_equal. lia.
Qed.

Lemma binary_round_Rounds (sx : bool) (mx : positive) (ex : Z) :
  Rounds prec emax sx (IZR (Zpos mx) * bpow ex) (binary_round prec emax sx mx ex).
Proof.
  unfold binary_round.
  pose proof (shl_align_spec mx ex (fexp (Zpos (digits2_pos mx) + ex))) as (A & B & C & _).
  destruct (shl_align mx ex (fexp (Zpos (digits2_pos mx) + ex))) as [mz ez].
  cbn [fst snd] in A, B, C.
  apply binary_round_aux_Rounds.
  - lia.
  - cbn [inbetween_int]. rewrite <- B. apply scaled_int.
  - cbn [Zdigits2]. rewrite C, A. lia.
Qed.

Lemma binary_normalize_Rounds (m e : Z) (sz : bool) :
  0 < m ->
  Rounds prec emax false (IZR m * bpow e) (binary_normalize prec emax m e sz).
Proof.
  destruct m as [|p|p]; try lia. intros _. apply binary_round_Rounds.
Qed.

Lemma F2R_cond_Zopp (s : bool) (m : positive) (e : Z) :
  F2R (S754_finite s m e) = (IZR (cond_Zopp s (Zpos m)) * bpow e)%R.
Proof.
  destruct s; cbn [F2R]; unfold cond_Zopp; [rewrite opp_IZR; ring|ring].
Qed.

Lemma aligned_value (s : bool) (m : positive) (e e' : Z) :
  (IZR (cond_Zopp s (Zpos (fst (shl_align m e (Z.min e e'))))) * bpow (Z.min e e')
  = F2R (S754_finite s m e))%R.
Proof.
  pose proof (shl_align_spec m e (Z.min e e')) as (A & B & _).
  rewrite Z.min_assoc, Z.min_id in A. rewrite A in B.
  rewrite F2R_cond_Zopp. destruct s; unfold cond_Zopp.
  - rewrite !opp_IZR. lra.
  - exact B.
Qed.

(** Subtraction of finite floats with a positive exact result. *)
Lemma SFsub_Rounds (sx sy : bool) (mx my : positive) (ex ey : Z) :
  let x := S754_finite sx mx ex in
  let y := S754_finite sy my ey in
  (F2R y < F2R x)%R ->
  Rounds prec emax false (F2R x - F2R y) (SFsub prec emax x y)
  /\ (bpow (Z.min ex ey) <= F2R x - F2R y)%R.
Proof.
  intros x y H. unfold x, y, SFsub.
  set (ez := Z.min ex ey).
  pose proof (aligned_value sx mx ex ey) as Ax. fold ez in Ax.
  pose proof (aligned_value sy my ey ex) as Ay. rewrite Z.min_comm in Ay. fold ez in Ay.
  set (M := cond_Zopp sx (Zpos (fst (shl_align mx ex ez)))
            - cond_Zopp sy (Zpos (fst (shl_align my ey ez)))).
  assert (EM : (IZR M * bpow ez = F2R x - F2R y)%R).
  { unfold M, x, y. rewrite minus_IZR, <- Ax, <- Ay. ring. }
  assert (PM : 0 < M).
  { apply lt_IZR. pose proof (bpow_gt_0 ez). fold x y in H. nra. }
  fold x y. rewrite <- EM. split.
  - apply binary_normalize_Rounds. exact PM.
  - pose proof (bpow_gt_0 ez). assert (1 <= IZR M)%R by (apply IZR_le; lia). nra.
Qed.

Lemma SFsub_diag_finite (sx : bool) (mx : positive) (ex : Z) :
  SFsub prec emax (S754_finite sx mx ex) (S754_finite sx mx ex) = S754_zero false.
Proof. unfold SFsub. rewrite Z.sub_diag. reflexivity. Qed.

(** Addition of finite floats with a positive exact result. *)
Lemma SFadd_Rounds (sx sy : bool) (mx my : positive) (ex ey : Z) :
  let x := S754_finite sx mx ex in
  let y := S754_finite sy my ey in
  (0 < F2R x + F2R y)%R ->
  Rounds prec emax false (F2R x + F2R y) (SFadd prec emax x y).
Proof.
  intros x y H. unfold x, y, SFadd.
  set (ez := Z.min ex ey).
  pose proof (aligned_value sx mx ex ey) as Ax. fold ez in Ax.
  pose proof (aligned_value sy my ey ex) as Ay. rewrite Z.min_comm in Ay. fold ez in Ay.
  set (M := cond_Zopp sx (Zpos (fst (shl_align mx ex ez)))
            + cond_Zopp sy (Zpos (fst (shl_align my ey ez)))).
  assert (EM : (IZR M * bpow ez = F2R x + F2R y)%R).
  { unfold M, x, y. rewrite plus_IZR, <- Ax, <- Ay. ring. }
  assert (PM : 0 < M).
  { apply lt_IZR. pose proof (bpow_gt_0 ez). fold x y in H. nra. }
  fold x y. rewrite <- EM. apply binary_normalize_Rounds. exact PM.
Qed.

(** Division *)

Lemma new_location_spec (nb k q : Z) :
  0 < nb -> 0 <= k < nb ->
  inbetween_int q (new_location nb k) (IZR q + IZR k / IZR nb).
Proof.
  intros Hnb Hk.
  assert (Pn : (0 < IZR nb)%R) by (apply IZR_lt; exact Hnb).
  set (t := (IZR k / IZR nb)%R).
  assert (Et : (t * IZR nb = IZR k)%R) by (unfold t; field; lra).
  assert (Z0 : k = 0 -> t = 0%R) by (intros E; unfold t; rewrite E; field; lra).
  assert (Pt : k <> 0 -> (0 < t < 1)%R).
  { intros E. assert (1 <= IZR k)%R by (apply IZR_le; lia).
    assert (IZR k < IZR nb)%R by (apply IZR_lt; lia). split; nra. }
  unfold new_location. destruct (Z.even nb) eqn:Ev.
  - unfold new_location_even. destruct (Z.eqb_spec k 0) as [E|E].
    + cbn [inbetween_int]. rewrite (Z0 E). ring.
    + specialize (Pt E).
      destruct (Z.compare_spec (2 * k) nb) as [C|C|C]; cbn [inbetween_int].
      * assert (2 * IZR k = IZR nb)%R by (rewrite <- C, mult_IZR; reflexivity).
        assert (t = / 2)%R by nra. lra.
      * apply IZR_lt in C. rewrite mult_IZR in C. split; [lra|].
        assert (t < / 2)%R by nra. lra.
      * apply IZR_lt in C. rewrite mult_IZR in C. split; [|lra].
        assert (/ 2 < t)%R by nra. lra.
  - unfold new_location_odd. destruct (Z.eqb_spec k 0) as [E|E].
    + cbn [inbetween_int]. rewrite (Z0 E). ring.
    + specialize (Pt E).
      assert (Ne : nb <> 2 * k).
      { intros X. rewrite X, Z.even_mul in Ev. discriminate. }
      destruct (Z.compare_spec (2 * k + 1) nb) as [C|C|C]; cbn [inbetween_int].
      * assert (C' : 2 * k < nb) by lia. apply IZR_lt in C'. rewrite mult_IZR in C'.
        split; [lra|]. assert (t < / 2)%R by nra. lra.
      * assert (C' : 2 * k < nb) by lia. apply IZR_lt in C'. rewrite mult_IZR in C'.
        split; [lra|]. assert (t < / 2)%R by nra. lra.
      * assert (C' : nb < 2 * k) by lia. apply IZR_lt in C'. rewrite mult_IZR in C'.
        split; [|lra]. assert (/ 2 < t)%R by nra. lra.
Qed.

Lemma shiftl_match (m s : Z) :
  0 <= s ->
  match s with Z.pos _ => Z.shiftl m s | 0 => m | Z.neg _ => 0 end = m * 2 ^ s.
Proof.
  intros H. destruct s as [|p|p]; try lia.
  apply Z.shiftl_mul_pow2. lia.
Qed.

Lemma SFdiv_Rounds (mx my : positive) (ex ey : Z) :
  let x := S754_finite false mx ex in
  let y := S754_finite false my ey in
  Rounds prec emax false (F2R x / F2R y) (SFdiv prec emax x y).
Proof.
  intros x y. unfold x, y, SFdiv, SFdiv_core_binary. cbn [xorb].
  set (d1 := Zdigits2 (Zpos mx)). set (d2 := Zdigits2 (Zpos my)).
  set (e' := Z.min (fexp (d1 + ex - (d2 + ey))) (ex - ey)).
  set (s := ex - ey - e').
  assert (Hs : 0 <= s) by (unfold s, e'; lia).
  set (m' := match s with Z.pos _ => Z.shiftl (Z.pos mx) s | 0 => Z.pos mx | Z.neg _ => 0 end).
  assert (Em : m' = Zpos mx * 2 ^ s).
  { unfold m'. apply shiftl_match. exact Hs. }
  pose proof (Z_div_mod m' (Zpos my) ltac:(lia)) as Hdiv.
  destruct (Z.div_eucl m' (Z.pos my)) as [q r]. destruct Hdiv as [Hq Hr].
  assert (Pmy : (0 < IZR (Zpos my))%R) by (apply IZR_lt; lia).
  assert (Pmx : (0 < IZR (Zpos mx))%R) by (apply IZR_lt; lia).
  assert (P2s : 0 < 2 ^ s) by (apply Z.pow_pos_nonneg; lia).
  assert (Hq0 : 0 <= q).
  { destruct (Z_lt_le_dec q 0) as [X|X]; [|exact X]. exfalso. nia. }
  apply binary_round_aux_Rounds.
  - exact Hq0.
  - replace (F2R (S754_finite false mx ex) / F2R (S754_finite false my ey) * bpow (- e'))%R
      with (IZR q + IZR r / IZR (Zpos my))%R.
    + apply new_location_spec; lia.
    + cbn [F2R].
      assert (Es : ex = s + ey + e') by (unfold s; lia).
      rewrite Es at 1. rewrite !bpow_plus.
      assert (E1 : (IZR (Zpos mx) * bpow s = IZR (Z.pos my) * IZR q + IZR r)%R).
      { rewrite (bpow_IZR s) by exact Hs. rewrite <- mult_IZR, <- Em, Hq, plus_IZR, mult_IZR.
        reflexivity. }
      pose proof (bpow_gt_0 ey). pose proof (bpow_cancel e') as Hc.
      pose proof (bpow_gt_0 e'). pose proof (bpow_gt_0 (- e')).
      replace (1 * IZR (Z.pos mx) * (bpow s * bpow ey * bpow e') /
               (1 * IZR (Z.pos my) * bpow ey) * bpow (- e'))%R
        with ((IZR (Z.pos mx) * bpow s) / IZR (Z.pos my) * (bpow e' * bpow (- e')))%R
        by (field; lra).
      rewrite Hc, E1. field. lra.
  - destruct (Z_le_gt_dec e' emin) as [L|L].
    + rewrite fexp_eq. lia.
    + assert (F : e' <= fexp (d1 + ex - (d2 + ey))) by (unfold e'; lia).
      rewrite fexp_eq in F.
      assert (S1 : prec - d1 + d2 <= s) by (unfold s; lia).
      pose proof (Zdigits2_bounds (Zpos mx) ltac:(lia)) as [A1 B1]. fold d1 in A1, B1.
      pose proof (Zdigits2_bounds (Zpos my) ltac:(lia)) as [A2 B2]. fold d2 in A2, B2.
      assert (D1 : 1 <= d1) by (unfold d1; cbn; lia).
      assert (D2 : 1 <= d2) by (unfold d2; cbn; lia).
      assert (Q : 2 ^ (prec - 1) <= q).
      { assert (X : 2 ^ (prec - 1) * 2 ^ d2 <= m').
        { rewrite Em, <- Z.pow_add_r by lia.
          assert (2 ^ (prec - 1 + d2) <= 2 ^ (d1 - 1 + s)) by (apply Z.pow_le_mono_r; lia).
          assert (E2 : 2 ^ (d1 - 1 + s) = 2 ^ (d1 - 1) * 2 ^ s) by (apply Z.pow_add_r; lia).
          rewrite E2 in H. nia. }
        pose proof (Z.pow_pos_nonneg 2 (prec - 1) ltac:(lia) ltac:(lia)).
        destruct (Z_le_gt_dec (2 ^ (prec - 1)) q) as [Y|Y]; [exact Y|exfalso].
        assert (q + 1 <= 2 ^ (prec - 1)) by lia. nia. }
      pose proof (Zdigits2_ge q (prec - 1) ltac:(lia) Q). rewrite fexp_eq. lia.
Qed.


(** *** Comparison of canonical floats *)

Lemma F2R_pos (m : positive) (e : Z) : (0 < IZR (Zpos m) * bpow e)%R.
Proof. apply Rmult_lt_0_compat; [apply IZR_lt; lia|apply bpow_gt_0]. Qed.

Lemma canon_compare (m1 m2 : positive) (e1 e2 : Z) :
  SpecFloat.bounded prec emax m1 e1 = true -> SpecFloat.bounded prec emax m2 e2 = true ->
  match (match e1 ?= e2 with Lt => Lt | Gt => Gt | Eq => Pos.compare_cont Eq m1 m2 end) with
  | Lt => (IZR (Zpos m1) * bpow e1 < IZR (Zpos m2) * bpow e2)%R
  | Eq => e1 = e2 /\ m1 = m2
  | Gt => (IZR (Zpos m2) * bpow e2 < IZR (Zpos m1) * bpow e1)%R
  end.
Proof.
  intros B1 B2. apply bounded_canon in B1, B2. destruct B1 as [K1 _], B2 as [K2 _].
  destruct (Z.compare_spec e1 e2) as [E|E|E].
  - subst e2. change (Pos.compare_cont Eq m1 m2) with (Z.pos m1 ?= Z.pos m2).
    pose proof (bpow_gt_0 e1).
    destruct (Z.compare_spec (Z.pos m1) (Z.pos m2)) as [C|C|C].
    + split; [reflexivity|]. congruence.
    + apply Rmult_lt_compat_r; [assumption|apply IZR_lt; exact C].
    + apply Rmult_lt_compat_r; [assumption|apply IZR_lt; exact C].
  - apply canon_value_lt; try assumption; lia.
  - apply canon_value_lt; try assumption; lia.
Qed.


Lemma SFcompare_F2R (x y : spec_float) :
  fin_valid prec emax x = true -> fin_valid prec emax y = true ->
  cmp_spec (SFcompare x y) (F2R x) (F2R y).
Proof.
  destruct x as [sx|sx| |sx mx ex], y as [sy|sy| |sy my ey]; cbn [fin_valid];
    intros Hx Hy; try discriminate.
  - reflexivity.
  - pose proof (F2R_pos my ey). cbn [SFcompare F2R]. destruct sy; cbn [cmp_spec]; lra.
  - pose proof (F2R_pos mx ex). cbn [SFcompare F2R]. destruct sx; cbn [cmp_spec]; lra.
  - pose proof (F2R_pos mx ex). pose proof (F2R_pos my ey).
    pose proof (canon_compare mx my ex ey Hx Hy) as C.
    cbn [SFcompare F2R]. destruct sx, sy; cbn [cmp_spec]; try lra.
    + destruct (ex ?= ey); [destruct (Pos.compare_cont Eq mx my)|..];
        cbn [CompOpp cmp_spec]; try lra.
      destruct C as [-> ->]. reflexivity.
    + destruct (ex ?= ey); [destruct (Pos.compare_cont Eq mx my)|..];
        cbn [cmp_spec]; try lra.
      destruct C as [-> ->]. reflexivity.
Qed.

Lemma SFltb_F2R (x y : spec_float) :
  fin_valid prec emax x = true -> fin_valid prec emax y = true ->
  (SFltb x y = true <-> (F2R x < F2R y)%R).
Proof.
  intros Hx Hy. pose proof (SFcompare_F2R x y Hx Hy) as C. unfold SFltb.
  destruct (SFcompare x y) as [[]|]; cbn [cmp_spec] in C; split; intros H;
    try reflexivity; try discriminate; try lra; contradiction.
Qed.

Lemma SFleb_F2R (x y : spec_float) :
  fin_valid prec emax x = true -> fin_valid prec emax y = true ->
  (SFleb x y = true <-> (F2R x <= F2R y)%R).
Proof.
  intros Hx Hy. pose proof (SFcompare_F2R x y Hx Hy) as C. unfold SFleb.
  destruct (SFcompare x y) as [[]|]; cbn [cmp_spec] in C; split; intros H;
    try reflexivity; try discriminate; try lra; contradiction.
Qed.

(** Valid floats with the same value are the same float, up to the sign
    of zero. *)
Lemma F2R_inj (x y : spec_float) :
  fin_valid prec emax x = true -> fin_valid prec emax y = true -> F2R x = F2R y ->
  x = y \/ ((exists s, x = S754_zero s) /\ (exists s, y = S754_zero s)).
Proof.
  destruct x as [sx|sx| |sx mx ex], y as [sy|sy| |sy my ey]; cbn [fin_valid];
    intros Hx Hy E; try discriminate.
  - right. split; eexists; reflexivity.
  - pose proof (F2R_pos my ey). cbn [F2R] in E. destruct sy; lra.
  - pose proof (F2R_pos mx ex). cbn [F2R] in E. destruct sx; lra.
  - left. pose proof (F2R_pos mx ex). pose proof (F2R_pos my ey).
    pose proof (canon_compare mx my ex ey Hx Hy) as C. cbn [F2R] in E.
    destruct sx, sy; try lra;
      (destruct (ex ?= ey); [destruct (Pos.compare_cont Eq mx my)|..]; try lra;
       destruct C as [-> ->]; reflexivity).
Qed.

(** *** Rounding of non-negative values, zero included *)


Lemma Rounds_self (sx : bool) (m : positive) (e : Z) :
  SpecFloat.bounded prec emax m e = true ->
  Rounds prec emax sx (IZR (Zpos m) * bpow e) (S754_finite sx m e).
Proof.
  intros Hb. pose proof Hb as Hb'. apply bounded_canon in Hb. destruct Hb as [K O].
  exists e, (Zpos m). split; [apply canon_cexp; exact K|]. split.
  - rewrite scaled_int. unfold rne_of. repeat split; try lra.
  - destruct K as ((_ & U) & _). unfold finish.
    destruct (Z.eqb_spec (Zpos m) (2 ^ prec)) as [E|_]; [lia|].
    apply Z.leb_le in O. rewrite O. reflexivity.
Qed.

Lemma pack_valid (n e : Z) :
  canon prec emax n e ->
  pack prec emax false n e = S754_infinity false
  \/ fin_valid prec emax (pack prec emax false n e) = true.
Proof.
  intros K. destruct n as [|m|m]; cbn [pack].
  - right. reflexivity.
  - destruct (Z.leb_spec e (emax - prec)) as [L|L]; [right|left; reflexivity].
    cbn [fin_valid]. apply bounded_canon. split; assumption.
  - destruct K as ((X & _) & _). lia.
Qed.

Lemma Rounds_valid (v : R) (r : spec_float) :
  (0 <= v)%R -> Rounds prec emax false v r ->
  r = S754_infinity false \/ fin_valid prec emax r = true.
Proof.
  intros Hv H.
  destruct (Rounds_pack false v r Hv H) as (e0 & n0 & n & e & _ & _ & K & _ & ->).
  apply pack_valid. exact K.
Qed.

Lemma Rounds_nonneg (v : R) (r : spec_float) :
  (0 <= v)%R -> Rounds prec emax false v r -> SFleb (S754_zero false) r = true.
Proof.
  intros Hv H.
  destruct (Rounds_pack false v r Hv H) as (e0 & n0 & n & e & _ & _ & K & _ & ->).
  destruct n as [|m|m]; cbn [pack].
  - reflexivity.
  - destruct (e <=? emax - prec); reflexivity.
  - destruct K as ((X & _) & _). lia.
Qed.

(** A value of at least the smallest positive float does not round to
    zero. *)
Lemma Rounds_pos (v : R) (r : spec_float) :
  (bpow emin <= v)%R -> Rounds prec emax false v r -> SFltb (S754_zero false) r = true.
Proof.
  intros Hv (e & n & Hc & Hr & ->).
  pose proof (bpow_gt_0 emin) as Pe.
  pose proof (rne_bounds v e n ltac:(lra) Hc Hr) as [N0 N1].
  assert (Pn : 0 < n).
  { destruct Hr as ((R1 & R2) & _). destruct Hc as (C1 & C2 & C3).
    pose proof (bpow_gt_0 (- e)) as P.
    destruct (Z.eq_dec e emin) as [E|E].
    - rewrite E in *. assert (1 <= v * bpow (- emin))%R.
      { rewrite <- (bpow_cancel emin). apply Rmult_le_compat_r; lra. }
      apply lt_IZR. lra.
    - destruct C3 as [C3|C3]; [contradiction|].
      assert (X : (bpow (prec - 1) <= v * bpow (- e))%R).
      { assert (Eb : bpow (prec - 1) = (bpow (e + prec - 1) * bpow (- e))%R).
        { rewrite <- bpow_plus. f_equal. lia. }
        rewrite Eb. apply Rmult_le_compat_r; lra. }
      pose proof (bpow_ge_1 (prec - 1) ltac:(lia)). apply lt_IZR. lra. }
  unfold finish. pose proof (Z.pow_pos_nonneg 2 (prec - 1) ltac:(lia) ltac:(lia)).
  destruct (n =? 2 ^ prec).
  - destruct (2 ^ (prec - 1)) as [|q|q]; try lia.
    destruct (_ <=? _); reflexivity.
  - destruct n as [|q|q]; try lia. destruct (_ <=? _); reflexivity.
Qed.

Lemma RoundsZ_mono (v1 v2 : R) (r1 r2 : spec_float) :
  (v1 <= v2)%R -> RoundsZ prec emax v1 r1 -> RoundsZ prec emax v2 r2 -> SFleb r1 r2 = true.
Proof.
  intros Hv [[E1 [s1 ->]]|[P1 H1]] [[E2 [s2 ->]]|[P2 H2]]; try lra.
  - reflexivity.
  - pose proof (Rounds_nonneg v2 r2 ltac:(lra) H2) as N.
    destruct r2 as [s|s| |s m e]; cbn in N |- *; try discriminate; try reflexivity;
      destruct s; try discriminate; reflexivity.
  - apply (Rounds_mono v1 v2); try assumption. lra.
Qed.

Lemma RoundsZ_valid (v : R) (r : spec_float) :
  RoundsZ prec emax v r -> r = S754_infinity false \/ fin_valid prec emax r = true.
Proof.
  intros [[_ [s ->]]|[P H]]; [right; reflexivity|]. apply (Rounds_valid v); [lra|exact H].
Qed.

Lemma RoundsZ_nonneg (v : R) (r : spec_float) :
  RoundsZ prec emax v r -> SFleb (S754_zero false) r = true.
Proof.
  intros [[_ [s ->]]|[P H]]; [reflexivity|]. apply (Rounds_nonneg v); [lra|exact H].
Qed.

(** A rounding that stays below a finite float is finite. *)
Lemma RoundsZ_bounded (v : R) (r b : spec_float) :
  RoundsZ prec emax v r -> fin_valid prec emax b = true -> (v <= F2R b)%R ->
  fin_valid prec emax r = true.
Proof.
  intros H Hb Hv. destruct (RoundsZ_valid v r H) as [E|E]; [|exact E].
  exfalso. subst r. destruct H as [[_ [s X]]|[P H]]; [discriminate|].
  destruct b as [sb|sb| |sb mb eb]; cbn [fin_valid F2R] in *; try discriminate; try lra.
  pose proof (F2R_pos mb eb). destruct sb; [lra|].
  pose proof (Rounds_self false mb eb Hb) as Hs.
  assert (Hv' : (0 <= v <= IZR (Z.pos mb) * bpow eb)%R) by lra.
  pose proof (Rounds_mono v _ _ _ Hv' H Hs) as M. discriminate M.
Qed.


(** *** The operations on valid floats *)

Lemma fin_valid_cases (x : spec_float) :
  fin_valid prec emax x = true ->
  (exists s, x = S754_zero s)
  \/ (exists s m e, x = S754_finite s m e /\ SpecFloat.bounded prec emax m e = true
                    /\ emin <= e).
Proof.
  destruct x as [s|s| |s m e]; cbn [fin_valid]; intros H; try discriminate.
  - left. eexists; reflexivity.
  - right. exists s, m, e. split; [reflexivity|]. split; [exact H|].
    apply bounded_canon in H. destruct H as [(_ & L & _) _]. exact L.
Qed.

Lemma nonneg_cases (x : spec_float) :
  fin_valid prec emax x = true -> SFleb (S754_zero false) x = true ->
  (exists s, x = S754_zero s)
  \/ (exists m e, x = S754_finite false m e /\ SpecFloat.bounded prec emax m e = true).
Proof.
  destruct x as [s|s| |s m e]; cbn [fin_valid]; intros H N; try discriminate.
  - left. eexists; reflexivity.
  - right. destruct s; [discriminate N|]. exists m, e. auto.
Qed.

Lemma pos_cases (x : spec_float) :
  fin_valid prec emax x = true -> SFltb (S754_zero false) x = true ->
  exists m e, x = S754_finite false m e /\ SpecFloat.bounded prec emax m e = true.
Proof.
  destruct x as [s|s| |s m e]; cbn [fin_valid]; intros H N; try discriminate.
  destruct s; [discriminate N|]. exists m, e. auto.
Qed.

Lemma SFsub_gt (x y : spec_float) :
  fin_valid prec emax x = true -> fin_valid prec emax y = true -> (F2R y < F2R x)%R ->
  Rounds prec emax false (F2R x - F2R y) (SFsub prec emax x y)
  /\ (bpow emin <= F2R x - F2R y)%R.
Proof.
  intros Hx Hy H.
  destruct (fin_valid_cases x Hx) as [[sx ->]|(sx & mx & ex & -> & Bx & Lx)];
    destruct (fin_valid_cases y Hy) as [[sy ->]|(sy & my & ey & -> & By & Ly)].
  - cbn [F2R] in H. lra.
  - pose proof (F2R_pos my ey) as P. cbn [F2R] in H |- *. destruct sy; [|lra].
    cbn [SFsub negb].
    replace (0 - -1 * IZR (Z.pos my) * bpow ey)%R with (IZR (Z.pos my) * bpow ey)%R by ring.
    split; [apply Rounds_self; exact By|].
    pose proof (bpow_le emin ey Ly). pose proof (bpow_gt_0 ey).
    assert (1 <= IZR (Z.pos my))%R by (apply IZR_le; lia). nra.
  - pose proof (F2R_pos mx ex) as P. cbn [F2R] in H |- *. destruct sx; [lra|].
    cbn [SFsub].
    replace (1 * IZR (Z.pos mx) * bpow ex - 0)%R with (IZR (Z.pos mx) * bpow ex)%R by ring.
    split; [apply Rounds_self; exact Bx|].
    pose proof (bpow_le emin ex Lx). pose proof (bpow_gt_0 ex).
    assert (1 <= IZR (Z.pos mx))%R by (apply IZR_le; lia). nra.
  - destruct (SFsub_Rounds sx sy mx my ex ey H) as [A B]. split; [exact A|].
    pose proof (bpow_le emin (Z.min ex ey) ltac:(lia)). lra.
Qed.

Lemma SFsub_same (x : spec_float) :
  fin_valid prec emax x = true -> SFsub prec emax x x = S754_zero false.
Proof.
  destruct x as [s|s| |s m e]; cbn [fin_valid]; intros H; try discriminate.
  - destruct s; reflexivity.
  - apply SFsub_diag_finite.
Qed.

Lemma SFsub_RoundsZ (x y : spec_float) :
  fin_valid prec emax x = true -> fin_valid prec emax y = true -> (F2R y <= F2R x)%R ->
  RoundsZ prec emax (F2R x - F2R y) (SFsub prec emax x y).
Proof.
  intros Hx Hy H. destruct (Rle_lt_or_eq_dec _ _ H) as [L|E].
  - right. split; [lra|]. apply SFsub_gt; assumption.
  - left. split; [lra|].
    destruct (F2R_inj y x Hy Hx E) as [->|[[s1 ->] [s2 ->]]].
    + exists false. apply SFsub_same. exact Hx.
    + destruct s1, s2; eexists; reflexivity.
Qed.

Lemma SFdiv_RoundsZ (x : spec_float) (mw : positive) (ew : Z) :
  fin_valid prec emax x = true -> SFleb (S754_zero false) x = true ->
  RoundsZ prec emax (F2R x / F2R (S754_finite false mw ew))
          (SFdiv prec emax x (S754_finite false mw ew)).
Proof.
  intros Hx Nx. pose proof (F2R_pos mw ew) as Pw.
  destruct (nonneg_cases x Hx Nx) as [[s ->]|(m & e & -> & B)].
  - left. cbn [F2R SFdiv]. split; [unfold Rdiv; ring|]. eexists; reflexivity.
  - right. split; [|apply SFdiv_Rounds].
    pose proof (F2R_pos m e). cbn [F2R]. apply Rdiv_lt_0_compat; lra.
Qed.

(** The rounding of a value that has a canonical form, overflow included. *)
Lemma Rounds_canon_value (sx : bool) (n e : Z) (r : spec_float) :
  canon prec emax n e -> Rounds prec emax sx (IZR n * bpow e) r -> r = pack prec emax sx n e.
Proof.
  intros K (e' & n' & Hc & Hr & ->).
  pose proof (cexp_of_unique _ _ _ Hc (canon_cexp _ _ K)) as ->.
  rewrite scaled_int in Hr. apply rne_of_int in Hr. subst n'.
  destruct K as ((_ & U) & _). unfold finish, pack.
  destruct (Z.eqb_spec n (2 ^ prec)) as [E|_]; [lia|]. reflexivity.
Qed.

Lemma Rounds_double (m : positive) (e : Z) (r : spec_float) :
  SpecFloat.bounded prec emax m e = true ->
  Rounds prec emax false (IZR (Zpos m) * bpow e + IZR (Zpos m) * bpow e) r ->
  fin_valid prec emax r = true ->
  (exists m' e', r = S754_finite false m' e')
  /\ F2R r = (2 * (IZR (Zpos m) * bpow e))%R.
Proof.
  intros B H V. apply bounded_canon in B. destruct B as [((N0 & N1) & L & O) Le].
  destruct (Z_le_gt_dec (2 ^ (prec - 1)) (Zpos m)) as [G|G].
  - assert (K : canon prec emax (Zpos m) (e + 1)).
    { unfold canon. split; [lia|]. split; [lia|right; exact G]. }
    replace (IZR (Z.pos m) * bpow e + IZR (Z.pos m) * bpow e)%R
      with (IZR (Z.pos m) * bpow (e + 1))%R in H by (rewrite bpow_plus, bpow_1; ring).
    rewrite (Rounds_canon_value _ _ _ _ K H) in V |- *. cbn [pack] in V |- *.
    destruct (e + 1 <=? emax - prec); [|discriminate V].
    split; [eexists; eexists; reflexivity|].
    cbn [F2R]. rewrite bpow_plus, bpow_1. ring.
  - assert (Ee : e = emin) by (destruct O; [assumption|lia]).
    assert (E2 : 2 ^ prec = 2 * 2 ^ (prec - 1)).
    { replace prec with (Z.succ (prec - 1)) at 1 by lia. apply Z.pow_succ_r. lia. }
    assert (K : canon prec emax (Zpos m~0) e).
    { unfold canon. split; [lia|]. split; [lia|left; exact Ee]. }
    replace (IZR (Z.pos m) * bpow e + IZR (Z.pos m) * bpow e)%R
      with (IZR (Z.pos m~0) * bpow e)%R in H
      by (change (Z.pos m~0) with (2 * Z.pos m); rewrite mult_IZR; ring).
    rewrite (Rounds_canon_value _ _ _ _ K H) in V |- *. cbn [pack] in V |- *.
    destruct (e <=? emax - prec); [|discriminate V].
    split; [eexists; eexists; reflexivity|].
    cbn [F2R]. change (Z.pos m~0) with (2 * Z.pos m). rewrite mult_IZR. ring.
Qed.

End Round.

(** *** binary32 *)

Lemma B32_prec_pos : 0 < B32.prec.
Proof. reflexivity. Qed.

Lemma B32_prec_lt_emax : B32.prec < B32.emax.
Proof. reflexivity. Qed.

Lemma B32_one_eq : B32.one = S754_finite false 8388608 (-23).
Proof. reflexivity. Qed.

Lemma B32_half_eq : B32_half = S754_finite false 8388608 (-24).
Proof. reflexivity. Qed.

Lemma bpow_neg_IZR (k : Z) : 0 <= k -> bpow (- k) = (/ IZR (2 ^ k))%R.
Proof. intros H. rewrite bpow_opp, bpow_IZR by exact H. reflexivity. Qed.

Lemma F2R_B32_one : F2R B32.one = 1%R.
Proof.
  rewrite B32_one_eq. cbn [F2R].
  replace (bpow (-23)) with (/ IZR (2 ^ 23))%R by (symmetry; apply (bpow_neg_IZR 23); lia).
  change (2 ^ 23) with 8388608. field.
Qed.

Lemma F2R_B32_half : F2R B32_half = (/ 2)%R.
Proof.
  rewrite B32_half_eq. cbn [F2R].
  replace (bpow (-24)) with (/ IZR (2 ^ 24))%R by (symmetry; apply (bpow_neg_IZR 24); lia).
  change (2 ^ 24) with 16777216. field.
Qed.

Section B32Laws.

Local Abbreviation fv := (fin_valid B32.prec B32.emax).
Local Abbreviation sub := (SFsub B32.prec B32.emax).
Local Abbreviation div := (SFdiv B32.prec B32.emax).
Local Abbreviation add := (SFadd B32.prec B32.emax).
Local Abbreviation zero := (S754_zero false).

Lemma b32_leb_refl (a : spec_float) : fv a = true -> SFleb a a = true.
Proof. intros H. apply (SFleb_F2R B32.prec B32.emax B32_prec_pos B32_prec_lt_emax); try assumption. lra. Qed.

Lemma b32_sub_pos (a b : spec_float) :
  fv a = true -> fv b = true -> SFltb a b = true -> SFltb zero (sub b a) = true.
Proof.
  intros Ha Hb H. apply (SFltb_F2R B32.prec B32.emax B32_prec_pos B32_prec_lt_emax) in H; try assumption.
  destruct (SFsub_gt B32.prec B32.emax B32_prec_pos B32_prec_lt_emax b a Hb Ha H) as [A B].
  apply (Rounds_pos B32.prec B32.emax B32_prec_pos B32_prec_lt_emax _ _ B A).
Qed.

Lemma b32_nonneg (a : spec_float) :
  fv a = true -> SFleb zero a = true -> (0 <= F2R a)%R.
Proof.
  intros Ha H. apply (SFleb_F2R B32.prec B32.emax B32_prec_pos B32_prec_lt_emax) in H; [exact H|reflexivity|exact Ha].
Qed.

Lemma b32_sub_finite (a b : spec_float) :
  fv a = true -> fv b = true -> SFleb zero a = true -> SFleb a b = true ->
  fv (sub b a) = true.
Proof.
  intros Ha Hb Na H. pose proof (b32_nonneg a Ha Na) as Pa.
  apply (SFleb_F2R B32.prec B32.emax B32_prec_pos B32_prec_lt_emax) in H; try assumption.
  apply (RoundsZ_bounded B32.prec B32.emax B32_prec_pos B32_prec_lt_emax (F2R b - F2R a) _ b).
  - apply SFsub_RoundsZ; try assumption; reflexivity.
  - exact Hb.
  - lra.
Qed.

Lemma b32_div_zero (w : spec_float) : SFltb zero w = true -> div zero w = zero.
Proof. destruct w as [s|s| |s m e]; try discriminate; destruct s; try discriminate; reflexivity. Qed.

Lemma b32_div_diag (w : spec_float) :
  fv w = true -> SFltb zero w = true -> div w w = B32.one.
Proof.
  intros Hw Pw. destruct (pos_cases B32.prec B32.emax B32_prec_pos B32_prec_lt_emax w Hw Pw) as (m & e & -> & B).
  pose proof (SFdiv_Rounds B32.prec B32.emax B32_prec_pos B32_prec_lt_emax m m e e) as H. cbv zeta in H.
  pose proof (F2R_pos B32.prec B32.emax B32_prec_pos B32_prec_lt_emax m e) as P.
  replace (F2R (S754_finite false m e) / F2R (S754_finite false m e))%R
    with (IZR (Z.pos 8388608) * bpow (-23))%R in H.
  - rewrite B32_one_eq.
    apply (Rounds_exact B32.prec B32.emax B32_prec_pos B32_prec_lt_emax false 8388608%positive (-23) _ eq_refl H).
  - pose proof F2R_B32_one as E1. rewrite B32_one_eq in E1. cbn [F2R] in E1 |- *.
    rewrite Rmult_1_l in E1. rewrite E1, !Rmult_1_l.
    unfold Rdiv. rewrite Rinv_r by lra. reflexivity.
Qed.

Lemma b32_sub_mono (a b c : spec_float) :
  fv a = true -> fv b = true -> fv c = true ->
  SFleb zero c = true -> SFleb c a = true -> SFleb a b = true ->
  SFleb (sub a c) (sub b c) = true.
Proof.
  intros Ha Hb Hc Nc Hca Hab.
  apply (SFleb_F2R B32.prec B32.emax B32_prec_pos B32_prec_lt_emax) in Hca, Hab; try assumption.
  apply (RoundsZ_mono B32.prec B32.emax B32_prec_pos B32_prec_lt_emax (F2R a - F2R c) (F2R b - F2R c)).
  - lra.
  - apply SFsub_RoundsZ; try assumption; reflexivity.
  - apply SFsub_RoundsZ; try assumption; try reflexivity. lra.
Qed.

Lemma b32_div_mono (a b w : spec_float) :
  fv a = true -> fv b = true -> fv w = true -> SFltb zero w = true ->
  SFleb zero a = true -> SFleb a b = true ->
  SFleb (div a w) (div b w) = true.
Proof.
  intros Ha Hb Hw Pw Na Hab.
  pose proof (b32_nonneg a Ha Na) as Pa.
  apply (SFleb_F2R B32.prec B32.emax B32_prec_pos B32_prec_lt_emax) in Hab; try assumption.
  assert (Nb : SFleb zero b = true).
  { apply (SFleb_F2R B32.prec B32.emax B32_prec_pos B32_prec_lt_emax); [reflexivity|exact Hb|]. cbn [F2R]. lra. }
  destruct (pos_cases B32.prec B32.emax B32_prec_pos B32_prec_lt_emax w Hw Pw) as (m & e & -> & B).
  pose proof (F2R_pos B32.prec B32.emax B32_prec_pos B32_prec_lt_emax m e) as P.
  apply (RoundsZ_mono B32.prec B32.emax B32_prec_pos B32_prec_lt_emax
           (F2R a / F2R (S754_finite false m e)) (F2R b / F2R (S754_finite false m e))).
  - cbn [F2R]. unfold Rdiv. apply Rmult_le_compat_r; [|exact Hab].
    apply Rlt_le, Rinv_0_lt_compat. lra.
  - apply SFdiv_RoundsZ; try assumption; reflexivity.
  - apply SFdiv_RoundsZ; try assumption; reflexivity.
Qed.

Lemma b32_div_finite (a w : spec_float) :
  fv a = true -> fv w = true -> SFleb zero a = true -> SFleb a w = true ->
  SFltb zero w = true -> fv (div a w) = true.
Proof.
  intros Ha Hw Na Haw Pw.
  apply (SFleb_F2R B32.prec B32.emax B32_prec_pos B32_prec_lt_emax) in Haw; try assumption.
  destruct (pos_cases B32.prec B32.emax B32_prec_pos B32_prec_lt_emax w Hw Pw) as (m & e & -> & B).
  pose proof (F2R_pos B32.prec B32.emax B32_prec_pos B32_prec_lt_emax m e) as P.
  apply (RoundsZ_bounded B32.prec B32.emax B32_prec_pos B32_prec_lt_emax
           (F2R a / F2R (S754_finite false m e)) _ B32.one).
  - apply SFdiv_RoundsZ; try assumption; reflexivity.
  - reflexivity.
  - rewrite F2R_B32_one. cbn [F2R] in *. apply (Rmult_le_reg_r (1 * IZR (Z.pos m) * bpow e)); [lra|].
    unfold Rdiv. rewrite Rmult_assoc, Rinv_l by lra. lra.
Qed.

Lemma b32_sub_anti (a b : spec_float) :
  fv a = true -> fv b = true -> SFleb zero a = true -> SFleb a b = true ->
  SFleb b B32.one = true -> SFleb (sub B32.one b) (sub B32.one a) = true.
Proof.
  intros Ha Hb Na Hab Hb1.
  apply (SFleb_F2R B32.prec B32.emax B32_prec_pos B32_prec_lt_emax) in Hab, Hb1; try assumption; try reflexivity.
  apply (RoundsZ_mono B32.prec B32.emax B32_prec_pos B32_prec_lt_emax (F2R B32.one - F2R b) (F2R B32.one - F2R a)).
  - lra.
  - apply SFsub_RoundsZ; try assumption; reflexivity.
  - apply SFsub_RoundsZ; try assumption; try reflexivity. lra.
Qed.

Lemma b32_div_half (a b : spec_float) :
  fv a = true -> fv b = true -> SFltb a b = true ->
  fv (add (sub b a) (sub b a)) = true ->
  div (sub b a) (add (sub b a) (sub b a)) = B32_half.
Proof.
  intros Ha Hb H V. apply (SFltb_F2R B32.prec B32.emax B32_prec_pos B32_prec_lt_emax) in H; try assumption.
  destruct (SFsub_gt B32.prec B32.emax B32_prec_pos B32_prec_lt_emax b a Hb Ha H) as [A B].
  pose proof (Rounds_pos B32.prec B32.emax B32_prec_pos B32_prec_lt_emax _ _ B A) as Ph.
  set (h := sub b a) in *.
  assert (Vh : fv h = true).
  { assert (Hv0 : (0 <= F2R b - F2R a)%R) by lra.
    destruct (Rounds_valid B32.prec B32.emax B32_prec_pos B32_prec_lt_emax _ _ Hv0 A) as [E|E];
      [|exact E]. rewrite E in V. discriminate V. }
  destruct (pos_cases B32.prec B32.emax B32_prec_pos B32_prec_lt_emax h Vh Ph) as (m & e & Eh & Bh).
  rewrite Eh in *. pose proof (F2R_pos B32.prec B32.emax B32_prec_pos B32_prec_lt_emax m e) as P.
  pose proof (SFadd_Rounds B32.prec B32.emax B32_prec_pos B32_prec_lt_emax false false m m e e) as S.
  cbv zeta in S. cbn [F2R] in S. rewrite !Rmult_1_l in S. specialize (S ltac:(lra)).
  destruct (Rounds_double B32.prec B32.emax B32_prec_pos B32_prec_lt_emax m e _ Bh S V) as [(m' & e' & Ew) Fw].
  rewrite Ew in *.
  pose proof (SFdiv_Rounds B32.prec B32.emax B32_prec_pos B32_prec_lt_emax m m' e e') as D. cbv zeta in D.
  rewrite Fw in D.
  replace (F2R (S754_finite false m e) / (2 * (IZR (Z.pos m) * bpow e)))%R
    with (IZR (Z.pos 8388608) * bpow (-24))%R in D.
  - rewrite B32_half_eq.
    apply (Rounds_exact B32.prec B32.emax B32_prec_pos B32_prec_lt_emax false 8388608%positive (-24) _ eq_refl D).
  - pose proof F2R_B32_half as E1. rewrite B32_half_eq in E1. cbn [F2R] in E1 |- *.
    rewrite Rmult_1_l in E1. rewrite E1, !Rmult_1_l.
    set (u := (IZR (Z.pos m) * bpow e)%R) in *. field. lra.
Qed.

End B32Laws.

#[export] Instance binary32_arith : FloatArithLaws binary32.
Proof.
  split.
  - exact b32_leb_refl.
  - exact b32_leb_trans.
  - exact (@fleb_fltb_chain binary32 binary32_chain).
  - reflexivity.
  - reflexivity.
  - reflexivity.
  - exact (SFsub_same B32.prec B32.emax B32_prec_pos B32_prec_lt_emax).
  - exact b32_sub_pos.
  - exact b32_sub_finite.
  - reflexivity.
  - exact b32_div_zero.
  - exact b32_div_diag.
  - exact b32_sub_mono.
  - exact b32_div_mono.
  - exact b32_div_finite.
  - exact b32_sub_anti.
  - exact b32_div_half.
  - reflexivity.
  - reflexivity.
Qed.

(** ** All laws hold for [exactQ] *)

Local Open Scope Qc_scope.

Lemma ExactQ_leb_iff (a b : Qc) : ExactQ.leb a b = true <-> a <= b.
Proof. unfold ExactQ.leb, Qcle. apply Qle_bool_iff. Qed.

Lemma ExactQ_ltb_iff (a b : Qc) : ExactQ.ltb a b = true <-> a < b.
Proof.
  unfold ExactQ.ltb. rewrite negb_true_iff. split; intros H.
  - apply Qcnot_le_lt. intros H1. apply ExactQ_leb_iff in H1.
    unfold ExactQ.leb in H1. congruence.
  - destruct (Qle_bool b a) eqn:E; [|reflexivity].
    apply Qle_bool_iff in E. exfalso. exact (Qclt_not_le _ _ H E).
Qed.

Lemma ExactQ_eqb_iff (a b : Qc) : ExactQ.eqb a b = true <-> a = b.
Proof.
  unfold ExactQ.eqb. rewrite Qeq_bool_iff. split; intros H.
  - apply Qc_is_canon; exact H.
  - subst; reflexivity.
Qed.

Lemma Qc_inv_pos (w : Qc) : 0 < w -> 0 < / w.
Proof.
  intros H. unfold Qclt, Qcinv in *. simpl in *.
  rewrite Qred_correct. apply Qinv_lt_0_compat. exact H.
Qed.

#[export] Instance exactQ_order : FloatOrderLaws exactQ.
Proof.
  split; simpl.
  - apply ExactQ_eqb_iff; reflexivity.
  - intros a b H. apply ExactQ_eqb_iff in H. subst.
    destruct (ExactQ.ltb b b) eqn:E; [|reflexivity].
    apply ExactQ_ltb_iff in E. exfalso. exact (Qclt_not_eq _ _ E eq_refl).
  - intros a. destruct (ExactQ.ltb a a) eqn:E; [|reflexivity].
    apply ExactQ_ltb_iff in E. exfalso. exact (Qclt_not_eq _ _ E eq_refl).
  - intros a b H. apply ExactQ_leb_iff. apply Qclt_le_weak.
    apply ExactQ_ltb_iff; exact H.
  - intros a b H. apply ExactQ_leb_iff in H.
    destruct (ExactQ.ltb b a) eqn:E; [|reflexivity].
    apply ExactQ_ltb_iff in E. exfalso. exact (Qcle_not_lt _ _ H E).
Qed.

Lemma Qc_two_neq_0 : 1 + 1 <> 0.
Proof. intros H. discriminate H. Qed.

Lemma Qc_sub_diag (a : Qc) : a - a = 0.
Proof. ring. Qed.

Lemma Qc_sub_one_zero : 1 - 0 = 1 :> Qc.
Proof. ring. Qed.

Lemma Qc_div_zero (w : Qc) : 0 / w = 0.
Proof. unfold Qcdiv. ring. Qed.

Lemma Qc_div_diag (w : Qc) : 0 < w -> w / w = 1.
Proof.
  intros H. field. intros E; subst. exact (Qclt_not_eq _ _ H eq_refl).
Qed.

Lemma Qc_div_half (h : Qc) : 0 < h -> h / (h + h) = 1 / (1 + 1).
Proof.
  intros H. field. split.
  - exact Qc_two_neq_0.
  - intros E. assert (E' : h = 0).
    { replace (h + h) with (h * (1 + 1)) in E by ring.
      destruct (Qcmult_integral _ _ E) as [E1|E1]; [exact E1|].
      exfalso; exact (Qc_two_neq_0 E1). }
    subst. exact (Qclt_not_eq _ _ H eq_refl).
Qed.

Lemma Qc_sub_one_half : 1 - 1 / (1 + 1) = 1 / (1 + 1) :> Qc.
Proof. field. exact Qc_two_neq_0. Qed.

#[export] Instance exactQ_arith : FloatArithLaws exactQ.
Proof.
  split; simpl; try reflexivity.
  - intros a _. apply ExactQ_leb_iff. apply Qcle_refl.
  - intros a b c H1 H2. apply ExactQ_leb_iff in H1, H2. apply ExactQ_leb_iff.
    eapply Qcle_trans; eauto.
  - intros a b c H1 H2. apply ExactQ_leb_iff in H1. apply ExactQ_ltb_iff in H2.
    apply ExactQ_ltb_iff. eapply Qcle_lt_trans; eauto.
  - intros a _. apply Qc_sub_diag.
  - intros a b _ _ H. apply ExactQ_ltb_iff in H. apply ExactQ_ltb_iff.
    apply Qclt_minus_iff in H. exact H.
  - intros w _. apply Qc_div_zero.
  - intros w _ H. apply ExactQ_ltb_iff in H. apply Qc_div_diag; exact H.
  - intros a b c _ _ _ _ _ H. apply ExactQ_leb_iff in H. apply ExactQ_leb_iff.
    unfold Qcminus. apply Qcplus_le_compat; [exact H|apply Qcle_refl].
  - intros a b w _ _ _ Hw _ H. apply ExactQ_ltb_iff in Hw. apply ExactQ_leb_iff in H.
    apply ExactQ_leb_iff. unfold Qcdiv. apply Qcmult_le_compat_r; [exact H|].
    apply Qclt_le_weak. apply Qc_inv_pos. exact Hw.
  - intros a b _ _ _ H _. apply ExactQ_leb_iff in H. apply ExactQ_leb_iff.
    unfold Qcminus. apply Qcplus_le_compat; [apply Qcle_refl|].
    apply Qcopp_le_compat; exact H.
  - intros a b _ _ H _. apply ExactQ_ltb_iff in H.
    fold (Qcminus b a). replace (b - a + (b - a)) with ((b - a) + (b - a)) by ring.
    apply Qc_div_half. apply Qclt_minus_iff in H. exact H.
Qed.

Local Close Scope Qc_scope.

#[export] Instance exactQ_int : FloatIntLaws exactQ.
Proof.
  split; simpl; intros a; unfold ExactQ.to_int, ExactQ.floor, Qfloor;
    destruct a as [[n d] Hc]; simpl.
  - intros _ H.
    assert (E : Z.quot n (Z.pos d) = n / Z.pos d).
    { apply Z.quot_div_nonneg; [|lia].
      pose proof (Z.div_lt_upper_bound n (Z.pos d) 0). lia. }
    rewrite E. apply int_of_trunc_in_range. unfold INT_MIN. lia.
  - intros H. apply int_of_trunc_nonpos.
    assert (n < 0).
    { destruct (Z_lt_le_dec n 0); [assumption|].
      pose proof (Z.div_pos n (Z.pos d)). lia. }
    pose proof (Z.quot_opp_l n (Z.pos d)).
    pose proof (Z.quot_pos (- n) (Z.pos d)). lia.
Qed.

#[export] Instance exactQ_chain : FloatChainLaws exactQ.
Proof.
  split. exact (@fleb_fltb_trans exactQ exactQ_arith).
Qed.

(** ** Classification of one object *)

Section Classification.
Context {FO : FloatOps} {EC : EngineConsts}.


Lemma DrawQuad_feature_visible (G : Globals) (qd : CFeatureQuadDrawer) (f : CFeature) :
  visible G qd f ->
  DrawQuad_feature G qd f =
    let r := SetDrawAlphaValue G (set_drawFlag f FD_NODRAW_FLAG) (qd_cam qd)
               (sqFadeDistBegin qd) (sqFadeDistEnd qd) in
    if fst r then
      set_drawFlag (snd r)
        (drawFlag (snd r) + FD_OPAQUE_FLAG * Z.b2z (feqb (drawAlpha (snd r)) fone)
         + FD_ALPHAF_FLAG * Z.b2z (fltb (drawAlpha (snd r)) fone))
    else set_drawFlag (snd r)
           (FD_FARTEX_FLAG * Z.b2z (drawFarFeatures qd) * Z.b2z (negb (alphaFade (snd r)))).
Proof.
  unfold visible, excluded, pass_excluded, DrawQuad_feature.
  intros (He & Hs & Hp).
  apply orb_false_iff in He. destruct He as [He H3].
  apply orb_false_iff in He. destruct He as [H1 H2].
  apply orb_false_iff in Hp. destruct Hp as [H4 H5].
  cbn [set_drawFlag noDraw IsInVoid IsInLosForAllyTeam IsInWater drawMidPos drawRadius].
  rewrite H1, H2, H3, Hs, H4, H5.
  cbv zeta.
  destruct (SetDrawAlphaValue G _ (qd_cam qd) (sqFadeDistBegin qd) (sqFadeDistEnd qd))
    as [ok f'] eqn:E.
  cbn [fst snd]. destruct ok; reflexivity.
Qed.

Lemma SetDrawAlphaValue_fading (G : Globals) (f : CFeature) (cam : CCamera) (B E : float) :
  alphaFade f = true ->
  SetDrawAlphaValue G f (Some cam) B E =
    (fade_drawn (farLengthOf G f) (sqDistOf f cam) B E,
     set_drawAlpha f (fade_alpha (farLengthOf G f) (sqDistOf f cam) B E)).
Proof.
  intros Ha. unfold SetDrawAlphaValue, fade_drawn, fade_alpha, farLengthOf, sqDistOf,
    fadeBegin', fadeEnd'.
  cbn [set_drawAlpha alphaFade pos sqRadius]. rewrite Ha. cbn [negb].
  destruct (fgeb _ _); [reflexivity|].
  destruct (fltb (fmul (sqRadius f) (unitDrawDistSqr G)) E);
    destruct (fltb _ _); try reflexivity; destruct (fltb _ _); reflexivity.
Qed.


Lemma DrawQuad_feature_fading (G : Globals) (qd : CFeatureQuadDrawer) (f : CFeature)
    (cam : CCamera) :
  visible G qd f -> qd_cam qd = Some cam -> alphaFade f = true ->
  let a := fade_alpha (farLengthOf G f) (sqDistOf f cam)
             (sqFadeDistBegin qd) (sqFadeDistEnd qd) in
  drawAlpha (DrawQuad_feature G qd f) = a
  /\ drawFlag (DrawQuad_feature G qd f) =
       if fade_drawn (farLengthOf G f) (sqDistOf f cam)
            (sqFadeDistBegin qd) (sqFadeDistEnd qd)
       then FD_OPAQUE_FLAG * Z.b2z (feqb a fone) + FD_ALPHAF_FLAG * Z.b2z (fltb a fone)
       else FD_NODRAW_FLAG.
Proof.
  intros Hv Hc Ha. rewrite (DrawQuad_feature_visible _ _ _ Hv), Hc.
  rewrite SetDrawAlphaValue_fading by exact Ha.
  cbv zeta. cbn [fst snd].
  change (sqDistOf (set_drawFlag f FD_NODRAW_FLAG) cam) with (sqDistOf f cam).
  change (farLengthOf G (set_drawFlag f FD_NODRAW_FLAG)) with (farLengthOf G f).
  destruct (fade_drawn _ _ _ _); cbn [set_drawFlag set_drawAlpha drawAlpha drawFlag alphaFade].
  - split; [reflexivity|]. unfold FD_NODRAW_FLAG. lia.
  - rewrite Ha. cbn [negb Z.b2z]. split; [reflexivity|]. unfold FD_NODRAW_FLAG. lia.
Qed.


(** Claim C2, amended.  A visible fade-capable object at squared camera
    distance at least [farLength] is left at [FD_NODRAW_FLAG] with
    [drawAlpha = 0.0f] in a non-shadow pass; [drawFarFeatures] is not a
    hypothesis: the far-texture flag is multiplied by [!f->alphaFade], so a
    fade-capable object is never made an impostor. *)
Theorem far_fading_object_is_not_drawn
    (G : Globals) (qd : CFeatureQuadDrawer) (f : CFeature) (cam : CCamera) :
  visible G qd f -> qd_cam qd = Some cam -> alphaFade f = true ->
  fgeb (sqDistOf f cam) (farLengthOf G f) = true ->
  drawFlag (DrawQuad_feature G qd f) = FD_NODRAW_FLAG
  /\ drawAlpha (DrawQuad_feature G qd f) = fzero.
Proof.
  intros Hv Hc Ha Hd.
  destruct (DrawQuad_feature_fading _ _ _ _ Hv Hc Ha) as [H1 H2].
  rewrite H1, H2. unfold fade_drawn, fade_alpha. rewrite Hd. split; reflexivity.
Qed.

Lemma fltb_not_fgeb {OL : FloatOrderLaws FO} (a b : float) :
  fltb a b = true -> fgeb a b = false.
Proof.
  intros H. unfold fgeb. destruct (fleb b a) eqn:E; [|reflexivity].
  rewrite (fleb_fltb _ _ E) in H. discriminate.
Qed.

(** Claim C1, amended.  For a visible fade-capable object at squared camera
    distance [d < farLength] in a non-shadow pass: the clamped window has
    [fadeEnd' <= farLength], and when [farLength < sqFadeDistEnd] it is
    [fadeEnd' = farLength], [fadeBegin' = farLength * (begin / end)].  If
    [d < fadeBegin'] the object gets alpha 1 and [FD_OPAQUE_FLAG].  Otherwise,
    if [d < fadeEnd'], alpha is [1 - (d - fadeBegin') / (fadeEnd' - fadeBegin')]
    and the flag follows the value of alpha: [FD_ALPHAF_FLAG] when alpha is
    below 1 and [FD_OPAQUE_FLAG] when it is 1 (as at [d = fadeBegin']).
    Strictly inside the clamped window, at the [d] with
    [fadeEnd' - fadeBegin' = 2 * (d - fadeBegin')], alpha is one half and the
    flag is [FD_ALPHAF_FLAG]. *)
Theorem fade_window_classification {OL : FloatOrderLaws FO} {AL : FloatArithLaws FO}
    (G : Globals) (qd : CFeatureQuadDrawer) (f : CFeature) (cam : CCamera) :
  visible G qd f -> qd_cam qd = Some cam -> alphaFade f = true ->
  let d := sqDistOf f cam in
  let farLength := farLengthOf G f in
  let fb := fadeBegin' farLength (sqFadeDistBegin qd) (sqFadeDistEnd qd) in
  let fe := fadeEnd' farLength (sqFadeDistBegin qd) (sqFadeDistEnd qd) in
  let f' := DrawQuad_feature G qd f in
  fltb d farLength = true ->
  (fltb farLength fe = false
   /\ (fltb farLength (sqFadeDistEnd qd) = true ->
       fe = farLength
       /\ fb = fmul farLength (fdiv (sqFadeDistBegin qd) (sqFadeDistEnd qd))))
  /\ (fltb d fb = true -> drawAlpha f' = fone /\ drawFlag f' = FD_OPAQUE_FLAG)
  /\ (fltb d fb = false -> fltb d fe = true ->
      drawAlpha f' = fsub fone (fdiv (fsub d fb) (fsub fe fb))
      /\ (fltb (drawAlpha f') fone = true -> drawFlag f' = FD_ALPHAF_FLAG)
      /\ (feqb (drawAlpha f') fone = true -> drawFlag f' = FD_OPAQUE_FLAG))
  /\ (fltb fb d = true -> fltb d fe = true ->
      is_finite fb = true -> is_finite d = true -> is_finite (fsub fe fb) = true ->
      fsub fe fb = fadd (fsub d fb) (fsub d fb) ->
      drawAlpha f' = fhalf /\ drawFlag f' = FD_ALPHAF_FLAG).
Proof.
  intros Hv Hc Ha d farLength fb fe f' Hd.
  destruct (DrawQuad_feature_fading _ _ _ _ Hv Hc Ha) as [H1 H2].
  fold d farLength in H1, H2. fold f' in H1, H2.
  pose proof (fltb_not_fgeb _ _ Hd) as Hge.
  assert (Hmid : fltb d fb = false -> fltb d fe = true ->
      drawAlpha f' = fsub fone (fdiv (fsub d fb) (fsub fe fb))
      /\ drawFlag f' = FD_OPAQUE_FLAG * Z.b2z (feqb (drawAlpha f') fone)
                       + FD_ALPHAF_FLAG * Z.b2z (fltb (drawAlpha f') fone)).
  { intros Hb He. rewrite H2, H1. unfold fade_alpha, fade_drawn.
    fold fb fe. rewrite Hge, Hb, He. split; reflexivity. }
  split; [|split; [|split]].
  - split.
    + unfold fe, fadeEnd'. destruct (fltb farLength (sqFadeDistEnd qd)) eqn:E.
      * apply fltb_irrefl.
      * exact E.
    + intros E. unfold fe, fb, fadeEnd', fadeBegin'. rewrite E. split; reflexivity.
  - intros Hb. rewrite H2, H1. unfold fade_alpha, fade_drawn.
    fold fb fe. rewrite Hge, Hb.
    rewrite feqb_one, (feqb_fltb _ _ feqb_one). split; reflexivity.
  - intros Hb He. destruct (Hmid Hb He) as [Ea Ef]. split; [exact Ea|]. split.
    + intros Hlt. rewrite Ef, Hlt.
      destruct (feqb (drawAlpha f') fone) eqn:Eq1.
      * rewrite (feqb_fltb _ _ Eq1) in Hlt. discriminate.
      * reflexivity.
    + intros Heq. rewrite Ef, Heq, (feqb_fltb _ _ Heq). reflexivity.
  - intros Hbd He Fb Fd Fw Hm.
    assert (Hb : fltb d fb = false).
    { apply fleb_fltb. apply fltb_fleb. exact Hbd. }
    destruct (Hmid Hb He) as [Ea Ef].
    assert (Eh : drawAlpha f' = fhalf).
    { rewrite Ea, Hm. rewrite fdiv_half.
      - apply fsub_one_half.
      - exact Fb.
      - exact Fd.
      - exact Hbd.
      - rewrite <- Hm. exact Fw. }
    split; [exact Eh|].
    rewrite Ef, Eh, fltb_half_one.
    destruct (feqb fhalf fone) eqn:Eq1.
    + pose proof (feqb_fltb _ _ Eq1) as X. rewrite fltb_half_one in X. discriminate.
    + reflexivity.
Qed.


Lemma below_window_end_below_far {OL : FloatOrderLaws FO} {AL : FloatArithLaws FO}
    (fl d B E : float) :
  fltb d (fadeEnd' fl B E) = true -> fgeb d fl = false.
Proof.
  unfold fadeEnd'. destruct (fltb fl E) eqn:Hc; intros H.
  - apply fltb_not_fgeb; exact H.
  - unfold fgeb. destruct (fleb fl d) eqn:Hg; [|reflexivity].
    rewrite (fleb_fltb_trans _ _ _ Hg H) in Hc. discriminate.
Qed.

Lemma fade_alpha_in_window {OL : FloatOrderLaws FO} {AL : FloatArithLaws FO}
    (fl d B E : float) :
  fleb (fadeBegin' fl B E) d = true -> fltb d (fadeEnd' fl B E) = true ->
  fade_alpha fl d B E =
    fsub fone (fdiv (fsub d (fadeBegin' fl B E))
                    (fsub (fadeEnd' fl B E) (fadeBegin' fl B E))).
Proof.
  intros Hb He. unfold fade_alpha.
  rewrite (below_window_end_below_far _ _ _ _ He), (fleb_fltb _ _ Hb), He.
  reflexivity.
Qed.

Lemma fade_alpha_cases {OL : FloatOrderLaws FO} {AL : FloatArithLaws FO}
    (fl d B E : float) :
  fleb (fadeBegin' fl B E) d = true ->
  fade_alpha fl d B E = fzero
  \/ (fltb d (fadeEnd' fl B E) = true /\ fgeb d fl = false).
Proof.
  intros Hb. unfold fade_alpha. destruct (fgeb d fl) eqn:Hg; [left; reflexivity|].
  rewrite (fleb_fltb _ _ Hb).
  destruct (fltb d (fadeEnd' fl B E)) eqn:He; [right; split; reflexivity|left; reflexivity].
Qed.

(** Inside a window [0 <= b <= d < e] of numbers the quotient
    [(d - b) / (e - b)] is a number between 0 and 1, and so are its parts. *)
Lemma window_quotient {OL : FloatOrderLaws FO} {AL : FloatArithLaws FO}
    (b e d : float) :
  is_finite b = true -> is_finite e = true -> is_finite d = true ->
  fleb fzero b = true ->
  fleb b d = true -> fltb d e = true ->
  (is_finite (fsub e b) = true /\ fltb fzero (fsub e b) = true)
  /\ (is_finite (fsub d b) = true /\ fleb fzero (fsub d b) = true)
  /\ is_finite (fdiv (fsub d b) (fsub e b)) = true
  /\ fleb fzero (fdiv (fsub d b) (fsub e b)) = true
  /\ fleb (fdiv (fsub d b) (fsub e b)) fone = true.
Proof.
  intros Fb Fe Fd Zb Hb He.
  assert (Hbe : fltb b e = true) by exact (fleb_fltb_trans _ _ _ Hb He).
  assert (Fw : is_finite (fsub e b) = true).
  { apply fsub_finite; try assumption. apply fltb_fleb; exact Hbe. }
  assert (Pw : fltb fzero (fsub e b) = true) by (apply fsub_pos; assumption).
  assert (Fn : is_finite (fsub d b) = true) by (apply fsub_finite; assumption).
  assert (Zn : fleb fzero (fsub d b) = true).
  { rewrite <- (fsub_diag b Fb). apply fsub_mono; try assumption.
    apply fleb_refl; exact Fb. }
  assert (H1 : fleb (fsub d b) (fsub e b) = true).
  { apply fsub_mono; try assumption. apply fltb_fleb; exact He. }
  assert (Z0 : fleb fzero fzero = true) by (apply fleb_refl; apply is_finite_zero).
  repeat split; try assumption.
  - apply fdiv_finite; assumption.
  - rewrite <- (fdiv_zero (fsub e b) Pw).
    apply fdiv_mono; try assumption. apply is_finite_zero.
  - rewrite <- (fdiv_diag (fsub e b) Fw Pw).
    apply fdiv_mono; assumption.
Qed.

Lemma window_alpha_nonneg {OL : FloatOrderLaws FO} {AL : FloatArithLaws FO}
    (b e d : float) :
  is_finite b = true -> is_finite e = true -> is_finite d = true ->
  fleb fzero b = true ->
  fleb b d = true -> fltb d e = true ->
  fleb fzero (fsub fone (fdiv (fsub d b) (fsub e b))) = true.
Proof.
  intros Fb Fe Fd Zb Hb He.
  destruct (window_quotient b e d Fb Fe Fd Zb Hb He) as (_ & _ & Fq & Zq & Hq).
  rewrite <- (fsub_diag fone is_finite_one).
  apply fsub_anti; try assumption.
  - apply is_finite_one.
  - apply fleb_refl. apply is_finite_one.
Qed.

(** Claim C6.  For fade-capable objects of one radius classified by one
    non-shadow pass, with a finite window [0 <= fadeBegin' <= fadeEnd']:
    between [fadeBegin'] and [fadeEnd'] the object farther away never gets
    the larger [drawAlpha]; at [d = fadeBegin'] (window not empty) alpha is
    1; at [d = fadeEnd'] the object is not drawn with alpha: it is left at
    [FD_NODRAW_FLAG]. *)
Theorem fade_alpha_is_monotone {OL : FloatOrderLaws FO} {AL : FloatArithLaws FO}
    (G : Globals) (qd : CFeatureQuadDrawer) (f1 f2 : CFeature) (cam : CCamera) :
  visible G qd f1 -> visible G qd f2 -> qd_cam qd = Some cam ->
  alphaFade f1 = true -> alphaFade f2 = true -> sqRadius f1 = sqRadius f2 ->
  let farLength := farLengthOf G f1 in
  let fb := fadeBegin' farLength (sqFadeDistBegin qd) (sqFadeDistEnd qd) in
  let fe := fadeEnd' farLength (sqFadeDistBegin qd) (sqFadeDistEnd qd) in
  let d1 := sqDistOf f1 cam in
  let d2 := sqDistOf f2 cam in
  is_finite fb = true -> is_finite fe = true ->
  fleb fzero fb = true -> fleb fb fe = true ->
  (is_finite d1 = true -> is_finite d2 = true ->
   fleb fb d1 = true -> fleb d1 d2 = true -> fleb d2 fe = true ->
   fleb (drawAlpha (DrawQuad_feature G qd f2)) (drawAlpha (DrawQuad_feature G qd f1)) = true)
  /\ (d1 = fb -> fltb fb fe = true -> drawAlpha (DrawQuad_feature G qd f1) = fone)
  /\ (d1 = fe ->
      drawAlpha (DrawQuad_feature G qd f1) = fzero
      /\ drawFlag (DrawQuad_feature G qd f1) = FD_NODRAW_FLAG).
Proof.
  intros Hv1 Hv2 Hc Ha1 Ha2 Hr farLength fb fe d1 d2 Fb Fe Zb Hbe.
  destruct (DrawQuad_feature_fading _ _ _ _ Hv1 Hc Ha1) as [A1 B1].
  destruct (DrawQuad_feature_fading _ _ _ _ Hv2 Hc Ha2) as [A2 _].
  assert (Hfl : farLengthOf G f2 = farLength).
  { unfold farLength, farLengthOf. rewrite Hr. reflexivity. }
  rewrite Hfl in A2. fold farLength d1 in A1, B1. fold d2 in A2.
  set (B := sqFadeDistBegin qd) in *. set (E := sqFadeDistEnd qd) in *.
  split; [|split].
  - intros F1 F2 Hb1 H12 H2e. rewrite A1, A2.
    assert (Hb2 : fleb fb d2 = true) by exact (fleb_trans _ _ _ Hb1 H12).
    assert (N1 : fleb fzero (fade_alpha farLength d1 B E) = true).
    { destruct (fade_alpha_cases farLength d1 B E Hb1) as [Z|[L _]].
      - rewrite Z. apply fleb_refl. apply is_finite_zero.
      - rewrite (fade_alpha_in_window _ _ _ _ Hb1 L).
        apply window_alpha_nonneg; assumption. }
    destruct (fade_alpha_cases farLength d2 B E Hb2) as [Z|[L2 G2]].
    + rewrite Z. exact N1.
    + assert (L1 : fltb d1 fe = true) by exact (fleb_fltb_trans _ _ _ H12 L2).
      rewrite (fade_alpha_in_window _ _ _ _ Hb1 L1), (fade_alpha_in_window _ _ _ _ Hb2 L2).
      fold fb fe.
      destruct (window_quotient fb fe d1 Fb Fe F1 Zb Hb1 L1)
        as ((Fw & Pw) & (Fn1 & Zn1) & Fq1 & Zq1 & _).
      destruct (window_quotient fb fe d2 Fb Fe F2 Zb Hb2 L2)
        as (_ & (Fn2 & _) & Fq2 & _ & Hq2).
      apply fsub_anti; try assumption.
      apply fdiv_mono; try assumption.
      apply fsub_mono; assumption.
  - intros Ed Hlt. rewrite A1, Ed.
    assert (Hb : fleb fb fb = true) by (apply fleb_refl; exact Fb).
    rewrite (fade_alpha_in_window _ _ _ _ Hb Hlt). fold fb fe.
    rewrite (fsub_diag _ Fb), fdiv_zero.
    + apply fsub_one_zero.
    + apply fsub_pos; assumption.
  - intros Ed. rewrite B1, A1, Ed. unfold fade_alpha, fade_drawn. fold fb fe.
    rewrite (fleb_fltb _ _ Hbe), (fltb_irrefl fe).
    destruct (fgeb fe farLength); split; reflexivity.
Qed.

End Classification.

(** ** Vectors and collections *)

Lemma replace_first_none (v : list ptr) (e back : ptr) :
  ~ In e v -> replace_first v e back = None.
Proof.
  induction v as [|a tl IH]; simpl; intros H; [reflexivity|].
  destruct (Nat.eqb a e) eqn:E.
  - apply Nat.eqb_eq in E. exfalso; apply H; left; exact E.
  - rewrite IH; [reflexivity|]. intros H1; apply H; right; exact H1.
Qed.

Lemma replace_first_some (v : list ptr) (e back : ptr) :
  In e v ->
  exists l1 l2, v = l1 ++ e :: l2 /\ ~ In e l1
                /\ replace_first v e back = Some (l1 ++ back :: l2).
Proof.
  induction v as [|a tl IH]; simpl; intros H; [contradiction|].
  destruct (Nat.eqb a e) eqn:E.
  - apply Nat.eqb_eq in E. subst a. exists [], tl. simpl. auto.
  - apply Nat.eqb_neq in E. destruct H as [H|H]; [contradiction|].
    destruct (IH H) as (l1 & l2 & E1 & N & R).
    exists (a :: l1), l2. simpl. rewrite R, E1. simpl. repeat split; auto.
    intros [X|X]; [exact (E X)|exact (N X)].
Qed.

Lemma VectorErase_absent (v : list ptr) (e : ptr) :
  ~ In e v -> VectorErase v e = (false, v).
Proof.
  intros H. unfold VectorErase. rewrite replace_first_none by exact H. reflexivity.
Qed.

Lemma VectorErase_present (v : list ptr) (e : ptr) :
  In e v ->
  fst (VectorErase v e) = true /\ Permutation (e :: snd (VectorErase v e)) v.
Proof.
  intros H. unfold VectorErase.
  destruct (replace_first_some v e (last v e) H) as (l1 & l2 & E1 & N & R).
  rewrite R. simpl. split; [reflexivity|].
  destruct l2 as [|c l2].
  - rewrite E1. rewrite last_last, removelast_last.
    apply Permutation_cons_append.
  - destruct (exists_last (l := c :: l2)) as [l2' [b Eb]]; [discriminate|].
    rewrite Eb in E1 |- *.
    assert (Hl : last v e = b).
    { rewrite E1. replace (l1 ++ e :: l2' ++ [b]) with ((l1 ++ e :: l2') ++ [b]).
      - apply last_last.
      - rewrite <- app_assoc. reflexivity. }
    rewrite Hl.
    replace (l1 ++ b :: l2' ++ [b]) with ((l1 ++ b :: l2') ++ [b])
      by (rewrite <- app_assoc; reflexivity).
    rewrite removelast_last. rewrite E1.
    apply Permutation_trans with (l' := l1 ++ e :: b :: l2').
    + apply Permutation_cons_app. reflexivity.
    + apply Permutation_app_head. apply perm_skip.
      apply Permutation_cons_append.
Qed.

Lemma VectorErase_subset (v : list ptr) (e q : ptr) :
  In q (snd (VectorErase v e)) -> In q v.
Proof.
  intros H. destruct (in_dec Nat.eq_dec e v) as [I|I].
  - destruct (VectorErase_present v e I) as [_ P].
    apply (Permutation_in q P). right; exact H.
  - rewrite (VectorErase_absent v e I) in H. exact H.
Qed.

Lemma VectorErase_nodup (v : list ptr) (e : ptr) :
  NoDup v ->
  NoDup (snd (VectorErase v e))
  /\ forall q, In q (snd (VectorErase v e)) <-> In q v /\ q <> e.
Proof.
  intros Hn. destruct (in_dec Nat.eq_dec e v) as [I|I].
  - destruct (VectorErase_present v e I) as [_ P].
    assert (Hn' : NoDup (e :: snd (VectorErase v e))).
    { apply (Permutation_NoDup (Permutation_sym P)). exact Hn. }
    inversion Hn' as [|x l Hx Hl]; subst. split; [exact Hl|].
    intros q. split.
    + intros Hq. split.
      * apply (Permutation_in q P). right; exact Hq.
      * intros ->. exact (Hx Hq).
    + intros [Hq Hne]. apply (Permutation_in q (Permutation_sym P)) in Hq.
      destruct Hq as [Hq|Hq]; [congruence|exact Hq].
  - rewrite (VectorErase_absent v e I). simpl. split; [exact Hn|].
    intros q. split.
    + intros Hq. split; [exact Hq|]. intros ->. exact (I Hq).
    + intros [Hq _]. exact Hq.
Qed.

Lemma NoDup_app_disjoint (l1 l2 : list ptr) (a : ptr) :
  NoDup (l1 ++ l2) -> In a l1 -> ~ In a l2.
Proof.
  induction l1 as [|x l1 IH]; simpl; intros H Ha; [contradiction|].
  inversion H as [|y l Hy Hl]; subst. destruct Ha as [Ha|Ha].
  - subst. intros Hb. apply Hy. apply in_or_app. right; exact Hb.
  - exact (IH Hl Ha).
Qed.

Lemma AddFeature_perm (b : FeatureRenderBin) (k : Z) (p : ptr) :
  Permutation (bin_features (AddFeature b k p)) (p :: bin_features b).
Proof.
  induction b as [|[k0 fs] tl IH]; simpl.
  - reflexivity.
  - destruct (Z.eqb k0 k); simpl.
    + rewrite <- app_assoc. simpl.
      apply Permutation_sym. apply Permutation_cons_app.
      apply Permutation_app_head.
      change (bin_features tl) with ([] ++ bin_features tl) at 1. reflexivity.
    + unfold bin_features in *. rewrite IH.
      apply Permutation_sym. apply Permutation_middle.
Qed.

Lemma AddFeature_in (b : FeatureRenderBin) (k : Z) (p q : ptr) :
  In q (bin_features (AddFeature b k p)) <-> q = p \/ In q (bin_features b).
Proof.
  split; intros H.
  - apply (Permutation_in q (AddFeature_perm b k p)) in H.
    destruct H as [H|H]; auto.
  - apply (Permutation_in q (Permutation_sym (AddFeature_perm b k p))).
    destruct H as [H|H]; [left; auto|right; auto].
Qed.

Lemma AddFeature_keys (b : FeatureRenderBin) (k : Z) (p : ptr) :
  NoDup (map fst b) -> NoDup (map fst (AddFeature b k p)).
Proof.
  induction b as [|[k0 fs] tl IH]; simpl; intros H.
  - constructor; [intros []|constructor].
  - destruct (Z.eqb k0 k) eqn:E; simpl; [exact H|].
    inversion H as [|x l Hx Hl]; subst. constructor; [|exact (IH Hl)].
    intros Hin. apply Hx. clear IH Hx Hl H.
    induction tl as [|[k1 fs1] tl IH]; simpl in *.
    + destruct Hin as [Hin|[]]. subst. rewrite Z.eqb_refl in E. discriminate.
    + destruct (Z.eqb k1 k); simpl in *; [exact Hin|].
      destruct Hin as [Hin|Hin]; [left; exact Hin|right; exact (IH Hin)].
Qed.

Lemma AddFeature_keyed (tex : ptr -> option Z) (b : FeatureRenderBin) (k : Z) (p : ptr) :
  (forall k' fs q, In (k', fs) b -> In q fs -> tex q = Some k') ->
  tex p = Some k ->
  forall k' fs q, In (k', fs) (AddFeature b k p) -> In q fs -> tex q = Some k'.
Proof.
  induction b as [|[k0 fs0] tl IH]; simpl; intros Hk Hp k' fs q H Hq.
  - destruct H as [H|[]]. inversion H; subst. destruct Hq as [Hq|[]]. subst. exact Hp.
  - destruct (Z.eqb k0 k) eqn:E; simpl in H.
    + apply Z.eqb_eq in E. subst k0. destruct H as [H|H].
      * inversion H; subst. apply in_app_or in Hq. destruct Hq as [Hq|[Hq|[]]].
        -- exact (Hk k' fs0 q (or_introl eq_refl) Hq).
        -- subst. exact Hp.
      * exact (Hk k' fs q (or_intror H) Hq).
    + destruct H as [H|H].
      * exact (Hk k' fs q (or_introl H) Hq).
      * apply (IH (fun k' fs q H => Hk k' fs q (or_intror H)) Hp k' fs q H Hq).
Qed.

Lemma AddFeature_ok (tex : ptr -> option Z) (b : FeatureRenderBin) (k : Z) (p : ptr) :
  bin_ok tex b -> tex p = Some k -> ~ In p (bin_features b) ->
  bin_ok tex (AddFeature b k p).
Proof.
  intros (H1 & H2 & H3) Hp Hn. split; [|split].
  - apply AddFeature_keys; exact H1.
  - apply (Permutation_NoDup (Permutation_sym (AddFeature_perm b k p))).
    constructor; assumption.
  - apply AddFeature_keyed; assumption.
Qed.

Lemma DelFeature_subset (b : FeatureRenderBin) (k : Z) (p q : ptr) :
  In q (bin_features (DelFeature b k p)) -> In q (bin_features b).
Proof.
  induction b as [|[k0 fs] tl IH]; simpl; intros H; [exact H|].
  destruct (Z.eqb k0 k).
  - apply in_or_app.
    destruct (VectorErase fs p) as [ok fs'] eqn:E.
    assert (Hs : forall x, In x fs' -> In x fs).
    { intros x Hx. apply (VectorErase_subset fs p). rewrite E. exact Hx. }
    destruct ok, fs'; simpl in H; auto;
      (destruct H as [H|H]; [left; apply Hs; left; exact H|]);
      apply in_app_or in H; destruct H as [H|H]; auto; left; apply Hs; right; exact H.
  - simpl in H. apply in_app_or in H. apply in_or_app.
    destruct H as [H|H]; [left; exact H|right; exact (IH H)].
Qed.

Lemma DelFeature_entries (b : FeatureRenderBin) (k : Z) (p : ptr) (k' : Z) (fs' : FeatureSet) :
  In (k', fs') (DelFeature b k p) ->
  exists fs, In (k', fs) b /\ forall q, In q fs' -> In q fs.
Proof.
  induction b as [|[k0 fs] tl IH]; simpl; intros H; [contradiction|].
  destruct (Z.eqb k0 k).
  - destruct (VectorErase fs p) as [ok fs1] eqn:E.
    assert (Hs : forall x, In x fs1 -> In x fs).
    { intros x Hx. apply (VectorErase_subset fs p). rewrite E. exact Hx. }
    assert (Hc : In (k', fs') ((k0, fs1) :: tl) -> 
                 exists fs2, ((k0, fs) = (k', fs2) \/ In (k', fs2) tl)
                             /\ forall q, In q fs' -> In q fs2).
    { intros [X|X].
      - inversion X; subst. exists fs. split; [left; reflexivity|exact Hs].
      - exists fs'. split; [right; exact X|auto]. }
    destruct ok, fs1; try (apply Hc; exact H).
    apply Hc. right. exact H.
  - destruct H as [H|H].
    + inversion H; subst. exists fs'. split; [left; reflexivity|auto].
    + destruct (IH H) as (fs2 & H1 & H2). exists fs2. split; [right; exact H1|exact H2].
Qed.

Lemma DelFeature_keys (b : FeatureRenderBin) (k : Z) (p : ptr) :
  NoDup (map fst b) -> NoDup (map fst (DelFeature b k p)).
Proof.
  induction b as [|[k0 fs] tl IH]; simpl; intros H; [constructor|].
  inversion H as [|x l Hx Hl]; subst.
  destruct (Z.eqb k0 k).
  - destruct (VectorErase fs p) as [[] []]; simpl; try exact H; exact Hl.
  - simpl. constructor; [|exact (IH Hl)].
    intros Hin. apply Hx. apply in_map_iff in Hin.
    destruct Hin as [[k1 fs1] [E1 Hin]]. simpl in E1. subst k1.
    destruct (DelFeature_entries tl k p k0 fs1 Hin) as (fs2 & H2 & _).
    apply in_map_iff. exists (k0, fs2). split; [reflexivity|exact H2].
Qed.

Lemma bin_features_in (b : FeatureRenderBin) (q : ptr) :
  In q (bin_features b) <-> exists k fs, In (k, fs) b /\ In q fs.
Proof.
  unfold bin_features. rewrite in_flat_map. split.
  - intros [[k fs] [H1 H2]]. exists k, fs. auto.
  - intros (k & fs & H1 & H2). exists (k, fs). auto.
Qed.

Lemma DelFeature_in (tex : ptr -> option Z) (b : FeatureRenderBin) (k : Z) (p q : ptr) :
  bin_ok tex b -> tex p = Some k ->
  (In q (bin_features (DelFeature b k p)) <-> In q (bin_features b) /\ q <> p).
Proof.
  intros (H1 & H2 & H3) Hp. revert H1 H2 H3.
  induction b as [|[k0 fs] tl IH]; simpl; intros H1 H2 H3.
  - tauto.
  - inversion H1 as [|x l Hx Hl]; subst.
    assert (N1 : NoDup fs) by (apply NoDup_app_remove_r in H2; exact H2).
    assert (N2 : NoDup (bin_features tl)) by (apply NoDup_app_remove_l in H2; exact H2).
    destruct (Z.eqb k0 k) eqn:E.
    + apply Z.eqb_eq in E. subst k0.
      assert (Hpt : ~ In p (bin_features tl)).
      { intros Hin. apply bin_features_in in Hin. destruct Hin as (k1 & fs1 & I1 & I2).
        pose proof (H3 k1 fs1 p (or_intror I1) I2) as X. rewrite Hp in X.
        inversion X; subst. apply Hx. apply in_map_iff. exists (k1, fs1). auto. }
      destruct (VectorErase_nodup fs p N1) as [_ Hv].
      assert (Hgoal : In q (snd (VectorErase fs p) ++ bin_features tl)
                      <-> In q (fs ++ bin_features tl) /\ q <> p).
      { rewrite !in_app_iff, Hv. split.
        - intros [[A B]|A]; [tauto|]. split; [tauto|]. intros ->. exact (Hpt A).
        - tauto. }
      destruct (VectorErase fs p) as [ok fs'] eqn:EV. simpl in Hgoal.
      destruct ok, fs'; simpl; exact Hgoal.
    + simpl. rewrite !in_app_iff.
      rewrite (IH Hl N2 (fun k' fs' q' H => H3 k' fs' q' (or_intror H))).
      split; [|tauto].
      intros [A|A]; [|tauto]. split; [tauto|]. intros ->.
      pose proof (H3 k0 fs p (or_introl eq_refl) A) as X. rewrite Hp in X.
      inversion X; subst. rewrite Z.eqb_refl in E. discriminate.
Qed.

Lemma DelFeature_ok (tex : ptr -> option Z) (b : FeatureRenderBin) (k : Z) (p : ptr) :
  bin_ok tex b -> bin_ok tex (DelFeature b k p).
Proof.
  intros (H1 & H2 & H3). split; [|split].
  - apply DelFeature_keys; exact H1.
  - clear H3. revert H1 H2. induction b as [|[k0 fs] tl IH]; simpl; intros H1 H2.
    + constructor.
    + inversion H1 as [|x l Hx Hl]; subst.
      assert (N1 : NoDup fs) by (apply NoDup_app_remove_r in H2; exact H2).
      assert (N2 : NoDup (bin_features tl)) by (apply NoDup_app_remove_l in H2; exact H2).
      destruct (Z.eqb k0 k).
      * destruct (VectorErase_nodup fs p N1) as [Hn Hv].
        assert (Hgoal : NoDup (snd (VectorErase fs p) ++ bin_features tl)).
        { apply NoDup_app; [exact Hn|exact N2|].
          intros a Ha Hb. apply Hv in Ha. destruct Ha as [Ha _].
          revert Hb. apply (NoDup_app_disjoint _ _ _ H2); exact Ha. }
        destruct (VectorErase fs p) as [ok fs'] eqn:EV. simpl in Hgoal.
        destruct ok, fs'; simpl; exact Hgoal.
      * simpl. apply NoDup_app; [exact N1|exact (IH Hl N2)|].
        intros a Ha Hb. apply DelFeature_subset in Hb.
        revert Hb. apply (NoDup_app_disjoint _ _ _ H2); exact Ha.
  - intros k' fs' q Hin Hq.
    destruct (DelFeature_entries b k p k' fs' Hin) as (fs2 & I1 & I2).
    exact (H3 k' fs2 q I1 (I2 q Hq)).
Qed.

(** ** The grid under updates of a cell *)

Section Grid.
Context {FO : FloatOps} {EC : EngineConsts}.

Lemma nth_error_update_nth {A : Type} (v : list A) (i j : nat) (g : A -> A) :
  nth_error (update_nth v i g) j =
    if Nat.eqb j i then option_map g (nth_error v j) else nth_error v j.
Proof.
  revert i j. induction v as [|a tl IH]; intros i j; simpl.
  - destruct (Nat.eqb j i); destruct j; reflexivity.
  - destruct i, j; simpl; try reflexivity. apply IH.
Qed.

Lemma length_update_nth {A : Type} (v : list A) (i : nat) (g : A -> A) :
  length (update_nth v i g) = length v.
Proof.
  revert i. induction v as [|a tl IH]; intros i; simpl; [reflexivity|].
  destruct i; simpl; [reflexivity|]. rewrite IH. reflexivity.
Qed.

Lemma length_update_cell (v : list ModelRendererProxy) (i : Z) g :
  length (update_cell v i g) = length v.
Proof.
  unfold update_cell. destruct (i <? 0); [reflexivity|apply length_update_nth].
Qed.

Lemma bins_of_update_cell (v : list ModelRendererProxy) (i : Z) g (c mt : nat) :
  0 <= i ->
  bins_of (update_cell v i g) c mt =
    if Nat.eqb c (Z.to_nat i)
    then match nth_error v c with
         | Some cell => GetRenderer (g cell) mt
         | None => []
         end
    else bins_of v c mt.
Proof.
  intros Hi. unfold update_cell, bins_of.
  destruct (i <? 0) eqn:E; [apply Z.ltb_lt in E; lia|].
  rewrite nth_error_update_nth.
  destruct (Nat.eqb c (Z.to_nat i)); [|reflexivity].
  destruct (nth_error v c); reflexivity.
Qed.

Lemma bins_of_DelFeature_at (v : list ModelRendererProxy) (i : Z) (m : S3DModel) (p : ptr)
    (c mt : nat) :
  0 <= i ->
  bins_of (DelFeature_at v i m p) c mt =
    if Nat.eqb c (Z.to_nat i) && Nat.eqb mt (mdl_type m)
    then DelFeature (bins_of v c mt) (textureType m) p
    else bins_of v c mt.
Proof.
  intros Hi. unfold DelFeature_at. rewrite bins_of_update_cell by exact Hi.
  unfold bins_of. destruct (Nat.eqb c (Z.to_nat i)); [|reflexivity].
  destruct (nth_error v c) as [cell|]; simpl.
  - destruct (Nat.eqb mt (mdl_type m)) eqn:E; [|reflexivity].
    apply Nat.eqb_eq in E. subst. reflexivity.
  - destruct (Nat.eqb mt (mdl_type m)); reflexivity.
Qed.

Lemma bins_of_AddFeature_at (v : list ModelRendererProxy) (i : Z) (m : S3DModel) (p : ptr)
    (c mt : nat) :
  0 <= i -> (Z.to_nat i < length v)%nat ->
  bins_of (AddFeature_at v i m p) c mt =
    if Nat.eqb c (Z.to_nat i) && Nat.eqb mt (mdl_type m)
    then AddFeature (bins_of v c mt) (textureType m) p
    else bins_of v c mt.
Proof.
  intros Hi Hl. unfold AddFeature_at. rewrite bins_of_update_cell by exact Hi.
  unfold bins_of. destruct (Nat.eqb c (Z.to_nat i)) eqn:Ec; [|reflexivity].
  apply Nat.eqb_eq in Ec. subst c.
  destruct (nth_error v (Z.to_nat i)) as [cell|] eqn:En; simpl.
  - destruct (Nat.eqb mt (mdl_type m)) eqn:E; [|reflexivity].
    apply Nat.eqb_eq in E. subst. reflexivity.
  - apply nth_error_None in En. lia.
Qed.

Lemma Clamp_range (v lo hi : Z) : lo <= hi -> lo <= Clamp v lo hi <= hi.
Proof. unfold Clamp. lia. Qed.

Lemma newDrawQuad_range (d : CFeatureDrawer) (f : CFeature) :
  0 < drawQuadsX d -> 0 < drawQuadsY d ->
  0 <= newDrawQuad d f < drawQuadsX d * drawQuadsY d.
Proof.
  intros HX HY. unfold newDrawQuad, newDrawQuadX, newDrawQuadY.
  set (a := to_int _). set (b := to_int _).
  assert (Ha : 0 <= Clamp b 0 (drawQuadsX d - 1) <= drawQuadsX d - 1)
    by (apply Clamp_range; lia).
  assert (Hb : 0 <= Clamp a 0 (drawQuadsY d - 1) <= drawQuadsY d - 1)
    by (apply Clamp_range; lia).
  assert (Hm : Clamp a 0 (drawQuadsY d - 1) * drawQuadsX d
               <= (drawQuadsY d - 1) * drawQuadsX d)
    by (apply Z.mul_le_mono_nonneg_r; lia).
  split; [apply Z.add_nonneg_nonneg; [apply Z.mul_nonneg_nonneg|]; lia|].
  replace (drawQuadsX d * drawQuadsY d)
    with ((drawQuadsY d - 1) * drawQuadsX d + drawQuadsX d) by ring.
  lia.
Qed.

Lemma bin_ok_ext (t1 t2 : ptr -> option Z) (b : FeatureRenderBin) :
  (forall q, In q (bin_features b) -> t1 q = t2 q) -> bin_ok t1 b -> bin_ok t2 b.
Proof.
  intros He (H1 & H2 & H3). split; [exact H1|split; [exact H2|]].
  intros k fs q Hin Hq. rewrite <- He.
  - exact (H3 k fs q Hin Hq).
  - apply bin_features_in. exists k, fs. auto.
Qed.

Lemma upd_same (h : ptr -> CFeature) (p : ptr) (f : CFeature) : upd h p f p = f.
Proof. unfold upd. rewrite Nat.eqb_refl. reflexivity. Qed.

Lemma upd_other (h : ptr -> CFeature) (p q : ptr) (f : CFeature) :
  q <> p -> upd h p f q = h q.
Proof.
  intros H. unfold upd. destruct (Nat.eqb q p) eqn:E; [|reflexivity].
  apply Nat.eqb_eq in E. contradiction.
Qed.


Lemma remove_cells (tex : ptr -> option Z) (v : list ModelRendererProxy) (old : Z)
    (m : S3DModel) (p : ptr) :
  (forall c mt, bin_ok tex (bins_of v c mt)) ->
  tex p = Some (textureType m) ->
  (forall c mt, In p (bin_features (bins_of v c mt)) ->
                Z.of_nat c = old /\ mt = mdl_type m) ->
  let v1 := if 0 <=? old then DelFeature_at v old m p else v in
  length v1 = length v
  /\ (forall c mt, bin_ok tex (bins_of v1 c mt))
  /\ (forall c mt q, In q (bin_features (bins_of v1 c mt)) <->
                     In q (bin_features (bins_of v c mt)) /\ q <> p).
Proof.
  intros Hb Ht Hp v1. subst v1.
  destruct (0 <=? old) eqn:E.
  - apply Z.leb_le in E. split; [|split].
    + unfold DelFeature_at. apply length_update_cell.
    + intros c mt. rewrite bins_of_DelFeature_at by exact E.
      destruct (_ && _); [apply DelFeature_ok|]; apply Hb.
    + intros c mt q. rewrite bins_of_DelFeature_at by exact E.
      destruct (Nat.eqb c (Z.to_nat old) && Nat.eqb mt (mdl_type m)) eqn:Ec.
      * apply DelFeature_in with (tex := tex); [apply Hb|exact Ht].
      * split; [|tauto]. intros Hq. split; [exact Hq|]. intros ->.
        destruct (Hp c mt Hq) as [A B]. subst.
        rewrite Nat2Z.id, !Nat.eqb_refl in Ec. discriminate.
  - apply Z.leb_gt in E. split; [reflexivity|]. split; [exact Hb|].
    intros c mt q. split; [|tauto]. intros Hq. split; [exact Hq|]. intros ->.
    destruct (Hp c mt Hq) as [A B]. lia.
Qed.

Lemma relocate_cells (tex : ptr -> option Z) (v : list ModelRendererProxy) (old new : Z)
    (m : S3DModel) (p : ptr) :
  (forall c mt, bin_ok tex (bins_of v c mt)) ->
  tex p = Some (textureType m) ->
  (forall c mt, In p (bin_features (bins_of v c mt)) ->
                Z.of_nat c = old /\ mt = mdl_type m) ->
  0 <= new -> (Z.to_nat new < length v)%nat ->
  let v1 := if 0 <=? old then DelFeature_at v old m p else v in
  let v' := AddFeature_at v1 new m p in
  length v' = length v
  /\ (forall c mt, bin_ok tex (bins_of v' c mt))
  /\ (forall c mt q, In q (bin_features (bins_of v' c mt)) <->
                     (c = Z.to_nat new /\ mt = mdl_type m /\ q = p)
                     \/ (In q (bin_features (bins_of v c mt)) /\ q <> p)).
Proof.
  intros Hb Ht Hp Hn Hl v1 v'.
  destruct (remove_cells tex v old m p Hb Ht Hp) as (L1 & B1 & M1). fold v1 in L1, B1, M1.
  assert (Hl1 : (Z.to_nat new < length v1)%nat) by (rewrite L1; exact Hl).
  split; [|split].
  - unfold v', AddFeature_at. rewrite length_update_cell. exact L1.
  - intros c mt. unfold v'. rewrite bins_of_AddFeature_at by assumption.
    destruct (_ && _); [|apply B1].
    apply AddFeature_ok; [apply B1|exact Ht|].
    intros Hin. apply M1 in Hin. tauto.
  - intros c mt q. unfold v'. rewrite bins_of_AddFeature_at by assumption.
    destruct (Nat.eqb c (Z.to_nat new) && Nat.eqb mt (mdl_type m)) eqn:Ec.
    + apply andb_true_iff in Ec. destruct Ec as [E1 E2].
      apply Nat.eqb_eq in E1, E2. rewrite AddFeature_in, M1. tauto.
    + rewrite M1. split; [tauto|]. intros [(A & B & C)|H]; [|exact H].
      subst. rewrite !Nat.eqb_refl in Ec. discriminate.
Qed.

Lemma UpdateDrawQuad_pre_inv (p : ptr) (L : list ptr) (w : World) :
  pre_inv p L w -> grid_inv_for L (UpdateDrawQuad w p).
Proof.
  intros [Hd Hl Hn Hb Hm Hv [HpL Hq]].
  pose proof (newDrawQuad_range (fd w) (heap w p) (proj1 Hd) (proj2 Hd)) as Hr.
  unfold UpdateDrawQuad.
  destruct (drawQuad (heap w p) <? -1) eqn:E1; [apply Z.ltb_lt in E1; lia|].
  destruct (drawQuad (heap w p) =? newDrawQuad (fd w) (heap w p)) eqn:E2.
  - apply Z.eqb_eq in E2.
    assert (Hall : forall q, In q L ->
              drawQuad (heap w q) = newDrawQuad (fd w) (heap w q)).
    { intros q Hq'. destruct (Nat.eq_dec q p) as [->|Hne]; [exact E2|].
      apply (Hv q Hq'); exact Hne. }
    constructor; auto.
    + intros c mt q Hin. destruct (Hm c mt q Hin) as (A & B & C & D).
      repeat split; auto. rewrite <- (Hall q A). exact C.
    + intros q Hq'. destruct (Hv q Hq') as (A & B & C).
      split; [exact A|]. split; [exact (Hall q Hq')|].
      intros m Hmod. apply C; [exact Hmod|]. rewrite (Hall q Hq').
      apply newDrawQuad_range; tauto.
  - apply Z.eqb_neq in E2.
    set (old := drawQuad (heap w p)) in *.
    set (new := newDrawQuad (fd w) (heap w p)) in *.
    destruct (model (heap w p)) as [m|] eqn:Em.
    + assert (Ht : tex_of w p = Some (textureType m)).
      { unfold tex_of. rewrite Em. reflexivity. }
      assert (Hp : forall c mt, In p (bin_features (bins_of (modelRenderers (fd w)) c mt)) ->
                                Z.of_nat c = old /\ mt = mdl_type m).
      { intros c mt Hin. destruct (Hm c mt p Hin) as (_ & (m' & M1 & M2) & C & _).
        rewrite Em in M1. inversion M1; subst. split; [symmetry; exact C|reflexivity]. }
      assert (Hl' : (Z.to_nat new < length (modelRenderers (fd w)))%nat).
      { rewrite Hl. apply Z2Nat.inj_lt; lia. }
      destruct (relocate_cells (tex_of w) (modelRenderers (fd w)) old new m p Hb Ht Hp
                  (proj1 Hr) Hl') as (L2 & B2 & M2).
      constructor; cbn [fd heap set_modelRenderers drawQuadsX drawQuadsY modelRenderers].
      * exact Hd.
      * rewrite L2. exact Hl.
      * exact Hn.
      * intros c mt. unfold cell_bin. cbn [fd set_modelRenderers modelRenderers].
        apply bin_ok_ext with (t1 := tex_of w); [|apply B2].
        intros q _. unfold tex_of. cbn [heap]. unfold upd.
        destruct (Nat.eqb q p) eqn:Eq; [|reflexivity].
        apply Nat.eqb_eq in Eq. subst. reflexivity.
      * intros c mt q. unfold in_cell, cell_bin.
        cbn [fd heap set_modelRenderers modelRenderers]. intros Hin.
        apply M2 in Hin. destruct Hin as [(A & B & C)|[Hin Hne]].
        -- subst. rewrite upd_same. cbn [model drawQuad set_drawQuad].
           split; [exact HpL|]. split; [exists m; auto|].
           rewrite Z2Nat.id by lia. split; reflexivity.
        -- rewrite (upd_other _ _ _ _ Hne).
           destruct (Hm c mt q Hin) as (A & B & C & D).
           split; [exact A|]. split; [exact B|]. split; [exact C|]. exact (D Hne).
      * intros q Hq'. unfold in_cell, cell_bin.
        cbn [fd heap set_modelRenderers modelRenderers].
        destruct (Nat.eq_dec q p) as [->|Hne].
        -- rewrite upd_same. cbn [model drawQuad set_drawQuad def_drawType].
           split; [exact (proj1 (Hv p HpL))|]. split; [reflexivity|].
           intros m' Hm'. rewrite Em in Hm'. inversion Hm'; subst.
           apply M2. left. auto.
        -- rewrite (upd_other _ _ _ _ Hne).
           destruct (Hv q Hq') as (A & B & C).
           split; [exact A|]. split; [exact (B Hne)|].
           intros m' Hm'. apply M2. right. split; [|exact Hne].
           apply C; [exact Hm'|]. rewrite (B Hne). apply newDrawQuad_range; tauto.
    + assert (Hnp : forall c mt, ~ in_cell w c mt p).
      { intros c mt Hin. destruct (Hm c mt p Hin) as (_ & (m' & M1 & _) & _).
        rewrite Em in M1. discriminate. }
      constructor; cbn [fd heap set_modelRenderers drawQuadsX drawQuadsY modelRenderers].
      * exact Hd.
      * exact Hl.
      * exact Hn.
      * intros c mt. unfold cell_bin. cbn [fd set_modelRenderers modelRenderers].
        apply bin_ok_ext with (t1 := tex_of w); [|apply Hb].
        intros q _. unfold tex_of. cbn [heap]. unfold upd.
        destruct (Nat.eqb q p) eqn:Eq; [|reflexivity].
        apply Nat.eqb_eq in Eq. subst. reflexivity.
      * intros c mt q. unfold in_cell, cell_bin.
        cbn [fd heap set_modelRenderers modelRenderers]. intros Hin.
        assert (Hne : q <> p) by (intros ->; exact (Hnp c mt Hin)).
        rewrite (upd_other _ _ _ _ Hne).
        destruct (Hm c mt q Hin) as (A & B & C & D).
        split; [exact A|]. split; [exact B|]. split; [exact C|]. exact (D Hne).
      * intros q Hq'. unfold in_cell, cell_bin.
        cbn [fd heap set_modelRenderers modelRenderers].
        destruct (Nat.eq_dec q p) as [->|Hne].
        -- rewrite upd_same. cbn [model drawQuad set_drawQuad def_drawType].
           split; [exact (proj1 (Hv p HpL))|]. split; [reflexivity|].
           intros m' Hm'. rewrite Em in Hm'. discriminate.
        -- rewrite (upd_other _ _ _ _ Hne).
           destruct (Hv q Hq') as (A & B & C).
           split; [exact A|]. split; [exact (B Hne)|].
           intros m' Hm'. apply C; [exact Hm'|].
           rewrite (B Hne). apply newDrawQuad_range; tauto.
Qed.

(** ** Folding an update over a list of pointers *)

Lemma upd_all_notin (g : CFeature -> CFeature) (l : list ptr) (h : ptr -> CFeature) (q : ptr) :
  ~ In q l -> upd_all g l h q = h q.
Proof.
  unfold upd_all. revert h. induction l as [|a tl IH]; simpl; intros h Hn; [reflexivity|].
  rewrite IH by tauto. apply upd_other. intros ->. apply Hn. left; reflexivity.
Qed.

Lemma upd_all_in (g : CFeature -> CFeature) (l : list ptr) (h : ptr -> CFeature) (q : ptr) :
  In q l -> exists f0, upd_all g l h q = g f0.
Proof.
  unfold upd_all. revert h. induction l as [|a tl IH]; simpl; intros h Hin; [contradiction|].
  destruct (in_dec Nat.eq_dec q tl) as [I|I].
  - apply IH; exact I.
  - destruct Hin as [->|Hin]; [|contradiction].
    exists (h q). fold (upd_all g tl (upd h q (g (h q)))).
    rewrite upd_all_notin by exact I. apply upd_same.
Qed.

Lemma upd_all_proj {B : Type} (pi : CFeature -> B) (g : CFeature -> CFeature)
    (l : list ptr) (h : ptr -> CFeature) (q : ptr) :
  (forall f, pi (g f) = pi f) -> pi (upd_all g l h q) = pi (h q).
Proof.
  intros Hg. unfold upd_all. revert h. induction l as [|a tl IH]; simpl; intros h; [reflexivity|].
  rewrite IH. unfold upd. destruct (Nat.eqb q a) eqn:E; [|reflexivity].
  apply Nat.eqb_eq in E. subst. apply Hg.
Qed.

(** ** Worlds that the grid invariant cannot tell apart *)
Lemma same_grid_refl (w : World) : same_grid w w.
Proof. unfold same_grid. repeat split; reflexivity. Qed.

Lemma same_grid_trans (w1 w2 w3 : World) :
  same_grid w1 w2 -> same_grid w2 w3 -> same_grid w1 w3.
Proof.
  intros (A1 & A2 & A3 & A4 & A5) (B1 & B2 & B3 & B4 & B5).
  split; [congruence|]. split; [congruence|]. split; [congruence|].
  split.
  - intros c mt. rewrite B4. apply A4.
  - intros p. destruct (A5 p) as (X1 & X2 & X3 & X4).
    destruct (B5 p) as (Y1 & Y2 & Y3 & Y4). repeat split; congruence.
Qed.

Lemma newDrawQuad_same (w w' : World) (p : ptr) :
  same_grid w w' -> newDrawQuad (fd w') (heap w' p) = newDrawQuad (fd w) (heap w p).
Proof.
  intros (A1 & A2 & _ & _ & A5). destruct (A5 p) as (_ & _ & X & _).
  unfold newDrawQuad, newDrawQuadX, newDrawQuadY. rewrite A1, A2, X. reflexivity.
Qed.

Lemma grid_inv_same_grid (L : list ptr) (w w' : World) :
  same_grid w w' -> grid_inv_for L w -> grid_inv_for L w'.
Proof.
  intros S [Hd Hl Hn Hb Hm Hv].
  pose proof S as (A1 & A2 & A3 & A4 & A5).
  constructor.
  - rewrite A1, A2. exact Hd.
  - rewrite A1, A2, A3. exact Hl.
  - exact Hn.
  - intros c mt. rewrite A4. apply bin_ok_ext with (t1 := tex_of w); [|apply Hb].
    intros q _. unfold tex_of. destruct (A5 q) as (X & _). rewrite X. reflexivity.
  - intros c mt p. unfold in_cell. rewrite A4. intros Hin.
    destruct (Hm c mt p Hin) as (B1 & B2 & B3 & B4).
    destruct (A5 p) as (X1 & X2 & X3 & X4).
    rewrite X1, X2, (newDrawQuad_same w w' p S). auto.
  - intros p Hp. destruct (Hv p Hp) as (B1 & B2 & B3).
    destruct (A5 p) as (X1 & X2 & X3 & X4).
    unfold in_cell. rewrite X1, X2, X4, (newDrawQuad_same w w' p S).
    split; [exact B1|]. split; [exact B2|].
    intros m Hm'. rewrite A4. apply B3; exact Hm'.
Qed.

Lemma Update_heap (G : Globals) (w : World) :
  heap (Update G w) =
    upd_all (fun f => snd (SetDrawAlphaValue_default G (UpdateDrawPos G f) None))
            (unsortedFeatures (fd w)) (heap w).
Proof. reflexivity. Qed.

Lemma Update_same_grid (G : Globals) (w : World) : same_grid w (Update G w).
Proof.
  unfold same_grid. rewrite Update_heap. cbn [Update fd].
  split; [reflexivity|]. split; [reflexivity|]. split; [reflexivity|].
  split; [reflexivity|].
  intros p. repeat split.
  - apply (upd_all_proj model); reflexivity.
  - apply (upd_all_proj drawQuad); reflexivity.
  - apply (upd_all_proj pos); reflexivity.
  - apply (upd_all_proj def_drawType); reflexivity.
Qed.

Lemma DrawQuad_feature_grid_fields (G : Globals) (qd : CFeatureQuadDrawer) (f : CFeature) :
  model (DrawQuad_feature G qd f) = model f
  /\ drawQuad (DrawQuad_feature G qd f) = drawQuad f
  /\ pos (DrawQuad_feature G qd f) = pos f
  /\ def_drawType (DrawQuad_feature G qd f) = def_drawType f.
Proof.
  unfold DrawQuad_feature, SetDrawAlphaValue.
  cbn [set_drawFlag set_drawAlpha noDraw IsInVoid IsInLosForAllyTeam IsInWater
       drawMidPos drawRadius alphaFade pos sqRadius].
  repeat match goal with
         | |- context [if ?b then _ else _] => destruct b
         | |- context [match ?c with Some _ => _ | None => _ end] => destruct c
         end; repeat split; reflexivity.
Qed.

Lemma DrawQuad_same_grid (G : Globals) (qd : CFeatureQuadDrawer) (w : World) (x y : Z) :
  same_grid w (DrawQuad G qd w x y).
Proof.
  unfold DrawQuad. destruct (cell_at _ _) as [cell|] eqn:Ec; [|apply same_grid_refl].
  unfold cell_at in Ec. destruct (_ <? 0) eqn:Ei; [discriminate|].
  apply Z.ltb_ge in Ei.
  unfold same_grid. cbn [fd heap set_modelRenderers drawQuadsX drawQuadsY modelRenderers].
  split; [reflexivity|]. split; [reflexivity|].
  split; [apply length_update_cell|]. split.
  - intros c mt. unfold cell_bin. cbn [fd set_modelRenderers modelRenderers].
    rewrite bins_of_update_cell by exact Ei. unfold bins_of.
    destruct (Nat.eqb c _); [|reflexivity]. destruct (nth_error _ c); reflexivity.
  - intros p. fold (upd_all (DrawQuad_feature G qd) (cell_features cell) (heap w)).
    repeat split.
    + apply (upd_all_proj model). intros f. apply DrawQuad_feature_grid_fields.
    + apply (upd_all_proj drawQuad). intros f. apply DrawQuad_feature_grid_fields.
    + apply (upd_all_proj pos). intros f. apply DrawQuad_feature_grid_fields.
    + apply (upd_all_proj def_drawType). intros f. apply DrawQuad_feature_grid_fields.
Qed.

Lemma GetVisibleFeatures_same_grid (G : Globals) (w : World) (cam : CCamera) (drawFar : bool) :
  same_grid w (GetVisibleFeatures G w cam drawFar).
Proof.
  unfold GetVisibleFeatures.
  set (w1 := mkWorld _ _ _). set (qd := quad_drawer _ _ _ _).
  assert (S1 : same_grid w w1) by (unfold same_grid; repeat split; reflexivity).
  revert S1. generalize w1. clear w1.
  induction (GridVisibility G cam) as [|xy tl IH]; simpl; intros w1 S1; [exact S1|].
  apply IH. apply same_grid_trans with (w2 := w1); [exact S1|apply DrawQuad_same_grid].
Qed.

Lemma unsortedFeatures_GetVisibleFeatures (G : Globals) (w : World) (cam : CCamera)
    (drawFar : bool) :
  unsortedFeatures (fd (GetVisibleFeatures G w cam drawFar)) = unsortedFeatures (fd w).
Proof.
  unfold GetVisibleFeatures.
  set (w1 := mkWorld _ _ _). set (qd := quad_drawer _ _ _ _).
  assert (S1 : unsortedFeatures (fd w1) = unsortedFeatures (fd w)) by reflexivity.
  revert S1. generalize w1. clear w1.
  induction (GridVisibility G cam) as [|xy tl IH]; simpl; intros w1 S1; [exact S1|].
  apply IH. rewrite <- S1. unfold DrawQuad.
  destruct (cell_at _ _); reflexivity.
Qed.

(** ** The lifecycle events keep the grid invariant *)

Lemma grid_inv_not_live_no_cell (L : list ptr) (w : World) (p : ptr) (c mt : nat) :
  grid_inv_for L w -> ~ In p L -> ~ in_cell w c mt p.
Proof.
  intros H Hn Hin. apply Hn. exact (proj1 (gi_member H c mt p Hin)).
Qed.

(** A change of the store at a pointer that is not announced. *)
Lemma grid_inv_upd_not_live (L : list ptr) (w : World) (p : ptr) (f : CFeature) :
  grid_inv_for L w -> ~ In p L ->
  grid_inv_for L (mkWorld (upd (heap w) p f) (fd w) (drawFrame w)).
Proof.
  intros H Hn. pose proof H as [Hd Hl Hnd Hb Hm Hv].
  assert (Hc : forall c mt q, in_cell w c mt q -> q <> p).
  { intros c mt q Hin ->. exact (grid_inv_not_live_no_cell L w p c mt H Hn Hin). }
  constructor; cbn [fd heap]; auto.
  - intros c mt. apply bin_ok_ext with (t1 := tex_of w); [|apply Hb].
    intros q Hq. unfold tex_of. cbn [heap].
    rewrite upd_other; [reflexivity|]. exact (Hc c mt q Hq).
  - intros c mt q Hin. unfold in_cell, cell_bin in Hin. cbn [fd] in Hin.
    rewrite (upd_other _ _ _ _ (Hc c mt q Hin)). exact (Hm c mt q Hin).
  - intros q Hq. assert (Hne : q <> p) by (intros ->; exact (Hn Hq)).
    rewrite (upd_other _ _ _ _ Hne). exact (Hv q Hq).
Qed.

Lemma grid_inv_pre_inv (L : list ptr) (w : World) (p : ptr) :
  grid_inv_for L w -> In p L -> pre_inv p L w.
Proof.
  intros [Hd Hl Hnd Hb Hm Hv] Hp. constructor; auto.
  - intros c mt q Hin. destruct (Hm c mt q Hin) as (A & B & C & D). auto.
  - intros q Hq. destruct (Hv q Hq) as (A & B & C). auto.
  - split; [exact Hp|]. destruct (Hv p Hp) as (_ & B & _). rewrite B.
    pose proof (newDrawQuad_range (fd w) (heap w p) (proj1 Hd) (proj2 Hd)). lia.
Qed.

Lemma UpdateDrawQuad_ignored (w : World) (p : ptr) :
  drawQuad (heap w p) < -1 -> UpdateDrawQuad w p = w.
Proof.
  intros H. unfold UpdateDrawQuad. apply Z.ltb_lt in H. rewrite H. reflexivity.
Qed.

Lemma unsortedFeatures_UpdateDrawQuad (w : World) (p : ptr) :
  unsortedFeatures (fd (UpdateDrawQuad w p)) = unsortedFeatures (fd w).
Proof.
  unfold UpdateDrawQuad.
  destruct (_ <? _); [reflexivity|]. destruct (_ =? _); reflexivity.
Qed.

Lemma step_moved_inv (w : World) (p : ptr) (q : float3) :
  grid_inv w -> event_ok w (EvMoved p q) -> grid_inv (step w (EvMoved p q)).
Proof.
  unfold grid_inv. intros H Hok. unfold step, FeatureMoved.
  set (w1 := mkWorld (upd (heap w) p (set_pos (heap w p) q)) (fd w) (drawFrame w)).
  rewrite unsortedFeatures_UpdateDrawQuad. unfold w1 at 1. cbn [fd].
  set (L := unsortedFeatures (fd w)) in *.
  destruct (in_dec Nat.eq_dec p L) as [I|I].
  - apply UpdateDrawQuad_pre_inv.
    pose proof (grid_inv_pre_inv L w p H I) as [Hd Hl Hnd Hb Hm Hv Hs].
    assert (Hh : forall r, r <> p -> heap w1 r = heap w r).
    { intros r Hr. unfold w1. cbn [heap]. apply upd_other; exact Hr. }
    assert (Hp : heap w1 p = set_pos (heap w p) q).
    { unfold w1. cbn [heap]. apply upd_same. }
    constructor; auto.
    + intros c mt. apply bin_ok_ext with (t1 := tex_of w); [|apply Hb].
      intros r _. unfold tex_of. destruct (Nat.eq_dec r p) as [->|Hne].
      * rewrite Hp. reflexivity.
      * rewrite (Hh r Hne). reflexivity.
    + intros c mt r Hin. change (in_cell w c mt r) in Hin.
      destruct (Hm c mt r Hin) as (A & B & C & D).
      destruct (Nat.eq_dec r p) as [->|Hne].
      * rewrite Hp. cbn [model drawQuad set_pos]. split; [exact A|].
        split; [exact B|]. split; [exact C|]. intros X; contradiction.
      * rewrite (Hh r Hne). auto.
    + intros r Hr. destruct (Hv r Hr) as (A & B & C).
      destruct (Nat.eq_dec r p) as [->|Hne].
      * rewrite Hp. cbn [model drawQuad set_pos def_drawType]. split; [exact A|].
        split; [intros X; contradiction|]. exact C.
      * rewrite (Hh r Hne). auto.
    + rewrite Hp. cbn [drawQuad set_pos]. exact Hs.
  - cbn [event_ok] in Hok. destruct Hok as [Hok|Hok]; [contradiction|].
    rewrite UpdateDrawQuad_ignored.
    + apply grid_inv_upd_not_live; assumption.
    + unfold w1. cbn [heap]. rewrite upd_same. cbn [drawQuad set_pos]. exact Hok.
Qed.

Lemma step_created_inv (G : Globals) (w : World) (p : ptr) (f : CFeature) :
  grid_inv w -> event_ok w (EvCreated G p f) -> grid_inv (step w (EvCreated G p f)).
Proof.
  unfold grid_inv. intros H Hok. unfold step, event_ok in *.
  set (L := unsortedFeatures (fd w)) in *.
  pose proof (grid_inv_upd_not_live L w p f H Hok) as H0.
  set (w0 := mkWorld (upd (heap w) p f) (fd w) (drawFrame w)) in *.
  unfold RenderFeatureCreated.
  destruct (def_drawType (heap w0 p) =? DRAWTYPE_MODEL) eqn:Ed; cbn [negb]; [|exact H0].
  apply Z.eqb_eq in Ed.
  cbn [fd heap drawFrame].
  set (f1 := snd (SetDrawAlphaValue_default G _ None)).
  set (w2 := mkWorld (upd _ p f1) (fd w0) (drawFrame w0)).
  assert (Hf1 : model f1 = model f /\ drawQuad f1 = -1 /\ pos f1 = pos f
                /\ def_drawType f1 = DRAWTYPE_MODEL).
  { unfold f1. rewrite !upd_same. unfold w0 in Ed. cbn [heap] in Ed.
    rewrite upd_same in Ed. cbn. rewrite !upd_same. auto. }
  destruct Hf1 as (F1 & F2 & F3 & F4).
  assert (Hh2 : forall r, r <> p -> heap w2 r = heap w r).
  { intros r Hr. unfold w2, w0. cbn [heap]. rewrite !upd_other by exact Hr. reflexivity. }
  assert (Hp2 : heap w2 p = f1) by (unfold w2; cbn [heap]; apply upd_same).
  assert (Hpre : pre_inv p (L ++ [p]) w2).
  { destruct H as [Hd Hl Hnd Hb Hm Hv].
    assert (Hc : forall c mt r, in_cell w c mt r -> r <> p).
    { intros c mt r Hin ->. exact (Hok (proj1 (Hm c mt p Hin))). }
    constructor; auto.
    - apply NoDup_app; [exact Hnd|constructor; [intros []|constructor]|].
      intros a Ha [<-|[]]. exact (Hok Ha).
    - intros c mt. apply bin_ok_ext with (t1 := tex_of w); [|apply Hb].
      intros r Hr. unfold tex_of. rewrite (Hh2 r (Hc c mt r Hr)). reflexivity.
    - intros c mt r Hin. change (in_cell w c mt r) in Hin.
      rewrite (Hh2 r (Hc c mt r Hin)).
      destruct (Hm c mt r Hin) as (A & B & C & D).
      split; [apply in_or_app; left; exact A|]. auto.
    - intros r Hr. apply in_app_or in Hr. destruct Hr as [Hr|[<-|[]]].
      + assert (Hne : r <> p) by (intros ->; exact (Hok Hr)).
        rewrite (Hh2 r Hne). destruct (Hv r Hr) as (A & B & C).
        split; [exact A|]. split; [intros _; exact B|].
        intros m Hm' _. exact (C m Hm').
      + rewrite Hp2. split; [exact F4|]. split; [intros X; contradiction|].
        intros m _ X. rewrite F2 in X. lia.
    - split; [apply in_or_app; right; left; reflexivity|].
      rewrite Hp2, F2. lia. }
  pose proof (UpdateDrawQuad_pre_inv p (L ++ [p]) w2 Hpre) as H3.
  cbn [fd set_unsortedFeatures unsortedFeatures].
  rewrite unsortedFeatures_UpdateDrawQuad.
  change (unsortedFeatures (fd w2)) with L.
  destruct H3 as [Hd Hl Hnd Hb Hm Hv]. constructor; auto.
Qed.

Lemma step_destroyed_inv (w : World) (p : ptr) :
  grid_inv w -> event_ok w (EvDestroyed p) -> grid_inv (step w (EvDestroyed p)).
Proof.
  unfold grid_inv. intros H Hok. unfold step, event_ok in *.
  set (L := unsortedFeatures (fd w)) in *.
  pose proof H as [Hd Hl Hnd Hb Hm Hv].
  destruct (VectorErase_nodup L p Hnd) as [Hnd' HL'].
  unfold RenderFeatureDestroyed. cbn [fst].
  destruct (in_dec Nat.eq_dec p L) as [I|I].
  - destruct (Hv p I) as (A & B & C).
    pose proof (newDrawQuad_range (fd w) (heap w p) (proj1 Hd) (proj2 Hd)) as Hr.
    rewrite A, Z.eqb_refl. cbn [fd heap drawFrame].
    destruct (model (heap w p)) as [m|] eqn:Em.
    + assert (E0 : (0 <=? drawQuad (heap w p)) = true) by (apply Z.leb_le; lia).
      rewrite E0. cbn [fd set_modelRenderers set_unsortedFeatures unsortedFeatures modelRenderers].
      fold L.
      assert (Ht : tex_of w p = Some (textureType m)).
      { unfold tex_of. rewrite Em. reflexivity. }
      assert (Hp : forall c mt, In p (bin_features (bins_of (modelRenderers (fd w)) c mt)) ->
                                Z.of_nat c = drawQuad (heap w p) /\ mt = mdl_type m).
      { intros c mt Hin. destruct (Hm c mt p Hin) as (_ & (m' & M1 & M2) & X & _).
        rewrite Em in M1. inversion M1; subst. split; [symmetry; exact X|reflexivity]. }
      destruct (remove_cells (tex_of w) (modelRenderers (fd w)) (drawQuad (heap w p)) m p
                  Hb Ht Hp) as (L1 & B1 & M1).
      rewrite E0 in L1, B1, M1.
      constructor; cbn [fd heap set_modelRenderers set_unsortedFeatures drawQuadsX drawQuadsY
                        modelRenderers]; auto.
      * rewrite L1. exact Hl.
      * intros c mt. unfold cell_bin. cbn [fd set_modelRenderers modelRenderers].
        apply bin_ok_ext with (t1 := tex_of w); [|apply B1].
        intros q _. unfold tex_of. cbn [heap]. unfold upd.
        destruct (Nat.eqb q p) eqn:Eq; [|reflexivity].
        apply Nat.eqb_eq in Eq. subst. reflexivity.
      * intros c mt q. unfold in_cell, cell_bin.
        cbn [fd heap set_modelRenderers modelRenderers]. intros Hin.
        apply M1 in Hin. destruct Hin as [Hin Hne].
        rewrite (upd_other _ _ _ _ Hne).
        destruct (Hm c mt q Hin) as (X1 & X2 & X3 & X4).
        split; [apply HL'; auto|]. auto.
      * intros q Hq. apply HL' in Hq. destruct Hq as [Hq Hne].
        unfold in_cell, cell_bin. cbn [fd heap set_modelRenderers modelRenderers].
        rewrite (upd_other _ _ _ _ Hne).
        destruct (Hv q Hq) as (X1 & X2 & X3).
        split; [exact X1|]. split; [exact X2|].
        intros m' Hm'. apply M1. split; [exact (X3 m' Hm')|exact Hne].
    + fold L.
      assert (Hc : forall c mt q, in_cell w c mt q -> q <> p).
      { intros c mt q Hin ->. destruct (Hm c mt p Hin) as (_ & (m' & M1 & _) & _).
        rewrite Em in M1. discriminate. }
      constructor; cbn [fd heap set_unsortedFeatures drawQuadsX drawQuadsY modelRenderers];
        auto.
      * intros c mt q Hin. change (in_cell w c mt q) in Hin.
        destruct (Hm c mt q Hin) as (X1 & X2 & X3 & X4).
        split; [apply HL'; split; [exact X1|exact (Hc c mt q Hin)]|]. auto.
      * intros q Hq. apply HL' in Hq. destruct Hq as [Hq Hne]. exact (Hv q Hq).
  - destruct Hok as [Hok|Hok]; [contradiction|].
    assert (E0 : (0 <=? drawQuad (heap w p)) = false) by (apply Z.leb_gt; lia).
    rewrite E0. fold L. rewrite (VectorErase_absent L p I). cbn [snd].
    assert (Hg : grid_inv_for L
              (mkWorld (heap w)
                 (if def_drawType (heap w p) =? DRAWTYPE_MODEL
                  then set_unsortedFeatures (fd w) L else fd w) (drawFrame w))).
    { destruct (_ =? _); destruct H; constructor; auto. }
    destruct (def_drawType (heap w p) =? DRAWTYPE_MODEL);
      destruct (model (heap w p)); exact Hg.
Qed.

Lemma step_inv (w : World) (e : event) :
  grid_inv w -> event_ok w e -> grid_inv (step w e).
Proof.
  intros H Hok. destruct e as [G p f|p q|p|G| |G cam drawFar].
  - apply step_created_inv; assumption.
  - apply step_moved_inv; assumption.
  - apply step_destroyed_inv; assumption.
  - unfold grid_inv. cbn [step Update fd].
    apply grid_inv_same_grid with (w := w); [apply Update_same_grid|exact H].
  - unfold grid_inv in *. cbn [step fd]. destruct H; constructor; auto.
  - unfold grid_inv. cbn [step]. rewrite unsortedFeatures_GetVisibleFeatures.
    apply grid_inv_same_grid with (w := w); [apply GetVisibleFeatures_same_grid|exact H].
Qed.

Lemma run_inv (evs : list event) (w : World) :
  grid_inv w -> run_ok w evs -> grid_inv (run w evs).
Proof.
  revert w. induction evs as [|e tl IH]; simpl; intros w H Hok; [exact H|].
  destruct Hok as [H1 H2]. apply IH; [apply step_inv; assumption|exact H2].
Qed.

Lemma bins_of_repeat_empty (n : nat) (frame0 : Z) (c mt : nat) :
  bins_of (repeat (empty_proxy frame0) n) c mt = [].
Proof.
  unfold bins_of. destruct (nth_error _ c) as [cell|] eqn:E; [|reflexivity].
  apply nth_error_In in E. apply repeat_spec in E. subst. reflexivity.
Qed.

Lemma CFeatureDrawer_new_inv (h : ptr -> CFeature) (mapx mapy : Z) (cfgDraw cfgFade : float)
    (frame0 frame : Z) :
  0 < int_div mapx DRAW_QUAD_SIZE -> 0 < int_div mapy DRAW_QUAD_SIZE ->
  grid_inv (mkWorld h (CFeatureDrawer_new mapx mapy cfgDraw cfgFade frame0) frame).
Proof.
  intros HX HY. unfold grid_inv.
  constructor; cbn [fd CFeatureDrawer_new drawQuadsX drawQuadsY modelRenderers unsortedFeatures].
  - auto.
  - apply repeat_length.
  - constructor.
  - intros c mt. unfold cell_bin. cbn [fd CFeatureDrawer_new modelRenderers].
    rewrite bins_of_repeat_empty. repeat split; try constructor. intros k fs p [].
  - intros c mt p. unfold in_cell, cell_bin. cbn [fd CFeatureDrawer_new modelRenderers].
    rewrite bins_of_repeat_empty. intros [].
  - intros p [].
Qed.

(** Claim C3.  From a drawer state that satisfies the grid invariant (the
    freshly constructed drawer does), after every finite run of creations,
    moves and destructions in which each object is announced once and only
    announced objects move or are destroyed: the [drawQuad] of every
    registered object with a model is the index of the one cell, and the
    model type of the one bin, that contain it; and every object in a cell
    has that cell's index as its computed target cell. *)
Theorem grid_invariant_holds_after_every_run (w0 : World) (evs : list event) :
  grid_inv w0 -> run_ok w0 evs ->
  let w := run w0 evs in
  (forall p m, In p (unsortedFeatures (fd w)) -> model (heap w p) = Some m ->
     0 <= drawQuad (heap w p)
     /\ in_cell w (Z.to_nat (drawQuad (heap w p))) (mdl_type m) p
     /\ forall c mt, in_cell w c mt p ->
          Z.of_nat c = drawQuad (heap w p) /\ mt = mdl_type m)
  /\ (forall c mt p, in_cell w c mt p ->
        newDrawQuad (fd w) (heap w p) = Z.of_nat c).
Proof.
  intros H0 Hok w. pose proof (run_inv evs w0 H0 Hok) as H. fold w in H.
  unfold grid_inv in H. destruct H as [Hd Hl Hnd Hb Hm Hv]. split.
  - intros p m Hp Hmod. destruct (Hv p Hp) as (A & B & C).
    pose proof (newDrawQuad_range (fd w) (heap w p) (proj1 Hd) (proj2 Hd)) as Hr.
    split; [lia|]. split; [exact (C m Hmod)|].
    intros c mt Hin. destruct (Hm c mt p Hin) as (_ & (m' & M1 & M2) & X & _).
    rewrite Hmod in M1. inversion M1; subst. auto.
  - intros c mt p Hin. exact (proj2 (proj2 (proj2 (Hm c mt p Hin)))).
Qed.

End Grid.

(** ** Target cell and relocation *)

Section Relocation.
Context {FO : FloatOps} {EC : EngineConsts}.




Lemma UpdateDrawQuad_same_dims (w : World) (p : ptr) :
  drawQuadsX (fd (UpdateDrawQuad w p)) = drawQuadsX (fd w)
  /\ drawQuadsY (fd (UpdateDrawQuad w p)) = drawQuadsY (fd w).
Proof.
  unfold UpdateDrawQuad. destruct (_ <? _); [auto|]. destruct (_ =? _); auto.
Qed.

Lemma UpdateDrawQuad_pos (w : World) (p r : ptr) :
  pos (heap (UpdateDrawQuad w p) r) = pos (heap w r).
Proof.
  unfold UpdateDrawQuad. destruct (_ <? _); [auto|]. destruct (_ =? _); [auto|].
  cbn [heap]. unfold upd. destruct (Nat.eqb r p) eqn:E; [|reflexivity].
  apply Nat.eqb_eq in E. subst. reflexivity.
Qed.

Lemma newDrawQuad_UpdateDrawQuad (w : World) (p r : ptr) :
  newDrawQuad (fd (UpdateDrawQuad w p)) (heap (UpdateDrawQuad w p) r)
  = newDrawQuad (fd w) (heap w r).
Proof.
  unfold newDrawQuad, newDrawQuadX, newDrawQuadY.
  destruct (UpdateDrawQuad_same_dims w p) as [A B].
  rewrite A, B, UpdateDrawQuad_pos. reflexivity.
Qed.



Lemma created_fields (G : Globals) (w : World) (p : ptr) (f : CFeature) :
  def_drawType f = DRAWTYPE_MODEL ->
  let w' := step w (EvCreated G p f) in
  unsortedFeatures (fd w') = unsortedFeatures (fd w) ++ [p]
  /\ drawQuadsX (fd w') = drawQuadsX (fd w)
  /\ drawQuadsY (fd w') = drawQuadsY (fd w)
  /\ pos (heap w' p) = pos f
  /\ model (heap w' p) = model f.
Proof.
  intros Hd w'. unfold w', step, RenderFeatureCreated. cbn [heap fd drawFrame].
  rewrite upd_same, Hd, Z.eqb_refl. cbn [negb].
  cbn [fd heap set_unsortedFeatures unsortedFeatures drawQuadsX drawQuadsY].
  set (w2 := mkWorld _ _ _).
  rewrite unsortedFeatures_UpdateDrawQuad.
  destruct (UpdateDrawQuad_same_dims w2 p) as [A B]. rewrite A, B.
  rewrite UpdateDrawQuad_pos.
  split; [reflexivity|]. split; [reflexivity|]. split; [reflexivity|].
  assert (Ep : heap w2 p = snd (SetDrawAlphaValue_default G (set_drawQuad f (-1)) None)).
  { unfold w2. cbn [heap]. rewrite !upd_same. reflexivity. }
  split.
  - rewrite Ep. reflexivity.
  - unfold UpdateDrawQuad. destruct (_ <? _); [rewrite Ep; reflexivity|].
    destruct (_ =? _); [rewrite Ep; reflexivity|].
    cbn [heap]. rewrite upd_same. cbn [model set_drawQuad]. rewrite Ep. reflexivity.
Qed.

Lemma moved_fields (w : World) (p : ptr) (q : float3) :
  let w' := step w (EvMoved p q) in
  unsortedFeatures (fd w') = unsortedFeatures (fd w)
  /\ drawQuadsX (fd w') = drawQuadsX (fd w)
  /\ drawQuadsY (fd w') = drawQuadsY (fd w)
  /\ pos (heap w' p) = q
  /\ model (heap w' p) = model (heap w p).
Proof.
  intros w'. unfold w', step, FeatureMoved.
  set (w1 := mkWorld _ _ _).
  rewrite unsortedFeatures_UpdateDrawQuad.
  destruct (UpdateDrawQuad_same_dims w1 p) as [A B]. rewrite A, B.
  rewrite UpdateDrawQuad_pos.
  assert (Ep : heap w1 p = set_pos (heap w p) q).
  { unfold w1. cbn [heap]. apply upd_same. }
  split; [reflexivity|]. split; [reflexivity|]. split; [reflexivity|].
  split.
  - rewrite Ep. reflexivity.
  - unfold UpdateDrawQuad. destruct (_ <? _); [rewrite Ep; reflexivity|].
    destruct (_ =? _); [rewrite Ep; reflexivity|].
    cbn [heap]. rewrite upd_same. cbn [model set_drawQuad]. rewrite Ep. reflexivity.
Qed.



End Relocation.

(** ** Destruction and the per-frame update *)

Section Lifecycle.
Context {FO : FloatOps} {EC : EngineConsts}.

(** Claim C9, amended.  [RenderFeatureDestroyed] erases a model-drawtype
    object from [unsortedFeatures] (other objects stay), removes an object
    that has a model and a cell from the bin of that cell and sets its
    [drawQuad] to -1, leaves the grid alone otherwise, and resets the
    object's LOD with the Lua object drawer.  It makes no call to the decal
    system: [ForceRemoveSolidObject] is called by the destructor of the
    drawer, once for each object still in [unsortedFeatures]. *)
Theorem destroyed_object_is_unregistered (w : World) (p : ptr) :
  let f := heap w p in
  let L := unsortedFeatures (fd w) in
  let w' := fst (RenderFeatureDestroyed w p) in
  let calls := snd (RenderFeatureDestroyed w p) in
  (def_drawType f = DRAWTYPE_MODEL ->
     unsortedFeatures (fd w') = snd (VectorErase L p)
     /\ (NoDup L -> ~ In p (unsortedFeatures (fd w'))
                    /\ forall r, r <> p -> (In r (unsortedFeatures (fd w')) <-> In r L)))
  /\ (def_drawType f <> DRAWTYPE_MODEL -> unsortedFeatures (fd w') = L)
  /\ (forall m, model f = Some m -> 0 <= drawQuad f ->
        drawQuad (heap w' p) = -1
        /\ modelRenderers (fd w')
           = DelFeature_at (modelRenderers (fd w)) (drawQuad f) m p)
  /\ (grid_inv w -> In p L -> forall c mt, ~ in_cell w' c mt p)
  /\ (model f = None \/ drawQuad f < 0 ->
        heap w' = heap w /\ modelRenderers (fd w') = modelRenderers (fd w))
  /\ calls = [SetObjectLOD p 0]
  /\ ~ In (ForceRemoveSolidObject p) calls
  /\ snd (CFeatureDrawer_delete (fd w))
     = RemoveClient :: map ForceRemoveSolidObject L.
Proof.
  intros f L w' calls.
  split; [|split; [|split; [|split; [|split; [|split; [|split]]]]]].
  - intros Hd.
    assert (E : unsortedFeatures (fd w') = snd (VectorErase L p)).
    { unfold w', RenderFeatureDestroyed. cbn [fst]. fold f. rewrite Hd, Z.eqb_refl.
      destruct (model f); [destruct (0 <=? drawQuad f)|]; reflexivity. }
    split; [exact E|]. intros Hn. rewrite E.
    destruct (VectorErase_nodup L p Hn) as [_ HL]. split.
    + rewrite HL. tauto.
    + intros r Hr. rewrite HL. tauto.
  - intros Hd. apply Z.eqb_neq in Hd.
    unfold w', RenderFeatureDestroyed. cbn [fst]. fold f. rewrite Hd.
    destruct (model f); [destruct (0 <=? drawQuad f)|]; reflexivity.
  - intros m Hm Hq. apply Z.leb_le in Hq.
    unfold w', RenderFeatureDestroyed. cbn [fst]. fold f. rewrite Hm, Hq.
    cbn [heap fd]. rewrite upd_same. split; [reflexivity|].
    destruct (def_drawType f =? DRAWTYPE_MODEL); reflexivity.
  - intros H Hp c mt.
    assert (Hok : event_ok w (EvDestroyed p)) by (left; exact Hp).
    pose proof (step_destroyed_inv w p H Hok) as H'.
    apply (grid_inv_not_live_no_cell _ _ p c mt H').
    unfold grid_inv in H. destruct H as [Hd Hl Hnd Hb Hm Hv].
    destruct (Hv p Hp) as (V1 & _).
    unfold step, RenderFeatureDestroyed. cbn [fst]. rewrite V1, Z.eqb_refl.
    destruct (VectorErase_nodup _ p Hnd) as [_ HL].
    assert (X : ~ In p (snd (VectorErase (unsortedFeatures (fd w)) p))) by (rewrite HL; tauto).
    destruct (model (heap w p)); [destruct (0 <=? drawQuad (heap w p))|]; exact X.
  - intros Hc. unfold w', RenderFeatureDestroyed. cbn [fst]. fold f.
    destruct Hc as [Hc|Hc].
    + rewrite Hc. destruct (def_drawType f =? DRAWTYPE_MODEL); auto.
    + apply Z.leb_gt in Hc. rewrite Hc.
      destruct (model f); destruct (def_drawType f =? DRAWTYPE_MODEL); auto.
  - reflexivity.
  - unfold calls, RenderFeatureDestroyed. cbn [snd]. intros [X|[]]. discriminate X.
  - reflexivity.
Qed.

Lemma UpdateDrawQuad_drawAlpha (w : World) (p r : ptr) :
  drawAlpha (heap (UpdateDrawQuad w p) r) = drawAlpha (heap w r).
Proof.
  unfold UpdateDrawQuad. destruct (_ <? _); [auto|]. destruct (_ =? _); [auto|].
  cbn [heap]. unfold upd. destruct (Nat.eqb r p) eqn:E; [|reflexivity].
  apply Nat.eqb_eq in E. subst. reflexivity.
Qed.

Lemma Update_live_alpha_zero (G : Globals) (w : World) : live_alpha_zero (Update G w).
Proof.
  intros p Hp. cbn [Update fd] in Hp. rewrite Update_heap.
  destruct (upd_all_in (fun f => snd (SetDrawAlphaValue_default G (UpdateDrawPos G f) None))
              (unsortedFeatures (fd w)) (heap w) p Hp) as [f0 E].
  rewrite E. reflexivity.
Qed.

Lemma step_live_alpha_zero (w : World) (e : event) :
  live_alpha_zero w -> event_ok w e -> not_visibility_pass e ->
  live_alpha_zero (step w e).
Proof.
  intros H Hok Hnv. destruct e as [G p f|p q|p|G| |G cam drawFar].
  - cbn [event_ok] in Hok. unfold step, RenderFeatureCreated. cbn [heap fd drawFrame].
    rewrite upd_same.
    destruct (def_drawType f =? DRAWTYPE_MODEL); cbn [negb].
    + intros r Hr. cbn [fd heap set_unsortedFeatures unsortedFeatures] in *.
      rewrite unsortedFeatures_UpdateDrawQuad in Hr. cbn [fd] in Hr.
      rewrite UpdateDrawQuad_drawAlpha. cbn [heap].
      apply in_app_or in Hr. destruct Hr as [Hr|[<-|[]]].
      * assert (Hne : r <> p) by (intros ->; exact (Hok Hr)).
        rewrite !upd_other by exact Hne. exact (H r Hr).
      * rewrite !upd_same. reflexivity.
    + intros r Hr. cbn [fd heap] in *.
      assert (Hne : r <> p) by (intros ->; exact (Hok Hr)).
      rewrite upd_other by exact Hne. exact (H r Hr).
  - unfold step, FeatureMoved. intros r Hr.
    rewrite unsortedFeatures_UpdateDrawQuad in Hr. cbn [fd] in Hr.
    rewrite UpdateDrawQuad_drawAlpha. cbn [heap]. unfold upd.
    destruct (Nat.eqb r p) eqn:E.
    + apply Nat.eqb_eq in E. subst. cbn [drawAlpha set_pos]. exact (H p Hr).
    + exact (H r Hr).
  - unfold step, RenderFeatureDestroyed. cbn [fst]. intros r Hr.
    assert (Hr' : In r (unsortedFeatures (fd w))).
    { destruct (def_drawType (heap w p) =? DRAWTYPE_MODEL);
        destruct (model (heap w p)); try destruct (0 <=? drawQuad (heap w p));
        cbn [fd set_modelRenderers set_unsortedFeatures unsortedFeatures] in Hr;
        try exact Hr; exact (VectorErase_subset _ _ _ Hr). }
    assert (Ha : drawAlpha (heap w r) = fzero) by exact (H r Hr').
    destruct (def_drawType (heap w p) =? DRAWTYPE_MODEL);
      destruct (model (heap w p)); try destruct (0 <=? drawQuad (heap w p));
      cbn [heap]; try exact Ha;
      unfold upd; (destruct (Nat.eqb r p) eqn:E; [|exact Ha]);
      apply Nat.eqb_eq in E; subst; exact Ha.
  - apply Update_live_alpha_zero.
  - exact H.
  - contradiction.
Qed.

Lemma run_live_alpha_zero (evs : list event) (w : World) :
  live_alpha_zero w -> run_ok w evs -> Forall not_visibility_pass evs ->
  live_alpha_zero (run w evs).
Proof.
  revert w. induction evs as [|e tl IH]; simpl; intros w H Hok Hnv; [exact H|].
  destruct Hok as [H1 H2]. inversion Hnv; subst.
  apply IH; [apply step_live_alpha_zero; assumption|exact H2|assumption].
Qed.

(** Claim C10.  [Update] sets, for every object of [unsortedFeatures],
    [drawAlpha] to 0 and the draw positions to the positions advanced by
    [speed * timeOffset]; it changes no [drawFlag], no [drawQuad], no other
    object, nothing of the drawer and no bin.  Until the next visibility
    pass, whatever is created, moved, destroyed or updated, every live
    object keeps [drawAlpha = 0]. *)
Theorem Update_resets_alpha_only (G : Globals) (w : World) :
  let w' := Update G w in
  (forall p, In p (unsortedFeatures (fd w)) ->
     drawAlpha (heap w' p) = fzero
     /\ drawPos (heap w' p)
        = f3_add (pos (heap w p)) (f3_scale (speed (heap w p)) (timeOffset G))
     /\ drawMidPos (heap w' p)
        = f3_add (midPos (heap w p)) (f3_scale (speed (heap w p)) (timeOffset G)))
  /\ (forall p, drawFlag (heap w' p) = drawFlag (heap w p)
               /\ drawQuad (heap w' p) = drawQuad (heap w p))
  /\ (forall p, ~ In p (unsortedFeatures (fd w)) -> heap w' p = heap w p)
  /\ fd w' = fd w
  /\ (forall c mt, cell_bin w' c mt = cell_bin w c mt)
  /\ (forall evs, run_ok w' evs -> Forall not_visibility_pass evs ->
        forall p, In p (unsortedFeatures (fd (run w' evs))) ->
                  drawAlpha (heap (run w' evs) p) = fzero).
Proof.
  intros w'. set (g := fun f => snd (SetDrawAlphaValue_default G (UpdateDrawPos G f) None)).
  assert (Eh : heap w' = upd_all g (unsortedFeatures (fd w)) (heap w)) by reflexivity.
  split; [|split; [|split; [|split; [|split]]]].
  - intros p Hp. rewrite Eh.
    destruct (upd_all_in g (unsortedFeatures (fd w)) (heap w) p Hp) as [f0 E].
    split; [rewrite E; reflexivity|].
    assert (Hpos : pos (upd_all g (unsortedFeatures (fd w)) (heap w) p) = pos (heap w p))
      by (apply (upd_all_proj pos); reflexivity).
    assert (Hmid : midPos (upd_all g (unsortedFeatures (fd w)) (heap w) p) = midPos (heap w p))
      by (apply (upd_all_proj midPos); reflexivity).
    assert (Hsp : speed (upd_all g (unsortedFeatures (fd w)) (heap w) p) = speed (heap w p))
      by (apply (upd_all_proj speed); reflexivity).
    rewrite <- Hpos, <- Hmid, <- Hsp, E. split; reflexivity.
  - intros p. rewrite Eh. split.
    + apply (upd_all_proj drawFlag); reflexivity.
    + apply (upd_all_proj drawQuad); reflexivity.
  - intros p Hp. rewrite Eh. apply upd_all_notin; exact Hp.
  - reflexivity.
  - reflexivity.
  - intros evs Hok Hnv. apply run_live_alpha_zero; [|exact Hok|exact Hnv].
    apply Update_live_alpha_zero.
Qed.

End Lifecycle.

(** ** Frame stamps of the cells *)

Section Frames.
Context {FO : FloatOps} {EC : EngineConsts}.

Lemma mem_In (p : ptr) (l : list ptr) : mem p l = true <-> In p l.
Proof.
  unfold mem. rewrite existsb_exists. split.
  - intros [x [H E]]. apply Nat.eqb_eq in E. subst. exact H.
  - intros H. exists p. split; [exact H|apply Nat.eqb_refl].
Qed.

Lemma In_update_nth {A : Type} (v : list A) (i : nat) (g : A -> A) (a : A) :
  In a (update_nth v i g) ->
  In a v \/ exists a0, nth_error v i = Some a0 /\ a = g a0.
Proof.
  revert i. induction v as [|x tl IH]; intros i; simpl; [tauto|].
  destruct i; simpl.
  - intros [H|H]; [right; exists x; auto|left; right; exact H].
  - intros [H|H]; [left; left; exact H|].
    destruct (IH i H) as [H1|H1]; [left; right; exact H1|right; exact H1].
Qed.

Lemma In_update_cell (v : list ModelRendererProxy) (i : Z) g (c : ModelRendererProxy) :
  In c (update_cell v i g) ->
  In c v \/ exists c0, cell_at v i = Some c0 /\ c = g c0.
Proof.
  unfold update_cell, cell_at. destruct (i <? 0); [tauto|]. apply In_update_nth.
Qed.

Lemma cell_at_In (v : list ModelRendererProxy) (i : Z) (c : ModelRendererProxy) :
  cell_at v i = Some c -> In c v.
Proof.
  unfold cell_at. destruct (i <? 0); [discriminate|]. apply nth_error_In.
Qed.

Lemma cell_features_in (c : ModelRendererProxy) (p : ptr) :
  In p (cell_features c) <->
  exists mt, (mt < MODELTYPE_OTHER)%nat /\ In p (bin_features (GetRenderer c mt)).
Proof.
  unfold cell_features. rewrite in_flat_map. split.
  - intros [mt [H1 H2]]. apply in_seq in H1. exists mt. split; [lia|exact H2].
  - intros [mt [H1 H2]]. exists mt. split; [apply in_seq; lia|exact H2].
Qed.

Lemma DrawQuad_feature_static (G : Globals) (qd : CFeatureQuadDrawer) (f : CFeature) :
  DrawQuad_feature G qd f
  = set_drawFlag (set_drawAlpha f (drawAlpha (DrawQuad_feature G qd f)))
                 (drawFlag (DrawQuad_feature G qd f)).
Proof.
  destruct f. unfold DrawQuad_feature, SetDrawAlphaValue.
  cbn -[Z.mul Z.add fgeb].
  repeat match goal with
         | |- context [if ?b then _ else _] => destruct b; cbn -[Z.mul Z.add fgeb]
         | |- context [match ?c with Some _ => _ | None => _ end] =>
             destruct c; cbn -[Z.mul Z.add fgeb]
         end; reflexivity.
Qed.

Lemma DrawQuad_feature_excl_fields (G : Globals) (qd : CFeatureQuadDrawer) (f : CFeature) :
  excluded G (DrawQuad_feature G qd f) = excluded G f
  /\ pass_excluded G qd (DrawQuad_feature G qd f) = pass_excluded G qd f.
Proof.
  rewrite (DrawQuad_feature_static G qd f). split; reflexivity.
Qed.

Lemma reaches_DrawQuad_feature (G : Globals) (qd : CFeatureQuadDrawer) (f : CFeature) :
  reaches_SetDrawAlphaValue G qd (DrawQuad_feature G qd f)
  = reaches_SetDrawAlphaValue G qd f.
Proof.
  unfold reaches_SetDrawAlphaValue.
  destruct (DrawQuad_feature_excl_fields G qd f) as [A B]. rewrite A, B. reflexivity.
Qed.


Lemma cells_sub_refl (v : list ModelRendererProxy) : cells_sub v v.
Proof. intros c Hc. exists c. auto. Qed.

Lemma cells_sub_frames (v' v : list ModelRendererProxy) : cells_sub v' v -> cells_frames v' v.
Proof. intros H c' Hc. destruct (H c' Hc) as (c & A & B & _). exists c. auto. Qed.

Lemma cells_frames_trans (v1 v2 v3 : list ModelRendererProxy) :
  cells_frames v1 v2 -> cells_frames v2 v3 -> cells_frames v1 v3.
Proof.
  intros H1 H2 c1 Hc1. destruct (H1 c1 Hc1) as (c2 & A & B).
  destruct (H2 c2 A) as (c3 & C & D). exists c3. split; [exact C|congruence].
Qed.

Lemma DelFeature_at_sub (v : list ModelRendererProxy) (i : Z) (m : S3DModel) (p : ptr) :
  cells_sub (DelFeature_at v i m p) v.
Proof.
  intros c' Hc. unfold DelFeature_at in Hc. apply In_update_cell in Hc.
  destruct Hc as [Hc|[c0 [E ->]]].
  - exists c'. auto.
  - exists c0. split; [exact (cell_at_In _ _ _ E)|]. split; [reflexivity|].
    intros q Hq. apply cell_features_in in Hq. destruct Hq as [mt [H1 H2]].
    apply cell_features_in. exists mt. split; [exact H1|].
    cbn [set_renderer GetRenderer] in H2.
    destruct (Nat.eqb mt (mdl_type m)) eqn:Em; [|exact H2].
    apply Nat.eqb_eq in Em. subst. exact (DelFeature_subset _ _ _ _ H2).
Qed.

Lemma AddFeature_at_frames (v : list ModelRendererProxy) (i : Z) (m : S3DModel) (p : ptr) :
  cells_frames (AddFeature_at v i m p) v.
Proof.
  intros c' Hc. unfold AddFeature_at in Hc. apply In_update_cell in Hc.
  destruct Hc as [Hc|[c0 [E ->]]].
  - exists c'. auto.
  - exists c0. split; [exact (cell_at_In _ _ _ E)|reflexivity].
Qed.

Lemma UpdateDrawQuad_frames (w : World) (p : ptr) :
  cells_frames (modelRenderers (fd (UpdateDrawQuad w p))) (modelRenderers (fd w))
  /\ drawFrame (UpdateDrawQuad w p) = drawFrame w.
Proof.
  unfold UpdateDrawQuad.
  destruct (_ <? _); [split; [apply cells_sub_frames, cells_sub_refl|reflexivity]|].
  destruct (_ =? _); [split; [apply cells_sub_frames, cells_sub_refl|reflexivity]|].
  cbn [fd set_modelRenderers modelRenderers drawFrame]. split; [|reflexivity].
  destruct (model (heap w p)) as [m|]; [|apply cells_sub_frames, cells_sub_refl].
  eapply cells_frames_trans; [apply AddFeature_at_frames|].
  destruct (0 <=? _); [apply cells_sub_frames, DelFeature_at_sub
                      |apply cells_sub_frames, cells_sub_refl].
Qed.

Lemma frames_ok_cells (w w' : World) :
  cells_frames (modelRenderers (fd w')) (modelRenderers (fd w)) ->
  drawFrame w <= drawFrame w' -> frames_ok w -> frames_ok w'.
Proof.
  intros Hc Hf H c' Hin. destruct (Hc c' Hin) as (c & A & B).
  rewrite B. pose proof (H c A). lia.
Qed.

Lemma RenderFeatureDestroyed_cells (w : World) (p : ptr) :
  cells_sub (modelRenderers (fd (fst (RenderFeatureDestroyed w p)))) (modelRenderers (fd w))
  /\ drawFrame (fst (RenderFeatureDestroyed w p)) = drawFrame w
  /\ forall r, drawFlag (heap (fst (RenderFeatureDestroyed w p)) r) = drawFlag (heap w r).
Proof.
  unfold RenderFeatureDestroyed. cbn [fst].
  destruct (def_drawType (heap w p) =? DRAWTYPE_MODEL);
    destruct (model (heap w p)); try destruct (0 <=? drawQuad (heap w p));
    cbn [fd heap drawFrame set_modelRenderers set_unsortedFeatures modelRenderers];
    (split; [try apply DelFeature_at_sub; try apply cells_sub_refl|]);
    (split; [reflexivity|]); intros r; try reflexivity;
    unfold upd; (destruct (Nat.eqb r p) eqn:E; [|reflexivity]);
    apply Nat.eqb_eq in E; subst; reflexivity.
Qed.

Lemma RenderFeatureCreated_frames (G : Globals) (w : World) (p : ptr) :
  cells_frames (modelRenderers (fd (RenderFeatureCreated G w p))) (modelRenderers (fd w))
  /\ drawFrame (RenderFeatureCreated G w p) = drawFrame w.
Proof.
  unfold RenderFeatureCreated.
  destruct (negb _); [split; [apply cells_sub_frames, cells_sub_refl|reflexivity]|].
  cbn [fd heap drawFrame set_unsortedFeatures modelRenderers].
  match goal with
  | |- context [UpdateDrawQuad ?a ?b] => destruct (UpdateDrawQuad_frames a b) as [A B]
  end.
  split; [exact A|exact B].
Qed.

Lemma DrawQuad_frames_ok (G : Globals) (qd : CFeatureQuadDrawer) (w : World) (x y : Z) :
  frames_ok w -> frames_ok (DrawQuad G qd w x y).
Proof.
  intros H. unfold DrawQuad.
  destruct (cell_at (modelRenderers (fd w)) (y * qd_drawQuadsX qd + x)) as [cell|];
    [|exact H].
  intros c Hc. cbn [fd set_modelRenderers modelRenderers drawFrame] in *.
  apply In_update_cell in Hc. destruct Hc as [Hc|[c0 [_ ->]]].
  - exact (H c Hc).
  - cbn [SetLastDrawFrame lastDrawFrame]. lia.
Qed.

Lemma GetVisibleFeatures_frames_ok (G : Globals) (w : World) (cam : CCamera) (drawFar : bool) :
  frames_ok w -> frames_ok (GetVisibleFeatures G w cam drawFar).
Proof.
  intros H. unfold GetVisibleFeatures.
  set (qd := quad_drawer _ _ _ _).
  set (w1 := mkWorld _ _ _).
  assert (H1 : frames_ok w1) by exact H.
  revert H1. generalize w1.
  induction (GridVisibility G cam) as [|xy tl IH]; simpl; intros w2 H2; [exact H2|].
  apply IH. apply DrawQuad_frames_ok. exact H2.
Qed.

Lemma step_frames_ok (w : World) (e : event) : frames_ok w -> frames_ok (step w e).
Proof.
  intros H. destruct e as [G p f|p q|p|G| |G cam drawFar].
  - unfold step.
    match goal with
    | |- context [RenderFeatureCreated ?g ?a ?b] =>
        destruct (RenderFeatureCreated_frames g a b) as [A B]
    end.
    apply frames_ok_cells with (w := w); [exact A| |exact H].
    rewrite B. cbn [drawFrame]. lia.
  - unfold step, FeatureMoved.
    match goal with
    | |- context [UpdateDrawQuad ?a ?b] => destruct (UpdateDrawQuad_frames a b) as [A B]
    end.
    apply frames_ok_cells with (w := w); [exact A| |exact H].
    rewrite B. cbn [drawFrame]. lia.
  - unfold step. destruct (RenderFeatureDestroyed_cells w p) as (A & B & _).
    apply frames_ok_cells with (w := w); [apply cells_sub_frames; exact A| |exact H].
    rewrite B. lia.
  - exact H.
  - intros c Hc. cbn [step fd drawFrame] in *. pose proof (H c Hc). lia.
  - unfold step. apply GetVisibleFeatures_frames_ok. exact H.
Qed.

Lemma run_frames_ok (evs : list event) (w : World) : frames_ok w -> frames_ok (run w evs).
Proof.
  revert w. induction evs as [|e tl IH]; simpl; intros w H; [exact H|].
  apply IH. apply step_frames_ok. exact H.
Qed.

Lemma drawn_cells_in (w : World) (c : ModelRendererProxy) :
  In c (drawn_cells w) <->
  In c (modelRenderers (fd w)) /\ drawFrame w <= lastDrawFrame c.
Proof.
  unfold drawn_cells. rewrite filter_In, negb_true_iff, Z.ltb_ge. tauto.
Qed.

Lemma pass_reads_in (w : World) (modelType : nat) (p : ptr) :
  In p (pass_reads w modelType) <->
  exists c, In c (drawn_cells w) /\ In p (bin_features (GetRenderer c modelType)).
Proof. unfold pass_reads. apply in_flat_map. Qed.

End Frames.

(** ** Batched passes submit by flag *)

Section Passes.
Context {FO : FloatOps} {EC : EngineConsts}.

Lemma batch_in (modelType : nat) (body : ptr -> list Call) (cells : list ModelRendererProxy)
    (call : Call) :
  In call
     (flat_map
        (fun c =>
           flat_map
             (fun binElem =>
                BindModelTypeTexture modelType (fst binElem) :: flat_map body (snd binElem))
             (GetRenderer c modelType))
        cells)
  <-> (exists c k fs, In c cells /\ In (k, fs) (GetRenderer c modelType)
                      /\ call = BindModelTypeTexture modelType k)
      \/ (exists c p, In c cells /\ In p (bin_features (GetRenderer c modelType))
                      /\ In call (body p)).
Proof.
  rewrite in_flat_map. split.
  - intros (c & Hc & H). apply in_flat_map in H. destruct H as ([k fs] & Hb & H).
    cbn [fst snd] in H. destruct H as [H|H].
    + left. exists c, k, fs. auto.
    + right. apply in_flat_map in H. destruct H as (p & Hp & H).
      exists c, p. split; [exact Hc|]. split; [|exact H].
      apply bin_features_in. exists k, fs. auto.
  - intros [(c & k & fs & Hc & Hb & ->)|(c & p & Hc & Hp & H)].
    + exists c. split; [exact Hc|]. apply in_flat_map. exists (k, fs).
      split; [exact Hb|]. left. reflexivity.
    + exists c. split; [exact Hc|]. apply bin_features_in in Hp.
      destruct Hp as (k & fs & Hb & Hp). apply in_flat_map. exists (k, fs).
      split; [exact Hb|]. right. apply in_flat_map. exists p. auto.
Qed.

Lemma alpha_feature_calls (G : Globals) (w : World) (ffp : bool) (p : ptr) (call : Call) :
  In call (DrawAlphaFeatures_feature G w ffp p) ->
  (drawFlag (heap w p) <> FD_NODRAW_FLAG /\ drawFlag (heap w p) <> FD_OPAQUE_FLAG
   /\ drawFlag (heap w p) <> FD_SHADOW_FLAG /\ drawFlag (heap w p) <> FD_FARTEX_FLAG)
  /\ (call = AlphaMaterialObject p \/ call = DrawFeature p
      \/ call = SetTeamColour (team (heap w p)) (Some (drawAlpha (heap w p)))
      \/ call = SetFeatureAlphaDrawState p (drawAlpha (heap w p)) ffp).
Proof.
  unfold DrawAlphaFeatures_feature.
  destruct (_ =? FD_NODRAW_FLAG) eqn:E0; [intros []|].
  destruct (_ =? FD_OPAQUE_FLAG) eqn:E1; [intros []|].
  destruct (_ =? FD_SHADOW_FLAG) eqn:E3; [intros []|].
  destruct (_ =? FD_FARTEX_FLAG) eqn:E4; [intros []|].
  apply Z.eqb_neq in E0, E1, E3, E4. intros H. split; [auto|].
  destruct (negb _); [destruct H|].
  destruct (AddAlphaMaterialObject G p); simpl in H; intuition.
Qed.

Lemma opaque_feature_calls (G : Globals) (w : World) (p : ptr) (call : Call) :
  In call (DrawOpaqueFeatures_feature G w p) ->
  (call = FarTextureQueue p /\ drawFlag (heap w p) = FD_FARTEX_FLAG)
  \/ ((drawFlag (heap w p) <> FD_NODRAW_FLAG /\ drawFlag (heap w p) <> FD_ALPHAF_FLAG
       /\ drawFlag (heap w p) <> FD_FARTEX_FLAG)
      /\ (call = ShadowMaterialObject p \/ call = OpaqueMaterialObject p
          \/ call = DrawFeature p \/ call = SetTeamColour (team (heap w p)) None)).
Proof.
  unfold DrawOpaqueFeatures_feature.
  destruct (_ =? FD_NODRAW_FLAG) eqn:E0; [intros []|].
  destruct (_ =? FD_ALPHAF_FLAG) eqn:E2; [intros []|].
  destruct (_ =? FD_FARTEX_FLAG) eqn:E4.
  - apply Z.eqb_eq in E4. intros [<-|[]]. left. auto.
  - apply Z.eqb_neq in E0, E2, E4. intros H. right. split; [auto|].
    destruct (negb (CanDrawFeature _ _ _)); [destruct H|].
    destruct (inShadowPass (fd w)); cbn [andb negb] in H.
    + destruct (AddShadowMaterialObject G p); simpl in H; intuition.
    + destruct (AddOpaqueMaterialObject G p); simpl in H; intuition.
Qed.

Lemma fartex_feature_queued (G : Globals) (w : World) (p : ptr) :
  drawFlag (heap w p) = FD_FARTEX_FLAG ->
  DrawOpaqueFeatures_feature G w p = [FarTextureQueue p].
Proof.
  intros H. unfold DrawOpaqueFeatures_feature. rewrite H. reflexivity.
Qed.

Lemma valid_flag_alpha (v : Z) :
  v <> FD_NODRAW_FLAG -> v <> FD_OPAQUE_FLAG -> v <> FD_SHADOW_FLAG ->
  v <> FD_FARTEX_FLAG -> valid_flag v -> v = FD_ALPHAF_FLAG.
Proof. unfold valid_flag. intuition. Qed.

Lemma valid_flag_opaque (v : Z) :
  v <> FD_NODRAW_FLAG -> v <> FD_ALPHAF_FLAG -> v <> FD_FARTEX_FLAG ->
  valid_flag v -> v = FD_OPAQUE_FLAG \/ v = FD_SHADOW_FLAG.
Proof. unfold valid_flag. intuition. Qed.

Lemma DrawAlphaFeatures_submits (G : Globals) (w : World) (modelType : nat) (p : ptr) :
  submits (DrawAlphaFeatures G w modelType) p ->
  In p (pass_reads w modelType)
  /\ drawFlag (heap w p) <> FD_NODRAW_FLAG /\ drawFlag (heap w p) <> FD_OPAQUE_FLAG
  /\ drawFlag (heap w p) <> FD_SHADOW_FLAG /\ drawFlag (heap w p) <> FD_FARTEX_FLAG.
Proof.
  assert (X : forall call, In call (DrawAlphaFeatures G w modelType) ->
            (call = DrawFeature p \/ call = OpaqueMaterialObject p
             \/ call = ShadowMaterialObject p \/ call = AlphaMaterialObject p) ->
            In p (pass_reads w modelType)
            /\ drawFlag (heap w p) <> FD_NODRAW_FLAG /\ drawFlag (heap w p) <> FD_OPAQUE_FLAG
            /\ drawFlag (heap w p) <> FD_SHADOW_FLAG /\ drawFlag (heap w p) <> FD_FARTEX_FLAG).
  { intros call Hin Hcall. unfold DrawAlphaFeatures in Hin. apply batch_in in Hin.
    destruct Hin as [(c & k & fs & _ & _ & E)|(c & q & Hc & Hq & Hin)].
    - subst. intuition discriminate.
    - destruct (alpha_feature_calls G w _ q call Hin) as [Hfl Hk].
      assert (q = p).
      { destruct Hk as [->|[->|[->| ->]]];
          destruct Hcall as [E|[E|[E|E]]]; inversion E; reflexivity. }
      subst q. split; [|exact Hfl]. apply pass_reads_in. exists c. auto. }
  intros [H|[H|[H|H]]]; eapply X; eauto.
Qed.

Lemma DrawOpaqueFeatures_submits (G : Globals) (w : World) (modelType : nat) (p : ptr) :
  submits (DrawOpaqueFeatures G w modelType) p ->
  In p (pass_reads w modelType)
  /\ drawFlag (heap w p) <> FD_NODRAW_FLAG /\ drawFlag (heap w p) <> FD_ALPHAF_FLAG
  /\ drawFlag (heap w p) <> FD_FARTEX_FLAG.
Proof.
  assert (X : forall call, In call (DrawOpaqueFeatures G w modelType) ->
            (call = DrawFeature p \/ call = OpaqueMaterialObject p
             \/ call = ShadowMaterialObject p \/ call = AlphaMaterialObject p) ->
            In p (pass_reads w modelType)
            /\ drawFlag (heap w p) <> FD_NODRAW_FLAG /\ drawFlag (heap w p) <> FD_ALPHAF_FLAG
            /\ drawFlag (heap w p) <> FD_FARTEX_FLAG).
  { intros call Hin Hcall. unfold DrawOpaqueFeatures in Hin. apply batch_in in Hin.
    destruct Hin as [(c & k & fs & _ & _ & E)|(c & q & Hc & Hq & Hin)].
    - subst. intuition discriminate.
    - destruct (opaque_feature_calls G w q call Hin) as [[E _]|[Hfl Hk]].
      + subst. intuition discriminate.
      + assert (q = p).
        { destruct Hk as [->|[->|[->| ->]]];
            destruct Hcall as [E|[E|[E|E]]]; inversion E; reflexivity. }
        subst q. split; [|exact Hfl]. apply pass_reads_in. exists c. auto. }
  intros [H|[H|[H|H]]]; eapply X; eauto.
Qed.

Lemma DrawOpaqueFeatures_fartex (G : Globals) (w : World) (modelType : nat) (p : ptr) :
  In (FarTextureQueue p) (DrawOpaqueFeatures G w modelType) <->
  In p (pass_reads w modelType) /\ drawFlag (heap w p) = FD_FARTEX_FLAG.
Proof.
  unfold DrawOpaqueFeatures. rewrite batch_in. split.
  - intros [(c & k & fs & _ & _ & E)|(c & q & Hc & Hq & Hin)]; [discriminate E|].
    destruct (opaque_feature_calls G w q _ Hin) as [[E F]|[_ Hk]].
    + inversion E; subst. split; [|exact F]. apply pass_reads_in. exists c. auto.
    + destruct Hk as [E|[E|[E|E]]]; discriminate E.
  - intros [Hp Hf]. apply pass_reads_in in Hp. destruct Hp as (c & Hc & Hp).
    right. exists c, p. split; [exact Hc|]. split; [exact Hp|].
    rewrite (fartex_feature_queued G w p Hf). left. reflexivity.
Qed.

Lemma DrawAlphaFeatures_no_fartex (G : Globals) (w : World) (modelType : nat) (p : ptr) :
  ~ In (FarTextureQueue p) (DrawAlphaFeatures G w modelType).
Proof.
  unfold DrawAlphaFeatures. rewrite batch_in.
  intros [(c & k & fs & _ & _ & E)|(c & q & Hc & Hq & Hin)]; [discriminate E|].
  destruct (alpha_feature_calls G w _ q _ Hin) as [_ Hk].
  destruct Hk as [E|[E|[E|E]]]; discriminate E.
Qed.

Lemma submits_flat_map (body : nat -> list Call) (l : list nat) (p : ptr) :
  submits (flat_map body l) p -> exists mt, In mt l /\ submits (body mt) p.
Proof.
  unfold submits. rewrite !in_flat_map.
  intros [(mt & A & B)|[(mt & A & B)|[(mt & A & B)|(mt & A & B)]]];
    exists mt; split; auto.
Qed.

(** Claim C8, amended.  The alpha batcher submits geometry only for objects
    whose flag is none of NoDraw, Opaque, Shadow, FarTex, that is
    [FD_ALPHAF_FLAG].  The opaque batcher submits geometry only for objects
    whose flag is none of NoDraw, AlphaF, FarTex, that is [FD_OPAQUE_FLAG] or
    [FD_SHADOW_FLAG]: it lets shadow-flagged objects through.  The opaque
    batcher queues exactly the FarTex-flagged objects of the iterated cells
    with the far-texture handler, and the alpha batcher queues none. *)
Theorem draw_passes_submit_by_flag (G : Globals) (w : World) (modelType : nat)
    (p : ptr) :
  (submits (DrawAlphaFeatures G w modelType) p \/ submits (DrawAlphaPass G w) p ->
     drawFlag (heap w p) <> FD_NODRAW_FLAG /\ drawFlag (heap w p) <> FD_OPAQUE_FLAG
     /\ drawFlag (heap w p) <> FD_SHADOW_FLAG /\ drawFlag (heap w p) <> FD_FARTEX_FLAG
     /\ (valid_flag (drawFlag (heap w p)) -> drawFlag (heap w p) = FD_ALPHAF_FLAG))
  /\ (submits (DrawOpaqueFeatures G w modelType) p \/ submits (DrawOpaquePass G w) p ->
      drawFlag (heap w p) <> FD_NODRAW_FLAG /\ drawFlag (heap w p) <> FD_ALPHAF_FLAG
      /\ drawFlag (heap w p) <> FD_FARTEX_FLAG
      /\ (valid_flag (drawFlag (heap w p)) ->
          drawFlag (heap w p) = FD_OPAQUE_FLAG \/ drawFlag (heap w p) = FD_SHADOW_FLAG))
  /\ (In (FarTextureQueue p) (DrawOpaqueFeatures G w modelType) <->
      In p (pass_reads w modelType) /\ drawFlag (heap w p) = FD_FARTEX_FLAG)
  /\ ~ In (FarTextureQueue p) (DrawAlphaFeatures G w modelType).
Proof.
  split; [|split; [|split]].
  - intros H.
    assert (X : drawFlag (heap w p) <> FD_NODRAW_FLAG /\ drawFlag (heap w p) <> FD_OPAQUE_FLAG
             /\ drawFlag (heap w p) <> FD_SHADOW_FLAG /\ drawFlag (heap w p) <> FD_FARTEX_FLAG).
    { destruct H as [H|H].
      - exact (proj2 (DrawAlphaFeatures_submits G w modelType p H)).
      - unfold DrawAlphaPass in H. apply submits_flat_map in H.
        destruct H as (mt & _ & H).
        exact (proj2 (DrawAlphaFeatures_submits G _ mt p H)). }
    destruct X as (A & B & C & D). repeat split; auto.
    apply valid_flag_alpha; assumption.
  - intros H.
    assert (X : drawFlag (heap w p) <> FD_NODRAW_FLAG /\ drawFlag (heap w p) <> FD_ALPHAF_FLAG
             /\ drawFlag (heap w p) <> FD_FARTEX_FLAG).
    { destruct H as [H|H].
      - exact (proj2 (DrawOpaqueFeatures_submits G w modelType p H)).
      - unfold DrawOpaquePass in H. apply submits_flat_map in H.
        destruct H as (mt & _ & H).
        exact (proj2 (DrawOpaqueFeatures_submits G w mt p H)). }
    destruct X as (A & B & C). repeat split; auto.
    apply valid_flag_opaque; assumption.
  - apply DrawOpaqueFeatures_fartex.
  - apply DrawAlphaFeatures_no_fartex.
Qed.

End Passes.

(** ** Witnesses and counterexamples *)

Section Witnesses.
Local Existing Instance spring_consts.

(** C1: at the begin of the fade window the object is flagged opaque. *)
Lemma fade_begin_is_opaque :
  visible ex_G ex_qd (@ex_feature binary32 4500 0 100 true)
  /\ alphaFade (@ex_feature binary32 4500 0 100 true) = true
  /\ fltb (sqDistOf (@ex_feature binary32 4500 0 100 true) ex_cam)
          (farLengthOf ex_G (@ex_feature binary32 4500 0 100 true)) = true
  /\ fltb (sqDistOf (@ex_feature binary32 4500 0 100 true) ex_cam)
          (fadeBegin' (farLengthOf ex_G (@ex_feature binary32 4500 0 100 true))
             (sqFadeDistBegin ex_qd) (sqFadeDistEnd ex_qd)) = false
  /\ fltb (sqDistOf (@ex_feature binary32 4500 0 100 true) ex_cam)
          (fadeEnd' (farLengthOf ex_G (@ex_feature binary32 4500 0 100 true))
             (sqFadeDistBegin ex_qd) (sqFadeDistEnd ex_qd)) = true
  /\ drawFlag (DrawQuad_feature ex_G ex_qd (@ex_feature binary32 4500 0 100 true))
     = FD_OPAQUE_FLAG
  /\ drawFlag (DrawQuad_feature ex_G ex_qd (@ex_feature binary32 4500 0 100 true))
     <> FD_ALPHAF_FLAG.
Proof.
  repeat split; try (vm_compute; reflexivity). vm_compute. discriminate.
Qed.

Lemma fade_window_classification_witness :
  visible ex_G ex_qd (@ex_feature binary32 5250 750 100 true)
  /\ fltb (sqDistOf (@ex_feature binary32 5250 750 100 true) ex_cam)
          (farLengthOf ex_G (@ex_feature binary32 5250 750 100 true)) = true
  /\ drawAlpha (DrawQuad_feature ex_G ex_qd (@ex_feature binary32 5250 750 100 true)) = fhalf
  /\ drawFlag (DrawQuad_feature ex_G ex_qd (@ex_feature binary32 5250 750 100 true))
     = FD_ALPHAF_FLAG.
Proof.
  assert (Hv : visible ex_G ex_qd (@ex_feature binary32 5250 750 100 true))
    by (repeat split; reflexivity).
  assert (Hd : fltb (sqDistOf (@ex_feature binary32 5250 750 100 true) ex_cam)
                    (farLengthOf ex_G (@ex_feature binary32 5250 750 100 true)) = true)
    by (vm_compute; reflexivity).
  split; [exact Hv|]. split; [exact Hd|].
  apply (fade_window_classification ex_G ex_qd (@ex_feature binary32 5250 750 100 true)
           ex_cam Hv eq_refl eq_refl Hd); vm_compute; reflexivity.
Defined.


(** The examples of the specification, evaluated in binary32: at distance
    0 the object is opaque with alpha 1, midway through the default fade
    window it is alpha-fading with alpha 0.5. *)
Lemma binary32_near_is_opaque :
  drawFlag (DrawQuad_feature ex_G ex_qd (@ex_feature binary32 0 0 100 true)) = FD_OPAQUE_FLAG
  /\ drawAlpha (DrawQuad_feature ex_G ex_qd (@ex_feature binary32 0 0 100 true)) = fone.
Proof. split; vm_compute; reflexivity. Qed.

Lemma binary32_midway_is_half :
  sqDistOf (@ex_feature binary32 5250 750 100 true) ex_cam = of_int 28125000
  /\ drawFlag (DrawQuad_feature ex_G ex_qd (@ex_feature binary32 5250 750 100 true))
     = FD_ALPHAF_FLAG
  /\ drawAlpha (DrawQuad_feature ex_G ex_qd (@ex_feature binary32 5250 750 100 true)) = fhalf.
Proof. repeat split; vm_compute; reflexivity. Qed.

(** C2: a fading object beyond [farLength] is not made an impostor although
    far rendering is enabled. *)
Lemma far_fading_object_is_no_impostor :
  visible ex_G ex_qd (@ex_feature binary32 4500 0 16 true)
  /\ alphaFade (@ex_feature binary32 4500 0 16 true) = true
  /\ drawFarFeatures (@ex_qd binary32) = true
  /\ fgeb (sqDistOf (@ex_feature binary32 4500 0 16 true) ex_cam)
          (farLengthOf ex_G (@ex_feature binary32 4500 0 16 true)) = true
  /\ drawFlag (DrawQuad_feature ex_G ex_qd (@ex_feature binary32 4500 0 16 true))
     = FD_NODRAW_FLAG
  /\ drawFlag (DrawQuad_feature ex_G ex_qd (@ex_feature binary32 4500 0 16 true))
     <> FD_FARTEX_FLAG.
Proof.
  repeat split; try (vm_compute; reflexivity). vm_compute. discriminate.
Qed.

Lemma far_fading_object_is_not_drawn_witness :
  visible ex_G ex_qd (@ex_feature binary32 4500 0 16 true)
  /\ fgeb (sqDistOf (@ex_feature binary32 4500 0 16 true) ex_cam)
          (farLengthOf ex_G (@ex_feature binary32 4500 0 16 true)) = true
  /\ drawFlag (DrawQuad_feature ex_G ex_qd (@ex_feature binary32 4500 0 16 true))
     = FD_NODRAW_FLAG
  /\ drawAlpha (DrawQuad_feature ex_G ex_qd (@ex_feature binary32 4500 0 16 true)) = fzero.
Proof.
  assert (Hv : visible ex_G ex_qd (@ex_feature binary32 4500 0 16 true))
    by (repeat split; reflexivity).
  assert (Hd : fgeb (sqDistOf (@ex_feature binary32 4500 0 16 true) ex_cam)
                    (farLengthOf ex_G (@ex_feature binary32 4500 0 16 true)) = true)
    by (vm_compute; reflexivity).
  split; [exact Hv|]. split; [exact Hd|].
  exact (far_fading_object_is_not_drawn ex_G ex_qd (@ex_feature binary32 4500 0 16 true)
           ex_cam Hv eq_refl eq_refl Hd).
Defined.



Lemma fade_alpha_is_monotone_witness :
  fleb (sqDistOf (@ex_feature binary32 4500 0 100 true) ex_cam)
       (sqDistOf (@ex_feature binary32 5250 750 100 true) ex_cam) = true
  /\ fleb (drawAlpha (DrawQuad_feature ex_G ex_qd (@ex_feature binary32 5250 750 100 true)))
          (drawAlpha (DrawQuad_feature ex_G ex_qd (@ex_feature binary32 4500 0 100 true)))
     = true
  /\ drawAlpha (DrawQuad_feature ex_G ex_qd (@ex_feature binary32 4500 0 100 true)) = fone
  /\ drawFlag (DrawQuad_feature ex_G ex_qd (@ex_feature binary32 6000 0 100 true))
     = FD_NODRAW_FLAG.
Proof.
  assert (Hv : forall px pz, visible ex_G ex_qd (@ex_feature binary32 px pz 100 true))
    by (intros; repeat split; reflexivity).
  split; [vm_compute; reflexivity|]. split; [|split].
  - apply (fade_alpha_is_monotone ex_G ex_qd (@ex_feature binary32 4500 0 100 true)
             (@ex_feature binary32 5250 750 100 true) ex_cam
             (Hv 4500 0) (Hv 5250 750) eq_refl eq_refl eq_refl eq_refl);
      vm_compute; reflexivity.
  - apply (fade_alpha_is_monotone ex_G ex_qd (@ex_feature binary32 4500 0 100 true)
             (@ex_feature binary32 5250 750 100 true) ex_cam
             (Hv 4500 0) (Hv 5250 750) eq_refl eq_refl eq_refl eq_refl);
      vm_compute; reflexivity.
  - apply (fade_alpha_is_monotone ex_G ex_qd (@ex_feature binary32 6000 0 100 true)
             (@ex_feature binary32 6000 0 100 true) ex_cam
             (Hv 6000 0) (Hv 6000 0) eq_refl eq_refl eq_refl eq_refl);
      vm_compute; reflexivity.
Defined.


Lemma CFeatureDrawer_new_frames_ok {FO : FloatOps} (h : ptr -> CFeature) (mapx mapy : Z)
    (cfgDraw cfgFade : float) (frame0 frame : Z) :
  frame0 <= frame ->
  frames_ok (mkWorld h (CFeatureDrawer_new mapx mapy cfgDraw cfgFade frame0) frame).
Proof.
  intros H c Hc. cbn [fd CFeatureDrawer_new modelRenderers drawFrame] in *.
  apply repeat_spec in Hc. subst. exact H.
Qed.

Lemma ex_w0_grid_inv : grid_inv (@ex_w0 binary32).
Proof. apply CFeatureDrawer_new_inv; reflexivity. Qed.

Lemma ex_life_ok : run_ok (@ex_w0 binary32) ex_life.
Proof. vm_compute. intuition discriminate. Qed.

Lemma grid_invariant_holds_after_every_run_witness :
  grid_inv (@ex_w0 binary32)
  /\ run_ok (@ex_w0 binary32) ex_life
  /\ (forall c mt p, in_cell (run (@ex_w0 binary32) ex_life) c mt p ->
        newDrawQuad (fd (run (@ex_w0 binary32) ex_life))
                    (heap (run (@ex_w0 binary32) ex_life) p) = Z.of_nat c).
Proof.
  split; [exact ex_w0_grid_inv|]. split; [exact ex_life_ok|].
  exact (proj2 (grid_invariant_holds_after_every_run (@ex_w0 binary32) ex_life
                  ex_w0_grid_inv ex_life_ok)).
Defined.

Lemma ex_w1_grid_inv : grid_inv (@ex_w1 binary32).
Proof.
  apply run_inv; [exact ex_w0_grid_inv|]. vm_compute. intuition.
Qed.



Lemma ex_w1_frames_ok : frames_ok (@ex_w1 binary32).
Proof.
  apply run_frames_ok. apply CFeatureDrawer_new_frames_ok. reflexivity.
Qed.


(** C8: the opaque pass draws an object that the shadow pass flagged. *)
Lemma opaque_pass_draws_shadow_flagged_object :
  drawFlag (heap (@ex_w2 binary32) 0%nat) = FD_SHADOW_FLAG
  /\ inShadowPass (fd (@ex_w2 binary32)) = false
  /\ DrawOpaquePass ex_G (@ex_w2 binary32)
     = [BindModelTypeTexture 1 7; SetTeamColour 0 None; DrawFeature 0%nat]
  /\ submits (DrawOpaquePass ex_G (@ex_w2 binary32)) 0%nat
  /\ FD_SHADOW_FLAG <> FD_OPAQUE_FLAG.
Proof.
  assert (E : DrawOpaquePass ex_G (@ex_w2 binary32)
              = [BindModelTypeTexture 1 7; SetTeamColour 0 None; DrawFeature 0%nat])
    by reflexivity.
  split; [vm_compute; reflexivity|]. split; [vm_compute; reflexivity|].
  split; [exact E|]. split; [|discriminate].
  unfold submits. rewrite E. left. right. right. left. reflexivity.
Qed.

(** C9: destroying an object issues no call to the decal system. *)
Lemma destroying_issues_no_decal_call :
  In 0%nat (unsortedFeatures (fd (@ex_w1 binary32)))
  /\ snd (RenderFeatureDestroyed (@ex_w1 binary32) 0%nat) = [SetObjectLOD 0%nat 0]
  /\ ~ In (ForceRemoveSolidObject 0%nat) (snd (RenderFeatureDestroyed (@ex_w1 binary32) 0%nat)).
Proof.
  split; [vm_compute; left; reflexivity|]. split; [reflexivity|].
  intros [H|[]]. discriminate H.
Qed.

End Witnesses.


(* ================================================================== *)
(** * Part III: further properties of the drawer *)
(* ================================================================== *)

(** ** What classification writes *)

Section Marks.

Context {FO : FloatOps} {EC : EngineConsts}.

Lemma DrawQuad_feature_old_flag (G : Globals) (qd : CFeatureQuadDrawer) (f : CFeature)
    (v : Z) :
  DrawQuad_feature G qd (set_drawFlag f v) = DrawQuad_feature G qd f.
Proof. destruct f. reflexivity. Qed.

(** X1.  Classification never reads the [drawFlag] an object carried
    before, and the flag it leaves does not depend on the previous
    [drawAlpha] either.  An object that reaches [SetDrawAlphaValue] gets an
    alpha that does not depend on the previous one; an object dropped before
    that call keeps its previous [drawAlpha].  Classifying twice is
    classifying once. *)
Theorem classification_ignores_previous_marks (G : Globals) (qd : CFeatureQuadDrawer)
    (f : CFeature) (v : Z) (a : float) :
  DrawQuad_feature G qd (set_drawFlag f v) = DrawQuad_feature G qd f
  /\ drawFlag (DrawQuad_feature G qd (set_drawAlpha f a))
     = drawFlag (DrawQuad_feature G qd f)
  /\ (reaches_SetDrawAlphaValue G qd f = true ->
      DrawQuad_feature G qd (set_drawAlpha f a) = DrawQuad_feature G qd f)
  /\ (reaches_SetDrawAlphaValue G qd f = false ->
      drawAlpha (DrawQuad_feature G qd f) = drawAlpha f)
  /\ DrawQuad_feature G qd (DrawQuad_feature G qd f) = DrawQuad_feature G qd f.
Proof.
  split; [apply DrawQuad_feature_old_flag|].
  assert (R : forall g, reaches_SetDrawAlphaValue G qd g = true ->
                noDraw g = false /\ IsInVoid g = false
                /\ negb (spectatingFullView G) && negb (IsInLosForAllyTeam g (myAllyTeam G))
                   = false
                /\ drawShadowPass qd = false
                /\ pass_excluded G qd g = false).
  { intros g. unfold reaches_SetDrawAlphaValue, excluded.
    destruct (noDraw g), (IsInVoid g),
      (negb (spectatingFullView G) && negb (IsInLosForAllyTeam g (myAllyTeam G))),
      (drawShadowPass qd), (pass_excluded G qd g); cbn; intros H;
      try discriminate H; repeat split; reflexivity. }
  assert (P4 : reaches_SetDrawAlphaValue G qd f = false ->
               drawAlpha (DrawQuad_feature G qd f) = drawAlpha f).
  { unfold reaches_SetDrawAlphaValue, excluded, pass_excluded. intros Hr.
    destruct f. unfold DrawQuad_feature.
    cbn [set_drawFlag set_drawAlpha noDraw IsInVoid IsInLosForAllyTeam IsInWater
         drawMidPos drawRadius drawAlpha] in *.
    destruct noDraw0; [reflexivity|]. destruct IsInVoid0; [reflexivity|].
    destruct (negb (spectatingFullView G) && negb (IsInLosForAllyTeam0 (myAllyTeam G)));
      [reflexivity|].
    destruct (drawShadowPass qd); [reflexivity|].
    destruct (drawRefraction qd && negb IsInWater0); [reflexivity|].
    cbn [orb negb andb] in Hr.
    match goal with
    | |- context [if ?b then _ else _] => destruct b; [reflexivity|discriminate Hr]
    end. }
  split; [|split; [|split]].
  - destruct f. unfold DrawQuad_feature, SetDrawAlphaValue.
    cbn -[Z.mul Z.add fgeb].
    repeat match goal with
           | |- context [if ?b then _ else _] => destruct b; cbn -[Z.mul Z.add fgeb]
           | |- context [match ?c with Some _ => _ | None => _ end] =>
               destruct c; cbn -[Z.mul Z.add fgeb]
           end; reflexivity.
  - intros Hr. destruct (R f Hr) as (A & B & C & D & E).
    unfold pass_excluded in E. destruct f. unfold DrawQuad_feature.
    cbn [set_drawFlag set_drawAlpha noDraw IsInVoid IsInLosForAllyTeam IsInWater
         drawMidPos drawRadius] in *.
    rewrite A, B, C, D. apply orb_false_elim in E. destruct E as [E1 E2].
    rewrite E1, E2. reflexivity.
  - exact P4.
  - rewrite (DrawQuad_feature_static G qd f) at 1.
    rewrite DrawQuad_feature_old_flag.
    destruct (reaches_SetDrawAlphaValue G qd f) eqn:Hr.
    + destruct (R f Hr) as (A & B & C & D & E).
      unfold pass_excluded in E. destruct f. unfold DrawQuad_feature at 2 3.
      unfold DrawQuad_feature at 1.
      cbn [set_drawFlag set_drawAlpha noDraw IsInVoid IsInLosForAllyTeam IsInWater
           drawMidPos drawRadius] in *.
      rewrite A, B, C, D. apply orb_false_elim in E. destruct E as [E1 E2].
      rewrite E1, E2. reflexivity.
    + rewrite (P4 eq_refl). destruct f. reflexivity.
Qed.

Lemma b2z_cases (b : bool) : Z.b2z b = 0 \/ Z.b2z b = 1.
Proof. destruct b; auto. Qed.

Lemma SetDrawAlphaValue_drawFlag (G : Globals) (f : CFeature) (cam : option CCamera)
    (B E : float) :
  drawFlag (snd (SetDrawAlphaValue G f cam B E)) = drawFlag f.
Proof.
  unfold SetDrawAlphaValue. destruct f. cbn -[fgeb].
  repeat match goal with
         | |- context [if ?b then _ else _] => destruct b; cbn -[fgeb]
         | |- context [match ?c with Some _ => _ | None => _ end] =>
             destruct c; cbn -[fgeb]
         end; reflexivity.
Qed.

Lemma SetDrawAlphaValue_alphaFade (G : Globals) (f : CFeature) (cam : option CCamera)
    (B E : float) :
  alphaFade (snd (SetDrawAlphaValue G f cam B E)) = alphaFade f.
Proof.
  unfold SetDrawAlphaValue. destruct f. cbn -[fgeb].
  repeat match goal with
         | |- context [if ?b then _ else _] => destruct b; cbn -[fgeb]
         | |- context [match ?c with Some _ => _ | None => _ end] =>
             destruct c; cbn -[fgeb]
         end; reflexivity.
Qed.

(** With a camera, [SetDrawAlphaValue] accepts every non-fading object. *)
Lemma SetDrawAlphaValue_nonfading (G : Globals) (f : CFeature) (cam : CCamera)
    (B E : float) :
  alphaFade f = false -> fst (SetDrawAlphaValue G f (Some cam) B E) = true.
Proof.
  intros H. unfold SetDrawAlphaValue. destruct f. cbn in *. rewrite H. reflexivity.
Qed.

Lemma DrawQuad_feature_camera_flag (G : Globals) (qd : CFeatureQuadDrawer) (f : CFeature)
    (cam : CCamera) :
  qd_cam qd = Some cam -> camera_flag (drawFlag (DrawQuad_feature G qd f)).
Proof.
  intros Hc. unfold camera_flag, DrawQuad_feature.
  set (f0 := set_drawFlag f FD_NODRAW_FLAG).
  assert (F0 : drawFlag f0 = FD_NODRAW_FLAG) by (destruct f; reflexivity).
  destruct (noDraw f0); [auto|]. destruct (IsInVoid f0); [auto|].
  destruct (negb (spectatingFullView G) && negb (IsInLosForAllyTeam f0 (myAllyTeam G)));
    [auto|].
  destruct (drawShadowPass qd).
  { right. right. right. destruct f0. reflexivity. }
  destruct (drawRefraction qd && negb (IsInWater f0)); [auto|].
  match goal with
  | |- context [if ?b then _ else _] => destruct b; [auto|]
  end.
  rewrite Hc.
  pose proof (SetDrawAlphaValue_drawFlag G f0 (Some cam) (sqFadeDistBegin qd)
                (sqFadeDistEnd qd)) as Hfl.
  pose proof (SetDrawAlphaValue_alphaFade G f0 (Some cam) (sqFadeDistBegin qd)
                (sqFadeDistEnd qd)) as Hfa.
  pose proof (SetDrawAlphaValue_nonfading G f0 cam (sqFadeDistBegin qd)
                (sqFadeDistEnd qd)) as Hnf.
  destruct (SetDrawAlphaValue G f0 (Some cam) (sqFadeDistBegin qd) (sqFadeDistEnd qd))
    as [ok f1].
  cbn [fst snd] in *. rewrite F0 in Hfl.
  destruct ok.
  - destruct f1. cbn [set_drawFlag drawFlag drawAlpha] in *. rewrite Hfl.
    unfold FD_NODRAW_FLAG, FD_OPAQUE_FLAG, FD_ALPHAF_FLAG, FD_SHADOW_FLAG.
    destruct (feqb drawAlpha0 fone), (fltb drawAlpha0 fone); cbn; auto.
  - destruct (alphaFade f0) eqn:Ea; [|specialize (Hnf eq_refl); discriminate Hnf].
    destruct f1. cbn [set_drawFlag drawFlag alphaFade] in *. rewrite Hfa.
    left. unfold FD_NODRAW_FLAG, FD_FARTEX_FLAG. cbn. lia.
Qed.

(** X2.  Given a camera, as in every call from [GetVisibleFeatures],
    classification never leaves [FD_FARTEX_FLAG]: a shadow pass leaves NoDraw
    or Shadow, any other pass NoDraw, Opaque or AlphaF.  An object left
    Opaque has [drawAlpha == 1.0f], an object left AlphaF has
    [drawAlpha < 1.0f]. *)
Theorem classification_marks_by_pass {OL : FloatOrderLaws FO}
    (G : Globals) (qd : CFeatureQuadDrawer) (f : CFeature) (cam : CCamera) :
  qd_cam qd = Some cam ->
  let f' := DrawQuad_feature G qd f in
  drawFlag f' <> FD_FARTEX_FLAG
  /\ (drawShadowPass qd = true ->
      drawFlag f' = FD_NODRAW_FLAG \/ drawFlag f' = FD_SHADOW_FLAG)
  /\ (drawShadowPass qd = false ->
      drawFlag f' = FD_NODRAW_FLAG \/ drawFlag f' = FD_OPAQUE_FLAG
      \/ drawFlag f' = FD_ALPHAF_FLAG)
  /\ (drawFlag f' = FD_OPAQUE_FLAG -> feqb (drawAlpha f') fone = true)
  /\ (drawFlag f' = FD_ALPHAF_FLAG -> fltb (drawAlpha f') fone = true).
Proof.
  intros Hc f'. subst f'.
  split.
  { destruct (DrawQuad_feature_camera_flag G qd f cam Hc) as [E|[E|[E|E]]];
      rewrite E; discriminate. }
  unfold DrawQuad_feature.
  set (f0 := set_drawFlag f FD_NODRAW_FLAG).
  assert (F0 : drawFlag f0 = FD_NODRAW_FLAG) by (destruct f; reflexivity).
  assert (T : forall g, drawFlag g = FD_NODRAW_FLAG ->
    (drawShadowPass qd = true ->
        drawFlag g = FD_NODRAW_FLAG \/ drawFlag g = FD_SHADOW_FLAG)
    /\ (drawShadowPass qd = false ->
        drawFlag g = FD_NODRAW_FLAG \/ drawFlag g = FD_OPAQUE_FLAG
        \/ drawFlag g = FD_ALPHAF_FLAG)
    /\ (drawFlag g = FD_OPAQUE_FLAG -> feqb (drawAlpha g) fone = true)
    /\ (drawFlag g = FD_ALPHAF_FLAG -> fltb (drawAlpha g) fone = true)).
  { intros g Hg. rewrite Hg. repeat split; auto; discriminate. }
  destruct (noDraw f0); [auto|]. destruct (IsInVoid f0); [auto|].
  destruct (negb (spectatingFullView G) && negb (IsInLosForAllyTeam f0 (myAllyTeam G)));
    [auto|].
  destruct (drawShadowPass qd) eqn:Es.
  { destruct f0. cbn. repeat split; auto; discriminate. }
  destruct (drawRefraction qd && negb (IsInWater f0)); [auto|].
  match goal with
  | |- context [if ?b then _ else _] => destruct b; [auto|]
  end.
  rewrite Hc.
  pose proof (SetDrawAlphaValue_drawFlag G f0 (Some cam) (sqFadeDistBegin qd)
                (sqFadeDistEnd qd)) as Hfl.
  pose proof (SetDrawAlphaValue_alphaFade G f0 (Some cam) (sqFadeDistBegin qd)
                (sqFadeDistEnd qd)) as Hfa.
  pose proof (SetDrawAlphaValue_nonfading G f0 cam (sqFadeDistBegin qd)
                (sqFadeDistEnd qd)) as Hnf.
  destruct (SetDrawAlphaValue G f0 (Some cam) (sqFadeDistBegin qd) (sqFadeDistEnd qd))
    as [ok f1].
  cbn [fst snd] in *. rewrite F0 in Hfl.
  destruct ok.
  - destruct f1. cbn [set_drawFlag drawFlag drawAlpha] in *. rewrite Hfl.
    unfold FD_NODRAW_FLAG, FD_OPAQUE_FLAG, FD_ALPHAF_FLAG, FD_SHADOW_FLAG.
    destruct (feqb drawAlpha0 fone) eqn:Ee.
    + rewrite (feqb_fltb _ _ Ee). cbn. repeat split; auto; discriminate.
    + destruct (fltb drawAlpha0 fone); cbn; repeat split; auto; discriminate.
  - destruct (alphaFade f0) eqn:Ea; [|specialize (Hnf eq_refl); discriminate Hnf].
    destruct f1. cbn [set_drawFlag drawFlag alphaFade drawAlpha] in *. rewrite Hfa.
    unfold FD_NODRAW_FLAG, FD_OPAQUE_FLAG, FD_ALPHAF_FLAG, FD_SHADOW_FLAG, FD_FARTEX_FLAG.
    cbn. rewrite Z.mul_0_r. repeat split; auto; discriminate.
Qed.

Lemma DrawQuad_marks (G : Globals) (qd : CFeatureQuadDrawer) (cam : CCamera) (w : World)
    (x y : Z) :
  qd_cam qd = Some cam ->
  marks_inv camera_flag w -> marks_inv camera_flag (DrawQuad G qd w x y).
Proof.
  intros Hcam [Hf Hs]. unfold DrawQuad.
  destruct (cell_at (modelRenderers (fd w)) (y * qd_drawQuadsX qd + x)) as [cell|] eqn:Ec;
    [|split; assumption].
  set (g := DrawQuad_feature G qd).
  fold (upd_all g (cell_features cell) (heap w)).
  split.
  - intros c Hc. cbn [fd set_modelRenderers modelRenderers drawFrame] in *.
    apply In_update_cell in Hc. destruct Hc as [Hc|[c0 [_ ->]]].
    + exact (Hf c Hc).
    + cbn [SetLastDrawFrame lastDrawFrame]. lia.
  - intros c Hc Hl p Hp.
    cbn [fd set_modelRenderers modelRenderers drawFrame heap] in *.
    destruct (mem p (cell_features cell)) eqn:Em.
    + apply mem_In in Em.
      destruct (upd_all_in g (cell_features cell) (heap w) p Em) as [f0 E].
      rewrite E. apply (DrawQuad_feature_camera_flag G qd f0 cam Hcam).
    + assert (Hn : ~ In p (cell_features cell)).
      { intros X. apply mem_In in X. congruence. }
      rewrite upd_all_notin by exact Hn.
      apply In_update_cell in Hc. destruct Hc as [Hc|[c0 [E0 ->]]].
      * exact (Hs c Hc Hl p Hp).
      * rewrite Ec in E0. inversion E0; subst. contradiction.
Qed.

Lemma GetVisibleFeatures_marks (G : Globals) (w : World) (cam : CCamera) (drawFar : bool) :
  marks_inv camera_flag w -> marks_inv camera_flag (GetVisibleFeatures G w cam drawFar).
Proof.
  intros H. unfold GetVisibleFeatures.
  set (qd := quad_drawer _ _ _ _).
  assert (Hq : qd_cam qd = Some cam) by reflexivity.
  set (w1 := mkWorld _ _ _).
  assert (H1 : marks_inv camera_flag w1) by exact H.
  clearbody w1 qd. revert w1 H1.
  induction (GridVisibility G cam) as [|xy tl IH]; simpl; intros w1 H1; [exact H1|].
  apply IH. apply (DrawQuad_marks G qd cam); assumption.
Qed.

Lemma marks_inv_shrink (P : Z -> Prop) (w w' : World) :
  cells_sub (modelRenderers (fd w')) (modelRenderers (fd w)) ->
  drawFrame w' = drawFrame w ->
  (forall p, drawFlag (heap w' p) = drawFlag (heap w p)) ->
  marks_inv P w -> marks_inv P w'.
Proof.
  intros Hc Hf Hfl [H1 H2]. split.
  - apply frames_ok_cells with (w := w); [apply cells_sub_frames; exact Hc|lia|exact H1].
  - intros c' Hin Hl p Hp. destruct (Hc c' Hin) as (c & A & B & C).
    rewrite Hf in *. rewrite B in Hl. rewrite Hfl. exact (H2 c A Hl p (C p Hp)).
Qed.

Lemma step_marks (w : World) (e : event) :
  render_event e -> marks_inv camera_flag w -> marks_inv camera_flag (step w e).
Proof.
  intros Hr H. destruct e as [G p f|p q|p|G| |G cam drawFar]; try contradiction.
  - cbn [step]. destruct (RenderFeatureDestroyed_cells w p) as (A & B & C).
    apply marks_inv_shrink with (w := w); auto.
  - cbn [step]. apply marks_inv_shrink with (w := w); auto.
    + apply cells_sub_refl.
    + intros p. rewrite Update_heap. apply (upd_all_proj drawFlag). reflexivity.
  - cbn [step]. apply GetVisibleFeatures_marks. exact H.
Qed.

Lemma run_marks (evs : list event) (w : World) :
  Forall render_event evs -> marks_inv camera_flag w -> marks_inv camera_flag (run w evs).
Proof.
  revert w. induction evs as [|e tl IH]; intros w Hr H; [exact H|].
  inversion Hr; subst. simpl. apply IH; [assumption|]. apply step_marks; assumption.
Qed.

Lemma new_frame_marks (P : Z -> Prop) (w : World) :
  frames_ok w -> marks_inv P (step w EvNewFrame).
Proof.
  intros H. split.
  - apply step_frames_ok. exact H.
  - intros c Hc Hl. cbn [step fd drawFrame] in *. pose proof (H c Hc). lia.
Qed.

Lemma frame_marks (w0 : World) (pre body : list event) :
  frames_ok w0 -> Forall render_event body ->
  marks_inv camera_flag (run w0 (pre ++ EvNewFrame :: body)).
Proof.
  intros H0 Hb. unfold run. rewrite fold_left_app. cbn [fold_left].
  apply run_marks; [exact Hb|]. apply new_frame_marks.
  apply run_frames_ok. exact H0.
Qed.

Lemma marks_pass_reads (P : Z -> Prop) (w : World) (modelType : nat) (p : ptr) :
  marks_inv P w -> (modelType < MODELTYPE_OTHER)%nat ->
  In p (pass_reads w modelType) -> P (drawFlag (heap w p)).
Proof.
  intros [F1 F2] Hmt Hp. apply pass_reads_in in Hp. destruct Hp as (c & Hc & Hin).
  apply drawn_cells_in in Hc. destruct Hc as [A B].
  pose proof (F1 c A).
  apply (F2 c A); [lia|]. apply cell_features_in. exists modelType. split; assumption.
Qed.

Lemma camera_flag_not_fartex (v : Z) : camera_flag v -> v <> FD_FARTEX_FLAG.
Proof. intros [E|[E|[E|E]]]; rewrite E; discriminate. Qed.

Lemma marks_no_queue (G : Globals) (w : World) (modelType : nat) (p : ptr) :
  marks_inv camera_flag w -> (modelType < MODELTYPE_OTHER)%nat ->
  ~ In (FarTextureQueue p) (DrawOpaqueFeatures G w modelType).
Proof.
  intros H Hmt Hq. apply DrawOpaqueFeatures_fartex in Hq. destruct Hq as [A B].
  apply (camera_flag_not_fartex _ (marks_pass_reads _ w modelType p H Hmt A)). exact B.
Qed.

Lemma model_types_from_lt (first mt : nat) :
  In mt (model_types_from first) -> (mt < MODELTYPE_OTHER)%nat.
Proof. unfold model_types_from. intros H. apply in_seq in H. lia. Qed.

Lemma marks_set_inShadowPass (P : Z -> Prop) (w : World) (b : bool) :
  marks_inv P w ->
  marks_inv P (mkWorld (heap w) (set_inShadowPass (fd w) b) (drawFrame w)).
Proof. intros H. exact H. Qed.

(** X3.  In a frame of the render loop (the frame counter advances, then
    visibility passes, updates and destructions follow) every object the
    batchers read carries NoDraw, Opaque, AlphaF or Shadow, never
    [FD_FARTEX_FLAG]; so neither the forward opaque pass, nor [Draw], nor
    the shadow pass ever queues an object with the far-texture handler
    ([MODELTYPE_3DO] is a model type, as in the engine's header). *)
Theorem render_loop_queues_no_impostor (G : Globals) (w0 : World)
    (pre body : list event) :
  (MODELTYPE_3DO < MODELTYPE_OTHER)%nat ->
  frames_ok w0 -> Forall render_event body ->
  let w := run w0 (pre ++ EvNewFrame :: body) in
  (forall modelType p, (modelType < MODELTYPE_OTHER)%nat ->
     In p (pass_reads w modelType) -> camera_flag (drawFlag (heap w p)))
  /\ (forall p, ~ In (FarTextureQueue p) (DrawOpaquePass G w))
  /\ (forall p, ~ In (FarTextureQueue p) (snd (Draw G w)))
  /\ (forall p, ~ In (FarTextureQueue p) (snd (DrawShadowPass G w))).
Proof.
  intros L H0 Hb w. pose proof (frame_marks w0 pre body H0 Hb) as M. fold w in M.
  assert (Q : forall w', marks_inv camera_flag w' ->
                forall first p,
                ~ In (FarTextureQueue p)
                     (flat_map (DrawOpaqueFeatures G w') (model_types_from first))).
  { intros w' M' first p Hq. apply in_flat_map in Hq. destruct Hq as (mt & Hmt & Hq).
    apply model_types_from_lt in Hmt. exact (marks_no_queue G w' mt p M' Hmt Hq). }
  split; [|split; [|split]].
  - intros mt p Hmt Hp. exact (marks_pass_reads _ w mt p M Hmt Hp).
  - intros p. apply Q. exact M.
  - intros p. unfold Draw. cbn [snd]. apply Q. apply GetVisibleFeatures_marks. exact M.
  - intros p. unfold DrawShadowPass. cbn [snd].
    set (w2 := GetVisibleFeatures G _ _ _).
    assert (M2 : marks_inv camera_flag w2).
    { apply GetVisibleFeatures_marks. apply marks_set_inShadowPass. exact M. }
    intros Hq. apply in_app_or in Hq. destruct Hq as [Hq|Hq].
    + exact (marks_no_queue G w2 _ p M2 L Hq).
    + exact (Q w2 M2 _ p Hq).
Qed.

End Marks.

(** ** What a visibility pass touches *)

Section Locality.

Context {FO : FloatOps} {EC : EngineConsts}.

Lemma update_nth_none {A : Type} (v : list A) (i : nat) (g : A -> A) :
  nth_error v i = None -> update_nth v i g = v.
Proof.
  revert i. induction v as [|a tl IH]; intros [|i] H; simpl in *;
    try reflexivity; try discriminate.
  rewrite IH by exact H. reflexivity.
Qed.

Lemma update_cell_none (v : list ModelRendererProxy) (i : Z) g :
  cell_at v i = None -> update_cell v i g = v.
Proof.
  unfold cell_at, update_cell. destruct (i <? 0); [reflexivity|].
  apply update_nth_none.
Qed.

Lemma nth_error_update_cell (v : list ModelRendererProxy) (i : Z) g (j : nat) :
  nth_error (update_cell v i g) j =
    if (0 <=? i) && Nat.eqb (Z.to_nat i) j
    then option_map g (nth_error v j) else nth_error v j.
Proof.
  unfold update_cell. destruct (i <? 0) eqn:E.
  - apply Z.ltb_lt in E. destruct (0 <=? i) eqn:E2; [apply Z.leb_le in E2; lia|].
    reflexivity.
  - apply Z.ltb_ge in E. destruct (0 <=? i) eqn:E2; [|apply Z.leb_gt in E2; lia].
    rewrite nth_error_update_nth. cbn [andb]. rewrite (Nat.eqb_sym j). reflexivity.
Qed.

Lemma set_modelRenderers_same (d : CFeatureDrawer) :
  set_modelRenderers d (modelRenderers d) = d.
Proof. destruct d. reflexivity. Qed.

(** One call of [DrawQuad], cell by cell and object by object. *)
Lemma DrawQuad_spec (G : Globals) (qd : CFeatureQuadDrawer) (w : World) (x y : Z) :
  let w' := DrawQuad G qd w x y in
  let idx := y * qd_drawQuadsX qd + x in
  drawFrame w' = drawFrame w
  /\ fd w' = set_modelRenderers (fd w)
               (update_cell (modelRenderers (fd w)) idx
                  (fun c => SetLastDrawFrame c (drawFrame w)))
  /\ (forall p, (forall c, cell_at (modelRenderers (fd w)) idx = Some c ->
                           ~ In p (cell_features c)) ->
                heap w' p = heap w p).
Proof.
  unfold DrawQuad.
  destruct (cell_at (modelRenderers (fd w)) (y * qd_drawQuadsX qd + x)) as [cell|] eqn:Ec;
    cbn zeta.
  - cbn [drawFrame fd heap]. split; [reflexivity|]. split; [reflexivity|].
    intros p Hp. fold (upd_all (DrawQuad_feature G qd) (cell_features cell) (heap w)).
    apply upd_all_notin. apply Hp. reflexivity.
  - split; [reflexivity|]. split; [|reflexivity].
    rewrite update_cell_none by exact Ec. symmetry. apply set_modelRenderers_same.
Qed.

Lemma SetLastDrawFrame_twice (c : ModelRendererProxy) (a b : Z) :
  SetLastDrawFrame (SetLastDrawFrame c a) b = SetLastDrawFrame c b.
Proof. reflexivity. Qed.

Lemma fold_DrawQuad_spec (G : Globals) (qd : CFeatureQuadDrawer) (l : list (Z * Z))
    (w : World) :
  let w' := fold_left (fun w xy => DrawQuad G qd w (fst xy) (snd xy)) l w in
  drawFrame w' = drawFrame w
  /\ set_modelRenderers (fd w') [] = set_modelRenderers (fd w) []
  /\ (forall i, nth_error (modelRenderers (fd w')) i =
        option_map (fun c => if visits (qd_drawQuadsX qd) l i
                             then SetLastDrawFrame c (drawFrame w) else c)
                   (nth_error (modelRenderers (fd w)) i))
  /\ (forall p, (forall i c, visits (qd_drawQuadsX qd) l i = true ->
                   nth_error (modelRenderers (fd w)) i = Some c ->
                   ~ In p (cell_features c)) ->
                heap w' p = heap w p).
Proof.
  revert w. induction l as [|[x y] tl IH]; intros w; cbn zeta.
  - cbn [fold_left visits existsb]. split; [reflexivity|]. split; [reflexivity|].
    split; [|reflexivity].
    intros i. destruct (nth_error (modelRenderers (fd w)) i); reflexivity.
  - cbn [fold_left fst snd].
    destruct (DrawQuad_spec G qd w x y) as (A & B & C). cbn zeta in A, B, C.
    destruct (IH (DrawQuad G qd w x y)) as (A' & B' & C' & D'). cbn zeta in A', B', C', D'.
    set (w2 := DrawQuad G qd w x y) in *.
    assert (N : forall i, nth_error (modelRenderers (fd w2)) i =
              if (0 <=? y * qd_drawQuadsX qd + x)
                 && Nat.eqb (Z.to_nat (y * qd_drawQuadsX qd + x)) i
              then option_map (fun c => SetLastDrawFrame c (drawFrame w))
                              (nth_error (modelRenderers (fd w)) i)
              else nth_error (modelRenderers (fd w)) i).
    { intros i. rewrite B. cbn [set_modelRenderers modelRenderers].
      apply nth_error_update_cell. }
    split; [congruence|]. split.
    { rewrite B', B. destruct (fd w). reflexivity. }
    split.
    + intros i. rewrite C', N, A. cbn [visits existsb fst snd].
      destruct ((0 <=? y * qd_drawQuadsX qd + x)
                && Nat.eqb (Z.to_nat (y * qd_drawQuadsX qd + x)) i);
        destruct (nth_error (modelRenderers (fd w)) i) as [c|]; cbn [option_map orb];
        try reflexivity.
      destruct (visits (qd_drawQuadsX qd) tl i); reflexivity.
    + intros p Hp. rewrite D'.
      * apply C. intros c Hc.
        unfold cell_at in Hc.
        destruct (y * qd_drawQuadsX qd + x <? 0) eqn:E; [discriminate|].
        apply Z.ltb_ge in E.
        apply (Hp (Z.to_nat (y * qd_drawQuadsX qd + x)) c); [|exact Hc].
        cbn [visits existsb fst snd]. rewrite Nat.eqb_refl.
        destruct (0 <=? y * qd_drawQuadsX qd + x) eqn:E2;
          [reflexivity|apply Z.leb_gt in E2; lia].
      * intros i c Hv Hn. rewrite N in Hn.
        assert (X : exists c0, nth_error (modelRenderers (fd w)) i = Some c0
                               /\ cell_features c = cell_features c0).
        { destruct ((0 <=? y * qd_drawQuadsX qd + x)
                    && Nat.eqb (Z.to_nat (y * qd_drawQuadsX qd + x)) i).
          - destruct (nth_error (modelRenderers (fd w)) i) as [c0|]; [|discriminate].
            inversion Hn; subst. exists c0. split; reflexivity.
          - exists c. split; [exact Hn|reflexivity]. }
        destruct X as (c0 & E0 & E1). rewrite E1.
        apply (Hp i c0); [|exact E0].
        cbn [visits existsb fst snd]. fold (visits (qd_drawQuadsX qd) tl i).
        rewrite Hv. apply orb_true_r.
Qed.

Lemma marks_only (f f' : CFeature) :
  set_drawFlag (set_drawAlpha f' fzero) 0 = set_drawFlag (set_drawAlpha f fzero) 0 ->
  f' = set_drawFlag (set_drawAlpha f (drawAlpha f')) (drawFlag f').
Proof.
  destruct f, f'. cbn. intros H. inversion H; subst. reflexivity.
Qed.

Lemma DrawQuad_marks_only (G : Globals) (qd : CFeatureQuadDrawer) (w : World) (x y : Z)
    (p : ptr) :
  set_drawFlag (set_drawAlpha (heap (DrawQuad G qd w x y) p) fzero) 0
  = set_drawFlag (set_drawAlpha (heap w p) fzero) 0.
Proof.
  unfold DrawQuad.
  destruct (cell_at (modelRenderers (fd w)) (y * qd_drawQuadsX qd + x)) as [cell|];
    [|reflexivity].
  cbn [heap]. fold (upd_all (DrawQuad_feature G qd) (cell_features cell) (heap w)).
  apply (upd_all_proj (fun f => set_drawFlag (set_drawAlpha f fzero) 0)).
  intros f. rewrite (DrawQuad_feature_static G qd f). destruct f. reflexivity.
Qed.

Lemma fold_DrawQuad_marks_only (G : Globals) (qd : CFeatureQuadDrawer) (l : list (Z * Z))
    (w : World) (p : ptr) :
  set_drawFlag
    (set_drawAlpha
       (heap (fold_left (fun w xy => DrawQuad G qd w (fst xy) (snd xy)) l w) p) fzero) 0
  = set_drawFlag (set_drawAlpha (heap w p) fzero) 0.
Proof.
  revert w. induction l as [|xy tl IH]; intros w; [reflexivity|].
  cbn [fold_left]. rewrite IH. apply DrawQuad_marks_only.
Qed.

Lemma GetVisibleFeatures_cells (G : Globals) (w : World) (cam : CCamera) (drawFar : bool) :
  drawFrame (GetVisibleFeatures G w cam drawFar) = drawFrame w
  /\ forall i, nth_error (modelRenderers (fd (GetVisibleFeatures G w cam drawFar))) i =
       option_map (fun c => if visits (drawQuadsX (fd w)) (GridVisibility G cam) i
                            then SetLastDrawFrame c (drawFrame w) else c)
                  (nth_error (modelRenderers (fd w)) i).
Proof.
  unfold GetVisibleFeatures.
  set (qd := quad_drawer _ _ _ _).
  set (w1 := mkWorld _ _ _).
  destruct (fold_DrawQuad_spec G qd (GridVisibility G cam) w1) as (A & _ & C & _).
  split; [exact A|exact C].
Qed.

(** X4.  A visibility pass records the frame for its camera type, stamps
    exactly the cells handed to [DrawQuad] with the current frame and leaves
    every other cell, every bin and the live-object list as they were; it
    changes no object outside the visited cells, and of any object nothing
    but [drawFlag] and [drawAlpha]. *)
Theorem visibility_pass_is_local (G : Globals) (w : World) (cam : CCamera)
    (drawFar : bool) :
  let w' := GetVisibleFeatures G w cam drawFar in
  let seen := visits (drawQuadsX (fd w)) (GridVisibility G cam) in
  drawFrame w' = drawFrame w
  /\ unsortedFeatures (fd w') = unsortedFeatures (fd w)
  /\ (forall t, camVisibleQuadFlags (fd w') t =
                if t =? camType cam then drawFrame w else camVisibleQuadFlags (fd w) t)
  /\ (forall i, nth_error (modelRenderers (fd w')) i =
        option_map (fun c => if seen i then SetLastDrawFrame c (drawFrame w) else c)
                   (nth_error (modelRenderers (fd w)) i))
  /\ (forall p, (forall i c, seen i = true ->
                   nth_error (modelRenderers (fd w)) i = Some c ->
                   ~ In p (cell_features c)) ->
                heap w' p = heap w p)
  /\ (forall p, heap w' p
                = set_drawFlag (set_drawAlpha (heap w p) (drawAlpha (heap w' p)))
                               (drawFlag (heap w' p))).
Proof.
  cbn zeta. unfold GetVisibleFeatures.
  set (qd := quad_drawer _ _ _ _).
  set (w1 := mkWorld _ _ _).
  destruct (fold_DrawQuad_spec G qd (GridVisibility G cam) w1) as (A & B & C & D).
  cbn zeta in A, B, C, D.
  set (w' := fold_left _ _ _) in *.
  assert (Q : qd_drawQuadsX qd = drawQuadsX (fd w)) by reflexivity.
  rewrite Q in C, D.
  split; [exact A|]. split.
  { change (unsortedFeatures (fd w))
      with (unsortedFeatures (set_modelRenderers (fd w1) [])).
    rewrite <- B. destruct (fd w'). reflexivity. }
  split.
  { intros t.
    change (if t =? camType cam then drawFrame w else camVisibleQuadFlags (fd w) t)
      with (camVisibleQuadFlags (set_modelRenderers (fd w1) []) t).
    rewrite <- B. destruct (fd w'). reflexivity. }
  split; [exact C|]. split; [exact D|].
  intros p. apply marks_only.
  change (heap w p) with (heap w1 p). apply fold_DrawQuad_marks_only.
Qed.

End Locality.

(** ** Classification and the draw-time test agree *)

Section DrawTest.

Context {FO : FloatOps} {EC : EngineConsts}.

Lemma marked_is_visible (G : Globals) (qd : CFeatureQuadDrawer) (f : CFeature) :
  drawFlag (DrawQuad_feature G qd f) = FD_OPAQUE_FLAG
  \/ drawFlag (DrawQuad_feature G qd f) = FD_ALPHAF_FLAG ->
  visible G qd f.
Proof.
  unfold visible, excluded, pass_excluded, DrawQuad_feature.
  cbn [set_drawFlag noDraw IsInVoid IsInLosForAllyTeam IsInWater drawMidPos drawRadius].
  intros H.
  destruct (noDraw f); [destruct f, H as [H|H]; discriminate H|].
  destruct (IsInVoid f); [destruct f, H as [H|H]; discriminate H|].
  destruct (negb (spectatingFullView G) && negb (IsInLosForAllyTeam f (myAllyTeam G)));
    [destruct f, H as [H|H]; discriminate H|].
  destruct (drawShadowPass qd); [destruct f, H as [H|H]; discriminate H|].
  destruct (drawRefraction qd && negb (IsInWater f));
    [destruct f, H as [H|H]; discriminate H|].
  match goal with
  | |- context [drawReflection qd && ?b] => destruct (drawReflection qd && b)
  end; [destruct f, H as [H|H]; discriminate H|].
  repeat split; reflexivity.
Qed.

Lemma CanDrawFeature_marks (G : Globals) (d : CFeatureDrawer) (f : CFeature)
    (a : float) (v : Z) :
  CanDrawFeature G d (set_drawFlag (set_drawAlpha f a) v) = CanDrawFeature G d f.
Proof. destruct f. reflexivity. Qed.

Lemma CanDrawFeature_not_excluded (G : Globals) (d : CFeatureDrawer) (f : CFeature) :
  excluded G f = false ->
  CanDrawFeature G d f =
    if alphaFade f && negb (camType (activeCamera G) =? CAMTYPE_SHADOW)
    then if fgeb (sqDistOf f (activeCamera G))
                 (fmin (farLengthOf G f)
                       (fmul (featureDrawDistance d) (featureDrawDistance d)))
         then false
         else InView G (activeCamera G) (drawMidPos f) (drawRadius f)
    else InView G (activeCamera G) (drawMidPos f) (drawRadius f).
Proof.
  unfold excluded, CanDrawFeature. intros He.
  apply orb_false_iff in He. destruct He as [He H3].
  apply orb_false_iff in He. destruct He as [H1 H2].
  rewrite H1, H2, (andb_comm (negb (IsInLosForAllyTeam f (myAllyTeam G)))), H3.
  reflexivity.
Qed.

Lemma fltb_asym {OL : FloatOrderLaws FO} (a b : float) :
  fltb a b = true -> fltb b a = false.
Proof. intros H. apply fleb_fltb. apply fltb_fleb. exact H. Qed.

(** X5.  An object that a visibility pass for the active camera left
    AlphaF always passes the distance test of [CanDrawFeature]: the batcher
    draws it exactly when it is in view.  The same holds for an object left
    Opaque, provided the squared draw distance is not below the squared fade
    distance. *)
Theorem classified_object_passes_distance_test
    {OL : FloatOrderLaws FO} {CL : FloatChainLaws FO}
    (G : Globals) (d : CFeatureDrawer) (drawFar : bool) (f : CFeature) :
  let cam := activeCamera G in
  let f' := DrawQuad_feature G (quad_drawer G d cam drawFar) f in
  (drawFlag f' = FD_ALPHAF_FLAG ->
     CanDrawFeature G d f' = InView G cam (drawMidPos f) (drawRadius f))
  /\ (drawFlag f' = FD_OPAQUE_FLAG ->
      fltb (fmul (featureDrawDistance d) (featureDrawDistance d))
           (fmul (featureFadeDistance d) (featureFadeDistance d)) = false ->
      CanDrawFeature G d f' = InView G cam (drawMidPos f) (drawRadius f)).
Proof.
  cbn zeta. set (cam := activeCamera G). set (qd := quad_drawer G d cam drawFar).
  assert (K : drawFlag (DrawQuad_feature G qd f) = FD_ALPHAF_FLAG
              \/ (drawFlag (DrawQuad_feature G qd f) = FD_OPAQUE_FLAG
                  /\ fltb (sqFadeDistEnd qd) (sqFadeDistBegin qd) = false) ->
              CanDrawFeature G d (DrawQuad_feature G qd f)
              = InView G cam (drawMidPos f) (drawRadius f)).
  { intros H.
    assert (Hv : visible G qd f).
    { apply marked_is_visible. destruct H as [H|[H _]]; auto. }
    rewrite (DrawQuad_feature_static G qd f), CanDrawFeature_marks.
    destruct Hv as (He & Hs & Hp).
    rewrite (CanDrawFeature_not_excluded G d f He). fold cam.
    change (camType cam =? CAMTYPE_SHADOW) with (drawShadowPass qd). rewrite Hs.
    destruct (alphaFade f) eqn:Ha; [|reflexivity]. cbn [andb negb].
    assert (Hc : qd_cam qd = Some cam) by reflexivity.
    destruct (DrawQuad_feature_fading G qd f cam (conj He (conj Hs Hp)) Hc Ha)
      as [Ealpha Eflag].
    cbn zeta in Ealpha, Eflag.
    change (fmul (featureDrawDistance d) (featureDrawDistance d))
      with (sqFadeDistEnd qd).
    set (fl := farLengthOf G f) in *. set (dd := sqDistOf f cam) in *.
    set (B := sqFadeDistBegin qd) in *. set (E := sqFadeDistEnd qd) in *.
    unfold fade_drawn, fade_alpha in *.
    destruct (fgeb dd fl) eqn:Eg.
    { rewrite Eflag in H. destruct H as [H|[H _]]; discriminate H. }
    assert (X : fgeb dd (fmin fl E) = false); [|rewrite X; reflexivity].
    unfold fmin. destruct (fltb E fl) eqn:Efl; [|exact Eg].
    unfold fadeBegin', fadeEnd' in *. rewrite (fltb_asym _ _ Efl) in *.
    unfold fgeb. destruct (fleb E dd) eqn:Ed; [|reflexivity].
    pose proof (fleb_fltb _ _ Ed) as N.
    destruct (fltb dd B) eqn:Eb.
    - pose proof (fleb_fltb_chain _ _ _ Ed Eb) as C.
      destruct H as [H|[_ H]]; [|congruence].
      rewrite Eflag, feqb_one, (feqb_fltb _ _ feqb_one) in H. discriminate H.
    - rewrite N in Eflag. rewrite Eflag in H. destruct H as [H|[H _]]; discriminate H. }
  split.
  - intros H. apply K. left. exact H.
  - intros H W. apply K. right. split; [exact H|exact W].
Qed.

End DrawTest.

(** ** What the batchers submit *)

Section Submitted.

Context {FO : FloatOps} {EC : EngineConsts}.

Lemma CanDrawFeature_true (G : Globals) (d : CFeatureDrawer) (f : CFeature) :
  CanDrawFeature G d f = true ->
  noDraw f = false /\ IsInVoid f = false
  /\ (IsInLosForAllyTeam f (myAllyTeam G) = true \/ spectatingFullView G = true)
  /\ InView G (activeCamera G) (drawMidPos f) (drawRadius f) = true.
Proof.
  unfold CanDrawFeature.
  destruct (noDraw f); [discriminate|]. destruct (IsInVoid f); [discriminate|].
  destruct (IsInLosForAllyTeam f (myAllyTeam G)), (spectatingFullView G); cbn [negb andb];
    try discriminate;
    (destruct (alphaFade f && _); [destruct (fgeb _ _); [discriminate|]|]);
    intros H; repeat split; auto.
Qed.

Lemma opaque_feature_submits (G : Globals) (w : World) (p q : ptr) :
  submits (DrawOpaqueFeatures_feature G w p) q ->
  q = p /\ CanDrawFeature G (fd w) (heap w p) = true.
Proof.
  unfold submits, DrawOpaqueFeatures_feature.
  destruct (drawFlag (heap w p) =? FD_NODRAW_FLAG); [cbn; tauto|].
  destruct (drawFlag (heap w p) =? FD_ALPHAF_FLAG); [cbn; tauto|].
  destruct (drawFlag (heap w p) =? FD_FARTEX_FLAG).
  { cbn. intros [[H|[]]|[[H|[]]|[[H|[]]|[H|[]]]]]; discriminate H. }
  destruct (CanDrawFeature G (fd w) (heap w p)); cbn [negb]; [|cbn; tauto].
  destruct (inShadowPass (fd w) && AddShadowMaterialObject G p).
  { cbn. intros [[H|[]]|[[H|[]]|[[H|[]]|[H|[]]]]]; inversion H; auto. }
  destruct (negb (inShadowPass (fd w)) && AddOpaqueMaterialObject G p).
  { cbn. intros [[H|[]]|[[H|[]]|[[H|[]]|[H|[]]]]]; inversion H; auto. }
  destruct (negb (inShadowPass (fd w))); cbn;
    intuition (try discriminate);
    match goal with H : _ = _ |- _ => inversion H; auto end.
Qed.

Lemma alpha_feature_submits (G : Globals) (w : World) (ffp : bool) (p q : ptr) :
  submits (DrawAlphaFeatures_feature G w ffp p) q ->
  q = p /\ CanDrawFeature G (fd w) (heap w p) = true.
Proof.
  unfold submits, DrawAlphaFeatures_feature.
  destruct (drawFlag (heap w p) =? FD_NODRAW_FLAG); [cbn; tauto|].
  destruct (drawFlag (heap w p) =? FD_OPAQUE_FLAG); [cbn; tauto|].
  destruct (drawFlag (heap w p) =? FD_SHADOW_FLAG); [cbn; tauto|].
  destruct (drawFlag (heap w p) =? FD_FARTEX_FLAG); [cbn; tauto|].
  destruct (CanDrawFeature G (fd w) (heap w p)); cbn [negb]; [|cbn; tauto].
  destruct (AddAlphaMaterialObject G p); cbn;
    intuition (try discriminate);
    match goal with H : _ = _ |- _ => inversion H; auto end.
Qed.

(** A submission in a batch comes from the iteration of one object of a
    cell that the batch iterates. *)
Lemma batch_submits (modelType : nat) (body : ptr -> list Call)
    (cells : list ModelRendererProxy) (q : ptr) :
  submits
     (flat_map
        (fun c =>
           flat_map
             (fun binElem =>
                BindModelTypeTexture modelType (fst binElem) :: flat_map body (snd binElem))
             (GetRenderer c modelType))
        cells) q ->
  exists c p, In c cells /\ In p (bin_features (GetRenderer c modelType))
              /\ submits (body p) q.
Proof.
  intros H.
  assert (X : forall call, (forall mt k, call <> BindModelTypeTexture mt k) ->
            In call
              (flat_map
                 (fun c =>
                    flat_map
                      (fun binElem =>
                         BindModelTypeTexture modelType (fst binElem)
                         :: flat_map body (snd binElem))
                      (GetRenderer c modelType))
                 cells) ->
            exists c p, In c cells /\ In p (bin_features (GetRenderer c modelType))
                        /\ In call (body p)).
  { intros call Hn Hin. apply batch_in in Hin.
    destruct Hin as [(c & k & fs & _ & _ & E)|(c & p & A & B & C)].
    - exfalso. exact (Hn _ _ E).
    - exists c, p. auto. }
  unfold submits in *.
  destruct H as [H|[H|[H|H]]]; apply X in H; try (intros; discriminate);
    destruct H as (c & p & A & B & C); exists c, p; tauto.
Qed.

Lemma DrawOpaqueFeatures_submitted (G : Globals) (w : World) (modelType : nat) (q : ptr) :
  submits (DrawOpaqueFeatures G w modelType) q ->
  In q (pass_reads w modelType) /\ CanDrawFeature G (fd w) (heap w q) = true.
Proof.
  intros H. apply batch_submits in H. destruct H as (c & p & A & B & C).
  apply opaque_feature_submits in C. destruct C as [-> C].
  split; [|exact C]. apply pass_reads_in. exists c. auto.
Qed.

Lemma DrawAlphaFeatures_submitted (G : Globals) (w : World) (modelType : nat) (q : ptr) :
  submits (DrawAlphaFeatures G w modelType) q ->
  In q (pass_reads w modelType) /\ CanDrawFeature G (fd w) (heap w q) = true.
Proof.
  intros H. apply batch_submits in H. destruct H as (c & p & A & B & C).
  apply alpha_feature_submits in C. destruct C as [-> C].
  split; [|exact C]. apply pass_reads_in. exists c. auto.
Qed.

Lemma pass_submitted (G : Globals) (w : World) (q : ptr) :
  submits (DrawOpaquePass G w) q \/ submits (DrawAlphaPass G w) q ->
  (exists modelType, (modelType < MODELTYPE_OTHER)%nat /\ In q (pass_reads w modelType))
  /\ CanDrawFeature G (fd w) (heap w q) = true.
Proof.
  intros [H|H].
  - apply submits_flat_map in H. destruct H as (mt & Hmt & H).
    apply model_types_from_lt in Hmt. apply DrawOpaqueFeatures_submitted in H.
    destruct H as [A B]. split; [exists mt; auto|exact B].
  - unfold DrawAlphaPass in H.
    apply submits_flat_map in H. destruct H as (mt & Hmt & H).
    apply model_types_from_lt in Hmt. apply DrawAlphaFeatures_submitted in H.
    destruct H as [A B]. split; [exists mt; auto|exact B].
Qed.

(** X6.  Whatever flag an object carries, the batched passes submit it
    only if it is in a cell visited in the current frame and
    [CanDrawFeature] accepts it at draw time: it is not [noDraw], not in the
    void, in line of sight (or the viewer is a full-view spectator) and in
    view of the active camera. *)
Theorem only_drawable_objects_are_submitted (G : Globals) (w : World) (q : ptr) :
  submits (DrawOpaquePass G w) q \/ submits (DrawAlphaPass G w) q ->
  (exists modelType c, (modelType < MODELTYPE_OTHER)%nat
      /\ In c (modelRenderers (fd w)) /\ lastDrawFrame c >= drawFrame w
      /\ In q (bin_features (GetRenderer c modelType)))
  /\ noDraw (heap w q) = false /\ IsInVoid (heap w q) = false
  /\ (IsInLosForAllyTeam (heap w q) (myAllyTeam G) = true \/ spectatingFullView G = true)
  /\ InView G (activeCamera G) (drawMidPos (heap w q)) (drawRadius (heap w q)) = true.
Proof.
  intros H. apply pass_submitted in H. destruct H as [(mt & Hmt & Hr) Hc].
  split.
  - apply pass_reads_in in Hr. destruct Hr as (c & A & B).
    apply drawn_cells_in in A. destruct A as [A1 A2].
    exists mt, c. repeat split; auto. lia.
  - apply CanDrawFeature_true in Hc. exact Hc.
Qed.

Lemma drawn_cell_in_cell (w : World) (c : ModelRendererProxy) (modelType : nat) (p : ptr) :
  In c (modelRenderers (fd w)) -> In p (bin_features (GetRenderer c modelType)) ->
  exists i, in_cell w i modelType p.
Proof.
  intros Hc Hp. apply In_nth_error in Hc. destruct Hc as [i Hi].
  exists i. unfold in_cell, cell_bin, bins_of. rewrite Hi. exact Hp.
Qed.

Lemma pass_reads_in_cell (w : World) (modelType : nat) (p : ptr) :
  In p (pass_reads w modelType) -> exists i, in_cell w i modelType p.
Proof.
  intros H. apply pass_reads_in in H. destruct H as (c & A & B).
  apply drawn_cells_in in A. destruct A as [A _].
  exact (drawn_cell_in_cell w c modelType p A B).
Qed.

Lemma grid_inv_set_inShadowPass (w : World) (b : bool) :
  grid_inv w -> grid_inv (mkWorld (heap w) (set_inShadowPass (fd w) b) (drawFrame w)).
Proof.
  intros H. unfold grid_inv. cbn [fd set_inShadowPass unsortedFeatures].
  apply (grid_inv_same_grid _ w); [|exact H].
  unfold same_grid. repeat split; reflexivity.
Qed.

Lemma grid_inv_GetVisibleFeatures (G : Globals) (w : World) (cam : CCamera)
    (drawFar : bool) :
  grid_inv w -> grid_inv (GetVisibleFeatures G w cam drawFar).
Proof.
  intros H. unfold grid_inv. rewrite unsortedFeatures_GetVisibleFeatures.
  apply (grid_inv_same_grid _ w); [apply GetVisibleFeatures_same_grid|exact H].
Qed.

(** Every pass of the drawer, on a consistent grid, submits live objects
    only. *)
Lemma passes_submit_live (G : Globals) (w : World) (q : ptr) :
  grid_inv w ->
  submits (DrawOpaquePass G w) q \/ submits (DrawAlphaPass G w) q
  \/ submits (snd (Draw G w)) q \/ submits (snd (DrawShadowPass G w)) q ->
  In q (unsortedFeatures (fd w)).
Proof.
  intros Hg H.
  assert (K : forall w', grid_inv w' -> forall mt, In q (pass_reads w' mt) ->
                In q (unsortedFeatures (fd w'))).
  { intros w' Hg' mt Hr. apply pass_reads_in_cell in Hr. destruct Hr as [i Hi].
    exact (proj1 (gi_member Hg' i mt q Hi)). }
  destruct H as [H|[H|[H|H]]].
  - apply (or_introl (B := submits (DrawAlphaPass G w) q)) in H.
    apply pass_submitted in H. destruct H as [(mt & _ & Hr) _]. exact (K w Hg mt Hr).
  - apply (or_intror (A := submits (DrawOpaquePass G w) q)) in H.
    apply pass_submitted in H. destruct H as [(mt & _ & Hr) _]. exact (K w Hg mt Hr).
  - unfold Draw in H. cbn [snd] in H.
    apply (or_introl (B := submits (DrawAlphaPass G (GetVisibleFeatures G w (activeCamera G) true)) q)) in H.
    apply pass_submitted in H. destruct H as [(mt & _ & Hr) _].
    rewrite <- (unsortedFeatures_GetVisibleFeatures G w (activeCamera G) true).
    exact (K _ (grid_inv_GetVisibleFeatures G w _ _ Hg) mt Hr).
  - unfold DrawShadowPass in H. cbn [snd] in H.
    set (w1 := mkWorld (heap w) (set_inShadowPass (fd w) true) (drawFrame w)) in *.
    assert (Hg2 : grid_inv (GetVisibleFeatures G w1 (shadowCamera G) false)).
    { apply grid_inv_GetVisibleFeatures. apply grid_inv_set_inShadowPass. exact Hg. }
    assert (U : unsortedFeatures (fd (GetVisibleFeatures G w1 (shadowCamera G) false))
                = unsortedFeatures (fd w)).
    { rewrite unsortedFeatures_GetVisibleFeatures. reflexivity. }
    rewrite <- U.
    assert (S : forall l1 l2, submits (l1 ++ l2) q -> submits l1 q \/ submits l2 q).
    { unfold submits. intros l1 l2 X. rewrite !in_app_iff in X. tauto. }
    apply S in H. destruct H as [H|H].
    + apply DrawOpaqueFeatures_submitted in H. destruct H as [Hr _].
      exact (K _ Hg2 _ Hr).
    + apply submits_flat_map in H. destruct H as (mt & _ & H).
      apply DrawOpaqueFeatures_submitted in H. destruct H as [Hr _].
      exact (K _ Hg2 _ Hr).
Qed.

(** X7.  On a consistent grid the passes submit only live objects: an
    object submitted by the opaque, alpha or shadow pass or by [Draw] is in
    [unsortedFeatures], is model-drawn and has a model (the one whose type
    and texture it is batched under). *)
Theorem only_live_objects_are_submitted (G : Globals) (w : World) (q : ptr) :
  grid_inv w ->
  submits (DrawOpaquePass G w) q \/ submits (DrawAlphaPass G w) q
  \/ submits (snd (Draw G w)) q \/ submits (snd (DrawShadowPass G w)) q ->
  In q (unsortedFeatures (fd w))
  /\ def_drawType (heap w q) = DRAWTYPE_MODEL
  /\ exists m, model (heap w q) = Some m
               /\ in_cell w (Z.to_nat (drawQuad (heap w q))) (mdl_type m) q.
Proof.
  intros Hg H. pose proof (passes_submit_live G w q Hg H) as L.
  split; [exact L|].
  destruct (gi_live Hg q L) as (A & B & C). split; [exact A|].
  assert (X : exists i mt, in_cell w i mt q).
  { destruct (model (heap w q)) as [m|] eqn:Em.
    - exists (Z.to_nat (drawQuad (heap w q))), (mdl_type m). apply C. reflexivity.
    - exfalso.
      assert (N : forall w', (forall r, model (heap w' r) = model (heap w r)) ->
                  grid_inv w' -> forall mt, ~ In q (pass_reads w' mt)).
      { intros w' Hm Hg' mt Hr. apply pass_reads_in_cell in Hr. destruct Hr as [i Hi].
        destruct (gi_member Hg' i mt q Hi) as (_ & (m & E & _) & _).
        rewrite Hm, Em in E. discriminate E. }
      destruct H as [H|[H|[H|H]]].
      + apply (or_introl (B := submits (DrawAlphaPass G w) q)) in H.
        apply pass_submitted in H. destruct H as [(mt & _ & Hr) _].
        exact (N w (fun _ => eq_refl) Hg mt Hr).
      + apply (or_intror (A := submits (DrawOpaquePass G w) q)) in H.
        apply pass_submitted in H. destruct H as [(mt & _ & Hr) _].
        exact (N w (fun _ => eq_refl) Hg mt Hr).
      + unfold Draw in H. cbn [snd] in H.
        apply (or_introl
                 (B := submits (DrawAlphaPass G (GetVisibleFeatures G w (activeCamera G) true)) q))
          in H.
        apply pass_submitted in H. destruct H as [(mt & _ & Hr) _].
        refine (N _ _ (grid_inv_GetVisibleFeatures G w _ _ Hg) mt Hr).
        intros r.
        exact (proj1 (proj2 (proj2 (proj2 (proj2
                 (GetVisibleFeatures_same_grid G w (activeCamera G) true)))) r)).
      + unfold DrawShadowPass in H. cbn [snd] in H.
        set (w1 := mkWorld (heap w) (set_inShadowPass (fd w) true) (drawFrame w)) in *.
        assert (Hg2 : grid_inv (GetVisibleFeatures G w1 (shadowCamera G) false)).
        { apply grid_inv_GetVisibleFeatures. apply grid_inv_set_inShadowPass. exact Hg. }
        assert (Hm : forall r,
                   model (heap (GetVisibleFeatures G w1 (shadowCamera G) false) r)
                   = model (heap w r)).
        { intros r.
          exact (proj1 (proj2 (proj2 (proj2 (proj2
                   (GetVisibleFeatures_same_grid G w1 (shadowCamera G) false)))) r)). }
        assert (S : forall l1 l2, submits (l1 ++ l2) q -> submits l1 q \/ submits l2 q).
        { unfold submits. intros l1 l2 X. rewrite !in_app_iff in X. tauto. }
        apply S in H. destruct H as [H|H].
        * apply DrawOpaqueFeatures_submitted in H. destruct H as [Hr _].
          exact (N _ Hm Hg2 _ Hr).
        * apply submits_flat_map in H. destruct H as (mt & _ & H).
          apply DrawOpaqueFeatures_submitted in H. destruct H as [Hr _].
          exact (N _ Hm Hg2 _ Hr). }
  destruct X as (i & mt & Hi).
  destruct (gi_member Hg i mt q Hi) as (_ & (m & E & _) & _).
  exists m. split; [exact E|]. apply C. exact E.
Qed.

Lemma step_live_sub (w : World) (e : event) (r : ptr) :
  In r (unsortedFeatures (fd (step w e))) ->
  In r (unsortedFeatures (fd w)) \/ ~ not_creating r e.
Proof.
  destruct e as [G p f|p q|p|G| |G cam drawFar]; cbn [step not_creating].
  - unfold RenderFeatureCreated. cbn [heap fd drawFrame].
    destruct (negb _); [auto|].
    cbn [fd set_unsortedFeatures unsortedFeatures].
    rewrite unsortedFeatures_UpdateDrawQuad. cbn [fd].
    intros H. apply in_app_or in H. destruct H as [H|[H|[]]]; [auto|].
    right. intros N. apply N. exact H.
  - unfold FeatureMoved. rewrite unsortedFeatures_UpdateDrawQuad. auto.
  - unfold RenderFeatureDestroyed. cbn [fst].
    intros H. left.
    assert (X : In r (unsortedFeatures
                        (if def_drawType (heap w p) =? DRAWTYPE_MODEL
                         then set_unsortedFeatures (fd w)
                                (snd (VectorErase (unsortedFeatures (fd w)) p))
                         else fd w))).
    { destruct (model (heap w p)); [destruct (0 <=? drawQuad (heap w p))|]; exact H. }
    destruct (def_drawType (heap w p) =? DRAWTYPE_MODEL); [|exact X].
    cbn [set_unsortedFeatures unsortedFeatures] in X.
    exact (VectorErase_subset _ _ _ X).
  - auto.
  - auto.
  - rewrite unsortedFeatures_GetVisibleFeatures. auto.
Qed.

Lemma run_not_live (evs : list event) (w : World) (p : ptr) :
  Forall (not_creating p) evs -> ~ In p (unsortedFeatures (fd w)) ->
  ~ In p (unsortedFeatures (fd (run w evs))).
Proof.
  revert w. induction evs as [|e tl IH]; intros w Hn Hp; [exact Hp|].
  inversion Hn; subst. simpl. apply IH; [assumption|].
  intros X. apply step_live_sub in X. destruct X as [X|X]; auto.
Qed.

(** X8.  Once an object is destroyed, no pass submits it again, whatever
    happens afterwards, until it is announced anew. *)
Theorem destroyed_object_is_never_submitted (G : Globals) (w : World) (p : ptr)
    (evs : list event) :
  grid_inv w -> run_ok w (EvDestroyed p :: evs) -> Forall (not_creating p) evs ->
  let w' := run w (EvDestroyed p :: evs) in
  ~ In p (unsortedFeatures (fd w'))
  /\ ~ submits (DrawOpaquePass G w') p /\ ~ submits (DrawAlphaPass G w') p
  /\ ~ submits (snd (Draw G w')) p /\ ~ submits (snd (DrawShadowPass G w')) p.
Proof.
  intros Hg Hok Hn w'.
  assert (Hg' : grid_inv w') by (apply run_inv; assumption).
  assert (L : ~ In p (unsortedFeatures (fd w'))).
  { unfold w'. change (run w (EvDestroyed p :: evs))
      with (run (step w (EvDestroyed p)) evs).
    apply run_not_live; [exact Hn|].
    destruct Hok as [Hev _].
    pose proof (gi_live_nodup Hg) as Nd.
    cbn [step]. unfold RenderFeatureDestroyed. cbn [fst].
    assert (X : ~ In p (unsortedFeatures
                        (if def_drawType (heap w p) =? DRAWTYPE_MODEL
                         then set_unsortedFeatures (fd w)
                                (snd (VectorErase (unsortedFeatures (fd w)) p))
                         else fd w))).
    { destruct (def_drawType (heap w p) =? DRAWTYPE_MODEL) eqn:Ed.
      - cbn [set_unsortedFeatures unsortedFeatures].
        intros Hin. apply (proj2 (VectorErase_nodup _ p Nd)) in Hin.
        destruct Hin as [_ Hin]. apply Hin. reflexivity.
      - intros Hin. destruct (gi_live Hg p Hin) as (A & _).
        rewrite A, Z.eqb_refl in Ed. discriminate Ed. }
    destruct (model (heap w p)); [destruct (0 <=? drawQuad (heap w p))|]; exact X. }
  split; [exact L|].
  repeat split; intros H; apply L; apply (passes_submit_live G w' p Hg'); tauto.
Qed.

Lemma filter_nil {A : Type} (f : A -> bool) (l : list A) :
  (forall a, In a l -> f a = false) -> filter f l = [].
Proof.
  induction l as [|a tl IH]; intros H; [reflexivity|].
  cbn. rewrite (H a (or_introl eq_refl)). apply IH. intros b Hb. apply H. right. exact Hb.
Qed.

Lemma flat_map_nil {A B : Type} (f : A -> list B) (l : list A) :
  (forall a, In a l -> f a = []) -> flat_map f l = [].
Proof.
  induction l as [|a tl IH]; intros H; [reflexivity|].
  cbn. rewrite (H a (or_introl eq_refl)). apply IH. intros b Hb. apply H. right. exact Hb.
Qed.

(** X9.  Right after the frame counter advances the batchers find no cell
    to iterate: the opaque and the alpha pass issue their fixed state set-up
    and reset calls and the calls of the Lua material passes, and nothing
    between [PushModelRenderState] and [PopModelRenderState]: no texture is
    bound, nothing is queued and no model is drawn (the batchers record no
    call).  After a visibility pass the batchers read only objects of the
    cells that this pass visited. *)
Theorem batchers_read_visited_cells_only (G G' : Globals) (L : LuaHooks) (w0 : World)
    (cam : CCamera) (drawFar deferredPass : bool) :
  frames_ok w0 ->
  let w1 := step w0 EvNewFrame in
  let w2 := GetVisibleFeatures G w1 cam drawFar in
  CFeatureDrawer_DrawOpaquePass G' L w1 deferredPass
  = [SetupOpaqueDrawing deferredPass]
    ++ flat_map (fun modelType =>
                   [PushModelRenderState modelType; PopModelRenderState modelType])
                (model_types_from MODELTYPE_3DO)
    ++ [ResetOpaqueDrawing deferredPass;
        SetDrawPassGlobalLODFactor; DrawOpaqueMaterialObjects deferredPass]
  /\ snd (CFeatureDrawer_DrawAlphaPass G' L w1)
     = [SetupAlphaDrawing false;
        glPushAttrib [GL_COLOR_BUFFER_BIT; GL_DEPTH_BUFFER_BIT];
        glDepthMask GL_TRUE;
        glEnable GL_ALPHA_TEST;
        glAlphaFunc GL_GREATER fhalf;
        ISky_SetupFog]
       ++ flat_map (fun modelType =>
                      [PushModelRenderState modelType; PopModelRenderState modelType])
                   (model_types_from MODELTYPE_3DO)
       ++ [glDisable GL_FOG; glPopAttrib; ResetAlphaDrawing false;
           SetDrawPassGlobalLODFactor; DrawAlphaMaterialObjects false]
  /\ (DrawOpaquePass G' w1 = [] /\ DrawAlphaPass G' w1 = [])
  /\ forall modelType p, In p (pass_reads w2 modelType) ->
       exists i c, visits (drawQuadsX (fd w0)) (GridVisibility G cam) i = true
                   /\ nth_error (modelRenderers (fd w0)) i = Some c
                   /\ In p (bin_features (GetRenderer c modelType)).
Proof.
  intros H0 w1 w2.
  assert (D : forall w', modelRenderers (fd w') = modelRenderers (fd w0) ->
                drawFrame w' = drawFrame w0 + 1 -> drawn_cells w' = []).
  { intros w' E1 E2. unfold drawn_cells. rewrite E1, E2.
    apply filter_nil. intros c Hc.
    pose proof (H0 c Hc). apply negb_false_iff. apply Z.ltb_lt. lia. }
  assert (DO : forall w' mt, modelRenderers (fd w') = modelRenderers (fd w0) ->
                 drawFrame w' = drawFrame w0 + 1 -> DrawOpaqueFeatures G' w' mt = []).
  { intros w' mt E1 E2. unfold DrawOpaqueFeatures. rewrite (D w' E1 E2). reflexivity. }
  assert (DA : forall w' mt, modelRenderers (fd w') = modelRenderers (fd w0) ->
                 drawFrame w' = drawFrame w0 + 1 -> DrawAlphaFeatures G' w' mt = []).
  { intros w' mt E1 E2. unfold DrawAlphaFeatures. cbv zeta. rewrite (D w' E1 E2).
    reflexivity. }
  split; [|split; [|split; [split|]]].
  - unfold CFeatureDrawer_DrawOpaquePass. f_equal. f_equal.
    apply flat_map_ext. intros mt. rewrite (DO w1 mt); reflexivity.
  - unfold CFeatureDrawer_DrawAlphaPass. cbn [snd]. f_equal. f_equal.
    apply flat_map_ext. intros mt. rewrite DA; reflexivity.
  - unfold DrawOpaquePass. apply flat_map_nil. intros mt _.
    apply DO; reflexivity.
  - unfold DrawAlphaPass. apply flat_map_nil. intros mt _.
    apply DA; reflexivity.
  - intros mt p Hp. apply pass_reads_in in Hp. destruct Hp as (c & A & B).
    apply drawn_cells_in in A. destruct A as [A1 A2].
    apply In_nth_error in A1. destruct A1 as [i Hi].
    destruct (GetVisibleFeatures_cells G w1 cam drawFar) as [F C].
    fold w2 in F, C. rewrite C in Hi.
    change (modelRenderers (fd w1)) with (modelRenderers (fd w0)) in Hi.
    change (drawQuadsX (fd w1)) with (drawQuadsX (fd w0)) in Hi.
    destruct (nth_error (modelRenderers (fd w0)) i) as [c0|] eqn:E0; [|discriminate Hi].
    cbn [option_map] in Hi. inversion Hi as [Hc]. clear Hi.
    destruct (visits (drawQuadsX (fd w0)) (GridVisibility G cam) i) eqn:Ev.
    + exists i, c0. split; [exact Ev|]. split; [exact E0|].
      rewrite <- Hc in B. exact B.
    + exfalso. apply nth_error_In in E0. pose proof (H0 c0 E0) as X.
      rewrite Hc in X. rewrite F in A2. unfold w1 in A2. cbn [step drawFrame] in A2. lia.
Qed.

End Submitted.

(** ** No object is submitted twice *)

Section Once.

Context {FO : FloatOps} {EC : EngineConsts}.

Lemma submitted_app (l1 l2 : list Call) :
  submitted (l1 ++ l2) = submitted l1 ++ submitted l2.
Proof. unfold submitted. apply flat_map_app. Qed.

Lemma submitted_flat_map {A : Type} (f : A -> list Call) (l : list A) :
  submitted (flat_map f l) = flat_map (fun a => submitted (f a)) l.
Proof.
  induction l as [|a tl IH]; [reflexivity|].
  cbn [flat_map]. rewrite submitted_app, IH. reflexivity.
Qed.

Lemma submitted_In (calls : list Call) (p : ptr) :
  In p (submitted calls) <-> submits calls p.
Proof.
  unfold submitted, submits. rewrite in_flat_map. split.
  - intros (call & Hc & Hp).
    destruct call; cbn in Hp; try contradiction; destruct Hp as [<-|[]]; auto.
  - intros [H|[H|[H|H]]]; eexists; (split; [exact H|]); left; reflexivity.
Qed.

Lemma flat_map_flat_map {A B C : Type} (g : B -> list C) (h : A -> list B) (l : list A) :
  flat_map g (flat_map h l) = flat_map (fun a => flat_map g (h a)) l.
Proof.
  induction l as [|a tl IH]; [reflexivity|].
  cbn [flat_map]. rewrite flat_map_app, IH. reflexivity.
Qed.

(** Selecting from each element nothing or the element itself keeps a
    list free of duplicates. *)
Lemma NoDup_flat_map_select (g : ptr -> list ptr) (l : list ptr) :
  (forall p, g p = [] \/ g p = [p]) -> NoDup l -> NoDup (flat_map g l).
Proof.
  intros Hg. induction l as [|a tl IH]; intros Hn; [constructor|].
  inversion Hn as [|x l' Hx Hl]; subst. cbn [flat_map].
  destruct (Hg a) as [E|E]; rewrite E; cbn [app]; [exact (IH Hl)|].
  constructor; [|exact (IH Hl)].
  intros H. apply in_flat_map in H. destruct H as (b & Hb & Hin).
  destruct (Hg b) as [E'|E']; rewrite E' in Hin; [contradiction|].
  destruct Hin as [<-|[]]. contradiction.
Qed.

Lemma NoDup_flat_map_disjoint {A : Type} (h : A -> list ptr) (l : list A) :
  NoDup l -> (forall a, In a l -> NoDup (h a)) ->
  (forall a b p, In a l -> In b l -> In p (h a) -> In p (h b) -> a = b) ->
  NoDup (flat_map h l).
Proof.
  induction l as [|a tl IH]; intros Hn H1 H2; [constructor|].
  inversion Hn as [|x l' Hx Hl]; subst. cbn [flat_map].
  apply NoDup_app.
  - apply H1. left. reflexivity.
  - apply IH; [exact Hl| |].
    + intros b Hb. apply H1. right. exact Hb.
    + intros b c p Hb Hc. apply H2; right; assumption.
  - intros p Hp Hq. apply in_flat_map in Hq. destruct Hq as (b & Hb & Hq).
    assert (a = b) by (apply (H2 a b p); auto; [left; reflexivity|right; exact Hb]).
    subst. contradiction.
Qed.

(** The same with positions in place of values: cells at different
    positions may be equal. *)
Lemma NoDup_flat_map_filter {A : Type} (h : A -> list ptr) (f : A -> bool) (v : list A) :
  (forall i a, nth_error v i = Some a -> NoDup (h a)) ->
  (forall i j a b p, nth_error v i = Some a -> nth_error v j = Some b ->
                     In p (h a) -> In p (h b) -> i = j) ->
  NoDup (flat_map h (filter f v)).
Proof.
  induction v as [|a tl IH]; intros H1 H2; [constructor|].
  assert (Htl : NoDup (flat_map h (filter f tl))).
  { apply IH.
    - intros i b Hb. exact (H1 (S i) b Hb).
    - intros i j b c p Hb Hc Hp Hq.
      assert (S i = S j) by exact (H2 (S i) (S j) b c p Hb Hc Hp Hq). lia. }
  cbn [filter]. destruct (f a); [|exact Htl].
  cbn [flat_map]. apply NoDup_app; [exact (H1 O a eq_refl)|exact Htl|].
  intros p Hp Hq. apply in_flat_map in Hq. destruct Hq as (b & Hb & Hq).
  apply filter_In in Hb. destruct Hb as [Hb _].
  apply In_nth_error in Hb. destruct Hb as [j Hj].
  assert (O = S j) by exact (H2 O (S j) a b p eq_refl Hj Hp Hq). discriminate.
Qed.

Lemma pass_reads_NoDup (w : World) (modelType : nat) :
  grid_inv w -> NoDup (pass_reads w modelType).
Proof.
  intros Hg. unfold pass_reads, drawn_cells. apply NoDup_flat_map_filter.
  - intros i a Ha.
    pose proof (gi_bins Hg i modelType) as (_ & N & _).
    unfold cell_bin, bins_of in N. rewrite Ha in N. exact N.
  - intros i j a b p Ha Hb Hp Hq.
    assert (I : in_cell w i modelType p).
    { unfold in_cell, cell_bin, bins_of. rewrite Ha. exact Hp. }
    assert (J : in_cell w j modelType p).
    { unfold in_cell, cell_bin, bins_of. rewrite Hb. exact Hq. }
    destruct (gi_member Hg i modelType p I) as (_ & _ & X & _).
    destruct (gi_member Hg j modelType p J) as (_ & _ & Y & _).
    lia.
Qed.

Lemma passes_reads_NoDup (w : World) (mts : list nat) :
  grid_inv w -> NoDup mts -> NoDup (flat_map (pass_reads w) mts).
Proof.
  intros Hg Hn. apply NoDup_flat_map_disjoint; [exact Hn| |].
  - intros mt _. apply pass_reads_NoDup. exact Hg.
  - intros a b p _ _ Ha Hb.
    apply pass_reads_in_cell in Ha. destruct Ha as [i Hi].
    apply pass_reads_in_cell in Hb. destruct Hb as [j Hj].
    destruct (gi_member Hg i a p Hi) as (_ & (m & E & Hm) & _).
    destruct (gi_member Hg j b p Hj) as (_ & (m' & E' & Hm') & _).
    congruence.
Qed.

Lemma opaque_feature_submitted (G : Globals) (w : World) (p : ptr) :
  submitted (DrawOpaqueFeatures_feature G w p) = []
  \/ submitted (DrawOpaqueFeatures_feature G w p) = [p].
Proof.
  unfold DrawOpaqueFeatures_feature.
  repeat match goal with
         | |- context [if ?b then _ else _] => destruct b
         end; cbn; auto.
Qed.

Lemma alpha_feature_submitted (G : Globals) (w : World) (ffp : bool) (p : ptr) :
  submitted (DrawAlphaFeatures_feature G w ffp p) = []
  \/ submitted (DrawAlphaFeatures_feature G w ffp p) = [p].
Proof.
  unfold DrawAlphaFeatures_feature.
  repeat match goal with
         | |- context [if ?b then _ else _] => destruct b
         end; cbn; auto.
Qed.

(** What a batch submits is selected from what it reads. *)
Lemma batch_submitted (modelType : nat) (body : ptr -> list Call)
    (cells : list ModelRendererProxy) :
  submitted
     (flat_map
        (fun c =>
           flat_map
             (fun binElem =>
                BindModelTypeTexture modelType (fst binElem) :: flat_map body (snd binElem))
             (GetRenderer c modelType))
        cells)
  = flat_map (fun p => submitted (body p))
      (flat_map (fun c => bin_features (GetRenderer c modelType)) cells).
Proof.
  rewrite submitted_flat_map, flat_map_flat_map.
  apply flat_map_ext. intros c.
  rewrite submitted_flat_map. unfold bin_features. rewrite flat_map_flat_map.
  apply flat_map_ext. intros [k fs]. cbn [fst snd].
  change (submitted (BindModelTypeTexture modelType k :: flat_map body fs))
    with (submitted (flat_map body fs)).
  apply submitted_flat_map.
Qed.

Lemma model_types_from_NoDup (first : nat) : NoDup (model_types_from first).
Proof. apply seq_NoDup. Qed.

Lemma opaque_batches_submitted (G : Globals) (w : World) (mts : list nat) :
  submitted (flat_map (DrawOpaqueFeatures G w) mts)
  = flat_map (fun p => submitted (DrawOpaqueFeatures_feature G w p))
      (flat_map (pass_reads w) mts).
Proof.
  rewrite submitted_flat_map, flat_map_flat_map. apply flat_map_ext. intros mt.
  apply batch_submitted.
Qed.

Lemma opaque_batches_NoDup (G : Globals) (w : World) (mts : list nat) :
  grid_inv w -> NoDup mts -> NoDup (submitted (flat_map (DrawOpaqueFeatures G w) mts)).
Proof.
  intros Hg Hn. rewrite opaque_batches_submitted.
  apply NoDup_flat_map_select; [apply opaque_feature_submitted|].
  apply passes_reads_NoDup; assumption.
Qed.

(** X10.  On a consistent grid no pass submits an object twice: the
    objects submitted by the forward opaque pass, by the alpha pass, by
    [Draw] and by the shadow pass (whose first batch, for [MODELTYPE_3DO], is
    not repeated when [MODELTYPE_3DO < MODELTYPE_S3O]) are pairwise
    different. *)
Theorem no_object_is_submitted_twice (G : Globals) (w : World) :
  grid_inv w ->
  NoDup (submitted (DrawOpaquePass G w))
  /\ NoDup (submitted (DrawAlphaPass G w))
  /\ NoDup (submitted (snd (Draw G w)))
  /\ ((MODELTYPE_3DO < MODELTYPE_S3O)%nat ->
      NoDup (submitted (snd (DrawShadowPass G w)))).
Proof.
  intros Hg. split; [|split; [|split]].
  - apply opaque_batches_NoDup; [exact Hg|apply model_types_from_NoDup].
  - unfold DrawAlphaPass. cbv zeta.
    set (w1 := mkWorld (heap w) (set_inAlphaPass (fd w) true) (drawFrame w)).
    assert (E : submitted (flat_map (DrawAlphaFeatures G w1) (model_types_from MODELTYPE_3DO))
                = flat_map (fun p => submitted
                              (DrawAlphaFeatures_feature G w1 (negb (CanDrawAlpha G)) p))
                    (flat_map (pass_reads w) (model_types_from MODELTYPE_3DO))).
    { rewrite submitted_flat_map, flat_map_flat_map. apply flat_map_ext. intros mt.
      apply batch_submitted. }
    rewrite E. apply NoDup_flat_map_select; [apply alpha_feature_submitted|].
    apply passes_reads_NoDup; [exact Hg|apply model_types_from_NoDup].
  - unfold Draw. cbn [snd]. apply opaque_batches_NoDup;
      [apply grid_inv_GetVisibleFeatures; exact Hg|apply model_types_from_NoDup].
  - intros L. unfold DrawShadowPass. cbn [snd].
    set (w2 := GetVisibleFeatures G _ _ _).
    assert (Hg2 : grid_inv w2).
    { apply grid_inv_GetVisibleFeatures. apply grid_inv_set_inShadowPass. exact Hg. }
    change (DrawOpaqueFeatures G w2 MODELTYPE_3DO
            ++ flat_map (DrawOpaqueFeatures G w2) (model_types_from MODELTYPE_S3O))
      with (flat_map (DrawOpaqueFeatures G w2)
              (MODELTYPE_3DO :: model_types_from MODELTYPE_S3O)).
    apply opaque_batches_NoDup; [exact Hg2|].
    constructor; [|apply model_types_from_NoDup].
    unfold model_types_from. intros H. apply in_seq in H. lia.
Qed.

End Once.

(** ** Objects are drawn under the texture of their model *)

Section Textures.

Context {FO : FloatOps} {EC : EngineConsts}.

Lemma bound_draws_app_in (l l' : list Call) (cur : option (nat * Z))
    (x : ptr * option (nat * Z)) :
  In x (bound_draws cur (l ++ l')) ->
  In x (bound_draws cur l) \/ exists cur', In x (bound_draws cur' l').
Proof.
  revert cur. induction l as [|call tl IH]; intros cur H.
  - right. exists cur. exact H.
  - destruct call; cbn [app bound_draws] in *; try (apply IH; exact H).
    destruct H as [H|H]; [left; left; exact H|].
    destruct (IH cur H) as [X|X]; [left; right; exact X|right; exact X].
Qed.

Lemma bound_draws_flat_map_in {A : Type} (F : A -> list Call) (l : list A)
    (cur : option (nat * Z)) (x : ptr * option (nat * Z)) :
  In x (bound_draws cur (flat_map F l)) ->
  exists a cur', In a l /\ In x (bound_draws cur' (F a)).
Proof.
  revert cur. induction l as [|a tl IH]; intros cur H; [contradiction|].
  cbn [flat_map] in H. apply bound_draws_app_in in H. destruct H as [H|[cur' H]].
  - exists a, cur. split; [left; reflexivity|exact H].
  - destruct (IH cur' H) as (b & c & Hb & Hc). exists b, c. split; [right; exact Hb|exact Hc].
Qed.

Lemma bound_draws_nobind (l : list Call) (cur : option (nat * Z)) (p : ptr)
    (b : option (nat * Z)) :
  (forall call, In call l -> forall mt k, call <> BindModelTypeTexture mt k) ->
  In (p, b) (bound_draws cur l) -> b = cur /\ In (DrawFeature p) l.
Proof.
  induction l as [|call tl IH]; intros Hn H; [contradiction|].
  assert (Hn' : forall call, In call tl -> forall mt k, call <> BindModelTypeTexture mt k).
  { intros c Hc. apply Hn. right. exact Hc. }
  destruct call; cbn [bound_draws] in H;
    try (destruct (IH Hn' H) as [A B]; split; [exact A|right; exact B]).
  - exfalso. exact (Hn _ (or_introl eq_refl) _ _ eq_refl).
  - destruct H as [H|H].
    + inversion H; subst. split; [reflexivity|left; reflexivity].
    + destruct (IH Hn' H) as [A B]. split; [exact A|right; exact B].
Qed.

Lemma batch_bound (modelType : nat) (body : ptr -> list Call)
    (cells : list ModelRendererProxy) (cur : option (nat * Z)) (p : ptr)
    (b : option (nat * Z)) :
  (forall q call, In call (body q) ->
     (forall mt k, call <> BindModelTypeTexture mt k)
     /\ (forall r, call = DrawFeature r -> r = q)) ->
  In (p, b)
     (bound_draws cur
        (flat_map
           (fun c =>
              flat_map
                (fun binElem =>
                   BindModelTypeTexture modelType (fst binElem)
                   :: flat_map body (snd binElem))
                (GetRenderer c modelType))
           cells)) ->
  exists c k fs, In c cells /\ In (k, fs) (GetRenderer c modelType) /\ In p fs
                 /\ b = Some (modelType, k).
Proof.
  intros Hb H.
  apply bound_draws_flat_map_in in H. destruct H as (c & cur1 & Hc & H).
  apply bound_draws_flat_map_in in H. destruct H as ([k fs] & cur2 & Hk & H).
  cbn [fst snd bound_draws] in H.
  apply bound_draws_nobind in H.
  - destruct H as [-> H]. apply in_flat_map in H. destruct H as (q & Hq & H).
    destruct (Hb q _ H) as [_ E]. rewrite (E p eq_refl).
    exists c, k, fs. auto.
  - intros call Hin. apply in_flat_map in Hin. destruct Hin as (q & _ & Hin).
    exact (proj1 (Hb q call Hin)).
Qed.

Lemma opaque_body_calls (G : Globals) (w : World) (q : ptr) (call : Call) :
  In call (DrawOpaqueFeatures_feature G w q) ->
  (forall mt k, call <> BindModelTypeTexture mt k)
  /\ (forall r, call = DrawFeature r -> r = q).
Proof.
  intros H. apply opaque_feature_calls in H.
  destruct H as [[-> _]|[_ [->|[->|[->| ->]]]]]; split; intros; try discriminate;
    try congruence.
Qed.

Lemma alpha_body_calls (G : Globals) (w : World) (ffp : bool) (q : ptr) (call : Call) :
  In call (DrawAlphaFeatures_feature G w ffp q) ->
  (forall mt k, call <> BindModelTypeTexture mt k)
  /\ (forall r, call = DrawFeature r -> r = q).
Proof.
  intros H. apply alpha_feature_calls in H.
  destruct H as [_ [->|[->|[->| ->]]]]; split; intros; try discriminate; try congruence.
Qed.

(** A bin of a cell of a consistent grid holds objects of that model type
    and texture type. *)
Lemma grid_bin_model (w : World) (c : ModelRendererProxy) (modelType : nat) (k : Z)
    (fs : FeatureSet) (p : ptr) :
  grid_inv w -> In c (modelRenderers (fd w)) ->
  In (k, fs) (GetRenderer c modelType) -> In p fs ->
  exists m, model (heap w p) = Some m /\ mdl_type m = modelType /\ textureType m = k.
Proof.
  intros Hg Hc Hk Hp. apply In_nth_error in Hc. destruct Hc as [i Hi].
  assert (B : cell_bin w i modelType = GetRenderer c modelType).
  { unfold cell_bin, bins_of. rewrite Hi. reflexivity. }
  assert (I : in_cell w i modelType p).
  { unfold in_cell. rewrite B. unfold bin_features. apply in_flat_map.
    exists (k, fs). split; [exact Hk|exact Hp]. }
  destruct (gi_member Hg i modelType p I) as (_ & (m & E & Hm) & _).
  exists m. split; [exact E|]. split; [exact Hm|].
  destruct (gi_bins Hg i modelType) as (_ & _ & T).
  rewrite B in T. specialize (T k fs p Hk Hp).
  unfold tex_of in T. rewrite E in T. cbn in T. congruence.
Qed.

(** X11.  On a consistent grid every direct draw of the opaque pass, of
    the alpha pass and of [Draw] is issued while the texture of the object's
    own model is bound: the last [BindModelTypeTexture] before it carries the
    model type and the texture type of that object. *)
Theorem objects_are_drawn_under_their_texture (G : Globals) (w : World)
    (cur : option (nat * Z)) (p : ptr) (b : option (nat * Z)) :
  grid_inv w ->
  In (p, b) (bound_draws cur (DrawOpaquePass G w))
  \/ In (p, b) (bound_draws cur (DrawAlphaPass G w))
  \/ In (p, b) (bound_draws cur (snd (Draw G w))) ->
  exists m, model (heap w p) = Some m /\ b = Some (mdl_type m, textureType m).
Proof.
  intros Hg H.
  assert (K : forall w' body,
            grid_inv w' -> (forall r, model (heap w' r) = model (heap w r)) ->
            (forall q call, In call (body q) ->
               (forall mt k, call <> BindModelTypeTexture mt k)
               /\ (forall r, call = DrawFeature r -> r = q)) ->
            In (p, b)
               (bound_draws cur
                  (flat_map
                     (fun modelType =>
                        flat_map
                          (fun c =>
                             flat_map
                               (fun binElem =>
                                  BindModelTypeTexture modelType (fst binElem)
                                  :: flat_map body (snd binElem))
                               (GetRenderer c modelType))
                          (drawn_cells w'))
                     (model_types_from MODELTYPE_3DO))) ->
            exists m, model (heap w p) = Some m /\ b = Some (mdl_type m, textureType m)).
  { intros w' body Hg' Hm Hb X.
    apply bound_draws_flat_map_in in X. destruct X as (mt & cur1 & _ & X).
    apply batch_bound in X; [|exact Hb].
    destruct X as (c & k & fs & Hc & Hk & Hp & ->).
    apply drawn_cells_in in Hc. destruct Hc as [Hc _].
    destruct (grid_bin_model w' c mt k fs p Hg' Hc Hk Hp) as (m & E & <- & <-).
    exists m. rewrite <- Hm. split; [exact E|reflexivity]. }
  destruct H as [H|[H|H]].
  - exact (K w (DrawOpaqueFeatures_feature G w) Hg (fun _ => eq_refl)
             (opaque_body_calls G w) H).
  - unfold DrawAlphaPass in H. cbv zeta in H.
    set (w1 := mkWorld (heap w) (set_inAlphaPass (fd w) true) (drawFrame w)) in *.
    refine (K w (DrawAlphaFeatures_feature G w1 (negb (CanDrawAlpha G))) Hg
              (fun _ => eq_refl) (alpha_body_calls G w1 _) H).
  - unfold Draw in H. cbn [snd] in H.
    set (w2 := GetVisibleFeatures G w (activeCamera G) true) in *.
    refine (K w2 (DrawOpaqueFeatures_feature G w2)
              (grid_inv_GetVisibleFeatures G w _ _ Hg) _ (opaque_body_calls G w2) H).
    intros r.
    exact (proj1 (proj2 (proj2 (proj2 (proj2
             (GetVisibleFeatures_same_grid G w (activeCamera G) true)))) r)).
Qed.

End Textures.

(** ** How lifecycle events compose *)

Section Composition.

Context {FO : FloatOps} {EC : EngineConsts}.

Lemma UpdateDrawQuad_heap_other (w : World) (p r : ptr) :
  r <> p -> heap (UpdateDrawQuad w p) r = heap w r.
Proof.
  intros Hr. unfold UpdateDrawQuad.
  destruct (_ <? _); [reflexivity|]. destruct (_ =? _); [reflexivity|].
  cbn [heap]. apply upd_other. exact Hr.
Qed.

Lemma created_heap_other (G : Globals) (w : World) (p r : ptr) (f : CFeature) :
  r <> p -> heap (step w (EvCreated G p f)) r = heap w r.
Proof.
  intros Hr. cbn [step]. unfold RenderFeatureCreated.
  destruct (negb _); cbn [heap fd drawFrame].
  - apply upd_other. exact Hr.
  - rewrite UpdateDrawQuad_heap_other by exact Hr. cbn [heap].
    rewrite !upd_other by exact Hr. reflexivity.
Qed.

Lemma moved_heap_other (w : World) (p r : ptr) (q : float3) :
  r <> p -> heap (step w (EvMoved p q)) r = heap w r.
Proof.
  intros Hr. cbn [step]. unfold FeatureMoved.
  rewrite UpdateDrawQuad_heap_other by exact Hr. cbn [heap].
  apply upd_other. exact Hr.
Qed.

Lemma destroyed_heap_other (w : World) (p r : ptr) :
  r <> p -> heap (step w (EvDestroyed p)) r = heap w r.
Proof.
  intros Hr. cbn [step]. unfold RenderFeatureDestroyed. cbn [fst].
  destruct (model (heap w p)); [|reflexivity].
  destruct (0 <=? drawQuad (heap w p)); [|reflexivity].
  cbn [heap]. apply upd_other. exact Hr.
Qed.

(** On consistent grids, the cells of an object are determined by its
    record and by its being live. *)
Lemma cells_from_inv (w w' : World) (r : ptr) (c mt : nat) :
  grid_inv w -> grid_inv w' ->
  heap w' r = heap w r ->
  (In r (unsortedFeatures (fd w')) <-> In r (unsortedFeatures (fd w))) ->
  (in_cell w' c mt r <-> in_cell w c mt r).
Proof.
  assert (K : forall w1 w2, grid_inv w1 -> grid_inv w2 -> heap w2 r = heap w1 r ->
                (In r (unsortedFeatures (fd w1)) -> In r (unsortedFeatures (fd w2))) ->
                in_cell w1 c mt r -> in_cell w2 c mt r).
  { intros w1 w2 H1 H2 Eh HL Hin.
    destruct (gi_member H1 c mt r Hin) as (A & (m & Em & Hm) & Dq & _).
    destruct (gi_live H2 r (HL A)) as (_ & _ & C).
    rewrite Eh in C. specialize (C m Em).
    rewrite Dq, Nat2Z.id, Hm in C. exact C. }
  intros H H' Eh HL. split.
  - apply K; auto. apply HL.
  - apply K; auto. apply HL.
Qed.

Lemma replace_first_last (l : list ptr) (p back : ptr) :
  ~ In p l -> replace_first (l ++ [p]) p back = Some (l ++ [back]).
Proof.
  induction l as [|a tl IH]; intros H; cbn.
  - rewrite Nat.eqb_refl. reflexivity.
  - destruct (Nat.eqb a p) eqn:E.
    + apply Nat.eqb_eq in E. exfalso. apply H. left. exact E.
    + rewrite IH; [reflexivity|]. intros X. apply H. right. exact X.
Qed.

(** Erasing the element pushed last restores the vector. *)
Lemma VectorErase_last (l : list ptr) (p : ptr) :
  ~ In p l -> VectorErase (l ++ [p]) p = (true, l).
Proof.
  intros H. unfold VectorErase. rewrite last_last, (replace_first_last l p p H).
  rewrite removelast_last. reflexivity.
Qed.

Lemma destroyed_live (w : World) (p : ptr) :
  grid_inv w -> In p (unsortedFeatures (fd w)) ->
  unsortedFeatures (fd (step w (EvDestroyed p)))
  = snd (VectorErase (unsortedFeatures (fd w)) p).
Proof.
  intros Hg Hp. destruct (gi_live Hg p Hp) as (A & _).
  cbn [step]. unfold RenderFeatureDestroyed. cbn [fst].
  rewrite A, Z.eqb_refl.
  destruct (model (heap w p)); [destruct (0 <=? drawQuad (heap w p))|]; reflexivity.
Qed.

Lemma live_drawQuad_nonneg (w : World) (p : ptr) :
  grid_inv w -> In p (unsortedFeatures (fd w)) -> 0 <= drawQuad (heap w p).
Proof.
  intros Hg Hp. destruct (gi_live Hg p Hp) as (_ & B & _). rewrite B.
  pose proof (newDrawQuad_range (fd w) (heap w p) (proj1 (gi_dims Hg)) (proj2 (gi_dims Hg))).
  lia.
Qed.

(** X12.  Announcing a new object and destroying it again restores the
    drawer: the live-object vector is the same vector, every cell holds the
    same objects, no other object is touched, and the object itself is left
    with [drawQuad = -1]. *)
Theorem create_then_destroy_restores_the_drawer (G : Globals) (w : World) (p : ptr)
    (f : CFeature) :
  grid_inv w -> ~ In p (unsortedFeatures (fd w)) -> def_drawType f = DRAWTYPE_MODEL ->
  let w' := run w [EvCreated G p f; EvDestroyed p] in
  grid_inv w'
  /\ unsortedFeatures (fd w') = unsortedFeatures (fd w)
  /\ (forall c mt r, in_cell w' c mt r <-> in_cell w c mt r)
  /\ (forall r, r <> p -> heap w' r = heap w r)
  /\ (model f <> None -> drawQuad (heap w' p) = -1).
Proof.
  intros Hg Hp Hd w'. unfold w', run. cbn [fold_left].
  set (w1 := step w (EvCreated G p f)).
  assert (Hg1 : grid_inv w1) by (apply step_created_inv; assumption).
  destruct (created_fields G w p f Hd) as (L1 & _ & _ & _ & M1). fold w1 in L1, M1.
  assert (Hp1 : In p (unsortedFeatures (fd w1))).
  { rewrite L1. apply in_or_app. right. left. reflexivity. }
  assert (Hg2 : grid_inv (step w1 (EvDestroyed p))).
  { apply step_destroyed_inv; [exact Hg1|]. left. exact Hp1. }
  assert (L2 : unsortedFeatures (fd (step w1 (EvDestroyed p))) = unsortedFeatures (fd w)).
  { rewrite (destroyed_live w1 p Hg1 Hp1), L1, (VectorErase_last _ p Hp). reflexivity. }
  assert (Hh : forall r, r <> p -> heap (step w1 (EvDestroyed p)) r = heap w r).
  { intros r Hr. rewrite (destroyed_heap_other w1 p r Hr).
    apply created_heap_other. exact Hr. }
  split; [exact Hg2|]. split; [exact L2|]. split; [|split; [exact Hh|]].
  - intros c mt r. destruct (Nat.eq_dec r p) as [->|Hr].
    + split; intros Hin; exfalso.
      * apply (grid_inv_not_live_no_cell _ _ p c mt Hg2); [rewrite L2; exact Hp|exact Hin].
      * exact (grid_inv_not_live_no_cell _ _ p c mt Hg Hp Hin).
    + apply cells_from_inv; auto. rewrite L2. tauto.
  - intros Hm. pose proof (live_drawQuad_nonneg w1 p Hg1 Hp1) as Hq.
    cbn [step]. unfold RenderFeatureDestroyed. cbn [fst].
    rewrite M1. destruct (model f) as [m|]; [|contradiction].
    destruct (0 <=? drawQuad (heap w1 p)) eqn:E; [|apply Z.leb_gt in E; lia].
    cbn [heap]. rewrite upd_same. reflexivity.
Qed.

Lemma set_unsortedFeatures_same (d : CFeatureDrawer) :
  set_unsortedFeatures d (unsortedFeatures d) = d.
Proof. destruct d. reflexivity. Qed.

(** X13.  Destroying an object a second time changes nothing: the handler
    finds it neither in the live-object vector nor in a cell, and only
    resets the LOD again. *)
Theorem destroying_twice_changes_nothing (w : World) (p : ptr) :
  grid_inv w ->
  let w1 := step w (EvDestroyed p) in
  RenderFeatureDestroyed w1 p = (w1, [SetObjectLOD p 0]).
Proof.
  intros Hg w1.
  assert (N : ~ In p (unsortedFeatures (fd w1))).
  { unfold w1. cbn [step]. unfold RenderFeatureDestroyed. cbn [fst].
    pose proof (gi_live_nodup Hg) as Nd.
    assert (X : ~ In p (unsortedFeatures
                        (if def_drawType (heap w p) =? DRAWTYPE_MODEL
                         then set_unsortedFeatures (fd w)
                                (snd (VectorErase (unsortedFeatures (fd w)) p))
                         else fd w))).
    { destruct (def_drawType (heap w p) =? DRAWTYPE_MODEL) eqn:Ed.
      - cbn [set_unsortedFeatures unsortedFeatures].
        intros Hin. apply (proj2 (VectorErase_nodup _ p Nd)) in Hin.
        destruct Hin as [_ Hin]. apply Hin. reflexivity.
      - intros Hin. destruct (gi_live Hg p Hin) as (A & _).
        rewrite A, Z.eqb_refl in Ed. discriminate Ed. }
    destruct (model (heap w p)); [destruct (0 <=? drawQuad (heap w p))|]; exact X. }
  assert (Q : model (heap w1 p) = None \/ drawQuad (heap w1 p) < 0).
  { unfold w1. cbn [step]. unfold RenderFeatureDestroyed. cbn [fst].
    destruct (model (heap w p)) as [m|] eqn:Em; [|left; cbn [heap]; exact Em].
    destruct (0 <=? drawQuad (heap w p)) eqn:E.
    - right. cbn [heap]. rewrite upd_same. cbn. lia.
    - right. cbn [heap]. apply Z.leb_gt in E. exact E. }
  unfold RenderFeatureDestroyed. f_equal.
  rewrite (VectorErase_absent _ p N). cbn [snd].
  assert (E1 : (if def_drawType (heap w1 p) =? DRAWTYPE_MODEL
                then set_unsortedFeatures (fd w1) (unsortedFeatures (fd w1))
                else fd w1) = fd w1).
  { destruct (_ =? _); [apply set_unsortedFeatures_same|reflexivity]. }
  rewrite E1.
  assert (E2 : mkWorld (heap w1) (fd w1) (drawFrame w1) = w1) by (destruct w1; reflexivity).
  rewrite E2.
  destruct Q as [Q|Q].
  - rewrite Q. reflexivity.
  - destruct (model (heap w1 p)); [|reflexivity].
    destruct (0 <=? drawQuad (heap w1 p)) eqn:E; [apply Z.leb_le in E; lia|reflexivity].
Qed.

Lemma set_drawQuad_same (f : CFeature) : set_drawQuad f (drawQuad f) = f.
Proof. destruct f. reflexivity. Qed.

(** After a move the record of a live object is its old record with the
    new position and the cell of the new position. *)
Lemma moved_record (w : World) (p : ptr) (q : float3) :
  grid_inv w -> In p (unsortedFeatures (fd w)) ->
  heap (step w (EvMoved p q)) p
  = set_drawQuad (set_pos (heap w p) q) (newDrawQuad (fd w) (set_pos (heap w p) q)).
Proof.
  intros Hg Hp. pose proof (live_drawQuad_nonneg w p Hg Hp) as Hq.
  cbn [step]. unfold FeatureMoved, UpdateDrawQuad. cbn [heap fd drawFrame].
  rewrite upd_same. cbn [drawQuad set_pos].
  destruct (drawQuad (heap w p) <? -1) eqn:E1; [apply Z.ltb_lt in E1; lia|].
  destruct (drawQuad (heap w p) =? _) eqn:E2.
  - apply Z.eqb_eq in E2. cbn [heap]. rewrite upd_same.
    rewrite <- E2. symmetry. apply (set_drawQuad_same (set_pos (heap w p) q)).
  - cbn [heap]. rewrite upd_same. reflexivity.
Qed.

(** X14.  Two moves of a live object in a row leave every object, the
    live-object vector and every cell as the second move alone would. *)
Theorem a_later_move_overrides_an_earlier_one (w : World) (p : ptr) (q1 q2 : float3) :
  grid_inv w -> In p (unsortedFeatures (fd w)) ->
  let wa := run w [EvMoved p q1; EvMoved p q2] in
  let wb := run w [EvMoved p q2] in
  (forall r, heap wa r = heap wb r)
  /\ unsortedFeatures (fd wa) = unsortedFeatures (fd wb)
  /\ (forall c mt r, in_cell wa c mt r <-> in_cell wb c mt r).
Proof.
  intros Hg Hp wa wb. unfold wa, wb, run. cbn [fold_left].
  set (w1 := step w (EvMoved p q1)).
  destruct (moved_fields w p q1) as (L1 & X1 & Y1 & _). fold w1 in L1, X1, Y1.
  assert (Hp1 : In p (unsortedFeatures (fd w1))) by (rewrite L1; exact Hp).
  assert (Hg1 : grid_inv w1) by (apply step_moved_inv; [exact Hg|left; exact Hp]).
  assert (Hga : grid_inv (step w1 (EvMoved p q2)))
    by (apply step_moved_inv; [exact Hg1|left; exact Hp1]).
  assert (Hgb : grid_inv (step w (EvMoved p q2)))
    by (apply step_moved_inv; [exact Hg|left; exact Hp]).
  destruct (moved_fields w1 p q2) as (La & _).
  destruct (moved_fields w p q2) as (Lb & _).
  assert (Hh : forall r, heap (step w1 (EvMoved p q2)) r = heap (step w (EvMoved p q2)) r).
  { intros r. destruct (Nat.eq_dec r p) as [->|Hr].
    - rewrite (moved_record w1 p q2 Hg1 Hp1), (moved_record w p q2 Hg Hp).
      unfold w1. rewrite (moved_record w p q1 Hg Hp).
      unfold newDrawQuad, newDrawQuadX, newDrawQuadY. fold w1. rewrite X1, Y1.
      destruct (heap w p). reflexivity.
    - rewrite !moved_heap_other by exact Hr. unfold w1.
      apply moved_heap_other. exact Hr. }
  split; [exact Hh|]. split; [congruence|].
  intros c mt r. apply cells_from_inv; auto. rewrite La, Lb, L1. tauto.
Qed.

Lemma UpdateDrawQuad_shape (w : World) (p : ptr) :
  shape (fd (UpdateDrawQuad w p)) = shape (fd w).
Proof.
  unfold UpdateDrawQuad.
  destruct (_ <? _); [reflexivity|]. destruct (_ =? _); [reflexivity|].
  unfold shape. cbn [fd set_modelRenderers drawQuadsX drawQuadsY modelRenderers
                     featureDrawDistance featureFadeDistance inAlphaPass inShadowPass].
  assert (E : length
                match model (heap w p) with
                | Some m =>
                    AddFeature_at
                      (if 0 <=? drawQuad (heap w p)
                       then DelFeature_at (modelRenderers (fd w)) (drawQuad (heap w p)) m p
                       else modelRenderers (fd w))
                      (newDrawQuad (fd w) (heap w p)) m p
                | None => modelRenderers (fd w)
                end = length (modelRenderers (fd w))).
  { destruct (model (heap w p)); [|reflexivity].
    unfold AddFeature_at, DelFeature_at. rewrite length_update_cell.
    destruct (0 <=? _); [apply length_update_cell|reflexivity]. }
  rewrite E. reflexivity.
Qed.

Lemma GetVisibleFeatures_shape (G : Globals) (w : World) (cam : CCamera) (drawFar : bool) :
  shape (fd (GetVisibleFeatures G w cam drawFar)) = shape (fd w).
Proof.
  destruct (GetVisibleFeatures_same_grid G w cam drawFar) as (_ & _ & Hl & _).
  unfold GetVisibleFeatures in *.
  set (qd := quad_drawer _ _ _ _) in *. set (w1 := mkWorld _ _ _) in *.
  destruct (fold_DrawQuad_spec G qd (GridVisibility G cam) w1) as (_ & B & _).
  cbn zeta in B. set (w' := fold_left _ _ _) in *.
  unfold shape. rewrite Hl.
  change (drawQuadsX (fd w), drawQuadsY (fd w), length (modelRenderers (fd w)),
          featureDrawDistance (fd w), featureFadeDistance (fd w),
          inAlphaPass (fd w), inShadowPass (fd w))
    with (drawQuadsX (set_modelRenderers (fd w1) []),
          drawQuadsY (set_modelRenderers (fd w1) []), length (modelRenderers (fd w)),
          featureDrawDistance (set_modelRenderers (fd w1) []),
          featureFadeDistance (set_modelRenderers (fd w1) []),
          inAlphaPass (set_modelRenderers (fd w1) []),
          inShadowPass (set_modelRenderers (fd w1) [])).
  rewrite <- B. destruct (fd w'). reflexivity.
Qed.

Lemma step_shape (w : World) (e : event) : shape (fd (step w e)) = shape (fd w).
Proof.
  destruct e as [G p f|p q|p|G| |G cam drawFar]; cbn [step].
  - unfold RenderFeatureCreated. destruct (negb _); [reflexivity|].
    cbn [fd heap drawFrame].
    match goal with
    | |- context [UpdateDrawQuad ?a ?b] => pose proof (UpdateDrawQuad_shape a b) as S
    end.
    unfold shape in *. cbn [fd set_unsortedFeatures drawQuadsX drawQuadsY modelRenderers
      featureDrawDistance featureFadeDistance inAlphaPass inShadowPass] in *. exact S.
  - unfold FeatureMoved. rewrite UpdateDrawQuad_shape. reflexivity.
  - unfold RenderFeatureDestroyed. cbn [fst].
    assert (S0 : shape (if def_drawType (heap w p) =? DRAWTYPE_MODEL
                        then set_unsortedFeatures (fd w)
                               (snd (VectorErase (unsortedFeatures (fd w)) p))
                        else fd w) = shape (fd w)).
    { destruct (_ =? _); reflexivity. }
    destruct (model (heap w p)); [|exact S0].
    destruct (0 <=? drawQuad (heap w p)); [|exact S0].
    rewrite <- S0. unfold shape.
    cbn [fd set_modelRenderers drawQuadsX drawQuadsY modelRenderers
         featureDrawDistance featureFadeDistance inAlphaPass inShadowPass].
    unfold DelFeature_at. rewrite length_update_cell. reflexivity.
  - reflexivity.
  - reflexivity.
  - apply GetVisibleFeatures_shape.
Qed.

Lemma run_shape (evs : list event) (w : World) : shape (fd (run w evs)) = shape (fd w).
Proof.
  revert w. induction evs as [|e tl IH]; intros w; [reflexivity|].
  simpl. rewrite IH. apply step_shape.
Qed.

(** X15.  No event ever changes the dimensions of the grid, the number of
    cells, the draw and fade distances or the pass flags.  So a drawer built
    for a map keeps one cell per draw quad through every run, and
    [PostLoad] for the same map changes nothing. *)
Theorem grid_shape_never_changes (h : ptr -> CFeature) (mapx mapy : Z)
    (cfgDraw cfgFade : float) (frame0 frame : Z) (evs : list event) :
  let d0 := CFeatureDrawer_new mapx mapy cfgDraw cfgFade frame0 in
  let w := run (mkWorld h d0 frame) evs in
  shape (fd w) = shape d0
  /\ length (modelRenderers (fd w))
     = Z.to_nat (int_div mapx DRAW_QUAD_SIZE * int_div mapy DRAW_QUAD_SIZE)
  /\ PostLoad mapx mapy (fd w) = fd w.
Proof.
  intros d0 w. pose proof (run_shape evs (mkWorld h d0 frame)) as S. fold w in S.
  cbn [fd] in S. split; [exact S|].
  assert (X : drawQuadsX (fd w) = drawQuadsX d0)
    by exact (f_equal (fun t => fst (fst (fst (fst (fst (fst t)))))) S).
  assert (Y : drawQuadsY (fd w) = drawQuadsY d0)
    by exact (f_equal (fun t => snd (fst (fst (fst (fst (fst t)))))) S).
  assert (Len : length (modelRenderers (fd w)) = length (modelRenderers d0))
    by exact (f_equal (fun t => snd (fst (fst (fst (fst t))))) S).
  split.
  - rewrite Len. unfold d0, CFeatureDrawer_new. cbn [modelRenderers]. apply repeat_length.
  - unfold PostLoad.
    change (int_div mapx DRAW_QUAD_SIZE) with (drawQuadsX d0).
    change (int_div mapy DRAW_QUAD_SIZE) with (drawQuadsY d0).
    rewrite <- X, <- Y. destruct (fd w). reflexivity.
Qed.

End Composition.


(** ** Updates and the shadow pass *)

Section Passes2.

Context {FO : FloatOps} {EC : EngineConsts}.

(** Applying to the objects of a list an update that absorbs previous
    updates. *)
Lemma upd_all_absorbing (g g' : CFeature -> CFeature) (l : list ptr)
    (h : ptr -> CFeature) (q : ptr) :
  (forall f, g (g f) = g f) ->
  upd_all g l h q = if mem q l then g (h q) else h q.
Proof.
  intros Hg. revert h. induction l as [|a tl IH]; intros h; [reflexivity|].
  unfold upd_all in *. cbn [fold_left mem existsb]. rewrite IH. fold (mem q tl).
  unfold upd. destruct (Nat.eqb q a) eqn:E.
  - apply Nat.eqb_eq in E. subst. cbn [orb].
    destruct (mem a tl); [apply Hg|reflexivity].
  - cbn [orb]. reflexivity.
Qed.

(** X16.  [Update] absorbs an earlier [Update]: after two of them every
    object, and the drawer, are as after the second alone, whatever time
    offset the first one used. *)
Theorem a_later_update_overrides_an_earlier_one (G G' : Globals) (w : World) :
  (forall p, heap (Update G (Update G' w)) p = heap (Update G w) p)
  /\ fd (Update G (Update G' w)) = fd w
  /\ drawFrame (Update G (Update G' w)) = drawFrame w.
Proof.
  split; [|split; reflexivity].
  intros p. rewrite !Update_heap.
  change (unsortedFeatures (fd (Update G' w))) with (unsortedFeatures (fd w)).
  set (g := fun f => snd (SetDrawAlphaValue_default G (UpdateDrawPos G f) None)).
  set (g' := fun f => snd (SetDrawAlphaValue_default G' (UpdateDrawPos G' f) None)).
  assert (Hg : forall f, g (g f) = g f) by (intros f; destruct f; reflexivity).
  assert (Hg' : forall f, g' (g' f) = g' f) by (intros f; destruct f; reflexivity).
  assert (Hgg : forall f, g (g' f) = g f) by (intros f; destruct f; reflexivity).
  rewrite (upd_all_absorbing g g _ _ p Hg).
  rewrite (upd_all_absorbing g' g' _ _ p Hg').
  rewrite (upd_all_absorbing g g _ (heap w) p Hg).
  destruct (mem p (unsortedFeatures (fd w))); [apply Hgg|reflexivity].
Qed.

Lemma set_inShadowPass_twice (d : CFeatureDrawer) (a b : bool) :
  set_inShadowPass (set_inShadowPass d a) b = set_inShadowPass d b.
Proof. reflexivity. Qed.

Lemma DrawQuad_inShadowPass (G : Globals) (qd : CFeatureQuadDrawer) (w : World) (x y : Z)
    (b : bool) :
  DrawQuad G qd (mkWorld (heap w) (set_inShadowPass (fd w) b) (drawFrame w)) x y
  = mkWorld (heap (DrawQuad G qd w x y))
            (set_inShadowPass (fd (DrawQuad G qd w x y)) b)
            (drawFrame (DrawQuad G qd w x y)).
Proof.
  unfold DrawQuad. cbn [fd heap drawFrame set_inShadowPass modelRenderers].
  destruct (cell_at (modelRenderers (fd w)) (y * qd_drawQuadsX qd + x)); reflexivity.
Qed.

Lemma fold_DrawQuad_inShadowPass (G : Globals) (qd : CFeatureQuadDrawer)
    (l : list (Z * Z)) (w : World) (b : bool) :
  fold_left (fun w xy => DrawQuad G qd w (fst xy) (snd xy)) l
            (mkWorld (heap w) (set_inShadowPass (fd w) b) (drawFrame w))
  = let w' := fold_left (fun w xy => DrawQuad G qd w (fst xy) (snd xy)) l w in
    mkWorld (heap w') (set_inShadowPass (fd w') b) (drawFrame w').
Proof.
  revert w. induction l as [|xy tl IH]; intros w; [reflexivity|].
  cbn [fold_left]. rewrite DrawQuad_inShadowPass. apply IH.
Qed.

Lemma set_inShadowPass_same (d : CFeatureDrawer) :
  set_inShadowPass d (inShadowPass d) = d.
Proof. destruct d. reflexivity. Qed.

Lemma shadow_batch_calls (G : Globals) (w : World) (modelType : nat) (call : Call) :
  inShadowPass (fd w) = true ->
  In call (DrawOpaqueFeatures G w modelType) ->
  (exists k, call = BindModelTypeTexture modelType k)
  \/ (exists p, call = FarTextureQueue p \/ call = ShadowMaterialObject p
                \/ call = DrawFeature p).
Proof.
  intros Hs H. apply batch_in in H.
  destruct H as [(c & k & fs & _ & _ & E)|(c & p & _ & _ & H)].
  - left. exists k. exact E.
  - right. exists p. unfold DrawOpaqueFeatures_feature in H. rewrite Hs in H.
    cbn [negb andb] in H.
    repeat match type of H with
           | In _ (if ?b then _ else _) => destruct b
           end; cbn in H; intuition.
Qed.

(** Only the calls that the batchers hand on unchanged reach a
    collaborator: [DrawFeature] and [SetFeatureAlphaDrawState] are expanded
    into rendering calls. *)
Lemma issued_Collab (L : LuaHooks) (w : World) (call c : Call) :
  In (Collab c) (issued L w call) ->
  c = call /\ (forall p, call <> DrawFeature p).
Proof.
  destruct call; cbn [issued];
    try (intros [H|[]]; inversion H; subst; split; [reflexivity|intros q X; discriminate X]).
  - unfold SetFeatureAlphaDrawState_calls. destruct ffp; cbn [app In];
      intros H; exfalso; intuition discriminate.
  - unfold CFeatureDrawer_DrawFeature, DrawFeatureNoTrans, DrawFeatureModel.
    cbn [Z.eqb negb app andb].
    destruct (luaDraw (heap w p)); [destruct (LuaDrawFeature L p)|]; cbn [app In];
      intros H; exfalso; intuition discriminate.
Qed.

(** X17.  The shadow pass leaves the drawer as a visibility pass for the
    shadow camera does, with [inShadowPass] cleared again; among all the
    calls it issues, those to the collaborators of the batchers are texture
    bindings, shadow material objects and far-texture requests: it sets no
    team colour and collects no opaque or alpha material object. *)
Theorem shadow_pass_restores_the_drawer (G : Globals) (L : LuaHooks) (w : World) :
  let w' := fst (CFeatureDrawer_DrawShadowPass G L w) in
  let wv := GetVisibleFeatures G w (shadowCamera G) false in
  heap w' = heap wv /\ drawFrame w' = drawFrame wv
  /\ fd w' = set_inShadowPass (fd wv) false
  /\ (inShadowPass (fd w) = false -> w' = wv)
  /\ forall c, In (Collab c) (snd (CFeatureDrawer_DrawShadowPass G L w)) ->
       (exists mt k, c = BindModelTypeTexture mt k)
       \/ (exists p, c = FarTextureQueue p \/ c = ShadowMaterialObject p).
Proof.
  cbn zeta. unfold CFeatureDrawer_DrawShadowPass. cbn [fst snd].
  assert (E : GetVisibleFeatures G
                (mkWorld (heap w) (set_inShadowPass (fd w) true) (drawFrame w))
                (shadowCamera G) false
              = mkWorld (heap (GetVisibleFeatures G w (shadowCamera G) false))
                  (set_inShadowPass (fd (GetVisibleFeatures G w (shadowCamera G) false))
                     true)
                  (drawFrame (GetVisibleFeatures G w (shadowCamera G) false))).
  { unfold GetVisibleFeatures.
    exact (fold_DrawQuad_inShadowPass G
             (quad_drawer G
                (set_camVisibleQuadFlags (fd w)
                   (fun t => if t =? camType (shadowCamera G) then drawFrame w
                             else camVisibleQuadFlags (fd w) t))
                (shadowCamera G) false)
             (GridVisibility G (shadowCamera G))
             (mkWorld (heap w)
                (set_camVisibleQuadFlags (fd w)
                   (fun t => if t =? camType (shadowCamera G) then drawFrame w
                             else camVisibleQuadFlags (fd w) t))
                (drawFrame w)) true). }
  rewrite E. cbn [heap fd drawFrame]. set (wv := GetVisibleFeatures G w _ _).
  split; [reflexivity|]. split; [reflexivity|]. split; [reflexivity|]. split.
  - intros Hs.
    assert (S : inShadowPass (fd wv) = false).
    { pose proof (GetVisibleFeatures_shape G w (shadowCamera G) false) as X.
      fold wv in X. apply (f_equal snd) in X. cbn in X. congruence. }
    rewrite set_inShadowPass_twice, <- S, set_inShadowPass_same.
    destruct wv. reflexivity.
  - intros c H.
    set (w2 := mkWorld (heap wv) (set_inShadowPass (fd wv) true) (drawFrame wv)) in *.
    assert (Hs : inShadowPass (fd w2) = true) by reflexivity.
    assert (B : forall mt, In (Collab c) (flat_map (issued L w2) (DrawOpaqueFeatures G w2 mt)) ->
                  (exists mt k, c = BindModelTypeTexture mt k)
                  \/ (exists p, c = FarTextureQueue p \/ c = ShadowMaterialObject p)).
    { intros mt Hin. apply in_flat_map in Hin. destruct Hin as (call & Hc & Hi).
      apply issued_Collab in Hi. destruct Hi as [-> Hn].
      destruct (shadow_batch_calls G w2 mt call Hs Hc) as [[k X]|[p [X|[X|X]]]].
      - left. eauto.
      - right. eauto.
      - right. eauto.
      - exfalso. exact (Hn p X). }
    repeat (apply in_app_or in H; destruct H as [H|H]);
      try (cbn [In] in H; exfalso; intuition discriminate).
    + exact (B _ H).
    + apply in_flat_map in H. destruct H as (mt & _ & H). exact (B _ H).
Qed.

End Passes2.

(** ** The rendering calls in full *)

Section Nesting.

Context {FO : FloatOps} {EC : EngineConsts}.

Lemma nested_app (l1 l2 : list GLCall) (s : list Bracket) :
  nested s (l1 ++ l2) =
    match nested s l1 with
    | Some s' => nested s' l2
    | None => None
    end.
Proof.
  revert s. induction l1 as [|c tl IH]; intros s; [reflexivity|].
  cbn [app nested]. destruct (opens c); [apply IH|].
  destruct (closes c); [|apply IH].
  destruct s as [|b' s]; [reflexivity|]. destruct (Bracket_eqb _ _); [apply IH|reflexivity].
Qed.

Lemma Bracket_eqb_refl (b : Bracket) : Bracket_eqb b b = true.
Proof.
  destruct b; cbn; try reflexivity; try apply Nat.eqb_refl; apply Bool.eqb_reflx.
Qed.

Lemma neutral_nil : neutral [].
Proof. intros s. reflexivity. Qed.

Lemma neutral_app (l1 l2 : list GLCall) : neutral l1 -> neutral l2 -> neutral (l1 ++ l2).
Proof. intros H1 H2 s. rewrite nested_app, H1. apply H2. Qed.

Lemma neutral_flat_map {A : Type} (f : A -> list GLCall) (l : list A) :
  (forall a, In a l -> neutral (f a)) -> neutral (flat_map f l).
Proof.
  induction l as [|a tl IH]; intros H; [apply neutral_nil|].
  cbn [flat_map]. apply neutral_app; [apply H; left; reflexivity|].
  apply IH. intros b Hb. apply H. right. exact Hb.
Qed.

Lemma neutral_plain (c : GLCall) : opens c = None -> closes c = None -> neutral [c].
Proof. intros H1 H2 s. cbn [nested]. rewrite H1, H2. reflexivity. Qed.

Lemma neutral_pair (o c : GLCall) (b : Bracket) (l : list GLCall) :
  opens o = Some b -> opens c = None -> closes c = Some b ->
  neutral l -> neutral ([o] ++ l ++ [c]).
Proof.
  intros Ho Hc1 Hc2 Hl s. cbn [app nested]. rewrite Ho, nested_app, Hl.
  cbn [nested]. rewrite Hc1, Hc2, Bracket_eqb_refl. reflexivity.
Qed.

Lemma neutral_DrawFeatureModel (L : LuaHooks) (w : World) (p : ptr) (noLuaCall : bool) :
  neutral (DrawFeatureModel L w p noLuaCall).
Proof.
  unfold DrawFeatureModel.
  destruct (negb noLuaCall && luaDraw (heap w p)); [destruct (LuaDrawFeature L p)|];
    intros s; reflexivity.
Qed.

Lemma neutral_DrawFeatureNoTrans (L : LuaHooks) (w : World) (p : ptr) (preList postList : Z)
    (lodCall noLuaCall : bool) :
  neutral (DrawFeatureNoTrans L w p preList postList lodCall noLuaCall).
Proof.
  unfold DrawFeatureNoTrans. apply neutral_app; [|apply neutral_app].
  - destruct (negb _); intros s; reflexivity.
  - apply neutral_DrawFeatureModel.
  - destruct (negb _); intros s; reflexivity.
Qed.

Lemma neutral_DrawFeature (L : LuaHooks) (w : World) (p : ptr) (preList postList : Z)
    (lodCall noLuaCall : bool) :
  neutral (CFeatureDrawer_DrawFeature L w p preList postList lodCall noLuaCall).
Proof.
  unfold CFeatureDrawer_DrawFeature.
  change ([glPushMatrix; glMultMatrixf p]
          ++ DrawFeatureNoTrans L w p preList postList lodCall noLuaCall ++ [glPopMatrix])
    with ([glPushMatrix]
          ++ ([glMultMatrixf p]
              ++ DrawFeatureNoTrans L w p preList postList lodCall noLuaCall)
          ++ [glPopMatrix]).
  apply (neutral_pair _ _ BMatrix); try reflexivity.
  apply neutral_app; [intros s; reflexivity|apply neutral_DrawFeatureNoTrans].
Qed.

Lemma neutral_issued (L : LuaHooks) (w : World) (c : Call) : neutral (issued L w c).
Proof.
  destruct c; try (intros s; reflexivity).
  - unfold issued, SetFeatureAlphaDrawState_calls. destruct ffp; intros s; reflexivity.
  - apply neutral_DrawFeature.
Qed.

Lemma neutral_batches (L : LuaHooks) (w : World) (batch : nat -> list Call)
    (mts : list nat) :
  neutral (flat_map
             (fun modelType =>
                [PushModelRenderState modelType]
                ++ flat_map (issued L w) (batch modelType)
                ++ [PopModelRenderState modelType]) mts).
Proof.
  apply neutral_flat_map. intros mt _.
  apply (neutral_pair _ _ (BModelState mt)); try reflexivity.
  apply neutral_flat_map. intros c _. apply neutral_issued.
Qed.

Lemma neutral_individual (w : World) (p : ptr) (l : list GLCall) :
  neutral l ->
  neutral (PushIndividualState w p false ++ l ++ PopIndividualState w p false).
Proof.
  intros Hl s. unfold PushIndividualState, PopIndividualState.
  cbn [app nested opens closes]. rewrite nested_app, Hl.
  cbn [nested opens closes Bracket_eqb Bool.eqb]. rewrite Nat.eqb_refl. reflexivity.
Qed.

(** X18.  The functions drawing one object and the three passes issue
    their state changes in properly nested, matching pairs, and leave open
    exactly what was open before: every [glPushMatrix] has its
    [glPopMatrix], every [glPushAttrib] its [glPopAttrib], every render
    state pushed for a model type or an object is popped for the same one,
    opaque and alpha drawing are set up and reset with the same argument,
    and the shadow program is disabled again. *)
Theorem state_changes_are_nested (G : Globals) (L : LuaHooks) (w : World) (p : ptr)
    (preList postList : Z) (lodCall noLuaCall deferredPass drawDebug : bool)
    (stack : list Bracket) :
  nested stack (CFeatureDrawer_DrawFeature L w p preList postList lodCall noLuaCall)
  = Some stack
  /\ nested stack (DrawFeatureNoTrans L w p preList postList lodCall noLuaCall)
     = Some stack
  /\ nested stack (snd (DrawIndividual L w p noLuaCall drawDebug)) = Some stack
  /\ nested stack (snd (DrawIndividualNoTrans L w p noLuaCall drawDebug)) = Some stack
  /\ nested stack (CFeatureDrawer_DrawOpaquePass G L w deferredPass) = Some stack
  /\ nested stack (snd (CFeatureDrawer_DrawAlphaPass G L w)) = Some stack
  /\ nested stack (snd (CFeatureDrawer_DrawShadowPass G L w)) = Some stack.
Proof.
  split; [apply neutral_DrawFeature|]. split; [apply neutral_DrawFeatureNoTrans|].
  split; [|split; [|split; [|split]]].
  - unfold DrawIndividual. cbn [snd].
    apply neutral_app; [intros s; reflexivity|]. apply neutral_app; [|intros s; reflexivity].
    destruct (negb _); [|apply neutral_nil].
    apply neutral_individual. apply neutral_DrawFeature.
  - unfold DrawIndividualNoTrans. cbn [snd].
    apply neutral_app; [intros s; reflexivity|]. apply neutral_app; [|intros s; reflexivity].
    destruct (negb _); [|apply neutral_nil].
    apply neutral_individual. apply neutral_DrawFeatureNoTrans.
  - unfold CFeatureDrawer_DrawOpaquePass.
    set (body := flat_map _ (model_types_from MODELTYPE_3DO)).
    assert (Hb : neutral body) by apply neutral_batches.
    cbn [app nested opens closes]. rewrite nested_app, Hb.
    cbn [app nested opens closes Bracket_eqb]. rewrite Bool.eqb_reflx. reflexivity.
  - unfold CFeatureDrawer_DrawAlphaPass. cbn [snd].
    set (w1 := mkWorld _ _ _).
    set (body := flat_map _ (model_types_from MODELTYPE_3DO)).
    assert (Hb : neutral body) by apply neutral_batches.
    cbn [app nested opens closes]. rewrite nested_app, Hb. reflexivity.
  - unfold CFeatureDrawer_DrawShadowPass. cbn [snd].
    set (w2 := GetVisibleFeatures _ _ _ _).
    set (b1 := flat_map (issued L w2) _).
    set (b2 := flat_map _ (model_types_from MODELTYPE_S3O)).
    assert (H1 : neutral b1).
    { apply neutral_flat_map. intros c _. apply neutral_issued. }
    assert (H2 : neutral b2).
    { apply neutral_flat_map. intros mt _. apply neutral_flat_map. intros c _.
      apply neutral_issued. }
    cbn [app nested opens closes].
    rewrite nested_app, H1. cbn [app nested opens closes].
    rewrite nested_app, H2. reflexivity.
Qed.

End Nesting.

Section ModelDraws.

Context {FO : FloatOps} {EC : EngineConsts}.

Lemma model_draws_app_in (l l' : list GLCall) (cur : option ptr * option float)
    (x : ptr * (option ptr * option float)) :
  In x (model_draws cur (l ++ l')) ->
  In x (model_draws cur l) \/ exists cur', In x (model_draws cur' l').
Proof.
  revert cur. induction l as [|c tl IH]; intros cur H.
  - right. exists cur. exact H.
  - destruct c; cbn [app model_draws] in *; try (apply IH; exact H).
    destruct H as [H|H]; [left; left; exact H|].
    destruct (IH cur H) as [X|X]; [left; right; exact X|right; exact X].
Qed.

Lemma model_draws_flat_map_in {A : Type} (f : A -> list GLCall) (l : list A)
    (cur : option ptr * option float) (x : ptr * (option ptr * option float)) :
  In x (model_draws cur (flat_map f l)) ->
  exists a cur', In a l /\ In x (model_draws cur' (f a)).
Proof.
  revert cur. induction l as [|a tl IH]; intros cur H; [contradiction|].
  cbn [flat_map] in H. apply model_draws_app_in in H. destruct H as [H|[cur' H]].
  - exists a, cur. split; [left; reflexivity|exact H].
  - destruct (IH cur' H) as (b & c & Hb & Hc). exists b, c. split; [right; exact Hb|exact Hc].
Qed.

(** [DrawFeatureNoTrans] draws the model under the matrix it finds. *)
Lemma model_draws_DrawFeatureNoTrans (L : LuaHooks) (w : World) (p : ptr)
    (preList postList : Z) (lodCall noLuaCall : bool) (cur : option ptr * option float)
    (x : ptr * (option ptr * option float)) :
  In x (model_draws cur (DrawFeatureNoTrans L w p preList postList lodCall noLuaCall)) ->
  x = (p, cur).
Proof.
  unfold DrawFeatureNoTrans, DrawFeatureModel.
  destruct (negb (preList =? 0)), (negb (postList =? 0)),
    (negb noLuaCall && luaDraw (heap w p)), (LuaDrawFeature L p); cbn;
    intuition.
Qed.

(** [DrawFeature] draws it under the transform of the object. *)
Lemma model_draws_DrawFeature (L : LuaHooks) (w : World) (p : ptr)
    (preList postList : Z) (lodCall noLuaCall : bool) (cur : option ptr * option float)
    (x : ptr * (option ptr * option float)) :
  In x (model_draws cur
          (CFeatureDrawer_DrawFeature L w p preList postList lodCall noLuaCall)) ->
  x = (p, (Some p, snd cur)).
Proof.
  unfold CFeatureDrawer_DrawFeature. cbn [app model_draws fst snd]. intros H.
  apply model_draws_app_in in H. destruct H as [H|[cur' H]].
  - exact (model_draws_DrawFeatureNoTrans L w p _ _ _ _ _ x H).
  - cbn in H. contradiction.
Qed.

Lemma model_draws_issued (L : LuaHooks) (w : World) (c : Call)
    (cur : option ptr * option float) (x : ptr * (option ptr * option float)) :
  In x (model_draws cur (issued L w c)) ->
  exists p, c = DrawFeature p /\ x = (p, (Some p, snd cur)).
Proof.
  destruct c; cbn [issued model_draws]; try contradiction.
  - unfold SetFeatureAlphaDrawState_calls. destruct ffp; cbn; contradiction.
  - intros H. eexists. split; [reflexivity|].
    eapply model_draws_DrawFeature. exact H.
Qed.

Lemma model_draws_batches (L : LuaHooks) (w : World) (batch : nat -> list Call)
    (mts : list nat) (cur : option ptr * option float)
    (x : ptr * (option ptr * option float)) :
  In x (model_draws cur
          (flat_map
             (fun modelType =>
                [PushModelRenderState modelType]
                ++ flat_map (issued L w) (batch modelType)
                ++ [PopModelRenderState modelType]) mts)) ->
  exists mt cur', In mt mts
                  /\ In x (model_draws cur' (flat_map (issued L w) (batch mt))).
Proof.
  intros H. apply model_draws_flat_map_in in H. destruct H as (mt & cur1 & Hmt & H).
  cbn [app model_draws] in H. apply model_draws_app_in in H.
  destruct H as [H|[cur2 H]]; [|cbn in H; contradiction].
  exists mt, cur1. auto.
Qed.

Lemma model_draws_issued_calls (L : LuaHooks) (w : World) (calls : list Call)
    (cur : option ptr * option float) (p : ptr) (t : option ptr) (a : option float) :
  In (p, (t, a)) (model_draws cur (flat_map (issued L w) calls)) -> t = Some p.
Proof.
  intros H. apply model_draws_flat_map_in in H. destruct H as (c & cur' & _ & H).
  apply model_draws_issued in H. destruct H as (q & _ & E). inversion E. reflexivity.
Qed.

(** The calls of an alpha batch, object by object. *)
Lemma issued_batch (L : LuaHooks) (w : World) (modelType : nat) (body : ptr -> list Call)
    (cells : list ModelRendererProxy) :
  flat_map (issued L w)
     (flat_map
        (fun c =>
           flat_map
             (fun binElem =>
                BindModelTypeTexture modelType (fst binElem) :: flat_map body (snd binElem))
             (GetRenderer c modelType))
        cells)
  = flat_map
      (fun c =>
         flat_map
           (fun binElem =>
              Collab (BindModelTypeTexture modelType (fst binElem))
              :: flat_map (fun q => flat_map (issued L w) (body q)) (snd binElem))
           (GetRenderer c modelType))
      cells.
Proof.
  rewrite flat_map_flat_map. apply flat_map_ext. intros c.
  rewrite flat_map_flat_map. apply flat_map_ext. intros [k fs]. cbn [fst snd flat_map issued app].
  f_equal. apply flat_map_flat_map.
Qed.

Lemma model_draws_alpha_body (G : Globals) (L : LuaHooks) (w : World) (ffp : bool)
    (q : ptr) (cur : option ptr * option float) (x : ptr * (option ptr * option float)) :
  In x (model_draws cur (flat_map (issued L w) (DrawAlphaFeatures_feature G w ffp q))) ->
  x = (q, (Some q, Some (fmul (drawAlpha (heap w q)) fhalf))).
Proof.
  unfold DrawAlphaFeatures_feature.
  repeat match goal with
         | |- context [if ?b then _ else _] =>
             lazymatch b with
             | context [if _ then _ else _] => fail
             | _ => destruct b
             end
         end; try (cbn; contradiction).
  cbn [flat_map issued app]. unfold SetFeatureAlphaDrawState_calls.
  rewrite app_nil_r. intros H.
  assert (H' : In x (model_draws (fst cur, Some (fmul (drawAlpha (heap w q)) fhalf))
                       (CFeatureDrawer_DrawFeature L w q 0 0 false false))).
  { destruct ffp; cbn [app model_draws fst snd] in H; exact H. }
  exact (model_draws_DrawFeature L w q _ _ _ _ _ x H').
Qed.

(** X19.  Every model that [DrawFeature], [DrawIndividual] or a pass
    draws is drawn under the transform of its own object, multiplied onto a
    matrix pushed for it; [DrawFeatureNoTrans] and [DrawIndividualNoTrans]
    draw under the matrix they find.  In the alpha pass the alpha test in
    force for a model has the reference value [drawAlpha * 0.5f] of its
    object. *)
Theorem models_are_drawn_under_their_own_transform (G : Globals) (L : LuaHooks)
    (w : World) (q : ptr) (preList postList : Z)
    (lodCall noLuaCall deferredPass drawDebug : bool)
    (cur : option ptr * option float) (p : ptr) (t : option ptr) (a : option float) :
  (In (p, (t, a))
      (model_draws cur
         (CFeatureDrawer_DrawFeature L w q preList postList lodCall noLuaCall))
   \/ In (p, (t, a)) (model_draws cur (snd (DrawIndividual L w q noLuaCall drawDebug))) ->
   p = q /\ t = Some q)
  /\ (In (p, (t, a))
         (model_draws cur (DrawFeatureNoTrans L w q preList postList lodCall noLuaCall))
      \/ In (p, (t, a))
            (model_draws cur (snd (DrawIndividualNoTrans L w q noLuaCall drawDebug))) ->
      p = q /\ t = fst cur)
  /\ (In (p, (t, a)) (model_draws cur (CFeatureDrawer_DrawOpaquePass G L w deferredPass))
      \/ In (p, (t, a)) (model_draws cur (snd (CFeatureDrawer_DrawShadowPass G L w))) ->
      t = Some p)
  /\ (In (p, (t, a)) (model_draws cur (snd (CFeatureDrawer_DrawAlphaPass G L w))) ->
      t = Some p /\ a = Some (fmul (drawAlpha (heap w p)) fhalf)).
Proof.
  split; [|split; [|split]].
  - intros [H|H].
    + apply model_draws_DrawFeature in H. inversion H. auto.
    + unfold DrawIndividual in H. cbn [snd app model_draws] in H.
      apply model_draws_app_in in H. destruct H as [H|[c H]]; [|cbn in H; contradiction].
      destruct (negb (DrawSingleObject L q)); [|contradiction].
      unfold PushIndividualState in H. cbn [app model_draws] in H.
      apply model_draws_app_in in H. destruct H as [H|[c H]]; [|cbn in H; contradiction].
      apply model_draws_DrawFeature in H. inversion H. auto.
  - intros [H|H].
    + apply model_draws_DrawFeatureNoTrans in H. inversion H. destruct cur. auto.
    + unfold DrawIndividualNoTrans in H. cbn [snd app model_draws] in H.
      apply model_draws_app_in in H. destruct H as [H|[c H]]; [|cbn in H; contradiction].
      destruct (negb (DrawSingleObjectNoTrans L q)); [|contradiction].
      unfold PushIndividualState in H. cbn [app model_draws] in H.
      apply model_draws_app_in in H. destruct H as [H|[c H]]; [|cbn in H; contradiction].
      apply model_draws_DrawFeatureNoTrans in H. inversion H. destruct cur. auto.
  - intros [H|H].
    + unfold CFeatureDrawer_DrawOpaquePass in H. cbn [app model_draws] in H.
      apply model_draws_app_in in H. destruct H as [H|[c H]]; [|cbn in H; contradiction].
      apply model_draws_batches in H. destruct H as (mt & cur' & _ & H).
      exact (model_draws_issued_calls L w _ cur' p t a H).
    + unfold CFeatureDrawer_DrawShadowPass in H. cbn [snd app model_draws fst] in H.
      apply model_draws_app_in in H. destruct H as [H|[c H]].
      { exact (model_draws_issued_calls L _ _ _ p t a H). }
      cbn [app model_draws] in H.
      apply model_draws_app_in in H. destruct H as [H|[c' H]]; [|cbn in H; contradiction].
      apply model_draws_flat_map_in in H. destruct H as (mt & cur' & _ & H).
      exact (model_draws_issued_calls L _ _ _ p t a H).
  - intros H. unfold CFeatureDrawer_DrawAlphaPass in H. cbn [snd app model_draws fst] in H.
    apply model_draws_app_in in H. destruct H as [H|[c H]]; [|cbn in H; contradiction].
    apply model_draws_batches in H. destruct H as (mt & cur' & _ & H).
    unfold DrawAlphaFeatures in H. cbv zeta in H. rewrite issued_batch in H.
    apply model_draws_flat_map_in in H. destruct H as (c & cur1 & _ & H).
    apply model_draws_flat_map_in in H. destruct H as ([k fs] & cur2 & _ & H).
    cbn [fst snd model_draws] in H.
    apply model_draws_flat_map_in in H. destruct H as (r & cur3 & _ & H).
    apply model_draws_alpha_body in H. inversion H. auto.
Qed.

End ModelDraws.

Section ModelsOnce.

Context {FO : FloatOps} {EC : EngineConsts}.

Lemma models_app (l1 l2 : list GLCall) : models (l1 ++ l2) = models l1 ++ models l2.
Proof. unfold models. apply flat_map_app. Qed.

Lemma models_flat_map {A : Type} (f : A -> list GLCall) (l : list A) :
  models (flat_map f l) = flat_map (fun a => models (f a)) l.
Proof.
  induction l as [|a tl IH]; [reflexivity|].
  cbn [flat_map]. rewrite models_app, IH. reflexivity.
Qed.

Lemma models_DrawFeature (L : LuaHooks) (w : World) (p : ptr) :
  models (CFeatureDrawer_DrawFeature L w p 0 0 false false) =
    if luaDraw (heap w p) && LuaDrawFeature L p then [] else [p].
Proof.
  unfold CFeatureDrawer_DrawFeature, DrawFeatureNoTrans, DrawFeatureModel.
  cbn [negb andb Z.eqb app].
  destruct (luaDraw (heap w p)), (LuaDrawFeature L p); reflexivity.
Qed.

Lemma models_issued (L : LuaHooks) (w : World) (c : Call) :
  models (issued L w c) = [] \/ models (issued L w c) = submitted [c].
Proof.
  destruct c; try (left; reflexivity).
  - left. unfold issued, SetFeatureAlphaDrawState_calls. destruct ffp; reflexivity.
  - cbn [issued]. rewrite models_DrawFeature.
    destruct (luaDraw _ && _); [left|right]; reflexivity.
Qed.

(** Selecting from each element nothing or all keeps a list free of
    duplicates. *)
Lemma NoDup_flat_map_sub {A : Type} (h s : A -> list ptr) (l : list A) :
  (forall a, h a = [] \/ h a = s a) -> NoDup (flat_map s l) -> NoDup (flat_map h l).
Proof.
  intros Hh. induction l as [|a tl IH]; intros Hn; [constructor|].
  cbn [flat_map] in *.
  assert (Hin : forall x, In x (flat_map h tl) -> In x (flat_map s tl)).
  { intros x Hx. apply in_flat_map in Hx. destruct Hx as (b & Hb & Hx).
    apply in_flat_map. exists b. split; [exact Hb|].
    destruct (Hh b) as [E|E]; rewrite E in Hx; [contradiction|exact Hx]. }
  pose proof (NoDup_app_remove_l _ _ Hn) as Htl.
  destruct (Hh a) as [E|E]; rewrite E; [exact (IH Htl)|].
  apply NoDup_app; [exact (NoDup_app_remove_r _ _ Hn)|exact (IH Htl)|].
  intros x Hx Hy. apply (NoDup_app_disjoint _ _ x Hn Hx). apply Hin. exact Hy.
Qed.

Lemma models_issued_calls_NoDup (L : LuaHooks) (w : World) (calls : list Call) :
  NoDup (submitted calls) -> NoDup (models (flat_map (issued L w) calls)).
Proof.
  intros H. rewrite models_flat_map.
  apply (NoDup_flat_map_sub _ (fun c => submitted [c])); [apply models_issued|].
  unfold submitted in *. cbn [flat_map].
  erewrite flat_map_ext; [exact H|]. intros c. apply app_nil_r.
Qed.

Lemma models_batches (L : LuaHooks) (w : World) (batch : nat -> list Call)
    (mts : list nat) :
  models (flat_map
            (fun modelType =>
               [PushModelRenderState modelType]
               ++ flat_map (issued L w) (batch modelType)
               ++ [PopModelRenderState modelType]) mts)
  = models (flat_map (issued L w) (flat_map batch mts)).
Proof.
  rewrite (flat_map_flat_map (issued L w) batch mts), !models_flat_map.
  apply flat_map_ext. intros mt. rewrite !models_app. cbn. apply app_nil_r.
Qed.

Lemma alpha_batches_NoDup (G : Globals) (w : World) (mts : list nat) :
  grid_inv w -> NoDup mts ->
  NoDup (submitted
           (flat_map (DrawAlphaFeatures G
                        (mkWorld (heap w) (set_inAlphaPass (fd w) true) (drawFrame w)))
                     mts)).
Proof.
  intros Hg Hn.
  set (w1 := mkWorld (heap w) (set_inAlphaPass (fd w) true) (drawFrame w)).
  assert (E : submitted (flat_map (DrawAlphaFeatures G w1) mts)
              = flat_map (fun p => submitted
                            (DrawAlphaFeatures_feature G w1 (negb (CanDrawAlpha G)) p))
                  (flat_map (pass_reads w) mts)).
  { rewrite submitted_flat_map, flat_map_flat_map. apply flat_map_ext. intros mt.
    apply batch_submitted. }
  rewrite E. apply NoDup_flat_map_select; [apply alpha_feature_submitted|].
  apply passes_reads_NoDup; assumption.
Qed.

(** X20.  On a consistent grid no pass draws a model twice: the models
    drawn by the opaque pass, by the alpha pass and (when
    [MODELTYPE_3DO < MODELTYPE_S3O]) by the shadow pass are pairwise
    different. *)
Theorem no_model_is_drawn_twice (G : Globals) (L : LuaHooks) (w : World)
    (deferredPass : bool) :
  grid_inv w ->
  NoDup (models (CFeatureDrawer_DrawOpaquePass G L w deferredPass))
  /\ NoDup (models (snd (CFeatureDrawer_DrawAlphaPass G L w)))
  /\ ((MODELTYPE_3DO < MODELTYPE_S3O)%nat ->
      NoDup (models (snd (CFeatureDrawer_DrawShadowPass G L w)))).
Proof.
  intros Hg. split; [|split].
  - unfold CFeatureDrawer_DrawOpaquePass. rewrite !models_app, models_batches.
    cbn [models flat_map app]. rewrite app_nil_r.
    apply models_issued_calls_NoDup.
    apply opaque_batches_NoDup; [exact Hg|apply model_types_from_NoDup].
  - unfold CFeatureDrawer_DrawAlphaPass. cbn [snd].
    rewrite !models_app, models_batches.
    cbn [models flat_map app]. rewrite app_nil_r.
    apply models_issued_calls_NoDup.
    apply alpha_batches_NoDup; [exact Hg|apply model_types_from_NoDup].
  - intros Lt. unfold CFeatureDrawer_DrawShadowPass. cbn [snd].
    set (w2 := GetVisibleFeatures G _ _ _).
    assert (Hg2 : grid_inv w2).
    { apply grid_inv_GetVisibleFeatures. apply grid_inv_set_inShadowPass. exact Hg. }
    rewrite !models_app.
    rewrite <- (flat_map_flat_map (issued L w2) (DrawOpaqueFeatures G w2)
                  (model_types_from MODELTYPE_S3O)).
    cbn [models flat_map app]. rewrite app_nil_r.
    fold (models (flat_map (issued L w2) (DrawOpaqueFeatures G w2 MODELTYPE_3DO))).
    fold (models (flat_map (issued L w2)
                    (flat_map (DrawOpaqueFeatures G w2) (model_types_from MODELTYPE_S3O)))).
    rewrite <- models_app, <- flat_map_app.
    apply models_issued_calls_NoDup.
    change (DrawOpaqueFeatures G w2 MODELTYPE_3DO
            ++ flat_map (DrawOpaqueFeatures G w2) (model_types_from MODELTYPE_S3O))
      with (flat_map (DrawOpaqueFeatures G w2)
              (MODELTYPE_3DO :: model_types_from MODELTYPE_S3O)).
    apply opaque_batches_NoDup; [exact Hg2|].
    constructor; [|apply model_types_from_NoDup].
    unfold model_types_from. intros H. apply in_seq in H. lia.
Qed.

End ModelsOnce.

(** ** When the assertions of the source hold *)

Section Asserts.

Context {FO : FloatOps} {EC : EngineConsts}.

Lemma DrawQuad_asserts_inv (L : list ptr) (qd : CFeatureQuadDrawer) (w : World) (x y : Z) :
  grid_inv_for L w -> DrawQuad_asserts qd w x y.
Proof.
  intros Hg. unfold DrawQuad_asserts.
  destruct (cell_at (modelRenderers (fd w)) (y * qd_drawQuadsX qd + x)) as [cell|] eqn:Ec;
    [|exact I].
  intros p Hp. apply cell_features_in in Hp. destruct Hp as (mt & _ & Hp).
  unfold cell_at in Ec.
  destruct (y * qd_drawQuadsX qd + x <? 0) eqn:E0; [discriminate|].
  apply Z.ltb_ge in E0.
  assert (I : in_cell w (Z.to_nat (y * qd_drawQuadsX qd + x)) mt p).
  { unfold in_cell, cell_bin, bins_of. rewrite Ec. exact Hp. }
  destruct (gi_member Hg _ mt p I) as (A & _ & B & _).
  split; [rewrite B; lia|]. intros _ _. exact (proj1 (gi_live Hg p A)).
Qed.

Lemma GridVisibility_asserts_inv (G : Globals) (L : list ptr) (qd : CFeatureQuadDrawer)
    (l : list (Z * Z)) (w : World) :
  grid_inv_for L w -> GridVisibility_asserts G qd w l.
Proof.
  revert w. induction l as [|xy tl IH]; intros w Hg; [exact I|].
  cbn [GridVisibility_asserts]. split; [apply (DrawQuad_asserts_inv L); exact Hg|].
  apply IH. apply (grid_inv_same_grid L w); [apply DrawQuad_same_grid|exact Hg].
Qed.

Lemma UpdateDrawQuad_asserts_dims (w : World) (p : ptr) :
  0 < drawQuadsX (fd w) -> 0 < drawQuadsY (fd w) ->
  drawQuad (heap w p) < drawQuadsX (fd w) * drawQuadsY (fd w) ->
  UpdateDrawQuad_asserts w p.
Proof.
  intros Hx Hy Ho. unfold UpdateDrawQuad_asserts. cbv zeta.
  destruct (_ <? _); [exact I|]. destruct (_ =? _); [exact I|].
  pose proof (newDrawQuad_range (fd w) (heap w p) Hx Hy). lia.
Qed.

Lemma step_asserts_inv (w : World) (e : event) :
  grid_inv w -> event_ok w e ->
  (forall G cam drawFar, e = EvVisible G cam drawFar ->
     0 <= camType cam < camVisibleQuadFlags_size (fd w)) ->
  step_asserts w e.
Proof.
  intros Hg Hok Hcam. pose proof (gi_dims Hg) as [Hx Hy].
  destruct e as [G p f|p q|p|G| |G cam drawFar]; cbn [step_asserts]; try exact I.
  - cbv zeta. cbn [heap fd drawFrame]. intros _.
    apply UpdateDrawQuad_asserts_dims; cbn [fd heap]; try assumption.
    rewrite !upd_same. cbn. nia.
  - cbn [event_ok] in Hok. destruct Hok as [Hp|Hq].
    + apply UpdateDrawQuad_asserts_dims; cbn [fd heap]; try assumption.
      rewrite upd_same. cbn [drawQuad set_pos].
      destruct (gi_live Hg p Hp) as (_ & B & _). rewrite B.
      pose proof (newDrawQuad_range (fd w) (heap w p) Hx Hy). lia.
    + unfold UpdateDrawQuad_asserts. cbn [heap]. rewrite upd_same.
      cbn [drawQuad set_pos]. cbv zeta.
      destruct (drawQuad (heap w p) <? -1) eqn:E; [exact I|apply Z.ltb_ge in E; lia].
  - split; [exact (Hcam G cam drawFar eq_refl)|].
    cbv zeta. apply (GridVisibility_asserts_inv G (unsortedFeatures (fd w))).
    apply (grid_inv_same_grid _ w); [|exact Hg].
    unfold same_grid. repeat split; reflexivity.
Qed.

Lemma UpdateDrawQuad_size (w : World) (p : ptr) :
  camVisibleQuadFlags_size (fd (UpdateDrawQuad w p)) = camVisibleQuadFlags_size (fd w).
Proof.
  unfold UpdateDrawQuad. destruct (_ <? _); [reflexivity|].
  destruct (_ =? _); reflexivity.
Qed.

Lemma DrawQuad_size (G : Globals) (qd : CFeatureQuadDrawer) (w : World) (x y : Z) :
  camVisibleQuadFlags_size (fd (DrawQuad G qd w x y)) = camVisibleQuadFlags_size (fd w).
Proof.
  unfold DrawQuad.
  destruct (cell_at (modelRenderers (fd w)) (y * qd_drawQuadsX qd + x)); reflexivity.
Qed.

Lemma fold_DrawQuad_size (G : Globals) (qd : CFeatureQuadDrawer) (l : list (Z * Z))
    (w : World) :
  camVisibleQuadFlags_size
    (fd (fold_left (fun w xy => DrawQuad G qd w (fst xy) (snd xy)) l w))
  = camVisibleQuadFlags_size (fd w).
Proof.
  revert w. induction l as [|xy tl IH]; intros w; [reflexivity|].
  cbn [fold_left]. rewrite IH. apply DrawQuad_size.
Qed.

(** No event resizes [camVisibleQuadFlags]. *)
Lemma step_size (w : World) (e : event) :
  camVisibleQuadFlags_size (fd (step w e)) = camVisibleQuadFlags_size (fd w).
Proof.
  destruct e as [G p f|p q|p|G| |G cam drawFar]; cbn [step].
  - unfold RenderFeatureCreated. destruct (negb _); [reflexivity|].
    cbn [fd set_unsortedFeatures camVisibleQuadFlags_size].
    rewrite UpdateDrawQuad_size. reflexivity.
  - unfold FeatureMoved. rewrite UpdateDrawQuad_size. reflexivity.
  - unfold RenderFeatureDestroyed. cbn [fst].
    destruct (def_drawType (heap w p) =? DRAWTYPE_MODEL);
      destruct (model (heap w p)); try destruct (0 <=? drawQuad (heap w p)); reflexivity.
  - reflexivity.
  - reflexivity.
  - unfold GetVisibleFeatures. rewrite fold_DrawQuad_size. reflexivity.
Qed.

(** X21.  In a run the engine can issue, started on a consistent grid, no
    assertion of the source fails if and only if every visibility pass is
    requested for a camera whose type has an entry in [camVisibleQuadFlags]
    (the first [CAMTYPE_ENVMAP] types, for a drawer as constructed): this is
    the assertion of [GetVisibleFeatures].  The other assertions never
    fail: [UpdateDrawQuad] finds the old and the new cell index inside the
    grid, and [DrawQuad] finds in a cell only objects whose [drawQuad] is
    the index of that cell and that are model-drawn. *)
Theorem assertions_never_fail (evs : list event) (w : World) :
  grid_inv w -> run_ok w evs ->
  (run_asserts w evs <-> cameras_ok (fd w) evs).
Proof.
  revert w. induction evs as [|e tl IH]; intros w Hg Hok.
  - split; [intros _ G cam drawFar []|intros _; exact I].
  - destruct Hok as [H1 H2]. cbn [run_asserts].
    pose proof (IH (step w e) (step_inv w e Hg H1) H2) as IH'.
    unfold cameras_ok in *. rewrite step_size in IH'. split.
    + intros [A B] G cam drawFar [E|Hin].
      * subst e. exact (proj1 A).
      * exact (proj1 IH' B G cam drawFar Hin).
    + intros Hc. split.
      * apply step_asserts_inv; try assumption.
        intros G cam drawFar E. apply (Hc G cam drawFar). left. exact E.
      * apply IH'. intros G cam drawFar Hin. apply (Hc G cam drawFar). right. exact Hin.
Qed.

End Asserts.

(** ** The visibility pass, object by object *)

Section Classified.

Context {FO : FloatOps} {EC : EngineConsts}.

(** X22.  [SetDrawAlphaValue] writes nothing but [drawAlpha]; whenever it
    returns [false] it leaves [drawAlpha = 0.0f], and it accepts, with
    [drawAlpha = 1.0f], every non-fading object it is given a camera for. *)
Theorem SetDrawAlphaValue_reports_what_it_wrote (G : Globals) (f : CFeature)
    (cam : option CCamera) (B E : float) :
  let r := SetDrawAlphaValue G f cam B E in
  snd r = set_drawAlpha f (drawAlpha (snd r))
  /\ (fst r = false -> drawAlpha (snd r) = fzero)
  /\ (cam = None -> fst r = false)
  /\ (cam <> None -> alphaFade f = false -> fst r = true /\ drawAlpha (snd r) = fone).
Proof.
  cbn zeta. unfold SetDrawAlphaValue. destruct f. cbn -[fgeb].
  destruct cam as [c|].
  - destruct alphaFade0; cbn -[fgeb].
    + repeat match goal with
             | |- context [if ?b then _ else _] => destruct b
             end; cbn; repeat split; intros; try reflexivity; try discriminate;
        try contradiction.
    + repeat split; intros; try reflexivity; try discriminate.
  - cbn. repeat split; intros; try reflexivity; try discriminate; try contradiction.
Qed.

Lemma DrawQuad_feature_idem (G : Globals) (qd : CFeatureQuadDrawer) (f : CFeature) :
  DrawQuad_feature G qd (DrawQuad_feature G qd f) = DrawQuad_feature G qd f.
Proof.
  rewrite (DrawQuad_feature_static G qd f) at 1.
  rewrite DrawQuad_feature_old_flag.
  destruct f. unfold DrawQuad_feature.
  cbn [set_drawFlag set_drawAlpha noDraw IsInVoid IsInLosForAllyTeam IsInWater
       drawMidPos drawRadius drawAlpha drawFlag].
  destruct noDraw0; [reflexivity|]. destruct IsInVoid0; [reflexivity|].
  destruct (negb (spectatingFullView G) && negb (IsInLosForAllyTeam0 (myAllyTeam G)));
    [reflexivity|].
  destruct (drawShadowPass qd); [reflexivity|].
  destruct (drawRefraction qd && negb IsInWater0); [reflexivity|].
  match goal with
  | |- context [if ?b then _ else _] => destruct b; [reflexivity|]
  end.
  reflexivity.
Qed.

Lemma DrawQuad_heap (G : Globals) (qd : CFeatureQuadDrawer) (w : World) (x y : Z)
    (p : ptr) :
  heap (DrawQuad G qd w x y) p =
    if match cell_at (modelRenderers (fd w)) (y * qd_drawQuadsX qd + x) with
       | Some c => mem p (cell_features c)
       | None => false
       end
    then DrawQuad_feature G qd (heap w p) else heap w p.
Proof.
  unfold DrawQuad.
  destruct (cell_at (modelRenderers (fd w)) (y * qd_drawQuadsX qd + x)) as [cell|];
    [|reflexivity].
  cbn [heap]. fold (upd_all (DrawQuad_feature G qd) (cell_features cell) (heap w)).
  apply (upd_all_absorbing _ (DrawQuad_feature G qd)). apply DrawQuad_feature_idem.
Qed.

Lemma cell_at_update_cell (v : list ModelRendererProxy) (i j : Z) (fr : Z) :
  option_map cell_features
    (cell_at (update_cell v i (fun c => SetLastDrawFrame c fr)) j)
  = option_map cell_features (cell_at v j).
Proof.
  unfold cell_at. destruct (j <? 0); [reflexivity|].
  rewrite nth_error_update_cell.
  destruct ((0 <=? i) && Nat.eqb (Z.to_nat i) (Z.to_nat j)); [|reflexivity].
  destruct (nth_error v (Z.to_nat j)); reflexivity.
Qed.

Lemma in_visited_DrawQuad (G : Globals) (qd : CFeatureQuadDrawer) (w : World) (x y : Z)
    (X : Z) (l : list (Z * Z)) (p : ptr) :
  in_visited X (modelRenderers (fd (DrawQuad G qd w x y))) l p
  = in_visited X (modelRenderers (fd w)) l p.
Proof.
  destruct (DrawQuad_spec G qd w x y) as (_ & B & _). cbn zeta in B. rewrite B.
  cbn [set_modelRenderers modelRenderers]. unfold in_visited.
  induction l as [|xy tl IH]; [reflexivity|].
  cbn [existsb]. rewrite IH. f_equal.
  pose proof (cell_at_update_cell (modelRenderers (fd w)) (y * qd_drawQuadsX qd + x)
                (snd xy * X + fst xy) (drawFrame w)) as E.
  destruct (cell_at (update_cell _ _ _) _), (cell_at (modelRenderers (fd w)) _);
    cbn in E; try discriminate; try reflexivity.
  inversion E as [E']. rewrite E'. reflexivity.
Qed.

Lemma fold_DrawQuad_heap (G : Globals) (qd : CFeatureQuadDrawer) (l : list (Z * Z))
    (w : World) (p : ptr) :
  heap (fold_left (fun w xy => DrawQuad G qd w (fst xy) (snd xy)) l w) p =
    if in_visited (qd_drawQuadsX qd) (modelRenderers (fd w)) l p
    then DrawQuad_feature G qd (heap w p) else heap w p.
Proof.
  revert w. induction l as [|xy tl IH]; intros w; [reflexivity|].
  cbn [fold_left]. rewrite IH, in_visited_DrawQuad, DrawQuad_heap.
  cbn [in_visited existsb].
  fold (in_visited (qd_drawQuadsX qd) (modelRenderers (fd w)) tl p).
  destruct (match cell_at (modelRenderers (fd w)) (snd xy * qd_drawQuadsX qd + fst xy) with
            | Some c => mem p (cell_features c)
            | None => false
            end); cbn [orb].
  - destruct (in_visited _ _ tl p); [apply DrawQuad_feature_idem|reflexivity].
  - reflexivity.
Qed.

(** X23.  After a visibility pass every object of a visited cell carries
    the classification of this pass for its own record, however often and
    in whatever order its cells were visited, and every other object is
    unchanged. *)
Theorem visibility_pass_classifies_visited_objects (G : Globals) (w : World)
    (cam : CCamera) (drawFar : bool) (p : ptr) :
  heap (GetVisibleFeatures G w cam drawFar) p =
    if in_visited (drawQuadsX (fd w)) (modelRenderers (fd w)) (GridVisibility G cam) p
    then DrawQuad_feature G (quad_drawer G (fd w) cam drawFar) (heap w p)
    else heap w p.
Proof.
  unfold GetVisibleFeatures. rewrite fold_DrawQuad_heap. reflexivity.
Qed.

End Classified.

(** ** Frames: what a batched pass reads was computed in the current frame *)

Section FrameReads.
Context {FO : FloatOps} {EC : EngineConsts}.











End FrameReads.

Section FrameWitnesses.
Local Existing Instance spring_consts.



End FrameWitnesses.

(** ** Instances of the further properties *)

Section MoreWitnesses.

Local Existing Instance spring_consts.

Lemma classification_marks_by_pass_witness :
  qd_cam (@ex_qd binary32) = Some ex_cam
  /\ drawFlag (DrawQuad_feature ex_G ex_qd (@ex_feature binary32 5250 750 100 true))
     <> FD_FARTEX_FLAG.
Proof.
  split; [reflexivity|].
  exact (proj1 (classification_marks_by_pass ex_G ex_qd
                  (@ex_feature binary32 5250 750 100 true) ex_cam eq_refl)).
Defined.

Lemma ex_frame_body_render :
  Forall render_event [EvVisible (@ex_G binary32) ex_shadow_cam false;
                       EvVisible ex_G ex_cam true].
Proof. repeat constructor. Qed.

Lemma render_loop_queues_no_impostor_witness :
  (MODELTYPE_3DO < MODELTYPE_OTHER)%nat
  /\ frames_ok (@ex_w1 binary32)
  /\ Forall render_event [EvVisible (@ex_G binary32) ex_shadow_cam false;
                          EvVisible ex_G ex_cam true]
  /\ forall p, ~ In (FarTextureQueue p)
                    (DrawOpaquePass ex_G
                       (run (@ex_w1 binary32)
                          ([] ++ EvNewFrame :: [EvVisible ex_G ex_shadow_cam false;
                                                EvVisible ex_G ex_cam true]))).
Proof.
  assert (L : (MODELTYPE_3DO < MODELTYPE_OTHER)%nat) by (cbn; lia).
  split; [exact L|]. split; [exact ex_w1_frames_ok|]. split; [exact ex_frame_body_render|].
  exact (proj1 (proj2 (render_loop_queues_no_impostor ex_G (@ex_w1 binary32) [] _
                         L ex_w1_frames_ok ex_frame_body_render))).
Defined.

Lemma ex_midway_is_alphaf :
  drawFlag (DrawQuad_feature ex_G
              (quad_drawer ex_G (fd (@ex_w0 binary32)) (activeCamera ex_G) true)
              (@ex_feature binary32 5250 750 100 true)) = FD_ALPHAF_FLAG.
Proof. vm_compute. reflexivity. Qed.

Lemma classified_object_passes_distance_test_witness :
  drawFlag (DrawQuad_feature ex_G
              (quad_drawer ex_G (fd (@ex_w0 binary32)) (activeCamera ex_G) true)
              (@ex_feature binary32 5250 750 100 true)) = FD_ALPHAF_FLAG
  /\ CanDrawFeature ex_G (fd (@ex_w0 binary32))
       (DrawQuad_feature ex_G
          (quad_drawer ex_G (fd (@ex_w0 binary32)) (activeCamera ex_G) true)
          (@ex_feature binary32 5250 750 100 true))
     = InView ex_G (activeCamera ex_G)
         (drawMidPos (@ex_feature binary32 5250 750 100 true))
         (drawRadius (@ex_feature binary32 5250 750 100 true)).
Proof.
  split; [exact ex_midway_is_alphaf|].
  exact (proj1 (classified_object_passes_distance_test ex_G (fd (@ex_w0 binary32)) true
                  (@ex_feature binary32 5250 750 100 true)) ex_midway_is_alphaf).
Defined.

Lemma ex_w2_opaque_pass :
  DrawOpaquePass ex_G (@ex_w2 binary32)
  = [BindModelTypeTexture 1 7; SetTeamColour 0 None; DrawFeature 0%nat].
Proof. reflexivity. Qed.

Lemma ex_w2_submits :
  submits (DrawOpaquePass ex_G (@ex_w2 binary32)) 0%nat
  \/ submits (DrawAlphaPass ex_G (@ex_w2 binary32)) 0%nat.
Proof. left. unfold submits. rewrite ex_w2_opaque_pass. left. right. right. left. reflexivity. Qed.

Lemma only_drawable_objects_are_submitted_witness :
  (submits (DrawOpaquePass ex_G (@ex_w2 binary32)) 0%nat
   \/ submits (DrawAlphaPass ex_G (@ex_w2 binary32)) 0%nat)
  /\ noDraw (heap (@ex_w2 binary32) 0%nat) = false
  /\ IsInVoid (heap (@ex_w2 binary32) 0%nat) = false.
Proof.
  split; [exact ex_w2_submits|].
  destruct (only_drawable_objects_are_submitted ex_G (@ex_w2 binary32) 0%nat ex_w2_submits)
    as (_ & A & B & _).
  split; [exact A|exact B].
Defined.

Lemma ex_w2_grid_inv : grid_inv (@ex_w2 binary32).
Proof.
  apply run_inv; [exact ex_w1_grid_inv|]. vm_compute. intuition.
Qed.

Lemma ex_w2_submits_any :
  submits (DrawOpaquePass ex_G (@ex_w2 binary32)) 0%nat
  \/ submits (DrawAlphaPass ex_G (@ex_w2 binary32)) 0%nat
  \/ submits (snd (Draw ex_G (@ex_w2 binary32))) 0%nat
  \/ submits (snd (DrawShadowPass ex_G (@ex_w2 binary32))) 0%nat.
Proof. destruct ex_w2_submits as [H|H]; [left; exact H|right; left; exact H]. Qed.

Lemma only_live_objects_are_submitted_witness :
  grid_inv (@ex_w2 binary32)
  /\ (submits (DrawOpaquePass ex_G (@ex_w2 binary32)) 0%nat
      \/ submits (DrawAlphaPass ex_G (@ex_w2 binary32)) 0%nat
      \/ submits (snd (Draw ex_G (@ex_w2 binary32))) 0%nat
      \/ submits (snd (DrawShadowPass ex_G (@ex_w2 binary32))) 0%nat)
  /\ In 0%nat (unsortedFeatures (fd (@ex_w2 binary32))).
Proof.
  split; [exact ex_w2_grid_inv|]. split; [exact ex_w2_submits_any|].
  exact (proj1 (only_live_objects_are_submitted ex_G (@ex_w2 binary32) 0%nat
                  ex_w2_grid_inv ex_w2_submits_any)).
Defined.

Lemma ex_destroy_ok : run_ok (@ex_w1 binary32) (EvDestroyed 0%nat :: ex_shadow_frame).
Proof. vm_compute. intuition. Qed.

Lemma ex_shadow_frame_not_creating : Forall (not_creating 0%nat) (@ex_shadow_frame binary32).
Proof. repeat constructor. Qed.

Lemma destroyed_object_is_never_submitted_witness :
  grid_inv (@ex_w1 binary32)
  /\ run_ok (@ex_w1 binary32) (EvDestroyed 0%nat :: ex_shadow_frame)
  /\ Forall (not_creating 0%nat) (@ex_shadow_frame binary32)
  /\ ~ submits (DrawOpaquePass ex_G
                  (run (@ex_w1 binary32) (EvDestroyed 0%nat :: ex_shadow_frame))) 0%nat.
Proof.
  split; [exact ex_w1_grid_inv|]. split; [exact ex_destroy_ok|].
  split; [exact ex_shadow_frame_not_creating|].
  exact (proj1 (proj2 (destroyed_object_is_never_submitted ex_G (@ex_w1 binary32) 0%nat
                         ex_shadow_frame ex_w1_grid_inv ex_destroy_ok
                         ex_shadow_frame_not_creating))).
Defined.

Lemma batchers_read_visited_cells_only_witness :
  frames_ok (@ex_w1 binary32)
  /\ CFeatureDrawer_DrawOpaquePass ex_G ex_hooks (step (@ex_w1 binary32) EvNewFrame) false
     = [SetupOpaqueDrawing false]
       ++ flat_map (fun modelType =>
                      [PushModelRenderState modelType; PopModelRenderState modelType])
                   (model_types_from MODELTYPE_3DO)
       ++ [ResetOpaqueDrawing false;
           SetDrawPassGlobalLODFactor; DrawOpaqueMaterialObjects false].
Proof.
  split; [exact ex_w1_frames_ok|].
  exact (proj1 (batchers_read_visited_cells_only ex_G ex_G ex_hooks (@ex_w1 binary32)
                  ex_shadow_cam false false ex_w1_frames_ok)).
Defined.

Lemma no_object_is_submitted_twice_witness :
  grid_inv (@ex_w2 binary32)
  /\ NoDup (submitted (DrawOpaquePass ex_G (@ex_w2 binary32))).
Proof.
  split; [exact ex_w2_grid_inv|].
  exact (proj1 (no_object_is_submitted_twice ex_G (@ex_w2 binary32) ex_w2_grid_inv)).
Defined.

Lemma ex_w2_bound_draw :
  In (0%nat, Some (1%nat, 7)) (bound_draws None (DrawOpaquePass ex_G (@ex_w2 binary32)))
  \/ In (0%nat, Some (1%nat, 7)) (bound_draws None (DrawAlphaPass ex_G (@ex_w2 binary32)))
  \/ In (0%nat, Some (1%nat, 7)) (bound_draws None (snd (Draw ex_G (@ex_w2 binary32)))).
Proof. left. rewrite ex_w2_opaque_pass. left. reflexivity. Qed.

Lemma objects_are_drawn_under_their_texture_witness :
  grid_inv (@ex_w2 binary32)
  /\ (In (0%nat, Some (1%nat, 7))
         (bound_draws None (DrawOpaquePass ex_G (@ex_w2 binary32)))
      \/ In (0%nat, Some (1%nat, 7))
            (bound_draws None (DrawAlphaPass ex_G (@ex_w2 binary32)))
      \/ In (0%nat, Some (1%nat, 7))
            (bound_draws None (snd (Draw ex_G (@ex_w2 binary32)))))
  /\ exists m, model (heap (@ex_w2 binary32) 0%nat) = Some m
               /\ Some (1%nat, 7) = Some (mdl_type m, textureType m).
Proof.
  split; [exact ex_w2_grid_inv|]. split; [exact ex_w2_bound_draw|].
  exact (objects_are_drawn_under_their_texture ex_G (@ex_w2 binary32) None 0%nat
           (Some (1%nat, 7)) ex_w2_grid_inv ex_w2_bound_draw).
Defined.

Lemma create_then_destroy_restores_the_drawer_witness :
  grid_inv (@ex_w0 binary32)
  /\ ~ In 0%nat (unsortedFeatures (fd (@ex_w0 binary32)))
  /\ def_drawType (@ex_feature binary32 522 778 100 false) = DRAWTYPE_MODEL
  /\ unsortedFeatures
       (fd (run (@ex_w0 binary32)
              [EvCreated ex_G 0%nat (ex_feature 522 778 100 false); EvDestroyed 0%nat]))
     = unsortedFeatures (fd (@ex_w0 binary32)).
Proof.
  assert (N : ~ In 0%nat (unsortedFeatures (fd (@ex_w0 binary32)))) by (intros []).
  split; [exact ex_w0_grid_inv|]. split; [exact N|]. split; [reflexivity|].
  exact (proj1 (proj2 (create_then_destroy_restores_the_drawer ex_G (@ex_w0 binary32) 0%nat
                         (ex_feature 522 778 100 false) ex_w0_grid_inv N eq_refl))).
Defined.

Lemma destroying_twice_changes_nothing_witness :
  grid_inv (@ex_w1 binary32)
  /\ RenderFeatureDestroyed (step (@ex_w1 binary32) (EvDestroyed 0%nat)) 0%nat
     = (step (@ex_w1 binary32) (EvDestroyed 0%nat), [SetObjectLOD 0%nat 0]).
Proof.
  split; [exact ex_w1_grid_inv|].
  exact (destroying_twice_changes_nothing (@ex_w1 binary32) 0%nat ex_w1_grid_inv).
Defined.

Lemma ex_w1_live : In 0%nat (unsortedFeatures (fd (@ex_w1 binary32))).
Proof. vm_compute. left. reflexivity. Qed.

Lemma a_later_move_overrides_an_earlier_one_witness :
  grid_inv (@ex_w1 binary32)
  /\ In 0%nat (unsortedFeatures (fd (@ex_w1 binary32)))
  /\ unsortedFeatures
       (fd (run (@ex_w1 binary32)
              [EvMoved 0%nat (ex_vec 522 0 1034); EvMoved 0%nat (ex_vec 10 0 10)]))
     = unsortedFeatures
         (fd (run (@ex_w1 binary32) [EvMoved 0%nat (ex_vec 10 0 10)])).
Proof.
  split; [exact ex_w1_grid_inv|]. split; [exact ex_w1_live|].
  exact (proj1 (proj2 (a_later_move_overrides_an_earlier_one (@ex_w1 binary32) 0%nat
                         (ex_vec 522 0 1034) (ex_vec 10 0 10) ex_w1_grid_inv ex_w1_live))).
Defined.

Lemma no_model_is_drawn_twice_witness :
  grid_inv (@ex_w2 binary32)
  /\ NoDup (models (CFeatureDrawer_DrawOpaquePass ex_G ex_hooks (@ex_w2 binary32) false)).
Proof.
  split; [exact ex_w2_grid_inv|].
  exact (proj1 (no_model_is_drawn_twice ex_G ex_hooks (@ex_w2 binary32) false
                  ex_w2_grid_inv)).
Defined.

Lemma ex_frame_ok : run_ok (@ex_w0 binary32) (ex_life ++ ex_shadow_frame).
Proof. vm_compute. intuition discriminate. Qed.

Lemma ex_frame_cameras : cameras_ok (fd (@ex_w0 binary32)) (ex_life ++ ex_shadow_frame).
Proof.
  intros G cam drawFar H. cbn [ex_life ex_shadow_frame app In] in H.
  repeat (destruct H as [H|H]; [try discriminate H|]); try contradiction;
    inversion H; subst; vm_compute; (split; [intros X; discriminate X|reflexivity]).
Qed.

Lemma assertions_never_fail_witness :
  grid_inv (@ex_w0 binary32) /\ run_ok (@ex_w0 binary32) (ex_life ++ ex_shadow_frame)
  /\ cameras_ok (fd (@ex_w0 binary32)) (ex_life ++ ex_shadow_frame)
  /\ run_asserts (@ex_w0 binary32) (ex_life ++ ex_shadow_frame).
Proof.
  split; [exact ex_w0_grid_inv|]. split; [exact ex_frame_ok|].
  split; [exact ex_frame_cameras|].
  exact (proj2 (assertions_never_fail (ex_life ++ ex_shadow_frame) (@ex_w0 binary32)
                  ex_w0_grid_inv ex_frame_ok) ex_frame_cameras).
Defined.

(** A visibility pass for a camera of type 7 fails the assertion of
    [GetVisibleFeatures] on a drawer as constructed. *)
Lemma camera_type_seven_fails_the_assertion :
  camVisibleQuadFlags_size (fd (@ex_w0 binary32)) = 3
  /\ ~ run_asserts (@ex_w0 binary32)
        [EvVisible ex_G (mkCamera (ex_vec 0 0 0) 7) false].
Proof.
  split; [reflexivity|]. intros [[[_ H] _] _]. vm_compute in H. discriminate H.
Qed.

End MoreWitnesses.
